(** * LLL (LUXBIN Light Language): a shallow embedding of the language core

    The development follows the TypeScript sources:
    - [errors.ts]       error classes and their [format] methods;
    - [types.ts]        tokens and the program tree;
    - [interpreter.ts]  runtime values, [Environment], [interpret];
    - [module-loader.ts] [ModuleLoader] (imports, cache, cycle detection).

    JavaScript numbers are IEEE-754 binary64 values and are modelled by Rocq's
    primitive floats.  Objects with identity (environments, arrays, function
    objects) live in a heap and are referred to by their address.  Thrown
    exceptions and the control-flow signals are explicit results. *)

From Stdlib Require Import Floats ZArith DecimalString.
From stdpp Require Import base list strings gmap.

Set Warnings "-register-all,-clear-no-such-hyp".

Open Scope Z_scope.

(** ** errors.ts *)

(** [`${n}`] for an integral JavaScript number. *)
Definition string_of_Z (n : Z) : string := NilZero.string_of_int (Z.to_int n).

Record StackFrame := mkStackFrame {
  sf_name : string;
  sf_file : string;
  sf_line : Z;
  sf_column : Z
}.

(** [class LuxbinError extends Error]; [err_name] is the [name] property that
    the subclasses' constructors overwrite. *)
Record LuxbinError := mkLuxbinError {
  err_name : string;
  err_message : string;
  err_file : string;
  err_line : Z;
  err_column : Z
}.

Definition new_LuxbinError (message file : string) (line column : Z) : LuxbinError :=
  mkLuxbinError "LuxbinError" message file line column.

Definition new_LexerError (message file : string) (line column : Z) : LuxbinError :=
  mkLuxbinError "LexerError" message file line column.

Definition new_ParseError (message file : string) (line column : Z) : LuxbinError :=
  mkLuxbinError "ParseError" message file line column.

(** [class RuntimeError extends LuxbinError] adds the call-frame snapshot. *)
Record RuntimeError := mkRuntimeError {
  rt_base : LuxbinError;
  rt_callStack : list StackFrame
}.

Definition new_RuntimeError (message file : string) (line column : Z)
    (callStack : list StackFrame) : RuntimeError :=
  mkRuntimeError (mkLuxbinError "RuntimeError" message file line column) callStack.

(** [LuxbinError.format]. *)
Definition LuxbinError_format (e : LuxbinError) : string :=
  let loc :=
    if 0 <? err_line e
    then " at " +:+ err_file e +:+ ":" +:+ string_of_Z (err_line e) +:+ ":"
         +:+ string_of_Z (err_column e)
    else "" in
  err_name e +:+ ": " +:+ err_message e +:+ loc.

(** The line feed used by [RuntimeError.format]. *)
Definition LF : string := String (Ascii.ascii_of_nat 10) EmptyString.

Definition format_frame (frame : StackFrame) : string :=
  LF +:+ "  at " +:+ sf_name frame +:+ " (" +:+ sf_file frame +:+ ":"
  +:+ string_of_Z (sf_line frame) +:+ ":" +:+ string_of_Z (sf_column frame) +:+ ")".

(** [RuntimeError.format]: the [for] loop appends one line per frame. *)
Definition RuntimeError_format (e : RuntimeError) : string :=
  let b := rt_base e in
  let result := err_name b +:+ ": " +:+ err_message b in
  let result :=
    if 0 <? err_line b
    then result +:+ LF +:+ "  at " +:+ err_file b +:+ ":" +:+ string_of_Z (err_line b)
         +:+ ":" +:+ string_of_Z (err_column b)
    else result in
  fold_left (fun acc frame => acc +:+ format_frame frame) (rt_callStack e) result.

(** What a [throw] can carry in this code base: a plain [Error], a
    [LuxbinError] (lexer and parser errors) or a [RuntimeError]. *)
Inductive Thrown :=
| ThrownError (message : string)
| ThrownLuxbin (e : LuxbinError)
| ThrownRuntime (e : RuntimeError).

(** [e.message]. *)
Definition thrown_message (t : Thrown) : string :=
  match t with
  | ThrownError m => m
  | ThrownLuxbin e => err_message e
  | ThrownRuntime e => err_message (rt_base e)
  end.

(** ** types.ts *)

Inductive TokenType :=
| NUMBER | STRING | IDENTIFIER
| LET | CONST | FUNC | RETURN | IF | THEN | ELSE | END | WHILE | DO | FOR | IN
| BREAK | CONTINUE | IMPORT | EXPORT | TRUE | FALSE | NIL | AND | OR | NOT
| TRY | CATCH
| PLUS | MINUS | STAR | SLASH | PERCENT | CARET | EQUALS | DOUBLE_EQUALS
| NOT_EQUALS | LESS_THAN | GREATER_THAN | LESS_EQUALS | GREATER_EQUALS
| LPAREN | RPAREN | LBRACKET | RBRACKET | COMMA | COLON
| NEWLINE | EOF.

Record Token := mkToken {
  tok_type : TokenType;
  tok_value : string;
  tok_line : Z;
  tok_column : Z
}.

(** The expression nodes.  Only [CallExpression] has [line] and [column]
    fields; the other expression interfaces declare none. *)
Inductive Expression :=
| BinaryExpression (operator : string) (left right : Expression)
| UnaryExpression (operator : string) (operand : Expression)
| CallExpression (callee : string) (arguments : list Expression) (line column : Z)
| IndexExpression (object index : Expression)
| ArrayLiteral (elements : list Expression)
| NumberLiteral (value : float) (isFloat : bool)
| StringLiteral (value : string)
| BooleanLiteral (value : bool)
| NilLiteral
| Identifier (name : string).

Inductive Statement :=
| LetDeclaration (name : string) (typeAnnotation : option string)
    (value : option Expression) (line column : Z)
| ConstDeclaration (name : string) (typeAnnotation : option string)
    (value : Expression) (line column : Z)
| Assignment (name : string) (value : Expression) (line column : Z)
| IndexAssignment (name : string) (index value : Expression) (line column : Z)
| IfStatement (condition : Expression) (consequent : list Statement)
    (alternateConditions : list (Expression * list Statement))
    (alternate : option (list Statement)) (line column : Z)
| WhileStatement (condition : Expression) (body : list Statement) (line column : Z)
| ForStatement (variable : string) (iterable : Expression) (body : list Statement)
    (line column : Z)
| FunctionDeclarationStatement (declaration : FunctionDeclaration)
| ReturnStatement (value : option Expression) (line column : Z)
| BreakStatement (line column : Z)
| ContinueStatement (line column : Z)
| ImportStatement (path : string) (line column : Z)
| TryCatchStatement (tryBody : list Statement) (catchVariable : string)
    (catchBody : list Statement) (line column : Z)
| ExpressionStatement (expression : Expression) (line column : Z)
with FunctionDeclaration :=
| mkFunctionDeclaration (name : string) (params : list (string * option string))
    (returnType : option string) (body : list Statement) (line column : Z).

Definition fd_name (d : FunctionDeclaration) : string :=
  match d with mkFunctionDeclaration n _ _ _ _ _ => n end.
Definition fd_params (d : FunctionDeclaration) : list (string * option string) :=
  match d with mkFunctionDeclaration _ p _ _ _ _ => p end.
Definition fd_body (d : FunctionDeclaration) : list Statement :=
  match d with mkFunctionDeclaration _ _ _ b _ _ => b end.

Record Program := mkProgram { prog_body : list Statement }.

(** ** interpreter.ts: runtime values *)

(** [LuxValue].  Arrays, function objects and environments are JavaScript
    objects: a value holds their address.  [VFunction] carries the address of
    the function object (its identity for [===]) together with the two fields
    of [LuxFunction], which are never mutated.  A built-in is identified by its
    name in the registry.  [VUndefined] is the host's [undefined], which is not
    in the declared type but is what [obj[idx]] returns for a missing property. *)
Inductive LuxValue :=
| VNil
| VBoolean (b : bool)
| VNumber (x : float)
| VString (s : string)
| VArray (address : nat)
| VFunction (address : nat) (declaration : FunctionDeclaration) (closure : nat)
| VBuiltin (name : string)
| VUndefined.

(** An entry of [Environment.vars]. *)
Record Entry := mkEntry { value : LuxValue; constant : bool }.

(** [class Environment]: [vars] is a [Map], kept in insertion order. *)
Record Environment := mkEnvironment {
  vars : list (string * Entry);
  parent : option nat
}.

(** A JavaScript array: one slot for every index below [length], and the one
    non-index property the evaluator can create on it (the key ["NaN"], see
    [IndexAssignment]).  A slot is an element or a hole: an index below
    [length] that has no property, which [arr[idx] = v] leaves behind when it
    writes past the end. *)
Record ArrayObj := {
  slots : list (option LuxValue);
  NaN_property : option LuxValue
}.

(** [arr[i]] for the indices below [arr.length], which is also what a spread
    and [for ... of] see: a hole reads as [undefined]. *)
Definition elems (obj : ArrayObj) : list LuxValue :=
  map (default VUndefined) (slots obj).

(** An array literal and the results of [push], spread and the like have no
    hole. *)
Definition mkArrayObj (vs : list LuxValue) (NaN_value : option LuxValue) : ArrayObj :=
  Build_ArrayObj (map Some vs) NaN_value.

(** The objects shared by reference between the evaluator, the built-ins and
    the module loader. *)
Record Heap := mkHeap {
  envs : list Environment;
  arrays : list ArrayObj;
  functions : nat;          (* number of function objects created so far *)
  output : list string
}.

(** The three results of running a piece of code: a value, a thrown
    exception, or no result because the fuel of the model ran out. *)
Inductive Res (A : Type) :=
| Ok (a : A)
| Throw (e : Thrown)
| Diverge.
Arguments Ok {A} a.
Arguments Throw {A} e.
Arguments Diverge {A}.

(** ** The host: what the sources import from the JavaScript runtime, from
    Node, and from files of the repository that define the built-ins, the
    lexer and the parser. *)
Record Host := mkHost {
  (* [String(x)] for a number *)
  number_to_string : float -> string;
  (* [Math.pow] and the [%] operator on numbers *)
  Math_pow : float -> float -> float;
  number_rem : float -> float -> float;
  (* [createStdlib(output)]: the names, in [Object.entries] order, and the
     callables; a built-in sees its arguments, the arrays and the output
     buffer (the wrapper in stdlib/index.ts drops the environment) *)
  stdlib_names : list string;
  builtin_fn : string -> list LuxValue -> list ArrayObj -> list string ->
               Res LuxValue * (list ArrayObj * list string);
  (* node:path and node:fs *)
  path_dirname : string -> string;
  path_resolve : string -> string -> string;
  path_resolve1 : string -> string;
  fs_existsSync : string -> bool;
  fs_readFileSync : string -> Res string;
  (* [new Parser(new Lexer(source, file).tokenize(), file).parse()] *)
  parse_source : string -> string -> Res Program
}.

(** ** interpreter.ts: [class Environment] *)

(** [Map.get] and [Map.set] on [vars]: [set] on an existing key keeps the
    key's position. *)
Fixpoint vars_get (name : string) (vs : list (string * Entry)) : option Entry :=
  match vs with
  | [] => None
  | (k, en) :: rest => if String.eqb k name then Some en else vars_get name rest
  end.

Fixpoint vars_set (name : string) (en : Entry) (vs : list (string * Entry))
    : list (string * Entry) :=
  match vs with
  | [] => [(name, en)]
  | (k, old) :: rest =>
      if String.eqb k name then (k, en) :: rest else (k, old) :: vars_set name en rest
  end.

(** [new Environment(parent)]: the new object's address and the new heap. *)
Definition new_Environment (parent : option nat) (es : list Environment)
    : nat * list Environment :=
  (length es, es ++ [mkEnvironment [] parent]).

(** [define(name, value, constant)]. *)
Definition Environment_define (es : list Environment) (this : nat) (name : string)
    (v : LuxValue) (c : bool) : list Environment :=
  match es !! this with
  | Some fr => <[this := mkEnvironment (vars_set name (mkEntry v c) (vars fr)) (parent fr)]> es
  | None => es
  end.

(** The walk along [parent] shared by [get], [set] and [has]: the address of
    the nearest environment that has [name] among its own [vars], and the
    entry.  A parent is always older than its child, so the number of
    environments bounds the walk. *)
Fixpoint Environment_find (fuel : nat) (es : list Environment) (this : nat)
    (name : string) : option (nat * Entry) :=
  match fuel with
  | O => None
  | S fuel' =>
      match es !! this with
      | None => None
      | Some fr =>
          match vars_get name (vars fr) with
          | Some en => Some (this, en)
          | None =>
              match parent fr with
              | Some p => Environment_find fuel' es p name
              | None => None
              end
          end
      end
  end.

Definition Environment_lookup (es : list Environment) (this : nat) (name : string)
    : option (nat * Entry) :=
  Environment_find (length es) es this name.

(** [get(name)]. *)
Definition Environment_get (es : list Environment) (this : nat) (name : string)
    : Res LuxValue :=
  match Environment_lookup es this name with
  | Some (_, en) => Ok (value en)
  | None => Throw (ThrownError ("Undefined variable: '" +:+ name +:+ "'"))
  end.

(** [set(name, value)]: [entry.value = value] mutates the entry in place. *)
Definition Environment_set (es : list Environment) (this : nat) (name : string)
    (v : LuxValue) : Res (list Environment) :=
  match Environment_lookup es this name with
  | Some (holder, en) =>
      if constant en
      then Throw (ThrownError ("Cannot reassign constant: '" +:+ name +:+ "'"))
      else Ok (Environment_define es holder name v false)
  | None => Throw (ThrownError ("Undefined variable: '" +:+ name +:+ "'"))
  end.

(** [has(name)]. *)
Definition Environment_has (es : list Environment) (this : nat) (name : string) : bool :=
  match Environment_lookup es this name with Some _ => true | None => false end.

(** [getOwnNames()] and [getOwnEntry(name)]. *)
Definition Environment_getOwnNames (es : list Environment) (this : nat) : list string :=
  match es !! this with Some fr => map fst (vars fr) | None => [] end.

Definition Environment_getOwnEntry (es : list Environment) (this : nat) (name : string)
    : option Entry :=
  match es !! this with Some fr => vars_get name (vars fr) | None => None end.

(** ** interpreter.ts: utility functions *)

(** [isTruthy]: [value === 0] holds for both zeros and not for NaN. *)
Definition isTruthy (v : LuxValue) : bool :=
  match v with
  | VNil => false
  | VBoolean false => false
  | VNumber x => negb (PrimFloat.eqb x 0%float)
  | VString "" => false
  | _ => true
  end.

(** [typeOf]. *)
Definition typeOf (v : LuxValue) : string :=
  match v with
  | VNil => "nil"
  | VArray _ => "array"
  | VFunction _ _ _ => "function"
  | VBuiltin _ => "builtin"
  | VBoolean _ => "boolean"
  | VNumber _ => "number"
  | VString _ => "string"
  | VUndefined => "undefined"
  end.

(** [value.map(f).join(", ")]: [map] skips a hole and leaves a hole, which
    [join] prints as the empty string. *)
Definition map_slots (f : LuxValue -> option string) (obj : ArrayObj)
    : option (list string) :=
  mapM (fun slot => match slot with Some v => f v | None => Some EmptyString end)
       (slots obj).

(** [stringify], to a nesting depth of [fuel] arrays.  The recursion follows
    the arrays of the heap; the fuel is spent on array nesting only.  (An
    address outside the heap, which no run produces, is read as the empty
    array, as [getArray] reads it.) *)
Fixpoint stringify_fuel (host : Host) (fuel : nat) (arrs : list ArrayObj) (v : LuxValue)
    : option string :=
  match v with
  | VNil => Some "nil"
  | VBoolean b => Some (if b then "true" else "false")
  | VNumber x => Some (number_to_string host x)
  | VString s => Some s
  | VArray a =>
      match fuel with
      | O => None
      | S fuel' =>
          parts ← map_slots (stringify_fuel host fuel' arrs)
                    (default (mkArrayObj [] None) (arrs !! a));
          Some ("[" +:+ String.concat ", " parts +:+ "]")
      end
  | VFunction _ d _ => Some ("<function " +:+ fd_name d +:+ ">")
  | VBuiltin n => Some ("<builtin " +:+ n +:+ ">")
  | VUndefined => Some "undefined"
  end.

(** What the runtime throws when a recursion never ends: a [RangeError], an
    [Error] that [try]/[catch] catches like any other (the message is Node's). *)
Definition stack_overflow : Thrown :=
  ThrownError "Maximum call stack size exceeded".

(** [stringify(value)].  Nesting deeper than the number of arrays means that
    an array contains itself: the recursion of the source never ends and the
    runtime throws. *)
Definition stringify (host : Host) (arrs : list ArrayObj) (v : LuxValue) : Res string :=
  match stringify_fuel host (S (length arrs)) arrs v with
  | Some s => Ok s
  | None => Throw stack_overflow
  end.

(** [left === right]. *)
Definition strict_equal (l r : LuxValue) : bool :=
  match l, r with
  | VNil, VNil => true
  | VBoolean a, VBoolean b => Bool.eqb a b
  | VNumber a, VNumber b => PrimFloat.eqb a b
  | VString a, VString b => String.eqb a b
  | VArray a, VArray b => Nat.eqb a b
  | VFunction a _ _, VFunction b _ _ => Nat.eqb a b
  | VBuiltin a, VBuiltin b => String.eqb a b
  | VUndefined, VUndefined => true
  | _, _ => false
  end.

(** The range of [Math.floor]: an integer, an infinity or NaN. *)
Inductive Floor :=
| FloorInt (k : Z)
| FloorPosInf
| FloorNegInf
| FloorNaN.

(** [Math.floor(x)]: a finite double is [(-1)^s * m * 2^e]; shifting by [e]
    rounds toward minus infinity. *)
Definition Math_floor (x : float) : Floor :=
  match Prim2SF x with
  | S754_zero _ => FloorInt 0
  | S754_infinity false => FloorPosInf
  | S754_infinity true => FloorNegInf
  | S754_nan => FloorNaN
  | S754_finite s m e => FloorInt (Z.shiftl (if s then Z.neg m else Z.pos m) e)
  end.

(** [idx < 0 || idx >= length] on the result of [Math.floor]. *)
Definition out_of_bounds (idx : Floor) (len : nat) : bool :=
  match idx with
  | FloorInt k => (k <? 0) || (Z.of_nat len <=? k)
  | FloorPosInf => true
  | FloorNegInf => true
  | FloorNaN => false
  end.

(** [`${idx}`] for [idx = Math.floor(x)].  An integer below 2^53 in absolute
    value prints all its digits; from 2^53 on the digits are the shortest that
    read back as the same double (2^64 prints as 18446744073709552000), and
    there [idx] is [x] itself, which the host prints. *)
Definition floor_to_string (host : Host) (x : float) : string :=
  match Math_floor x with
  | FloorInt k =>
      if Z.abs k <? 2 ^ 53 then string_of_Z k else number_to_string host x
  | FloorPosInf => "Infinity"
  | FloorNegInf => "-Infinity"
  | FloorNaN => "NaN"
  end.

Definition string_of_nat (n : nat) : string := string_of_Z (Z.of_nat n).

(** [arr[idx]] as an rvalue, for an [idx] that passed the bounds check. *)
Definition array_read (obj : ArrayObj) (idx : Floor) : LuxValue :=
  match idx with
  | FloorInt k => default VUndefined (elems obj !! Z.to_nat k)
  | FloorNaN => default VUndefined (NaN_property obj)
  | _ => VUndefined
  end.

(** [arr[idx] = v], for an [idx] that passed the bounds check: inside the
    array the slot is filled; past the end (the array can have shrunk since
    the check, while the right-hand side was evaluated) the array grows and
    the indices in between are holes; the key NaN names an ordinary property.
    The infinities do not pass the check. *)
Definition array_write (obj : ArrayObj) (idx : Floor) (v : LuxValue) : ArrayObj :=
  match idx with
  | FloorInt k =>
      let i := Z.to_nat k in
      if (i <? length (slots obj))%nat
      then Build_ArrayObj (<[i := Some v]> (slots obj)) (NaN_property obj)
      else Build_ArrayObj (slots obj ++ replicate (i - length (slots obj)) None ++ [Some v])
                          (NaN_property obj)
  | FloorNaN => Build_ArrayObj (slots obj) (Some v)
  | _ => obj
  end.

(** [str[idx]]: the one-character string at [idx]. *)
Definition string_read (s : string) (idx : Floor) : LuxValue :=
  match idx with
  | FloorInt k =>
      match String.get (Z.to_nat k) s with
      | Some c => VString (String c EmptyString)
      | None => VUndefined
      end
  | _ => VUndefined
  end.

(** [s.endsWith(suffix)]. *)
Definition String_endsWith (s suffix : string) : bool :=
  let n := String.length s in
  let m := String.length suffix in
  (m <=? n)%nat && String.eqb (String.substring (n - m) m s) suffix.

(** ** The state of one evaluation *)

(** [ModuleLoader]'s fields [cache] and [loading]; [reads] logs the paths
    the loader hands to [fs.readFileSync], oldest first. *)
Record LoaderState := mkLoaderState {
  cache : gmap string nat;
  loading : gset string;
  reads : list string
}.

(** What the code inside [interpret] can reach: the shared objects, the
    loader (through the import callback only), and the two variables local to
    one call of [interpret], [steps] and [callStack]. *)
Record IState := mkIState {
  heap : Heap;
  loader : LoaderState;
  steps : Z;
  callStack : list StackFrame
}.

(** The type of [options.onImport] once the loader's state is explicit. *)
Definition ImportCallback : Type :=
  string -> string -> Heap -> LoaderState -> Res unit * (Heap * LoaderState).

(** Computations of the evaluator: state passing with exceptions. *)
Definition M (A : Type) : Type := IState -> Res A * IState.

Definition ret {A} (a : A) : M A := fun st => (Ok a, st).

Definition bind {A B} (m : M A) (k : A -> M B) : M B :=
  fun st =>
    match m st with
    | (Ok a, st') => k a st'
    | (Throw e, st') => (Throw e, st')
    | (Diverge, st') => (Diverge, st')
    end.

Definition throw {A} (e : Thrown) : M A := fun st => (Throw e, st).

Definition diverge {A} : M A := fun st => (Diverge, st).

(** [try { m } catch (e) { handler e }]. *)
Definition tryCatch {A} (m : M A) (handler : Thrown -> M A) : M A :=
  fun st =>
    match m st with
    | (Throw e, st') => handler e st'
    | r => r
    end.

Declare Scope lux_scope.
Delimit Scope lux_scope with lux.
Notation "x <- c1 ;; c2" := (bind c1 (fun x => c2))
  (at level 100, c1 at next level, right associativity) : lux_scope.
Notation "c1 ;; c2" := (bind c1 (fun _ => c2))
  (at level 100, right associativity) : lux_scope.
Open Scope lux_scope.

(** An operation on the shared objects. *)
Definition liftHeap {A} (f : Heap -> Res A * Heap) : M A :=
  fun st =>
    let '(r, h) := f (heap st) in
    (r, mkIState h (loader st) (steps st) (callStack st)).

Definition readHeap {A} (f : Heap -> A) : M A :=
  liftHeap (fun h => (Ok (f h), h)).

Definition set_envs (es : list Environment) (h : Heap) : Heap :=
  mkHeap es (arrays h) (functions h) (output h).

Definition set_arrays (arrs : list ArrayObj) (h : Heap) : Heap :=
  mkHeap (envs h) arrs (functions h) (output h).

(** [new Environment(parent)] *)
Definition newEnvironment (parent : option nat) : M nat :=
  liftHeap (fun h =>
    let '(a, es) := new_Environment parent (envs h) in (Ok a, set_envs es h)).

(** [env.define(name, value, constant)] *)
Definition define (env : nat) (name : string) (v : LuxValue) (c : bool) : M unit :=
  liftHeap (fun h => (Ok tt, set_envs (Environment_define (envs h) env name v c) h)).

(** [env.get(name)] and [env.set(name, value)], with their [Error]s *)
Definition envGet (env : nat) (name : string) : M LuxValue :=
  liftHeap (fun h => (Environment_get (envs h) env name, h)).

Definition envSet (env : nat) (name : string) (v : LuxValue) : M unit :=
  liftHeap (fun h =>
    match Environment_set (envs h) env name v with
    | Ok es => (Ok tt, set_envs es h)
    | Throw e => (Throw e, h)
    | Diverge => (Diverge, h)
    end).

(** A new array object (an array literal). *)
Definition newArray (vs : list LuxValue) : M LuxValue :=
  liftHeap (fun h =>
    (Ok (VArray (length (arrays h))), set_arrays (arrays h ++ [mkArrayObj vs None]) h)).

(** A new function object. *)
Definition newFunction (d : FunctionDeclaration) (closure : nat) : M LuxValue :=
  liftHeap (fun h =>
    (Ok (VFunction (functions h) d closure),
     mkHeap (envs h) (arrays h) (S (functions h)) (output h))).

Definition getArray (a : nat) : M ArrayObj :=
  readHeap (fun h => default (mkArrayObj [] None) (arrays h !! a)).

Definition putArray (a : nat) (obj : ArrayObj) : M unit :=
  liftHeap (fun h => (Ok tt, set_arrays (<[a := obj]> (arrays h)) h)).

(** [callStack.push(frame)] and [callStack.pop()] *)
Definition pushFrame (frame : StackFrame) : M unit :=
  fun st => (Ok tt, mkIState (heap st) (loader st) (steps st) (callStack st ++ [frame])).

Definition popFrame : M unit :=
  fun st => (Ok tt, mkIState (heap st) (loader st) (steps st) (removelast (callStack st))).

(** The user-function branch of a call: the frame is pushed, the body runs,
    and the frame is popped on the path where the body did not throw. *)
Definition withFrame {A} (frame : StackFrame) (m : M A) : M A :=
  pushFrame frame ;; result <- m ;; popFrame ;; ret result.

(** [options.onImport(path, file)] *)
Definition importCall (f : ImportCallback) (path file : string) : M unit :=
  fun st =>
    let '(r, (h, l)) := f path file (heap st) (loader st) in
    (r, mkIState h l (steps st) (callStack st)).

(** [(callee as BuiltinFunction).fn(args, env)] *)
Definition callBuiltin (host : Host) (name : string) (args : list LuxValue) : M LuxValue :=
  liftHeap (fun h =>
    let '(r, (arrs, out)) := builtin_fn host name args (arrays h) (output h) in
    (r, mkHeap (envs h) arrs (functions h) out)).

(** [list.map(f)] for an effectful [f], left to right. *)
Fixpoint mapM_ {A B} (f : A -> M B) (l : list A) : M (list B) :=
  match l with
  | [] => ret []
  | x :: rest => y <- f x ;; ys <- mapM_ f rest ;; ret (y :: ys)
  end.

(** The results of [executeStatement] and [executeBlock]. *)
Inductive Completion :=
| Normal
| ReturnSignal (v : LuxValue)
| BreakSignal
| ContinueSignal.

(** ** interpreter.ts: [interpret] *)

Definition STEP_LIMIT : Z := 10000000.

Definition budget_message : string :=
  "Execution limit exceeded (10,000,000 steps). Possible infinite loop.".

Section Evaluator.

(** The variables of [interpret]'s closure.  The budget is a variable here
    so that evaluations under two budgets can be compared; [interpret]
    instantiates it with [STEP_LIMIT]. *)
Context (host : Host) (file : string) (limit : Z) (onImport : option ImportCallback).

(** [throw new RuntimeError(message, file, line, column, [...callStack])] *)
Definition throwRuntimeError {A} (message : string) (line column : Z) : M A :=
  fun st => (Throw (ThrownRuntime (new_RuntimeError message file line column (callStack st))), st).

(** [step()] *)
Definition step : M unit :=
  fun st =>
    let st' := mkIState (heap st) (loader st) (steps st + 1) (callStack st) in
    if limit <? steps st'
    then (Throw (ThrownRuntime (new_RuntimeError budget_message file 0 0 (callStack st'))), st')
    else (Ok tt, st').

(** [stringify(value)] inside the evaluator. *)
Definition stringifyM (v : LuxValue) : M string :=
  liftHeap (fun h => (stringify host (arrays h) v, h)).

(** [evaluateBinaryOp] *)
Definition evaluateBinaryOp (op : string) (left right : LuxValue) : M LuxValue :=
  let is_string v := match v with VString _ => true | _ => false end in
  let cannot_apply :=
    throwRuntimeError
      ("Cannot apply operator '" +:+ op +:+ "' to " +:+ typeOf left +:+ " and "
       +:+ typeOf right) 0 0 in
  let non_numeric :=
    if String.eqb op "==" then ret (VBoolean (strict_equal left right))
    else if String.eqb op "!=" then ret (VBoolean (negb (strict_equal left right)))
    else
      match left, right with
      | VString l, VString r =>
          if String.eqb op "<" then ret (VBoolean (String.ltb l r))
          else if String.eqb op ">" then ret (VBoolean (String.ltb r l))
          else if String.eqb op "<=" then ret (VBoolean (String.leb l r))
          else if String.eqb op ">=" then ret (VBoolean (String.leb r l))
          else cannot_apply
      | _, _ => cannot_apply
      end in
  if String.eqb op "+" && (is_string left || is_string right)
  then l <- stringifyM left ;; r <- stringifyM right ;; ret (VString (l +:+ r))
  else
    match left, right with
    | VNumber l, VNumber r =>
        if String.eqb op "+" then ret (VNumber (l + r)%float)
        else if String.eqb op "-" then ret (VNumber (l - r)%float)
        else if String.eqb op "*" then ret (VNumber (l * r)%float)
        else if String.eqb op "/" then
          if PrimFloat.eqb r 0%float then throwRuntimeError "Division by zero" 0 0
          else ret (VNumber (l / r)%float)
        else if String.eqb op "%" then
          if PrimFloat.eqb r 0%float then throwRuntimeError "Division by zero" 0 0
          else ret (VNumber (number_rem host l r))
        else if String.eqb op "^" then ret (VNumber (Math_pow host l r))
        else if String.eqb op "<" then ret (VBoolean (PrimFloat.ltb l r))
        else if String.eqb op ">" then ret (VBoolean (PrimFloat.ltb r l))
        else if String.eqb op "<=" then ret (VBoolean (PrimFloat.leb l r))
        else if String.eqb op ">=" then ret (VBoolean (PrimFloat.leb r l))
        else if String.eqb op "==" then ret (VBoolean (PrimFloat.eqb l r))
        else if String.eqb op "!=" then ret (VBoolean (negb (PrimFloat.eqb l r)))
        else non_numeric
    | _, _ => non_numeric
    end.

(** The array and string branches of [IndexExpression], after both operands
    have been evaluated. *)
Definition indexValue (obj index : LuxValue) : M LuxValue :=
  match obj with
  | VArray a =>
      match index with
      | VNumber x =>
          arr <- getArray a ;;
          let idx := Math_floor x in
          if out_of_bounds idx (length (elems arr))
          then throwRuntimeError
                 ("Index " +:+ floor_to_string host x +:+ " out of bounds (length "
                  +:+ string_of_nat (length (elems arr)) +:+ ")") 0 0
          else ret (array_read arr idx)
      | _ => throwRuntimeError "Array index must be a number" 0 0
      end
  | VString s =>
      match index with
      | VNumber x =>
          let idx := Math_floor x in
          if out_of_bounds idx (String.length s)
          then throwRuntimeError
                 ("Index " +:+ floor_to_string host x +:+ " out of bounds (length "
                  +:+ string_of_nat (String.length s) +:+ ")") 0 0
          else ret (string_read s idx)
      | _ => throwRuntimeError "String index must be a number" 0 0
      end
  | _ => throwRuntimeError "Index operator requires an array or string" 0 0
  end.

(** The parameter loop of a call: [funcEnv.define(params[i].name,
    i < args.length ? args[i] : null, false)]. *)
Fixpoint bindParams (funcEnv : nat) (params : list (string * option string))
    (args : list LuxValue) : M unit :=
  match params with
  | [] => ret tt
  | (name, _) :: params' =>
      define funcEnv name (match args with a :: _ => a | [] => VNil end) false ;;
      bindParams funcEnv params' (match args with _ :: args' => args' | [] => [] end)
  end.

(** [executeBlock], over the [executeStatement] it calls. *)
Fixpoint executeBlockWith (exec : Statement -> nat -> M Completion)
    (statements : list Statement) (env : nat) : M Completion :=
  match statements with
  | [] => ret Normal
  | stmt :: rest =>
      result <- exec stmt env ;;
      match result with
      | Normal => executeBlockWith exec rest env
      | signal => ret signal
      end
  end.

(** The user-function branch of [CallExpression]: push the frame, create
    the environment of the call under the captured closure, bind the
    parameters, run the body, pop the frame, and return the value of the
    return signal or [null]. *)
Definition callFunction (execS : Statement -> nat -> M Completion)
    (declaration : FunctionDeclaration) (closure : nat) (args : list LuxValue)
    (line column : Z) : M LuxValue :=
  result <-
    withFrame (mkStackFrame (fd_name declaration) file line column)
      (funcEnv <- newEnvironment (Some closure) ;;
       bindParams funcEnv (fd_params declaration) args ;;
       executeBlockWith execS (fd_body declaration) funcEnv) ;;
  match result with
  | ReturnSignal v => ret v
  | _ => ret VNil
  end.

(** One call of [evaluateExpression]; [evalE] and [execS] are the
    recursive calls. *)
Definition evaluateExpressionBody
    (evalE : Expression -> nat -> M LuxValue)
    (execS : Statement -> nat -> M Completion)
    (expr : Expression) (env : nat) : M LuxValue :=
  step ;;
  match expr with
  | NumberLiteral v _ => ret (VNumber v)
  | StringLiteral s => ret (VString s)
  | BooleanLiteral b => ret (VBoolean b)
  | NilLiteral => ret VNil
  | Identifier name =>
      tryCatch (envGet env name)
        (fun _ => throwRuntimeError ("Undefined variable: '" +:+ name +:+ "'") 0 0)
  | ArrayLiteral elements =>
      vs <- mapM_ (fun e => evalE e env) elements ;;
      newArray vs
  | UnaryExpression operator operand =>
      v <- evalE operand env ;;
      if String.eqb operator "-" then
        match v with
        | VNumber x => ret (VNumber (- x)%float)
        | _ => throwRuntimeError "Unary '-' requires a number" 0 0
        end
      else if String.eqb operator "not" then ret (VBoolean (negb (isTruthy v)))
      else throwRuntimeError ("Unknown unary operator: " +:+ operator) 0 0
  | BinaryExpression operator l r =>
      if String.eqb operator "and" then
        left <- evalE l env ;;
        if negb (isTruthy left) then ret left else evalE r env
      else if String.eqb operator "or" then
        left <- evalE l env ;;
        if isTruthy left then ret left else evalE r env
      else
        left <- evalE l env ;;
        right <- evalE r env ;;
        evaluateBinaryOp operator left right
  | CallExpression callee arguments line column =>
      callee_value <-
        tryCatch (envGet env callee)
          (fun _ => throwRuntimeError ("Undefined function: '" +:+ callee +:+ "'")
                      line column) ;;
      args <- mapM_ (fun a => evalE a env) arguments ;;
      match callee_value with
      | VBuiltin name =>
          tryCatch (callBuiltin host name args)
            (fun e =>
               match e with
               | ThrownRuntime _ => throw e
               | _ => throwRuntimeError (thrown_message e) line column
               end)
      | VFunction _ declaration closure =>
        callFunction execS declaration closure args line column
    | _ => throwRuntimeError ("'" +:+ callee +:+ "' is not a function") line column
      end
  | IndexExpression object index =>
      obj <- evalE object env ;;
      idx <- evalE index env ;;
      indexValue obj idx
  end.

(** The [else if] chain and the [else] branch of an [IfStatement]. *)
Fixpoint alternates (evalE : Expression -> nat -> M LuxValue)
    (execS : Statement -> nat -> M Completion)
    (alts : list (Expression * list Statement)) (alternate : option (list Statement))
    (env : nat) : M Completion :=
  match alts with
  | (condition, body) :: rest =>
      altCond <- evalE condition env ;;
      if isTruthy altCond
      then blockEnv <- newEnvironment (Some env) ;; executeBlockWith execS body blockEnv
      else alternates evalE execS rest alternate env
  | [] =>
      match alternate with
      | Some body => blockEnv <- newEnvironment (Some env) ;; executeBlockWith execS body blockEnv
      | None => ret Normal
      end
  end.

(** One call of [executeStatement]; [whileL] and [forL] are the two loops. *)
Definition executeStatementBody
    (evalE : Expression -> nat -> M LuxValue)
    (execS : Statement -> nat -> M Completion)
    (whileL : Expression -> list Statement -> nat -> M Completion)
    (forL : nat -> nat -> string -> list Statement -> nat -> M Completion)
    (stmt : Statement) (env : nat) : M Completion :=
  step ;;
  match stmt with
  | LetDeclaration name _ value _ _ =>
      v <- match value with Some e => evalE e env | None => ret VNil end ;;
      define env name v false ;;
      ret Normal
  | ConstDeclaration name _ value _ _ =>
      v <- evalE value env ;;
      define env name v true ;;
      ret Normal
  | Assignment name value line column =>
      v <- evalE value env ;;
      tryCatch (envSet env name v)
        (fun e => throwRuntimeError (thrown_message e) line column) ;;
      ret Normal
  | IndexAssignment name index value line column =>
      arr <- envGet env name ;;
      match arr with
      | VArray a =>
          index_value <- evalE index env ;;
          match index_value with
          | VNumber x =>
              obj <- getArray a ;;
              let idx := Math_floor x in
              if out_of_bounds idx (length (elems obj))
              then throwRuntimeError
                     ("Index " +:+ floor_to_string host x +:+ " out of bounds (length "
                      +:+ string_of_nat (length (elems obj)) +:+ ")") line column
              else
                v <- evalE value env ;;
                obj' <- getArray a ;;
                putArray a (array_write obj' idx v) ;;
                ret Normal
          | _ => throwRuntimeError "Array index must be a number" line column
          end
      | _ => throwRuntimeError ("'" +:+ name +:+ "' is not an array") line column
      end
  | ExpressionStatement expression _ _ =>
      evalE expression env ;;
      ret Normal
  | FunctionDeclarationStatement declaration =>
      func <- newFunction declaration env ;;
      define env (fd_name declaration) func true ;;
      ret Normal
  | ReturnStatement value _ _ =>
      v <- match value with Some e => evalE e env | None => ret VNil end ;;
      ret (ReturnSignal v)
  | BreakStatement _ _ => ret BreakSignal
  | ContinueStatement _ _ => ret ContinueSignal
  | IfStatement condition consequent alternateConditions alternate _ _ =>
      cond <- evalE condition env ;;
      if isTruthy cond
      then blockEnv <- newEnvironment (Some env) ;; executeBlockWith execS consequent blockEnv
      else alternates evalE execS alternateConditions alternate env
  | WhileStatement condition body _ _ => whileL condition body env
  | ForStatement variable iterable body line column =>
      it <- evalE iterable env ;;
      match it with
      | VArray a => forL a O variable body env
      | _ => throwRuntimeError "for..in requires an array" line column
      end
  | ImportStatement path _ _ =>
      match onImport with
      | Some callback => importCall callback path file
      | None => ret tt
      end ;;
      ret Normal
  | TryCatchStatement tryBody catchVariable catchBody _ _ =>
      tryCatch
        (tryEnv <- newEnvironment (Some env) ;; executeBlockWith execS tryBody tryEnv)
        (fun e =>
           catchEnv <- newEnvironment (Some env) ;;
           define catchEnv catchVariable (VString (thrown_message e)) false ;;
           executeBlockWith execS catchBody catchEnv)
  end.

(** One test of the [while] condition and, when it holds, one iteration;
    [again] is the rest of the loop. *)
Definition whileLoopBody
    (evalE : Expression -> nat -> M LuxValue)
    (execS : Statement -> nat -> M Completion)
    (again : Expression -> list Statement -> nat -> M Completion)
    (condition : Expression) (body : list Statement) (env : nat) : M Completion :=
  cond <- evalE condition env ;;
  if isTruthy cond then
    step ;;
    blockEnv <- newEnvironment (Some env) ;;
    result <- executeBlockWith execS body blockEnv ;;
    match result with
    | ReturnSignal v => ret (ReturnSignal v)
    | BreakSignal => ret Normal
    | _ => again condition body env
    end
  else ret Normal.

(** One turn of [for (const item of iterable)]: the array iterator reads the
    live array at position [i]. *)
Definition forLoopBody
    (execS : Statement -> nat -> M Completion)
    (again : nat -> nat -> string -> list Statement -> nat -> M Completion)
    (a i : nat) (variable : string) (body : list Statement) (env : nat)
    : M Completion :=
  obj <- getArray a ;;
  match elems obj !! i with
  | Some item =>
      step ;;
      blockEnv <- newEnvironment (Some env) ;;
      define blockEnv variable item false ;;
      result <- executeBlockWith execS body blockEnv ;;
      match result with
      | ReturnSignal v => ret (ReturnSignal v)
      | BreakSignal => ret Normal
      | _ => again a (S i) variable body env
      end
  | None => ret Normal
  end.

(** The evaluator.  [fuel] bounds the depth of nested calls of the four
    functions plus the number of loop turns; with no fuel left the model
    gives [Diverge].  The stack of the host is taken to be deep enough for
    the recursion of the evaluator itself: the model has no counterpart of
    the [RangeError] that the host throws when that recursion overflows. *)
Fixpoint evaluateExpression (fuel : nat) (expr : Expression) (env : nat)
    {struct fuel} : M LuxValue :=
  match fuel with
  | O => diverge
  | S k => evaluateExpressionBody (evaluateExpression k) (executeStatement k) expr env
  end
with executeStatement (fuel : nat) (stmt : Statement) (env : nat)
    {struct fuel} : M Completion :=
  match fuel with
  | O => diverge
  | S k =>
      executeStatementBody (evaluateExpression k) (executeStatement k)
        (whileLoop k) (forLoop k) stmt env
  end
with whileLoop (fuel : nat) (condition : Expression) (body : list Statement) (env : nat)
    {struct fuel} : M Completion :=
  match fuel with
  | O => diverge
  | S k =>
      whileLoopBody (evaluateExpression k) (executeStatement k) (whileLoop k)
        condition body env
  end
with forLoop (fuel : nat) (a i : nat) (variable : string) (body : list Statement)
    (env : nat) {struct fuel} : M Completion :=
  match fuel with
  | O => diverge
  | S k => forLoopBody (executeStatement k) (forLoop k) a i variable body env
  end.

(** [executeBlock] *)
Definition executeBlock (fuel : nat) (statements : list Statement) (env : nat)
    : M Completion :=
  executeBlockWith (executeStatement fuel) statements env.

End Evaluator.

(** [InterpreterOptions].  [options.output] is the buffer of the heap: the
    one the built-ins of the global environment append to. *)
Record InterpreterOptions := mkInterpreterOptions {
  opt_file : option string;
  opt_globalEnv : option nat;
  opt_onImport : option ImportCallback
}.

(** What [interpret] returns. *)
Record InterpretResult := mkInterpretResult {
  res_output : list string;
  res_steps : Z;
  res_error : option string;
  res_env : nat
}.

(** The loop that registers the built-ins of [createStdlib] as constants. *)
Definition defineBuiltins (host : Host) (globalEnv : nat) (es : list Environment)
    : list Environment :=
  fold_left (fun es name => Environment_define es globalEnv name (VBuiltin name) true)
    (stdlib_names host) es.

(** [interpret(program, options)] under a given budget; [None] when the fuel
    of the model does not suffice. *)
Definition interpretWith (host : Host) (limit : Z) (fuel : nat) (program : Program)
    (options : InterpreterOptions) (h : Heap) (l : LoaderState)
    : option (InterpretResult * (Heap * LoaderState)) :=
  let file := default "<stdin>" (opt_file options) in
  let '(globalEnv, h0) :=
    match opt_globalEnv options with
    | Some g => (g, h)
    | None =>
        let '(g, es) := new_Environment None (envs h) in
        (g, set_envs (defineBuiltins host g es) h)
    end in
  let '(r, st) :=
    executeBlock host file limit (opt_onImport options) fuel (prog_body program) globalEnv
      (mkIState h0 l 0 []) in
  let result error := mkInterpretResult (output (heap st)) (steps st) error globalEnv in
  match r with
  | Ok _ => Some (result None, (heap st, loader st))
  | Throw (ThrownRuntime e) => Some (result (Some (RuntimeError_format e)), (heap st, loader st))
  | Throw e => Some (result (Some (thrown_message e)), (heap st, loader st))
  | Diverge => None
  end.

(** [interpret] *)
Definition interpret (host : Host) : nat -> Program -> InterpreterOptions -> Heap ->
    LoaderState -> option (InterpretResult * (Heap * LoaderState)) :=
  interpretWith host STEP_LIMIT.

(** The heap and the loader state before anything ran. *)
Definition empty_heap : Heap := mkHeap [] [] O [].
Definition empty_loader : LoaderState := mkLoaderState ∅ ∅ [].

(** [interpret(program)] as the tests call it. *)
Definition run (host : Host) (fuel : nat) (program : Program)
    : option (InterpretResult * (Heap * LoaderState)) :=
  interpret host fuel program (mkInterpreterOptions None None None) empty_heap empty_loader.

(** ** module-loader.ts *)

(** [new ModuleLoader(output)]: the global environment with the built-ins. *)
Definition new_ModuleLoader (host : Host) : nat * Heap :=
  let '(g, es) := new_Environment None [] in
  (g, mkHeap (defineBuiltins host g es) [] O []).

(** One turn of the loop of [mergeExports]. *)
Definition mergeExport (globalEnv moduleEnv : nat) (es : list Environment) (name : string)
    : list Environment :=
  match Environment_getOwnEntry es moduleEnv name with
  | None => es
  | Some entry =>
      let val := value entry in
      match val with
      | VFunction _ _ _ | VBuiltin _ =>
          if Environment_has es globalEnv name then es
          else Environment_define es globalEnv name val (constant entry)
      | _ =>
          if constant entry then
            if Environment_has es globalEnv name then es
            else Environment_define es globalEnv name val true
          else es
      end
  end.

(** [mergeExports(moduleEnv)] *)
Definition ModuleLoader_mergeExports (globalEnv moduleEnv : nat) (h : Heap) : Heap :=
  set_envs
    (fold_left (mergeExport globalEnv moduleEnv)
       (Environment_getOwnNames (envs h) moduleEnv) (envs h)) h.

(** The path an import resolves to. *)
Definition resolve_import (host : Host) (importPath fromFile : string) : string :=
  let dir := path_dirname host fromFile in
  let resolved := path_resolve host dir importPath in
  if String_endsWith resolved ".lux" then resolved else resolved +:+ ".lux".

Definition set_loading (s : gset string) (l : LoaderState) : LoaderState :=
  mkLoaderState (cache l) s (reads l).

Definition set_cache (c : gmap string nat) (l : LoaderState) : LoaderState :=
  mkLoaderState c (loading l) (reads l).

Definition log_read (path : string) (l : LoaderState) : LoaderState :=
  mkLoaderState (cache l) (loading l) (reads l ++ [path]).

(** [if (result.error)]: a non-empty error string. *)
Definition error_truthy (error : option string) : option string :=
  match error with
  | Some "" => None
  | other => other
  end.

(** The [try] block of [importModule]; [onImport] is the nested callback. *)
Definition importModuleTry (host : Host) (globalEnv : nat) (fuel : nat)
    (onImport : ImportCallback) (resolved : string) (h : Heap) (l : LoaderState)
    : Res unit * (Heap * LoaderState) :=
  let l := log_read resolved l in
  match fs_readFileSync host resolved with
  | Throw e => (Throw e, (h, l))
  | Diverge => (Diverge, (h, l))
  | Ok source =>
      match parse_source host source resolved with
      | Throw e => (Throw e, (h, l))
      | Diverge => (Diverge, (h, l))
      | Ok program =>
          let '(moduleEnv, es) := new_Environment (Some globalEnv) (envs h) in
          match interpret host fuel program
                  (mkInterpreterOptions (Some resolved) (Some moduleEnv) (Some onImport))
                  (set_envs es h) l with
          | None => (Diverge, (h, l))
          | Some (result, (h', l')) =>
              match error_truthy (res_error result) with
              | Some error =>
                  (Throw (ThrownError ("Error in module " +:+ resolved +:+ ": " +:+ error)),
                   (h', l'))
              | None =>
                  (Ok tt,
                   (ModuleLoader_mergeExports globalEnv (res_env result) h',
                    set_cache (<[resolved := res_env result]> (cache l')) l'))
              end
          end
      end
  end.

(** [importModule(importPath, fromFile)]; the [finally] clause runs on the
    normal and on the throwing exit. *)
Fixpoint ModuleLoader_importModule (host : Host) (globalEnv : nat) (fuel : nat)
    (importPath fromFile : string) (h : Heap) (l : LoaderState)
    {struct fuel} : Res unit * (Heap * LoaderState) :=
  match fuel with
  | O => (Diverge, (h, l))
  | S k =>
      let resolved := resolve_import host importPath fromFile in
      if bool_decide (resolved ∈ loading l) then
        (Throw (ThrownError ("Circular import detected: " +:+ resolved)), (h, l))
      else
        match cache l !! resolved with
        | Some moduleEnv => (Ok tt, (ModuleLoader_mergeExports globalEnv moduleEnv h, l))
        | None =>
            if negb (fs_existsSync host resolved) then
              (Throw (ThrownError ("Module not found: " +:+ resolved)), (h, l))
            else
              let '(r, (h', l')) :=
                importModuleTry host globalEnv k
                  (ModuleLoader_importModule host globalEnv k) resolved h
                  (set_loading ({[resolved]} ∪ loading l) l) in
              match r with
              | Diverge => (Diverge, (h', l'))
              | _ => (r, (h', set_loading (loading l' ∖ {[resolved]}) l'))
              end
        end
  end.

(** [runFile(filePath)]: the output so far and the error string. *)
Definition ModuleLoader_runFile (host : Host) (globalEnv : nat) (fuel : nat)
    (filePath : string) (h : Heap) (l : LoaderState)
    : option (list string * option string * (Heap * LoaderState)) :=
  let absPath := path_resolve1 host filePath in
  let l := log_read absPath l in
  let failed (e : Thrown) :=
    Some (output h,
          Some match e with
               | ThrownLuxbin e => LuxbinError_format e
               | ThrownRuntime e => RuntimeError_format e
               | ThrownError m => m
               end,
          (h, l)) in
  match fs_readFileSync host absPath with
  | Throw e => failed e
  | Diverge => None
  | Ok source =>
      match parse_source host source absPath with
      | Throw e => failed e
      | Diverge => None
      | Ok program =>
          match interpret host fuel program
                  (mkInterpreterOptions (Some absPath) (Some globalEnv)
                     (Some (ModuleLoader_importModule host globalEnv fuel)))
                  h l with
          | None => None
          | Some (result, hl) => Some (res_output result, res_error result, hl)
          end
      end
  end.

(** ** A host for the examples

    A concrete host on which programs can be run inside Rocq: numbers print as
    their integral part (every number the examples print is integral), the
    registry has [println] and [print] of stdlib/io.ts, [to_string] of
    stdlib/type.ts and [push] and [pop] of stdlib/array.ts, and the file system
    is a table from paths to programs in one flat directory.  No example uses
    [Math.pow] or the remainder, which this host answers with NaN. *)

Definition test_number_to_string (x : float) : string :=
  match Math_floor x with
  | FloorInt k => string_of_Z k
  | FloorPosInf => "Infinity"
  | FloorNegInf => "-Infinity"
  | FloorNaN => "NaN"
  end.

(** The local [stringify] of stdlib/io.ts, on the values the examples print. *)
Definition test_stringify (v : LuxValue) : string :=
  match v with
  | VNil => "nil"
  | VBoolean b => if b then "true" else "false"
  | VNumber x => test_number_to_string x
  | VString s => s
  | VUndefined => "undefined"
  | _ => "[object Object]"
  end.

Definition test_builtin (name : string) (args : list LuxValue) (arrs : list ArrayObj)
    (out : list string) : Res LuxValue * (list ArrayObj * list string) :=
  if String.eqb name "println" || String.eqb name "print" then
    (Ok VNil, (arrs, out ++ [String.concat " " (map test_stringify args)]))
  else if String.eqb name "to_string" then
    (Ok (VString (test_stringify (match args with v :: _ => v | [] => VUndefined end))),
     (arrs, out))
  else if String.eqb name "push" then
    match args with
    | VArray a :: rest =>
        match arrs !! a with
        | Some obj =>
            let v := match rest with v :: _ => v | [] => VUndefined end in
            (Ok (VArray a),
             (<[a := Build_ArrayObj (slots obj ++ [Some v]) (NaN_property obj)]> arrs, out))
        | None => (Throw (ThrownError "push: first argument must be an array"), (arrs, out))
        end
    | _ => (Throw (ThrownError "push: first argument must be an array"), (arrs, out))
    end
  else if String.eqb name "pop" then
    match args with
    | VArray a :: _ =>
        match arrs !! a with
        | Some obj =>
            match slots obj with
            | [] => (Throw (ThrownError "pop: array is empty"), (arrs, out))
            | _ =>
                (Ok (match List.last (elems obj) VUndefined with
                     | VUndefined => VNil
                     | v => v
                     end),
                 (<[a := Build_ArrayObj (removelast (slots obj)) (NaN_property obj)]> arrs, out))
            end
        | None => (Throw (ThrownError "pop: expected array"), (arrs, out))
        end
    | _ => (Throw (ThrownError "pop: expected array"), (arrs, out))
    end
  else (Throw (ThrownError (name +:+ ": not available")), (arrs, out)).

Fixpoint test_lookup_file (files : list (string * Program)) (path : string)
    : option Program :=
  match files with
  | [] => None
  | (p, prog) :: rest => if String.eqb p path then Some prog else test_lookup_file rest path
  end.

(** The host over the files [files]: a source text is the path it was read
    from, and parsing it gives the program stored under that path. *)
Definition test_host (files : list (string * Program)) : Host :=
  mkHost
    test_number_to_string
    (fun _ _ => nan)
    (fun _ _ => nan)
    ["println"; "print"; "to_string"; "push"; "pop"]
    test_builtin
    (fun _ => "")
    (fun _ importPath => importPath)
    (fun filePath => filePath)
    (fun path => match test_lookup_file files path with Some _ => true | None => false end)
    (fun path =>
       match test_lookup_file files path with
       | Some _ => Ok path
       | None => Throw (ThrownError ("ENOENT: no such file or directory, open '" +:+ path +:+ "'"))
       end)
    (fun source _ =>
       match test_lookup_file files source with
       | Some prog => Ok prog
       | None => Throw (ThrownLuxbin (new_ParseError "Unexpected token" source 1 1))
       end).

(** Program-tree shorthands for the examples. *)
Definition num (x : float) : Expression := NumberLiteral x false.
Definition call (callee : string) (args : list Expression) (line : Z) : Expression :=
  CallExpression callee args line 1.
Definition stmt_expr (e : Expression) (line : Z) : Statement := ExpressionStatement e line 1.
Definition println (e : Expression) (line : Z) : Statement :=
  stmt_expr (call "println" [e] line) line.
Definition func (name : string) (params : list string) (body : list Statement) (line : Z)
    : Statement :=
  FunctionDeclarationStatement
    (mkFunctionDeclaration name (map (fun p => (p, None)) params) None body line 1).

(** ** Runs that give a result *)

(** [m2] gives every result that [m1] gives. *)
Definition refines {A} (m1 m2 : M A) : Prop :=
  forall st r st', m1 st = (r, st') -> r <> Diverge -> m2 st = (r, st').

(** The state after a [step()] that did not throw. *)
Definition entered (st : IState) : IState :=
  mkIState (heap st) (loader st) (steps st + 1) (callStack st).

Definition set_heap (h : Heap) (st : IState) : IState :=
  mkIState h (loader st) (steps st) (callStack st).

Definition set_callStack (cs : list StackFrame) (st : IState) : IState :=
  mkIState (heap st) (loader st) (steps st) cs.

Section Runs.

Context (host : Host) (file : string) (onImport : option ImportCallback).

(** [evaluateExpression(expr, env)] started in [st] ends with [r] in [st']. *)
Definition evaluates (expr : Expression) (env : nat) (st : IState)
    (r : Res LuxValue) (st' : IState) : Prop :=
  exists fuel,
    evaluateExpression host file STEP_LIMIT onImport fuel expr env st = (r, st')
    /\ r <> Diverge.

(** [executeStatement(stmt, env)] started in [st] ends with [r] in [st']. *)
Definition executes (stmt : Statement) (env : nat) (st : IState)
    (r : Res Completion) (st' : IState) : Prop :=
  exists fuel,
    executeStatement host file STEP_LIMIT onImport fuel stmt env st = (r, st')
    /\ r <> Diverge.

(** [executeBlock(statements, env)] started in [st] ends with [r] in [st']. *)
Definition block_executes (statements : list Statement) (env : nat) (st : IState)
    (r : Res Completion) (st' : IState) : Prop :=
  exists fuel,
    executeBlock host file STEP_LIMIT onImport fuel statements env st = (r, st')
    /\ r <> Diverge.

End Runs.

(** The address [new Environment(parent)] returns in [st], and the state
    after it. *)
Definition child_env (st : IState) : nat := length (envs (heap st)).

Definition with_child_env (parent : nat) (st : IState) : IState :=
  set_heap (set_envs (envs (heap st) ++ [mkEnvironment [] (Some parent)]) (heap st)) st.

(** The state after [env.define(name, v, c)]. *)
Definition with_binding (env : nat) (name : string) (v : LuxValue) (c : bool)
    (st : IState) : IState :=
  set_heap (set_envs (Environment_define (envs (heap st)) env name v c) (heap st)) st.

(** The state in which [interpret] starts a program that has the global
    environment [0] with the built-ins of [host]. *)
Definition initial_state (host : Host) : IState :=
  mkIState (snd (new_ModuleLoader host)) empty_loader 0 [].

(** [try let x = 1 / 0 catch err println("caught: " + err) end] *)
Definition try_example_body : list Statement :=
  [LetDeclaration "x" None (Some (BinaryExpression "/" (num 1) (num 0))) 2 1].

Definition try_example_handler : list Statement :=
  [println (BinaryExpression "+" (StringLiteral "caught: ") (Identifier "err")) 4].

(** ** The shape of error strings *)

(** [FILE:LINE:COLUMN] *)
Definition location (file : string) (line column : Z) : string :=
  file +:+ ":" +:+ string_of_Z line +:+ ":" +:+ string_of_Z column.

(** The call-frame lines of a formatted [RuntimeError], one per frame. *)
Fixpoint frame_lines (frames : list StackFrame) : string :=
  match frames with
  | [] => ""
  | frame :: rest =>
      LF +:+ "  at " +:+ sf_name frame +:+ " ("
      +:+ location (sf_file frame) (sf_line frame) (sf_column frame) +:+ ")"
      +:+ frame_lines rest
  end.

(** A program that reads an unbound variable: [xyz]. *)
Definition undefined_variable_example : Program :=
  mkProgram [stmt_expr (Identifier "xyz") 1].

(** The error string of a run, when the run ends. *)
Definition error_of (r : option (InterpretResult * (Heap * LoaderState)))
    : option (option string) :=
  option_map (fun x => res_error (fst x)) r.

(** ** types.ts: the positions of program-tree nodes *)

(** The [line] and [column] fields of an expression node, for the node types
    that declare them. *)
Definition expression_position (e : Expression) : option (Z * Z) :=
  match e with
  | CallExpression _ _ line column => Some (line, column)
  | _ => None
  end.

(** The [line] and [column] fields of a statement node: every statement
    interface of types.ts declares them. *)
Definition statement_position (s : Statement) : Z * Z :=
  match s with
  | LetDeclaration _ _ _ l c | ConstDeclaration _ _ _ l c | Assignment _ _ l c
  | IndexAssignment _ _ _ l c | IfStatement _ _ _ _ l c | WhileStatement _ _ l c
  | ForStatement _ _ _ l c | ReturnStatement _ l c | BreakStatement l c
  | ContinueStatement l c | ImportStatement _ l c | TryCatchStatement _ _ _ l c
  | ExpressionStatement _ l c
  | FunctionDeclarationStatement (mkFunctionDeclaration _ _ _ _ l c) => (l, c)
  end.

(** ** The export rule in the specification's words *)

(** A user function or a built-in. *)
Definition is_function_value (v : LuxValue) : bool :=
  match v with
  | VFunction _ _ _ | VBuiltin _ => true
  | _ => false
  end.

(** The bindings the export rule names: every user function, every built-in
    and every constant. *)
Definition exported (en : Entry) : bool :=
  is_function_value (value en) || constant en.

(** A heap after a module ran: the global environment [0] with [println],
    and the module's environment [1] with a function, a constant, a mutable
    variable and a constant that shadows [println]. *)
Definition export_example : Heap :=
  mkHeap
    [mkEnvironment [("println", mkEntry (VBuiltin "println") true)] None;
     mkEnvironment
       [("double", mkEntry (VFunction 0
                              (mkFunctionDeclaration "double" [("n", None)] None
                                 [ReturnStatement
                                    (Some (BinaryExpression "*" (Identifier "n") (num 2))) 2 1]
                                 1 1) 1) true);
        ("PI", mkEntry (VNumber 3) true);
        ("counter", mkEntry (VNumber 0) false);
        ("println", mkEntry (VString "shadow") true)]
       (Some O)]
    [] 1 [].

(** ** The step budget *)

(** [m1] counts steps upwards, and whenever it ends with the counter at most
    [limit], [m2] ends the same way. *)
Definition within_budget (limit : Z) {A} (m1 m2 : M A) : Prop :=
  forall st r st',
    m1 st = (r, st') ->
    steps st <= steps st' /\ (steps st' <= limit -> m2 st = (r, st')).

(** The counter after [m] is related by [R] to the counter before it: with
    equality for [R], [m] makes no call of [step()]. *)
Definition advances (R : Z -> Z -> Prop) {A} (m : M A) : Prop :=
  forall st, R (steps st) (steps (snd (m st))).

(** The error [step()] throws. *)
Definition budget_error (file : string) (frames : list StackFrame) : Thrown :=
  ThrownRuntime (new_RuntimeError budget_message file 0 0 frames).

(** [try while true do end catch e end]: the loop spins until the budget
    runs out, and the handler swallows the error. *)
Definition budget_example : Program :=
  mkProgram [TryCatchStatement [WhileStatement (BooleanLiteral true) [] 2 1] "e" [] 1 1].

(** [println("hello")] *)
Definition hello_example : Program := mkProgram [println (StringLiteral "hello") 1].

(** Three turns of a [while] loop and two turns of a [for] loop:
<<
    let i = 0                # line 1
    while i < 3 do
      i = i + 1              # line 3
    end
    for x in [1, 2] do       # line 5
    end
>> *)
Definition counting_example : Program :=
  mkProgram
    [LetDeclaration "i" None (Some (NumberLiteral 0 false)) 1 1;
     WhileStatement (BinaryExpression "<" (Identifier "i") (NumberLiteral 3 false))
       [Assignment "i" (BinaryExpression "+" (Identifier "i") (NumberLiteral 1 false)) 3 3]
       2 1;
     ForStatement "x" (ArrayLiteral [NumberLiteral 1 false; NumberLiteral 2 false]) [] 5 1].

(** No options: [interpret(program)]. *)
Definition no_options : InterpreterOptions := mkInterpreterOptions None None None.

(** ** The call-frame stack *)

(** [m1] leaves the stack it found at the bottom of the stack it returns. *)
Definition stack_grows {A} (m1 m2 : M A) : Prop :=
  forall st r st', m1 st = (r, st') -> callStack st `prefix_of` callStack st'.

(** The state in which the body of a called function starts: the frame is
    pushed, the environment of the call is created, the parameters are bound. *)
Definition call_entry_state (declaration : FunctionDeclaration) (closure : nat)
    (args : list LuxValue) (frame : StackFrame) (st : IState) : IState :=
  snd (bindParams (child_env st) (fd_params declaration) args
         (with_child_env closure (set_callStack (callStack st ++ [frame]) st))).

(** [g] divides by zero, [f] calls [g] inside a [try], the program calls [f]
    and then divides by zero itself:
<<
    func g()                 # line 1
      return 1 / 0
    end
    func f()                 # line 3
      try
        g()                  # line 5
      catch e
      end
    end
    f()                      # line 7
    1 / 0                    # line 8
>> *)
Definition stale_frame_example : Program :=
  mkProgram
    [func "g" [] [ReturnStatement (Some (BinaryExpression "/" (num 1) (num 0))) 2 1] 1;
     func "f" [] [TryCatchStatement [stmt_expr (call "g" [] 5) 5] "e" [] 4 1] 3;
     stmt_expr (call "f" [] 7) 7;
     stmt_expr (BinaryExpression "/" (num 1) (num 0)) 8].

(** ** The module loader's bookkeeping *)

(** From [l] to [l']: every cached module is still cached with the same
    environment, the set of modules being loaded is the same, and the files
    read in between are files of modules that were not cached in [l]. *)
Definition loader_extends (l l' : LoaderState) : Prop :=
  (forall path env, cache l !! path = Some env -> cache l' !! path = Some env)
  /\ loading l' = loading l
  /\ exists new, reads l' = reads l ++ new
                 /\ forall path, path ∈ new -> cache l !! path = None.

(** [m1] moves the loader along [loader_extends] whenever it gives a result. *)
Definition keeps_loader {A} (m1 m2 : M A) : Prop :=
  forall st r st', m1 st = (r, st') -> r <> Diverge ->
                   loader_extends (loader st) (loader st').

(** Two files: [main.lux] imports [bad] twice, each time inside a [try];
    [bad.lux] prints a line and then divides by zero. *)
Definition failing_import_files : list (string * Program) :=
  [("main.lux",
    mkProgram
      [TryCatchStatement [ImportStatement "bad" 2 1] "e" [] 1 1;
       TryCatchStatement [ImportStatement "bad" 5 1] "e" [] 4 1]);
   ("bad.lux",
    mkProgram
      [println (StringLiteral "loading bad") 1;
       stmt_expr (BinaryExpression "/" (num 1) (num 0)) 2])].

(** Two files: [main.lux] imports [util] twice; [util.lux] prints a line and
    defines a function. *)
Definition repeated_import_files : list (string * Program) :=
  [("main.lux",
    mkProgram [ImportStatement "util" 1 1; ImportStatement "util.lux" 2 1]);
   ("util.lux",
    mkProgram
      [println (StringLiteral "loading util") 1;
       func "twice" ["n"] [ReturnStatement
                             (Some (BinaryExpression "*" (Identifier "n") (num 2))) 3 1] 2])].

(** [new ModuleLoader(output).runFile(path)] on a host: the output, the error
    and the reads. *)
Definition run_file (host : Host) (fuel : nat) (path : string)
    : option (list string * option string * list string) :=
  let '(g, h) := new_ModuleLoader host in
  match ModuleLoader_runFile host g fuel path h empty_loader with
  | Some (out, error, (_, l)) => Some (out, error, reads l)
  | None => None
  end.

(** ** Index examples *)

(** [let a = [10]] followed by the read [a[-0.5]]. *)
Definition negative_index_read : Program :=
  mkProgram
    [LetDeclaration "a" None (Some (ArrayLiteral [num 10])) 1 1;
     stmt_expr (IndexExpression (Identifier "a") (UnaryExpression "-" (num 0.5))) 2].

(** [let a = [10]] followed by the assignment [a[-0.5] = 1]. *)
Definition negative_index_write : Program :=
  mkProgram
    [LetDeclaration "a" None (Some (ArrayLiteral [num 10])) 1 1;
     IndexAssignment "a" (UnaryExpression "-" (num 0.5)) (num 1) 2 1].

(** [let a = [10, 20, 30]], [a[1.5] = 99], [println(a[1.9])]. *)
Definition fractional_index_example : Program :=
  mkProgram
    [LetDeclaration "a" None (Some (ArrayLiteral [num 10; num 20; num 30])) 1 1;
     IndexAssignment "a" (num 1.5) (num 99) 2 1;
     println (IndexExpression (Identifier "a") (num 1.75)) 3].

(** The message of the out-of-bounds error. *)
Definition out_of_bounds_message (host : Host) (x : float) (len : nat) : string :=
  "Index " +:+ floor_to_string host x +:+ " out of bounds (length "
  +:+ string_of_nat len +:+ ")".

(** The state after [arr[idx] = v] on the array at address [a]. *)
Definition with_array_write (a : nat) (idx : Floor) (v : LuxValue) (st : IState) : IState :=
  set_heap
    (set_arrays
       (<[a := array_write (default (mkArrayObj [] None) (arrays (heap st) !! a)) idx v]>
          (arrays (heap st)))
       (heap st)) st.

(** ** Constant bindings *)

(** [const x = 1], [println(x)], [let x = 2], [x = 3], [println(x)]. *)
Definition const_then_let : Program :=
  mkProgram
    [ConstDeclaration "x" None (num 1) 1 1;
     println (Identifier "x") 2;
     LetDeclaration "x" None (Some (num 2)) 3 1;
     Assignment "x" (num 3) 4 1;
     println (Identifier "x") 5].

(** [const x = 1], [x = 2]. *)
Definition const_reassigned : Program :=
  mkProgram
    [ConstDeclaration "x" None (num 1) 1 1;
     Assignment "x" (num 2) 2 1].

(** The state after a function object was created. *)
Definition with_function (st : IState) : IState :=
  set_heap
    (mkHeap (envs (heap st)) (arrays (heap st)) (S (functions (heap st))) (output (heap st)))
    st.

(** The output and the error of a run. *)
Definition outcome_of (r : option (InterpretResult * (Heap * LoaderState)))
    : option (list string * option string) :=
  option_map (fun x => (res_output (fst x), res_error (fst x))) r.

(** The declaration of [g] in [stale_frame_example], and the state after the
    program declared it. *)
Definition g_declaration : FunctionDeclaration :=
  mkFunctionDeclaration "g" [] None
    [ReturnStatement (Some (BinaryExpression "/" (num 1) (num 0))) 2 1] 1 1.

Definition g_declared : IState :=
  snd (executeStatement (test_host []) "<stdin>" STEP_LIMIT None 1
         (FunctionDeclarationStatement g_declaration) 0 (initial_state (test_host []))).

(** ** Programs of the repository's interpreter tests, as program trees *)

Definition ident (name : string) : Expression := Identifier name.
Definition binop (op : string) (l r : Expression) : Expression := BinaryExpression op l r.
Definition to_string (e : Expression) (line : Z) : Expression := call "to_string" [e] line.
Definition let_ (name : string) (e : Expression) (line : Z) : Statement :=
  LetDeclaration name None (Some e) line 1.

(** [println(to_string(2 + 3 * 4))] *)
Definition test_arithmetic : Program :=
  mkProgram [println (to_string (binop "+" (num 2) (binop "*" (num 3) (num 4))) 1) 1].

(** [let i = 0], [while i < 3 do println(to_string(i)); i = i + 1 end] *)
Definition test_while : Program :=
  mkProgram
    [let_ "i" (num 0) 1;
     WhileStatement (binop "<" (ident "i") (num 3))
       [println (to_string (ident "i") 3) 3;
        Assignment "i" (binop "+" (ident "i") (num 1)) 4 1] 2 1].

(** [for x in [10, 20, 30] do println(to_string(x)) end] *)
Definition test_for : Program :=
  mkProgram
    [ForStatement "x" (ArrayLiteral [num 10; num 20; num 30])
       [println (to_string (ident "x") 2) 2] 1 1].

(** The factorial of the tests: [fac(5)]. *)
Definition test_fac : Program :=
  mkProgram
    [func "fac" ["n"]
       [IfStatement (binop "<=" (ident "n") (num 1)) [ReturnStatement (Some (num 1)) 3 1]
          [] None 2 1;
        ReturnStatement
          (Some (binop "*" (ident "n") (call "fac" [binop "-" (ident "n") (num 1)] 5))) 5 1]
       1;
     println (to_string (call "fac" [num 5] 7) 7) 7].

(** [while true] with [if i == 3 then break end]. *)
Definition test_break : Program :=
  mkProgram
    [let_ "i" (num 0) 1;
     WhileStatement (BooleanLiteral true)
       [IfStatement (binop "==" (ident "i") (num 3)) [BreakStatement 4 1] [] None 3 1;
        Assignment "i" (binop "+" (ident "i") (num 1)) 6 1] 2 1;
     println (to_string (ident "i") 8) 8].

(** [for i in [0, 1, 2, 3, 4]] with [if i == 2 then continue end]. *)
Definition test_continue : Program :=
  mkProgram
    [ForStatement "i" (ArrayLiteral [num 0; num 1; num 2; num 3; num 4])
       [IfStatement (binop "==" (ident "i") (num 2)) [ContinueStatement 3 1] [] None 2 1;
        println (to_string (ident "i") 5) 5] 1 1].

(** [let arr = [1, 2, 3]], [arr[1] = 99], [println(to_string(arr[1]))] *)
Definition test_index_assignment : Program :=
  mkProgram
    [let_ "arr" (ArrayLiteral [num 1; num 2; num 3]) 1;
     IndexAssignment "arr" (num 1) (num 99) 2 1;
     println (to_string (IndexExpression (ident "arr") (num 1)) 3) 3].

(** The counter made of a closure: [make_counter], [c()], [c()]. *)
Definition test_closures : Program :=
  mkProgram
    [func "make_counter" []
       [let_ "count" (num 0) 2;
        func "inc" []
          [Assignment "count" (binop "+" (ident "count") (num 1)) 4 1;
           ReturnStatement (Some (ident "count")) 5 1] 3;
        ReturnStatement (Some (ident "inc")) 7 1] 1;
     let_ "c" (call "make_counter" [] 9) 9;
     println (to_string (call "c" [] 10) 10) 10;
     println (to_string (call "c" [] 11) 11) 11].

(** [let x = "outer"], [if true then let x = "inner"; println(x) end], [println(x)] *)
Definition test_nested_scopes : Program :=
  mkProgram
    [let_ "x" (StringLiteral "outer") 1;
     IfStatement (BooleanLiteral true)
       [let_ "x" (StringLiteral "inner") 3; println (ident "x") 4] [] None 2 1;
     println (ident "x") 6].

(** [println(to_string(true and false))], [println(to_string(true or false))] *)
Definition test_logical : Program :=
  mkProgram
    [println (to_string (binop "and" (BooleanLiteral true) (BooleanLiteral false)) 1) 1;
     println (to_string (binop "or" (BooleanLiteral true) (BooleanLiteral false)) 2) 2].

(** Aliased arrays: [let a = [1]], [let b = a], [push(b, 2)], [b[0] = 7],
    then the two elements of [a]. *)
Definition test_aliasing : Program :=
  mkProgram
    [let_ "a" (ArrayLiteral [num 1]) 1;
     let_ "b" (ident "a") 2;
     stmt_expr (call "push" [ident "b"; num 2] 3) 3;
     IndexAssignment "b" (num 0) (num 7) 4 1;
     println (to_string (IndexExpression (ident "a") (num 0)) 5) 5;
     println (to_string (IndexExpression (ident "a") (num 1)) 6) 6].

(** ** parser.ts: [class Parser]

    The text of parser.ts stands in the source tree behind the text of
    repl.ts.  The parser is a recursive-descent parser over the token array
    with one mutable field, the position [pos]; it throws [ParseError]s. *)

(** [a === b] on token types. *)
Definition TokenType_index (t : TokenType) : nat :=
  match t with
  | NUMBER => 0 | STRING => 1 | IDENTIFIER => 2
  | LET => 3 | CONST => 4 | FUNC => 5 | RETURN => 6 | IF => 7 | THEN => 8 | ELSE => 9
  | END => 10 | WHILE => 11 | DO => 12 | FOR => 13 | IN => 14 | BREAK => 15
  | CONTINUE => 16 | IMPORT => 17 | EXPORT => 18 | TRUE => 19 | FALSE => 20 | NIL => 21
  | AND => 22 | OR => 23 | NOT => 24 | TRY => 25 | CATCH => 26
  | PLUS => 27 | MINUS => 28 | STAR => 29 | SLASH => 30 | PERCENT => 31 | CARET => 32
  | EQUALS => 33 | DOUBLE_EQUALS => 34 | NOT_EQUALS => 35 | LESS_THAN => 36
  | GREATER_THAN => 37 | LESS_EQUALS => 38 | GREATER_EQUALS => 39
  | LPAREN => 40 | RPAREN => 41 | LBRACKET => 42 | RBRACKET => 43 | COMMA => 44
  | COLON => 45 | NEWLINE => 46 | EOF => 47
  end%nat.

Definition TokenType_eqb (a b : TokenType) : bool :=
  Nat.eqb (TokenType_index a) (TokenType_index b).

(** The string value of a member of the [TokenType] enum. *)
Definition TokenType_name (t : TokenType) : string :=
  match t with
  | NUMBER => "NUMBER" | STRING => "STRING" | IDENTIFIER => "IDENTIFIER"
  | LET => "LET" | CONST => "CONST" | FUNC => "FUNC" | RETURN => "RETURN" | IF => "IF"
  | THEN => "THEN" | ELSE => "ELSE" | END => "END" | WHILE => "WHILE" | DO => "DO"
  | FOR => "FOR" | IN => "IN" | BREAK => "BREAK" | CONTINUE => "CONTINUE"
  | IMPORT => "IMPORT" | EXPORT => "EXPORT" | TRUE => "TRUE" | FALSE => "FALSE"
  | NIL => "NIL" | AND => "AND" | OR => "OR" | NOT => "NOT" | TRY => "TRY"
  | CATCH => "CATCH" | PLUS => "PLUS" | MINUS => "MINUS" | STAR => "STAR"
  | SLASH => "SLASH" | PERCENT => "PERCENT" | CARET => "CARET" | EQUALS => "EQUALS"
  | DOUBLE_EQUALS => "DOUBLE_EQUALS" | NOT_EQUALS => "NOT_EQUALS"
  | LESS_THAN => "LESS_THAN" | GREATER_THAN => "GREATER_THAN"
  | LESS_EQUALS => "LESS_EQUALS" | GREATER_EQUALS => "GREATER_EQUALS"
  | LPAREN => "LPAREN" | RPAREN => "RPAREN" | LBRACKET => "LBRACKET"
  | RBRACKET => "RBRACKET" | COMMA => "COMMA" | COLON => "COLON"
  | NEWLINE => "NEWLINE" | EOF => "EOF"
  end.

(** [s.includes(sub)] *)
Fixpoint String_includes (sub s : string) : bool :=
  String.prefix sub s
  || match s with
     | EmptyString => false
     | String _ rest => String_includes sub rest
     end.

(** The double quote of the parser's messages. *)
Definition DQ : string := String (Ascii.ascii_of_nat 34) EmptyString.

(** Computations of the parser: the position is passed along; a computation
    returns, throws, or runs out of the model's fuel. *)
Definition P (A : Type) : Type := nat -> Res A * nat.

Definition pret {A} (a : A) : P A := fun pos => (Ok a, pos).

Definition pbind {A B} (p : P A) (k : A -> P B) : P B :=
  fun pos =>
    match p pos with
    | (Ok a, pos') => k a pos'
    | (Throw e, pos') => (Throw e, pos')
    | (Diverge, pos') => (Diverge, pos')
    end.

Definition pthrow {A} (e : Thrown) : P A := fun pos => (Throw e, pos).

Definition pdiverge {A} : P A := fun pos => (Diverge, pos).

Declare Scope parser_scope.
Delimit Scope parser_scope with parser.
Notation "x <- c1 ;; c2" := (pbind c1 (fun x => c2))
  (at level 100, c1 at next level, right associativity) : parser_scope.
Notation "c1 ;; c2" := (pbind c1 (fun _ => c2))
  (at level 100, right associativity) : parser_scope.

(** What reading [.type] of [undefined] throws: a [TypeError] of the host. *)
Definition undefined_type : Thrown :=
  ThrownError "Cannot read properties of undefined (reading 'type')".

Section Parser.

Local Open Scope parser_scope.

(** [Number(lexeme)] of the host, the token array and the file name the
    errors carry. *)
Context (Number : string -> float) (tokens : list Token) (file : string).

(** [peek()]; every caller reads [.type] of the result before anything else,
    which throws when the position is outside the array. *)
Definition peek : P Token :=
  fun pos =>
    match tokens !! pos with
    | Some token => (Ok token, pos)
    | None => (Throw undefined_type, pos)
    end.

(** [peekAt(offset)]: past the end it is the last token. *)
Definition peekAt (offset : nat) : P Token :=
  fun pos =>
    let idx := (pos + offset)%nat in
    match (if (length tokens <=? idx)%nat then last tokens else tokens !! idx) with
    | Some token => (Ok token, pos)
    | None => (Throw undefined_type, pos)
    end.

(** [advance()]: the position moves on; the token it returns is the one at
    the old position, which every caller has peeked at. *)
Definition advance : P unit := fun pos => (Ok tt, S pos).

Definition unexpected (expected : TokenType) (token : Token) : Thrown :=
  ThrownLuxbin
    (new_ParseError
       ("Expected " +:+ TokenType_name expected +:+ " but got "
        +:+ TokenType_name (tok_type token) +:+ " (" +:+ DQ +:+ tok_value token +:+ DQ +:+ ")")
       file (tok_line token) (tok_column token)).

(** [expect(type)]; no call site passes a message. *)
Definition expect (type : TokenType) : P Token :=
  token <- peek ;;
  if TokenType_eqb (tok_type token) type then advance ;; pret token
  else pthrow (unexpected type token).

(** [match(type)] *)
Definition match_ (type : TokenType) : P bool :=
  token <- peek ;;
  if TokenType_eqb (tok_type token) type then advance ;; pret true else pret false.

(** [skipNewlines()] *)
Fixpoint skipNewlines (fuel : nat) : P unit :=
  match fuel with
  | O => pdiverge
  | S k =>
      token <- peek ;;
      if TokenType_eqb (tok_type token) NEWLINE then advance ;; skipNewlines k else pret tt
  end.

(** [expectNewline()]: a newline is consumed when there is one, and nothing
    is thrown when there is none. *)
Definition expectNewline : P unit :=
  token <- peek ;;
  if TokenType_eqb (tok_type token) NEWLINE then advance else pret tt.

(** *** Expressions *)

(** The loop of a left-associative level: [while (peek() is an operator of
    the level) { advance(); right = operand(); left = {operator, left, right} }]. *)
Fixpoint binaryLoop (fuel : nat) (ops : list TokenType) (operator : Token -> string)
    (operand : P Expression) (left : Expression) : P Expression :=
  match fuel with
  | O => pdiverge
  | S k =>
      token <- peek ;;
      if existsb (TokenType_eqb (tok_type token)) ops then
        advance ;;
        right <- operand ;;
        binaryLoop k ops operator operand (BinaryExpression (operator token) left right)
      else pret left
  end.

Definition binaryLevel (fuel : nat) (ops : list TokenType) (operator : Token -> string)
    (operand : P Expression) : P Expression :=
  left <- operand ;; binaryLoop fuel ops operator operand left.

(** [parseUnary], over [parsePrimary] *)
Fixpoint parseUnary (fuel : nat) (parsePrimary : P Expression) : P Expression :=
  match fuel with
  | O => pdiverge
  | S k =>
      token <- peek ;;
      match tok_type token with
      | NOT => advance ;; operand <- parseUnary k parsePrimary ;;
               pret (UnaryExpression "not" operand)
      | MINUS => advance ;; operand <- parseUnary k parsePrimary ;;
                 pret (UnaryExpression "-" operand)
      | _ => parsePrimary
      end
  end.

(** [parseExponent]: the right operand is parsed by [parseExponent] itself. *)
Fixpoint parseExponent (fuel : nat) (parsePrimary : P Expression) : P Expression :=
  match fuel with
  | O => pdiverge
  | S k =>
      left <- parseUnary fuel parsePrimary ;;
      token <- peek ;;
      if TokenType_eqb (tok_type token) CARET then
        advance ;;
        right <- parseExponent k parsePrimary ;;
        pret (BinaryExpression "^" left right)
      else pret left
  end.

Definition parseMultiplication (fuel : nat) (parsePrimary : P Expression) : P Expression :=
  binaryLevel fuel [STAR; SLASH; PERCENT] tok_value (parseExponent fuel parsePrimary).

Definition parseAddition (fuel : nat) (parsePrimary : P Expression) : P Expression :=
  binaryLevel fuel [PLUS; MINUS] tok_value (parseMultiplication fuel parsePrimary).

Definition parseComparison (fuel : nat) (parsePrimary : P Expression) : P Expression :=
  binaryLevel fuel [LESS_THAN; GREATER_THAN; LESS_EQUALS; GREATER_EQUALS] tok_value
    (parseAddition fuel parsePrimary).

Definition parseEquality (fuel : nat) (parsePrimary : P Expression) : P Expression :=
  binaryLevel fuel [DOUBLE_EQUALS; NOT_EQUALS] tok_value (parseComparison fuel parsePrimary).

Definition parseAnd (fuel : nat) (parsePrimary : P Expression) : P Expression :=
  binaryLevel fuel [AND] (fun _ => "and") (parseEquality fuel parsePrimary).

Definition parseOr (fuel : nat) (parsePrimary : P Expression) : P Expression :=
  binaryLevel fuel [OR] (fun _ => "or") (parseAnd fuel parsePrimary).

(** [while (this.match(COMMA)) elements.push(this.parseExpression())] *)
Fixpoint commaLoop (fuel : nat) (parseExpression : P Expression) (elements : list Expression)
    : P (list Expression) :=
  match fuel with
  | O => pdiverge
  | S k =>
      more <- match_ COMMA ;;
      if more then
        e <- parseExpression ;; commaLoop k parseExpression (elements ++ [e])
      else pret elements
  end.

(** The elements of an array literal and the arguments of a call, up to the
    closing token. *)
Definition parseElements (fuel : nat) (parseExpression : P Expression) (close : TokenType)
    : P (list Expression) :=
  token <- peek ;;
  if TokenType_eqb (tok_type token) close then pret []
  else e <- parseExpression ;; commaLoop fuel parseExpression [e].

(** The chained index after a call: [func()[i][j]]. *)
Fixpoint indexChain (fuel : nat) (parseExpression : P Expression) (expr : Expression)
    : P Expression :=
  match fuel with
  | O => pdiverge
  | S k =>
      token <- peek ;;
      if TokenType_eqb (tok_type token) LBRACKET then
        advance ;;
        index <- parseExpression ;;
        expect RBRACKET ;;
        indexChain k parseExpression (IndexExpression expr index)
      else pret expr
  end.

(** The node that [parsePrimary] builds from the one token of a literal or
    of an identifier (for an identifier: when no parenthesis and no bracket
    follows). *)
Definition parsePrimaryToken (token : Token) : option Expression :=
  match tok_type token with
  | NUMBER =>
      Some (NumberLiteral (Number (tok_value token)) (String_includes "." (tok_value token)))
  | STRING => Some (StringLiteral (tok_value token))
  | TRUE => Some (BooleanLiteral true)
  | FALSE => Some (BooleanLiteral false)
  | NIL => Some NilLiteral
  | IDENTIFIER => Some (Identifier (tok_value token))
  | _ => None
  end.

(** [parsePrimary], over [parseExpression] *)
Definition parsePrimary (fuel : nat) (parseExpression : P Expression) : P Expression :=
  token <- peek ;;
  match tok_type token with
  | NUMBER =>
      advance ;;
      pret (NumberLiteral (Number (tok_value token)) (String_includes "." (tok_value token)))
  | STRING => advance ;; pret (StringLiteral (tok_value token))
  | TRUE => advance ;; pret (BooleanLiteral true)
  | FALSE => advance ;; pret (BooleanLiteral false)
  | NIL => advance ;; pret NilLiteral
  | LPAREN =>
      advance ;;
      expr <- parseExpression ;;
      expect RPAREN ;;
      pret expr
  | LBRACKET =>
      advance ;;
      elements <- parseElements fuel parseExpression RBRACKET ;;
      expect RBRACKET ;;
      pret (ArrayLiteral elements)
  | IDENTIFIER =>
      advance ;;
      let name := tok_value token in
      next <- peek ;;
      if TokenType_eqb (tok_type next) LPAREN then
        advance ;;
        args <- parseElements fuel parseExpression RPAREN ;;
        expect RPAREN ;;
        indexChain fuel parseExpression
          (CallExpression name args (tok_line token) (tok_column token))
      else if TokenType_eqb (tok_type next) LBRACKET then
        advance ;;
        index <- parseExpression ;;
        expect RBRACKET ;;
        pret (IndexExpression (Identifier name) index)
      else pret (Identifier name)
  | _ =>
      pthrow
        (ThrownLuxbin
           (new_ParseError
              ("Unexpected token " +:+ TokenType_name (tok_type token) +:+ " (" +:+ DQ
               +:+ tok_value token +:+ DQ +:+ ")")
              file (tok_line token) (tok_column token)))
  end.

(** [parseExpression] *)
Fixpoint parseExpression (fuel : nat) : P Expression :=
  match fuel with
  | O => pdiverge
  | S k => parseOr k (parsePrimary k (parseExpression k))
  end.

(** *** Statements *)

(** [while (peek() is not a closing token) { body.push(parseStatement());
    skipNewlines() }]; the end of the input closes every block. *)
Fixpoint blockLoop (fuel : nat) (closing : list TokenType) (parseStatement : P Statement)
    (body : list Statement) : P (list Statement) :=
  match fuel with
  | O => pdiverge
  | S k =>
      token <- peek ;;
      if existsb (TokenType_eqb (tok_type token)) closing then pret body
      else
        stmt <- parseStatement ;;
        skipNewlines fuel ;;
        blockLoop k closing parseStatement (body ++ [stmt])
  end.

(** The optional [: type] after a name. *)
Definition typeAnnotation : P (option string) :=
  colon <- match_ COLON ;;
  if colon then t <- expect IDENTIFIER ;; pret (Some (tok_value t)) else pret None.

Definition parseLetDeclaration (fuel : nat) : P Statement :=
  tok <- expect LET ;;
  name <- expect IDENTIFIER ;;
  annotation <- typeAnnotation ;;
  equals <- match_ EQUALS ;;
  value <- (if equals then e <- parseExpression fuel ;; pret (Some e) else pret None) ;;
  expectNewline ;;
  pret (LetDeclaration (tok_value name) annotation value (tok_line tok) (tok_column tok)).

Definition parseConstDeclaration (fuel : nat) : P Statement :=
  tok <- expect CONST ;;
  name <- expect IDENTIFIER ;;
  annotation <- typeAnnotation ;;
  expect EQUALS ;;
  value <- parseExpression fuel ;;
  expectNewline ;;
  pret (ConstDeclaration (tok_value name) annotation value (tok_line tok) (tok_column tok)).

Definition parseAssignment (fuel : nat) : P Statement :=
  tok <- expect IDENTIFIER ;;
  expect EQUALS ;;
  value <- parseExpression fuel ;;
  expectNewline ;;
  pret (Assignment (tok_value tok) value (tok_line tok) (tok_column tok)).

Definition parseExpressionStatement (fuel : nat) : P Statement :=
  token <- peek ;;
  expression <- parseExpression fuel ;;
  expectNewline ;;
  pret (ExpressionStatement expression (tok_line token) (tok_column token)).

(** [parseIndexAssignmentOrExpression]: when no [=] follows the closing
    bracket, the position is put back and the tokens are parsed again as an
    expression statement. *)
Definition parseIndexAssignmentOrExpression (fuel : nat) : P Statement :=
  fun savedPos =>
    (tok <- expect IDENTIFIER ;;
     expect LBRACKET ;;
     index <- parseExpression fuel ;;
     expect RBRACKET ;;
     next <- peek ;;
     if TokenType_eqb (tok_type next) EQUALS then
       advance ;;
       value <- parseExpression fuel ;;
       expectNewline ;;
       pret (IndexAssignment (tok_value tok) index value (tok_line tok) (tok_column tok))
     else
       fun _ => parseExpressionStatement fuel savedPos) savedPos.

(** The [do ... while (this.match(COMMA))] loop over the parameters. *)
Fixpoint paramLoop (fuel : nat) (params : list (string * option string))
    : P (list (string * option string)) :=
  match fuel with
  | O => pdiverge
  | S k =>
      pName <- expect IDENTIFIER ;;
      pType <- typeAnnotation ;;
      let params := params ++ [(tok_value pName, pType)] in
      more <- match_ COMMA ;;
      if more then paramLoop k params else pret params
  end.

Definition parseFunctionDeclaration (fuel : nat) (parseStatement : P Statement) : P Statement :=
  tok <- expect FUNC ;;
  name <- expect IDENTIFIER ;;
  expect LPAREN ;;
  next <- peek ;;
  params <- (if TokenType_eqb (tok_type next) RPAREN then pret [] else paramLoop fuel []) ;;
  expect RPAREN ;;
  returnType <- typeAnnotation ;;
  expectNewline ;;
  skipNewlines fuel ;;
  body <- blockLoop fuel [END; EOF] parseStatement [] ;;
  expect END ;;
  expectNewline ;;
  pret (FunctionDeclarationStatement
          (mkFunctionDeclaration (tok_value name) params returnType body
             (tok_line tok) (tok_column tok))).

(** The loop [while (peek().type === ELSE)] of [parseIfStatement]: an
    [else if] adds an alternate condition and goes on, an [else] sets the
    alternate and leaves the loop. *)
Fixpoint elseLoop (fuel : nat) (parseStatement : P Statement)
    (alternateConditions : list (Expression * list Statement))
    : P (list (Expression * list Statement) * option (list Statement)) :=
  match fuel with
  | O => pdiverge
  | S k =>
      token <- peek ;;
      if TokenType_eqb (tok_type token) ELSE then
        advance ;;
        next <- peek ;;
        if TokenType_eqb (tok_type next) IF then
          advance ;;
          elifCondition <- parseExpression fuel ;;
          expect THEN ;;
          expectNewline ;;
          skipNewlines fuel ;;
          elifBody <- blockLoop fuel [ELSE; END; EOF] parseStatement [] ;;
          elseLoop k parseStatement (alternateConditions ++ [(elifCondition, elifBody)])
        else
          expectNewline ;;
          skipNewlines fuel ;;
          alternate <- blockLoop fuel [END; EOF] parseStatement [] ;;
          pret (alternateConditions, Some alternate)
      else pret (alternateConditions, None)
  end.

Definition parseIfStatement (fuel : nat) (parseStatement : P Statement) : P Statement :=
  tok <- expect IF ;;
  condition <- parseExpression fuel ;;
  expect THEN ;;
  expectNewline ;;
  skipNewlines fuel ;;
  consequent <- blockLoop fuel [ELSE; END; EOF] parseStatement [] ;;
  alternates <- elseLoop fuel parseStatement [] ;;
  expect END ;;
  expectNewline ;;
  pret (IfStatement condition consequent (fst alternates) (snd alternates)
          (tok_line tok) (tok_column tok)).

Definition parseWhileStatement (fuel : nat) (parseStatement : P Statement) : P Statement :=
  tok <- expect WHILE ;;
  condition <- parseExpression fuel ;;
  expect DO ;;
  expectNewline ;;
  skipNewlines fuel ;;
  body <- blockLoop fuel [END; EOF] parseStatement [] ;;
  expect END ;;
  expectNewline ;;
  pret (WhileStatement condition body (tok_line tok) (tok_column tok)).

Definition parseForStatement (fuel : nat) (parseStatement : P Statement) : P Statement :=
  tok <- expect FOR ;;
  variable <- expect IDENTIFIER ;;
  expect IN ;;
  iterable <- parseExpression fuel ;;
  expect DO ;;
  expectNewline ;;
  skipNewlines fuel ;;
  body <- blockLoop fuel [END; EOF] parseStatement [] ;;
  expect END ;;
  expectNewline ;;
  pret (ForStatement (tok_value variable) iterable body (tok_line tok) (tok_column tok)).

Definition parseReturnStatement (fuel : nat) : P Statement :=
  tok <- expect RETURN ;;
  next <- peek ;;
  value <- (if existsb (TokenType_eqb (tok_type next)) [NEWLINE; EOF] then pret None
            else e <- parseExpression fuel ;; pret (Some e)) ;;
  expectNewline ;;
  pret (ReturnStatement value (tok_line tok) (tok_column tok)).

Definition parseImportStatement : P Statement :=
  tok <- expect IMPORT ;;
  path <- expect STRING ;;
  expectNewline ;;
  pret (ImportStatement (tok_value path) (tok_line tok) (tok_column tok)).

Definition parseTryCatchStatement (fuel : nat) (parseStatement : P Statement) : P Statement :=
  tok <- expect TRY ;;
  expectNewline ;;
  skipNewlines fuel ;;
  tryBody <- blockLoop fuel [CATCH; EOF] parseStatement [] ;;
  expect CATCH ;;
  catchVariable <- expect IDENTIFIER ;;
  expectNewline ;;
  skipNewlines fuel ;;
  catchBody <- blockLoop fuel [END; EOF] parseStatement [] ;;
  expect END ;;
  expectNewline ;;
  pret (TryCatchStatement tryBody (tok_value catchVariable) catchBody
          (tok_line tok) (tok_column tok)).

(** [parseStatement] *)
Fixpoint parseStatement (fuel : nat) : P Statement :=
  match fuel with
  | O => pdiverge
  | S k =>
      token <- peek ;;
      match tok_type token with
      | LET => parseLetDeclaration k
      | CONST => parseConstDeclaration k
      | FUNC => parseFunctionDeclaration k (parseStatement k)
      | IF => parseIfStatement k (parseStatement k)
      | WHILE => parseWhileStatement k (parseStatement k)
      | FOR => parseForStatement k (parseStatement k)
      | RETURN => parseReturnStatement k
      | IMPORT => parseImportStatement
      | TRY => parseTryCatchStatement k (parseStatement k)
      | BREAK =>
          advance ;; expectNewline ;;
          pret (BreakStatement (tok_line token) (tok_column token))
      | CONTINUE =>
          advance ;; expectNewline ;;
          pret (ContinueStatement (tok_line token) (tok_column token))
      | IDENTIFIER =>
          next <- peekAt 1 ;;
          if TokenType_eqb (tok_type next) EQUALS then parseAssignment k
          else if TokenType_eqb (tok_type next) LBRACKET
               then parseIndexAssignmentOrExpression k
               else parseExpressionStatement k
      | _ => parseExpressionStatement k
      end
  end.

(** [parse()]: the statements up to the end of the input. *)
Definition Parser_parse (fuel : nat) : P Program :=
  skipNewlines fuel ;;
  body <- blockLoop fuel [EOF] (parseStatement fuel) [] ;;
  pret (mkProgram body).

End Parser.

(** [new Parser(tokens, file).parse()] *)
Definition parse (Number : string -> float) (fuel : nat) (tokens : list Token)
    (file : string) : Res Program :=
  fst (Parser_parse Number tokens file fuel O).

(** ** The positions recorded in a program tree *)

(** The call nodes of an expression: callee, line and column. *)
Fixpoint Expression_calls (e : Expression) : list (string * (Z * Z)) :=
  match e with
  | BinaryExpression _ l r => Expression_calls l ++ Expression_calls r
  | UnaryExpression _ operand => Expression_calls operand
  | CallExpression callee args line column =>
      (callee, (line, column)) :: flat_map Expression_calls args
  | IndexExpression object index => Expression_calls object ++ Expression_calls index
  | ArrayLiteral elements => flat_map Expression_calls elements
  | _ => []
  end.

(** The line and column of every statement node of a statement, the nested
    ones included. *)
Fixpoint Statement_positions (s : Statement) : list (Z * Z) :=
  match s with
  | IfStatement _ consequent alternateConditions alternate l c =>
      (l, c) :: flat_map Statement_positions consequent
      ++ flat_map (fun alt => flat_map Statement_positions (snd alt)) alternateConditions
      ++ match alternate with
         | Some body => flat_map Statement_positions body
         | None => []
         end
  | WhileStatement _ body l c => (l, c) :: flat_map Statement_positions body
  | ForStatement _ _ body l c => (l, c) :: flat_map Statement_positions body
  | FunctionDeclarationStatement (mkFunctionDeclaration _ _ _ body l c) =>
      (l, c) :: flat_map Statement_positions body
  | TryCatchStatement tryBody _ catchBody l c =>
      (l, c) :: flat_map Statement_positions tryBody ++ flat_map Statement_positions catchBody
  | other => [statement_position other]
  end.

(** The call nodes of a statement. *)
Fixpoint Statement_calls (s : Statement) : list (string * (Z * Z)) :=
  match s with
  | LetDeclaration _ _ value _ _ =>
      match value with Some e => Expression_calls e | None => [] end
  | ConstDeclaration _ _ value _ _ => Expression_calls value
  | Assignment _ value _ _ => Expression_calls value
  | IndexAssignment _ index value _ _ => Expression_calls index ++ Expression_calls value
  | IfStatement condition consequent alternateConditions alternate _ _ =>
      Expression_calls condition ++ flat_map Statement_calls consequent
      ++ flat_map (fun alt => Expression_calls (fst alt) ++ flat_map Statement_calls (snd alt))
           alternateConditions
      ++ match alternate with
         | Some body => flat_map Statement_calls body
         | None => []
         end
  | WhileStatement condition body _ _ =>
      Expression_calls condition ++ flat_map Statement_calls body
  | ForStatement _ iterable body _ _ =>
      Expression_calls iterable ++ flat_map Statement_calls body
  | FunctionDeclarationStatement (mkFunctionDeclaration _ _ _ body _ _) =>
      flat_map Statement_calls body
  | ReturnStatement value _ _ =>
      match value with Some e => Expression_calls e | None => [] end
  | TryCatchStatement tryBody _ catchBody _ _ =>
      flat_map Statement_calls tryBody ++ flat_map Statement_calls catchBody
  | ExpressionStatement expression _ _ => Expression_calls expression
  | _ => []
  end.

(** A [ParseError] of [file] at the position of one of the tokens. *)
Definition positioned (tokens : list Token) (file : string) (e : Thrown) : Prop :=
  exists message token,
    token ∈ tokens /\
    e = ThrownLuxbin (new_ParseError message file (tok_line token) (tok_column token)).

(** The position is the position of one of the tokens. *)
Definition from_token (tokens : list Token) (p : Z * Z) : Prop :=
  exists token, token ∈ tokens /\ (tok_line token, tok_column token) = p.

(** The call node has the name and the position of an identifier token. *)
Definition from_identifier (tokens : list Token) (call : string * (Z * Z)) : Prop :=
  exists token,
    token ∈ tokens /\ tok_type token = IDENTIFIER /\
    (tok_value token, (tok_line token, tok_column token)) = call.

(** Two parsers at a position: both end the same way, with a result inside
    the input that satisfies [Q], or with a positioned [ParseError]. *)
Definition safe (tokens : list Token) (file : string) (eof : nat) {A}
    (Q : A -> nat -> Prop) (p1 p2 : P A) (pos : nat) : Prop :=
  exists r pos',
    p1 pos = (r, pos') /\ p2 pos = (r, pos') /\
    match r with
    | Ok a => (pos' <= eof)%nat /\ Q a pos'
    | Throw e => positioned tokens file e
    | Diverge => False
    end.

(** The array holds an end-of-input token. *)
Definition has_eof (tokens : list Token) : bool :=
  existsb (fun token => TokenType_eqb (tok_type token) EOF) tokens.

(** *** Binding powers *)

(** The parsing function that consumes a binary operator token, counted from
    [parseOr] (1), which binds loosest, to [parseExponent] (7). *)
Definition binding_power (t : TokenType) : option nat :=
  match t with
  | OR => Some 1%nat
  | AND => Some 2%nat
  | DOUBLE_EQUALS | NOT_EQUALS => Some 3%nat
  | LESS_THAN | GREATER_THAN | LESS_EQUALS | GREATER_EQUALS => Some 4%nat
  | PLUS | MINUS => Some 5%nat
  | STAR | SLASH | PERCENT => Some 6%nat
  | CARET => Some 7%nat
  | _ => None
  end.

(** The [operator] field of the node built for an operator token. *)
Definition operator_of (token : Token) : string :=
  match tok_type token with
  | OR => "or"
  | AND => "and"
  | CARET => "^"
  | _ => tok_value token
  end.

(** The parsing functions in the order in which they call one another;
    [parseUnary] comes after the binary levels. *)
Definition parseLevel (tokens : list Token) (n : nat) : nat -> P Expression -> P Expression :=
  match n with
  | 1 => parseOr tokens
  | 2 => parseAnd tokens
  | 3 => parseEquality tokens
  | 4 => parseComparison tokens
  | 5 => parseAddition tokens
  | 6 => parseMultiplication tokens
  | 7 => parseExponent tokens
  | _ => parseUnary tokens
  end%nat.

(** The operator tokens and the operator string of the levels that are
    loops. *)
Definition level_ops (n : nat) : list TokenType :=
  match n with
  | 1 => [OR]
  | 2 => [AND]
  | 3 => [DOUBLE_EQUALS; NOT_EQUALS]
  | 4 => [LESS_THAN; GREATER_THAN; LESS_EQUALS; GREATER_EQUALS]
  | 5 => [PLUS; MINUS]
  | 6 => [STAR; SLASH; PERCENT]
  | _ => []
  end%nat.

Definition level_operator (n : nat) : Token -> string :=
  match n with
  | 1 => fun _ => "or"
  | 2 => fun _ => "and"
  | _ => tok_value
  end%nat.

(** A token after an operand that the levels from [n] on leave alone: an
    operator that binds looser than [n], or a token that is neither a binary
    operator nor an opening bracket or parenthesis. *)
Definition stops (n : nat) (t : Token) : Prop :=
  match binding_power (tok_type t) with
  | Some m => (m < n)%nat
  | None => tok_type t <> LPAREN /\ tok_type t <> LBRACKET
  end.

(** The calls come from identifier tokens, the positions from tokens. *)
Definition calls_ok (tokens : list Token) (calls : list (string * (Z * Z))) : Prop :=
  Forall (from_identifier tokens) calls.

Definition positions_ok (tokens : list Token) (positions : list (Z * Z)) : Prop :=
  Forall (from_token tokens) positions.

(** Postconditions of the parser's functions, started at [pos]: the position
    reached, and where the positions in the result come from. *)
Definition expr_past (tokens : list Token) (pos : nat) (e : Expression) (pos' : nat) : Prop :=
  (pos < pos')%nat /\ calls_ok tokens (Expression_calls e).

Definition expr_after (tokens : list Token) (pos : nat) (e : Expression) (pos' : nat) : Prop :=
  (pos <= pos')%nat /\ calls_ok tokens (Expression_calls e).

Definition exprs_after (tokens : list Token) (pos : nat) (es : list Expression) (pos' : nat)
    : Prop :=
  (pos <= pos')%nat /\ calls_ok tokens (flat_map Expression_calls es).

Definition stmt_past (tokens : list Token) (pos : nat) (s : Statement) (pos' : nat) : Prop :=
  (pos < pos')%nat /\ positions_ok tokens (Statement_positions s)
  /\ calls_ok tokens (Statement_calls s).

Definition stmts_after (tokens : list Token) (pos : nat) (ss : list Statement) (pos' : nat)
    : Prop :=
  (pos <= pos')%nat /\ positions_ok tokens (flat_map Statement_positions ss)
  /\ calls_ok tokens (flat_map Statement_calls ss).

(** ** Token arrays for the examples

    The lexer is not among the sources; the arrays below are what its tests
    say it produces: a keyword, operator or punctuation token carries its
    lexeme, lines and columns count from 1, a line break is a [NEWLINE] token
    and the array ends with an [EOF] token. *)

(** The double nearest to an integer. *)
Definition float_of_Z (z : Z) : float := SF2Prim (binary_normalize prec emax z 0 false).

(** [Number(lexeme)] on unsigned decimal integers. *)
Definition test_Number (lexeme : string) : float :=
  match NilZero.uint_of_string lexeme with
  | Some digits => float_of_Z (Z.of_uint digits)
  | None => nan
  end.

(** [let x = 1 + 2 * 3] *)
Definition tokens_precedence : list Token :=
  [mkToken LET "let" 1 1; mkToken IDENTIFIER "x" 1 5; mkToken EQUALS "=" 1 7;
   mkToken NUMBER "1" 1 9; mkToken PLUS "+" 1 11; mkToken NUMBER "2" 1 13;
   mkToken STAR "*" 1 15; mkToken NUMBER "3" 1 17; mkToken EOF "" 1 18].

(** [let x = 2 ^ 3 ^ 2] *)
Definition tokens_exponent : list Token :=
  [mkToken LET "let" 1 1; mkToken IDENTIFIER "x" 1 5; mkToken EQUALS "=" 1 7;
   mkToken NUMBER "2" 1 9; mkToken CARET "^" 1 11; mkToken NUMBER "3" 1 13;
   mkToken CARET "^" 1 15; mkToken NUMBER "2" 1 17; mkToken EOF "" 1 18].

(** Two lines: [func add(a, b)], [return a + b], [end], [println(add(3, 4))]. *)
Definition tokens_function : list Token :=
  [mkToken FUNC "func" 1 1; mkToken IDENTIFIER "add" 1 6; mkToken LPAREN "(" 1 9;
   mkToken IDENTIFIER "a" 1 10; mkToken COMMA "," 1 11; mkToken IDENTIFIER "b" 1 13;
   mkToken RPAREN ")" 1 14; mkToken NEWLINE LF 1 15;
   mkToken RETURN "return" 2 1; mkToken IDENTIFIER "a" 2 8; mkToken PLUS "+" 2 10;
   mkToken IDENTIFIER "b" 2 12; mkToken NEWLINE LF 2 13;
   mkToken END "end" 3 1; mkToken NEWLINE LF 3 4;
   mkToken IDENTIFIER "println" 4 1; mkToken LPAREN "(" 4 8;
   mkToken IDENTIFIER "add" 4 9; mkToken LPAREN "(" 4 12; mkToken NUMBER "3" 4 13;
   mkToken COMMA "," 4 14; mkToken NUMBER "4" 4 16; mkToken RPAREN ")" 4 17;
   mkToken RPAREN ")" 4 18; mkToken EOF "" 4 19].

(** [if x == 1 then], [let a = 1], [else if x == 2 then], [let a = 2],
    [else], [let a = 3], [end] *)
Definition tokens_else_if : list Token :=
  [mkToken IF "if" 1 1; mkToken IDENTIFIER "x" 1 4; mkToken DOUBLE_EQUALS "==" 1 6;
   mkToken NUMBER "1" 1 9; mkToken THEN "then" 1 11; mkToken NEWLINE LF 1 15;
   mkToken LET "let" 2 1; mkToken IDENTIFIER "a" 2 5; mkToken EQUALS "=" 2 7;
   mkToken NUMBER "1" 2 9; mkToken NEWLINE LF 2 10;
   mkToken ELSE "else" 3 1; mkToken IF "if" 3 6; mkToken IDENTIFIER "x" 3 9;
   mkToken DOUBLE_EQUALS "==" 3 11; mkToken NUMBER "2" 3 14; mkToken THEN "then" 3 16;
   mkToken NEWLINE LF 3 20;
   mkToken LET "let" 4 1; mkToken IDENTIFIER "a" 4 5; mkToken EQUALS "=" 4 7;
   mkToken NUMBER "2" 4 9; mkToken NEWLINE LF 4 10;
   mkToken ELSE "else" 5 1; mkToken NEWLINE LF 5 5;
   mkToken LET "let" 6 1; mkToken IDENTIFIER "a" 6 5; mkToken EQUALS "=" 6 7;
   mkToken NUMBER "3" 6 9; mkToken NEWLINE LF 6 10;
   mkToken END "end" 7 1; mkToken EOF "" 7 4].

(** [arr[1] = 99] and, on the next line, [arr[1]] *)
Definition tokens_index : list Token :=
  [mkToken IDENTIFIER "arr" 1 1; mkToken LBRACKET "[" 1 4; mkToken NUMBER "1" 1 5;
   mkToken RBRACKET "]" 1 6; mkToken EQUALS "=" 1 8; mkToken NUMBER "99" 1 10;
   mkToken NEWLINE LF 1 12;
   mkToken IDENTIFIER "arr" 2 1; mkToken LBRACKET "[" 2 4; mkToken NUMBER "1" 2 5;
   mkToken RBRACKET "]" 2 6; mkToken EOF "" 2 7].

(** [let x = ] with nothing after the equals sign *)
Definition tokens_missing_value : list Token :=
  [mkToken LET "let" 1 1; mkToken IDENTIFIER "x" 1 5; mkToken EQUALS "=" 1 7;
   mkToken EOF "" 1 8].

(** ** The token a node is built from *)

(** The statement nodes of a statement: the statement itself and the
    statements of its blocks, at every depth. *)
Fixpoint Statement_nodes (s : Statement) : list Statement :=
  s ::
  match s with
  | IfStatement _ consequent alternateConditions alternate _ _ =>
      flat_map Statement_nodes consequent
      ++ flat_map (fun alt => flat_map Statement_nodes (snd alt)) alternateConditions
      ++ match alternate with
         | Some body => flat_map Statement_nodes body
         | None => []
         end
  | WhileStatement _ body _ _ => flat_map Statement_nodes body
  | ForStatement _ _ body _ _ => flat_map Statement_nodes body
  | FunctionDeclarationStatement (mkFunctionDeclaration _ _ _ body _ _) =>
      flat_map Statement_nodes body
  | TryCatchStatement tryBody _ catchBody _ _ =>
      flat_map Statement_nodes tryBody ++ flat_map Statement_nodes catchBody
  | _ => []
  end.

(** The token types on which [parseStatement] chooses a statement of its
    own; on every other type the statement is an expression statement, or an
    assignment when the type is [IDENTIFIER]. *)
Definition statement_keyword (t : TokenType) : bool :=
  match t with
  | LET | CONST | FUNC | IF | WHILE | FOR | RETURN | IMPORT | TRY | BREAK | CONTINUE => true
  | _ => false
  end.

(** [token] is a token that a statement node of the kind of [s] starts with. *)
Definition statement_token (s : Statement) (token : Token) : Prop :=
  match s with
  | LetDeclaration _ _ _ _ _ => tok_type token = LET
  | ConstDeclaration _ _ _ _ _ => tok_type token = CONST
  | Assignment name _ _ _ => tok_type token = IDENTIFIER /\ tok_value token = name
  | IndexAssignment name _ _ _ _ => tok_type token = IDENTIFIER /\ tok_value token = name
  | IfStatement _ _ _ _ _ _ => tok_type token = IF
  | WhileStatement _ _ _ _ => tok_type token = WHILE
  | ForStatement _ _ _ _ _ => tok_type token = FOR
  | FunctionDeclarationStatement _ => tok_type token = FUNC
  | ReturnStatement _ _ _ => tok_type token = RETURN
  | BreakStatement _ _ => tok_type token = BREAK
  | ContinueStatement _ _ => tok_type token = CONTINUE
  | ImportStatement _ _ _ => tok_type token = IMPORT
  | TryCatchStatement _ _ _ _ _ => tok_type token = TRY
  | ExpressionStatement _ _ _ => statement_keyword (tok_type token) = false
  end.

(** The statement node [s] was parsed from position [pos] on: the token
    there is its first token, and the node carries the line and the column
    of that token. *)
Definition starts_at (tokens : list Token) (pos : nat) (s : Statement) : Prop :=
  exists token,
    tokens !! pos = Some token /\ statement_token s token
    /\ statement_position s = (tok_line token, tok_column token).

Definition originates (tokens : list Token) (s : Statement) : Prop :=
  exists pos, starts_at tokens pos s.

(** The call node with this callee, line and column was built from an
    identifier token that an opening parenthesis follows. *)
Definition call_token (tokens : list Token) (call : string * (Z * Z)) : Prop :=
  exists pos token next,
    tokens !! pos = Some token /\ tok_type token = IDENTIFIER
    /\ tokens !! S pos = Some next /\ tok_type next = LPAREN
    /\ call = (tok_value token, (tok_line token, tok_column token)).

(** Every result of the parser [p] satisfies [Q]. *)
Definition yields {A} (Q : A -> Prop) (p : P A) : Prop :=
  forall pos a pos', p pos = (Ok a, pos') -> Q a.

Definition calls_from (tokens : list Token) (e : Expression) : Prop :=
  Forall (call_token tokens) (Expression_calls e).

Definition calls_from_all (tokens : list Token) (es : list Expression) : Prop :=
  Forall (call_token tokens) (flat_map Expression_calls es).

Definition nodes_from (tokens : list Token) (s : Statement) : Prop :=
  Forall (originates tokens) (Statement_nodes s)
  /\ Forall (call_token tokens) (Statement_calls s).

Definition block_from (tokens : list Token) (body : list Statement) : Prop :=
  Forall (originates tokens) (flat_map Statement_nodes body)
  /\ Forall (call_token tokens) (flat_map Statement_calls body).

(** The same for the [else if] branches and the [else] branch of an [if]. *)
Definition alternates_from (tokens : list Token)
    (alternates : list (Expression * list Statement) * option (list Statement)) : Prop :=
  Forall (originates tokens)
    (flat_map (fun alt => flat_map Statement_nodes (snd alt)) (fst alternates))
  /\ Forall (call_token tokens)
       (flat_map (fun alt => Expression_calls (fst alt) ++ flat_map Statement_calls (snd alt))
          (fst alternates))
  /\ match snd alternates with
     | Some body => block_from tokens body
     | None => True
     end.

(** ** stdlib: the built-ins of [createStdlib]

    The built-ins whose text uses nothing of the host but numbers and strings
    are embedded here; the others (files, network, process, random numbers,
    trigonometry, sorting, the other string methods of the host) stay with
    the host's [builtin_fn].  A built-in sees its arguments, the arrays and the
    output buffer. *)

Set Warnings "-inexact-float".

Definition Builtin : Type :=
  list LuxValue -> list ArrayObj -> list string ->
  Res LuxValue * (list ArrayObj * list string).

(** [args[i]]: [undefined] past the end of the arguments. *)
Definition arg (i : nat) (args : list LuxValue) : LuxValue :=
  default VUndefined (args !! i).

(** [return v] and [throw new Error(message)] in a built-in. *)
Definition returns (v : LuxValue) (arrs : list ArrayObj) (out : list string)
    : Res LuxValue * (list ArrayObj * list string) :=
  (Ok v, (arrs, out)).

Definition fails (message : string) (arrs : list ArrayObj) (out : list string)
    : Res LuxValue * (list ArrayObj * list string) :=
  (Throw (ThrownError message), (arrs, out)).

(** The [stringify] that io.ts, array.ts, type.ts and string.ts each define
    for themselves: as [stringify] of interpreter.ts, except that a function
    value falls through to [String(value)]. *)
Fixpoint local_stringify_fuel (host : Host) (fuel : nat) (arrs : list ArrayObj) (v : LuxValue)
    : option string :=
  match v with
  | VNil => Some "nil"
  | VBoolean b => Some (if b then "true" else "false")
  | VNumber x => Some (number_to_string host x)
  | VString s => Some s
  | VArray a =>
      match fuel with
      | O => None
      | S fuel' =>
          parts ← map_slots (local_stringify_fuel host fuel' arrs)
                    (default (mkArrayObj [] None) (arrs !! a));
          Some ("[" +:+ String.concat ", " parts +:+ "]")
      end
  | VFunction _ _ _ | VBuiltin _ => Some "[object Object]"
  | VUndefined => Some "undefined"
  end.

(** As for [stringify] of interpreter.ts, an array that contains itself makes
    the recursion overflow the stack. *)
Definition local_stringify (host : Host) (arrs : list ArrayObj) (v : LuxValue)
    : Res string :=
  match local_stringify_fuel host (S (length arrs)) arrs v with
  | Some s => Ok s
  | None => Throw stack_overflow
  end.

(** No function value in [v], to the depth [fuel] of array nesting. *)
Fixpoint function_free (fuel : nat) (arrs : list ArrayObj) (v : LuxValue) : bool :=
  match v with
  | VFunction _ _ _ | VBuiltin _ => false
  | VArray a =>
      match fuel with
      | O => true
      | S fuel' =>
          match arrs !! a with
          | Some obj => forallb (function_free fuel' arrs) (elems obj)
          | None => true
          end
      end
  | _ => true
  end.

(** [args.map(stringify).join(sep)] on the arguments of a call, which have
    no hole; no result when one of them is an array that contains itself. *)
Definition join_stringified (host : Host) (sep : string) (arrs : list ArrayObj)
    (vs : list LuxValue) : option string :=
  parts ← mapM (local_stringify_fuel host (S (length arrs)) arrs) vs;
  Some (String.concat sep parts).

(** [arr.map(stringify).join(sep)] on an array of the heap: a hole gives the
    empty string. *)
Definition join_array (host : Host) (sep : string) (arrs : list ArrayObj)
    (obj : ArrayObj) : option string :=
  parts ← map_slots (local_stringify_fuel host (S (length arrs)) arrs) obj;
  Some (String.concat sep parts).

(** [throw] of what the runtime throws when the stack overflows. *)
Definition overflows (arrs : list ArrayObj) (out : list string)
    : Res LuxValue * (list ArrayObj * list string) :=
  (Throw stack_overflow, (arrs, out)).

(** *** io.ts *)

Definition io_print (host : Host) : Builtin :=
  fun args arrs out =>
    match join_stringified host " " arrs args with
    | Some line => (Ok VNil, (arrs, out ++ [line]))
    | None => overflows arrs out
    end.

Definition io_println (host : Host) : Builtin :=
  fun args arrs out =>
    match join_stringified host " " arrs args with
    | Some line => (Ok VNil, (arrs, out ++ [line]))
    | None => overflows arrs out
    end.

(** [input]: the prompt is computed and dropped. *)
Definition io_input (host : Host) : Builtin :=
  fun args arrs out =>
    match args with
    | [] => returns (VString "") arrs out
    | v :: _ =>
        match local_stringify host arrs v with
        | Ok _ => returns (VString "") arrs out
        | Throw e => (Throw e, (arrs, out))
        | Diverge => (Diverge, (arrs, out))
        end
    end.

(** *** math.ts *)

(** [Math.floor] as a number. *)
Definition Math_floor_number (x : float) : float :=
  match Prim2SF x with
  | S754_finite s m e => float_of_Z (Z.shiftl (if s then Z.neg m else Z.pos m) e)
  | _ => x
  end.

(** [Math.ceil] *)
Definition Math_ceil (x : float) : float := (- Math_floor_number (- x))%float.

(** [Math.round]: the nearest integer, a tie going up; [x - floor x] is
    computed without rounding. *)
Definition Math_round (x : float) : float :=
  let r := Math_floor_number x in
  if (x - r <? 0.5)%float then r
  else if (r =? -1)%float then neg_zero
  else (r + 1)%float.

(** [Number.isInteger] *)
Definition Number_isInteger (x : float) : bool :=
  match Prim2SF x with
  | S754_finite _ _ _ => (Math_floor_number x =? x)%float
  | S754_zero _ => true
  | _ => false
  end.

(** [Math.min] and [Math.max] of two numbers: NaN wins, and [-0] is below
    [+0]. *)
Definition min2 (a b : float) : float :=
  if is_nan a || is_nan b then nan
  else if (a <? b)%float then a
  else if (b <? a)%float then b
  else if get_sign a then a else b.

Definition max2 (a b : float) : float :=
  if is_nan a || is_nan b then nan
  else if (a <? b)%float then b
  else if (b <? a)%float then a
  else if get_sign a then b else a.

Definition Math_min (nums : list float) : float := fold_left min2 nums infinity.
Definition Math_max (nums : list float) : float := fold_left max2 nums neg_infinity.

(** [args.filter((a) => typeof a === "number")] *)
Definition numbers_of (args : list LuxValue) : list float :=
  omap (fun v => match v with VNumber x => Some x | _ => None end) args.

Definition math_unary (name : string) (f : float -> float) : Builtin :=
  fun args arrs out =>
    match arg 0 args with
    | VNumber x => returns (VNumber (f x)) arrs out
    | _ => fails (name +:+ ": expected number") arrs out
    end.

Definition math_pow (host : Host) : Builtin :=
  fun args arrs out =>
    match arg 0 args, arg 1 args with
    | VNumber x, VNumber y => returns (VNumber (Math_pow host x y)) arrs out
    | _, _ => fails "pow: expected two numbers" arrs out
    end.

Definition math_min : Builtin :=
  fun args arrs out =>
    match numbers_of args with
    | [] => fails "min: expected at least one number" arrs out
    | nums => returns (VNumber (Math_min nums)) arrs out
    end.

Definition math_max : Builtin :=
  fun args arrs out =>
    match numbers_of args with
    | [] => fails "max: expected at least one number" arrs out
    | nums => returns (VNumber (Math_max nums)) arrs out
    end.

(** *** string.ts *)

Definition number_of_nat (n : nat) : float := float_of_Z (Z.of_nat n).

Definition string_len : Builtin :=
  fun args arrs out =>
    match arg 0 args with
    | VString s => returns (VNumber (number_of_nat (String.length s))) arrs out
    | VArray a =>
        match arrs !! a with
        | Some obj => returns (VNumber (number_of_nat (length (elems obj)))) arrs out
        | None => fails "len: expected string or array" arrs out
        end
    | _ => fails "len: expected string or array" arrs out
    end.

Definition string_concat (host : Host) : Builtin :=
  fun args arrs out =>
    match join_stringified host "" arrs args with
    | Some s => returns (VString s) arrs out
    | None => overflows arrs out
    end.

Definition string_join (host : Host) : Builtin :=
  fun args arrs out =>
    match arg 0 args with
    | VArray a =>
        match arrs !! a with
        | Some obj =>
            let sep := match arg 1 args with VString s => s | _ => "" end in
            match join_array host sep arrs obj with
            | Some s => returns (VString s) arrs out
            | None => overflows arrs out
            end
        | None => fails "join: expected array" arrs out
        end
    | _ => fails "join: expected array" arrs out
    end.

Definition string_contains : Builtin :=
  fun args arrs out =>
    match arg 0 args, arg 1 args with
    | VString s, VString sub => returns (VBoolean (String_includes sub s)) arrs out
    | _, _ => fails "contains: expected two strings" arrs out
    end.

(** [String.prototype.split] with a string separator and no limit.  With
    the empty separator the pieces are the characters.  Otherwise the string
    is scanned from the left: where the separator starts, the piece read so
    far is closed and the scan goes on behind the separator ([skip] counts
    the characters of the separator still to pass); the piece open at
    the end of the string is the last one. *)
Fixpoint split_from (sep : string) (skip : nat) (piece : string) (s : string)
    : list string :=
  match s with
  | EmptyString => [piece]
  | String c rest =>
      match skip with
      | S skip' => split_from sep skip' piece rest
      | O =>
          if String.prefix sep s
          then piece :: split_from sep (String.length sep - 1) "" rest
          else split_from sep 0 (piece +:+ String c "") rest
      end
  end.

(** The characters of a string, one string each. *)
Fixpoint String_chars (s : string) : list string :=
  match s with
  | EmptyString => []
  | String c rest => String c "" :: String_chars rest
  end.

Definition String_split (sep s : string) : list string :=
  match sep with
  | EmptyString => String_chars s
  | _ => split_from sep 0 "" s
  end.

Definition string_split : Builtin :=
  fun args arrs out =>
    match arg 0 args with
    | VString s =>
        let sep := match arg 1 args with VString sep => sep | _ => "" end in
        (Ok (VArray (length arrs)),
         (arrs ++ [mkArrayObj (map VString (String_split sep s)) None], out))
    | _ => fails "split: expected string" arrs out
    end.

(** [replace]: [args[0].split(args[1]).join(args[2])]. *)
Definition string_replace : Builtin :=
  fun args arrs out =>
    match arg 0 args, arg 1 args, arg 2 args with
    | VString s, VString old, VString new =>
        returns (VString (String.concat new (String_split old s))) arrs out
    | _, _, _ => fails "replace: expected three strings" arrs out
    end.

(** *** array.ts *)

(** [push]: with one argument only, [args[1]] is [undefined]. *)
Definition array_push : Builtin :=
  fun args arrs out =>
    match arg 0 args with
    | VArray a =>
        match arrs !! a with
        | Some obj =>
            (Ok (VArray a),
             (<[a := Build_ArrayObj (slots obj ++ [Some (arg 1 args)]) (NaN_property obj)]> arrs,
              out))
        | None => fails "push: first argument must be an array" arrs out
        end
    | _ => fails "push: first argument must be an array" arrs out
    end.

(** [pop]: [args[0].pop() ?? null]. *)
Definition array_pop : Builtin :=
  fun args arrs out =>
    match arg 0 args with
    | VArray a =>
        match arrs !! a with
        | Some obj =>
            match last (slots obj) with
            | None => fails "pop: array is empty" arrs out
            | Some slot =>
                (Ok (match default VUndefined slot with VUndefined => VNil | v => v end),
                 (<[a := Build_ArrayObj (removelast (slots obj)) (NaN_property obj)]> arrs,
                  out))
            end
        | None => fails "pop: expected array" arrs out
        end
    | _ => fails "pop: expected array" arrs out
    end.

(** [reverse]: [[...args[0]].reverse()] is a new array. *)
Definition array_reverse : Builtin :=
  fun args arrs out =>
    match arg 0 args with
    | VArray a =>
        match arrs !! a with
        | Some obj =>
            (Ok (VArray (length arrs)), (arrs ++ [mkArrayObj (reverse (elems obj)) None], out))
        | None => fails "reverse: expected array" arrs out
        end
    | _ => fails "reverse: expected array" arrs out
    end.

(** [map]: after the checks, the array itself. *)
Definition array_map : Builtin :=
  fun args arrs out =>
    match arg 0 args with
    | VArray a =>
        match arg 1 args with
        | VFunction _ _ _ | VBuiltin _ => returns (VArray a) arrs out
        | _ => fails "map: expected function as second argument" arrs out
        end
    | _ => fails "map: expected array as first argument" arrs out
    end.

Definition array_filter : Builtin :=
  fun args arrs out =>
    match arg 0 args with
    | VArray a => returns (VArray a) arrs out
    | _ => fails "filter: expected array as first argument" arrs out
    end.

(** The loop of [indexOf], from index [i] on. *)
Fixpoint indexOf_from (i : nat) (x : LuxValue) (vs : list LuxValue) : option nat :=
  match vs with
  | [] => None
  | v :: rest => if strict_equal v x then Some i else indexOf_from (S i) x rest
  end.

Definition array_indexOf : Builtin :=
  fun args arrs out =>
    match arg 0 args with
    | VArray a =>
        match arrs !! a with
        | Some obj =>
            match indexOf_from 0 (arg 1 args) (elems obj) with
            | Some i => returns (VNumber (number_of_nat i)) arrs out
            | None => returns (VNumber (-1)) arrs out
            end
        | None => fails "indexOf: expected array" arrs out
        end
    | _ => fails "indexOf: expected array" arrs out
    end.

(** *** type.ts *)

(** [to_bool] *)
Definition type_to_bool : Builtin :=
  fun args arrs out =>
    returns
      (VBoolean
         match arg 0 args with
         | VNil => false
         | VBoolean false => false
         | VNumber x => negb (x =? 0)%float
         | VString "" => false
         | _ => true
         end) arrs out.

(** [to_string] *)
Definition type_to_string (host : Host) : Builtin :=
  fun args arrs out =>
    match local_stringify host arrs (arg 0 args) with
    | Ok s => returns (VString s) arrs out
    | Throw e => (Throw e, (arrs, out))
    | Diverge => (Diverge, (arrs, out))
    end.

(** [type] *)
Definition type_type : Builtin :=
  fun args arrs out =>
    returns
      (VString
         match arg 0 args with
         | VNil => "nil"
         | VNumber x => if Number_isInteger x then "int" else "float"
         | VString _ => "string"
         | VBoolean _ => "bool"
         | VArray _ => "array"
         | VFunction _ _ _ | VBuiltin _ => "function"
         | VUndefined => "unknown"
         end) arrs out.

(** [to_int] and [to_float]; the host converts strings. *)
Definition type_to_int (host : Host) : Builtin :=
  fun args arrs out =>
    match arg 0 args with
    | VNumber x => returns (VNumber (Math_floor_number x)) arrs out
    | VString _ => builtin_fn host "to_int" args arrs out
    | VBoolean b => returns (VNumber (if b then 1 else 0)) arrs out
    | _ => fails "to_int: unsupported type" arrs out
    end.

Definition type_to_float (host : Host) : Builtin :=
  fun args arrs out =>
    match arg 0 args with
    | VNumber x => returns (VNumber x) arrs out
    | VString _ => builtin_fn host "to_float" args arrs out
    | VBoolean b => returns (VNumber (if b then 1 else 0)) arrs out
    | _ => fails "to_float: unsupported type" arrs out
    end.

(** *** quantum.ts *)

Definition quantum_superpose : Builtin :=
  fun args arrs out =>
    match arg 0 args with
    | VArray a => returns (VArray a) arrs out
    | _ => fails "superpose: expected array of states" arrs out
    end.

Definition quantum_entangle : Builtin :=
  fun args arrs out =>
    if (length args <? 2)%nat then fails "entangle: expected two values" arrs out
    else (Ok (VArray (length arrs)),
          (arrs ++ [mkArrayObj [arg 0 args; arg 1 args] None], out)).

(** [s.charCodeAt(0)] *)
Definition charCode (c : Ascii.ascii) : nat := Ascii.nat_of_ascii c.

(** [photon_wavelength]: the wavelength in nanometres of the first
    character, rounded to two decimals. *)
Definition photon_wavelength_of (c : Ascii.ascii) : float :=
  let code := number_of_nat (charCode c mod 128) in
  let wavelength := (380 + code * (400 / 128))%float in
  (Math_round (wavelength * 100) / 100)%float.

Definition quantum_photon_wavelength : Builtin :=
  fun args arrs out =>
    match arg 0 args with
    | VString (String c _) => returns (VNumber (photon_wavelength_of c)) arrs out
    | _ => fails "photon_wavelength: expected a non-empty string" arrs out
    end.

(** [String.fromCharCode(Math.abs(Math.round(((w - 380) * 128) / 400) % 128))];
    the remainder of a number that is not finite is NaN, whose character code
    is 0. *)
Definition photon_char_of (w : float) : Ascii.ascii :=
  match Math_floor (Math_round (((w - 380) * 128) / 400)%float) with
  | FloorInt k => Ascii.ascii_of_nat (Z.to_nat (Z.abs (Z.rem k 128)))
  | _ => Ascii.ascii_of_nat 0
  end.

Definition quantum_photon_char : Builtin :=
  fun args arrs out =>
    match arg 0 args with
    | VNumber w => returns (VString (String (photon_char_of w) EmptyString)) arrs out
    | _ => fails "photon_char: expected a number (wavelength in nm)" arrs out
    end.

Definition SPEED_OF_LIGHT : float := 299792458.

(** [typeof args[0] !== "number" || args[0] <= 0] fails; NaN passes. *)
Definition positive_argument (message : string) (k : float -> LuxValue) : Builtin :=
  fun args arrs out =>
    match arg 0 args with
    | VNumber x => if (x <=? 0)%float then fails message arrs out else returns (k x) arrs out
    | _ => fails message arrs out
    end.

Definition quantum_em_wavelength : Builtin :=
  positive_argument "em_wavelength: expected positive frequency in Hz"
    (fun x => VNumber (SPEED_OF_LIGHT / x)).

Definition quantum_em_frequency : Builtin :=
  positive_argument "em_frequency: expected positive wavelength in meters"
    (fun x => VNumber (SPEED_OF_LIGHT / x)).

(** [EM_BANDS], in the order of [Object.entries]: name, [min], [max]. *)
Definition EM_BANDS : list (string * (float * float)) :=
  [("gamma", (0, 1e-11)); ("xray", (1e-11, 1e-8)); ("ultraviolet", (1e-8, 3.8e-7));
   ("visible", (3.8e-7, 7.8e-7)); ("infrared", (7.8e-7, 1e-3)); ("microwave", (1e-3, 1));
   ("radio", (1, 1e5))]%float.

(** The loop of [em_band] and the expression after it. *)
Fixpoint em_band_of (bands : list (string * (float * float))) (wl : float) : string :=
  match bands with
  | (name, (min, max)) :: rest =>
      if (min <=? wl)%float && (wl <? max)%float then name else em_band_of rest wl
  | [] => if (1e5 <=? wl)%float then "radio" else "gamma"
  end.

Definition quantum_em_band : Builtin :=
  positive_argument "em_band: expected positive wavelength in meters"
    (fun wl => VString (em_band_of EM_BANDS wl)).

(** *** index.ts: [createStdlib] *)

(** The keys of the object [createStdlib] returns, in the order of
    [Object.entries]. *)
Definition createStdlib_names : list string :=
  ["print"; "println"; "input";
   "abs"; "sqrt"; "pow"; "sin"; "cos"; "tan"; "floor"; "ceil"; "round"; "min"; "max";
   "random";
   "len"; "concat"; "slice"; "upper"; "lower"; "split"; "join"; "trim"; "contains";
   "replace";
   "push"; "pop"; "sort"; "reverse"; "range"; "map"; "filter"; "indexOf";
   "to_int"; "to_float"; "to_string"; "to_bool"; "type";
   "fs_read"; "fs_write"; "fs_append"; "fs_exists"; "fs_mkdir"; "fs_readdir"; "fs_remove";
   "fs_basename"; "fs_dirname";
   "net_fetch"; "net_fetch_json"; "json_parse"; "json_stringify";
   "os_args"; "os_env"; "os_exit"; "os_clock"; "os_sleep"; "os_platform"; "os_cwd";
   "superpose"; "measure"; "entangle"; "hadamard"; "photon_wavelength"; "photon_char";
   "em_wavelength"; "em_frequency"; "em_band"; "em_band_label"; "em_channel"; "em_byte";
   "em_freq_label"; "em_bands"; "em_band_range"; "em_app_freq"].

(** The embedded built-ins by name. *)
Definition embedded_builtins (host : Host) : list (string * Builtin) :=
  [("print", io_print host); ("println", io_println host); ("input", io_input host);
   ("abs", math_unary "abs" PrimFloat.abs); ("sqrt", math_unary "sqrt" PrimFloat.sqrt);
   ("pow", math_pow host);
   ("floor", math_unary "floor" Math_floor_number); ("ceil", math_unary "ceil" Math_ceil);
   ("round", math_unary "round" Math_round);
   ("min", math_min); ("max", math_max);
   ("len", string_len); ("concat", string_concat host); ("split", string_split);
   ("join", string_join host); ("contains", string_contains); ("replace", string_replace);
   ("push", array_push); ("pop", array_pop); ("reverse", array_reverse);
   ("map", array_map); ("filter", array_filter); ("indexOf", array_indexOf);
   ("to_int", type_to_int host); ("to_float", type_to_float host);
   ("to_string", type_to_string host); ("to_bool", type_to_bool); ("type", type_type);
   ("superpose", quantum_superpose); ("entangle", quantum_entangle);
   ("photon_wavelength", quantum_photon_wavelength); ("photon_char", quantum_photon_char);
   ("em_wavelength", quantum_em_wavelength); ("em_frequency", quantum_em_frequency);
   ("em_band", quantum_em_band)].

Fixpoint lookup_builtin (name : string) (table : list (string * Builtin)) : option Builtin :=
  match table with
  | [] => None
  | (n, f) :: rest => if String.eqb n name then Some f else lookup_builtin name rest
  end.

(** The callable registered under [name]. *)
Definition stdlib_fn (host : Host) (name : string) : Builtin :=
  match lookup_builtin name (embedded_builtins host) with
  | Some f => f
  | None => builtin_fn host name
  end.

(** The host whose registry is [createStdlib], with the embedded built-ins
    in place of the host's. *)
Definition with_stdlib (host : Host) : Host :=
  mkHost (number_to_string host) (Math_pow host) (number_rem host)
    createStdlib_names (stdlib_fn host)
    (path_dirname host) (path_resolve host) (path_resolve1 host)
    (fs_existsSync host) (fs_readFileSync host) (parse_source host).

(** *** net.ts: JSON values and the two conversions *)

(** What [JSON.parse] returns. *)
Inductive Json :=
| JNull
| JNumber (x : float)
| JString (s : string)
| JBoolean (b : bool)
| JArray (items : list Json)
| JObject (entries : list (string * Json)).

(** [luxbinFromJson]: arrays are created for JSON arrays, and a JSON object
    becomes an array of [[key, value]] pairs. *)
Fixpoint luxbinFromJson (val : Json) (arrs : list ArrayObj) : LuxValue * list ArrayObj :=
  match val with
  | JNull => (VNil, arrs)
  | JNumber x => (VNumber x, arrs)
  | JString s => (VString s, arrs)
  | JBoolean b => (VBoolean b, arrs)
  | JArray items =>
      let '(vs, arrs') :=
        (fix each (items : list Json) (arrs : list ArrayObj) : list LuxValue * list ArrayObj :=
           match items with
           | [] => ([], arrs)
           | item :: rest =>
               let '(v, arrs1) := luxbinFromJson item arrs in
               let '(vs, arrs2) := each rest arrs1 in
               (v :: vs, arrs2)
           end) items arrs in
      (VArray (length arrs'), arrs' ++ [mkArrayObj vs None])
  | JObject entries =>
      let '(pairs, arrs') :=
        (fix each (entries : list (string * Json)) (arrs : list ArrayObj)
           : list LuxValue * list ArrayObj :=
           match entries with
           | [] => ([], arrs)
           | (k, item) :: rest =>
               let '(v, arrs1) := luxbinFromJson item arrs in
               let pair := VArray (length arrs1) in
               let arrs2 := arrs1 ++ [mkArrayObj [VString k; v] None] in
               let '(pairs, arrs3) := each rest arrs2 in
               (pair :: pairs, arrs3)
           end) entries arrs in
      (VArray (length arrs'), arrs' ++ [mkArrayObj pairs None])
  end.

(** [luxbinToJson]; the fuel is spent on array nesting, and there is no
    result for an array that contains itself, on which the recursion overflows
    the stack.  [map] leaves a hole where the array has one, and
    [JSON.stringify] writes a hole as [null], which is also what
    [luxbinToJson] makes of [undefined]. *)
Fixpoint luxbinToJson_fuel (fuel : nat) (arrs : list ArrayObj) (val : LuxValue)
    : option Json :=
  match val with
  | VNil => Some JNull
  | VNumber x => Some (JNumber x)
  | VString s => Some (JString s)
  | VBoolean b => Some (JBoolean b)
  | VArray a =>
      match fuel with
      | O => None
      | S fuel' =>
          match arrs !! a with
          | None => None
          | Some obj => items ← mapM (luxbinToJson_fuel fuel' arrs) (elems obj); Some (JArray items)
          end
      end
  | _ => Some JNull
  end.

Definition luxbinToJson (arrs : list ArrayObj) (val : LuxValue) : option Json :=
  luxbinToJson_fuel (S (length arrs)) arrs val.

(** A JSON value with every object written as the array of its [[key,
    value]] pairs. *)
Fixpoint entries_as_pairs (val : Json) : Json :=
  match val with
  | JArray items => JArray (map entries_as_pairs items)
  | JObject entries =>
      JArray (map (fun kv => JArray [JString (fst kv); entries_as_pairs (snd kv)]) entries)
  | other => other
  end.

(** The two loops of [luxbinFromJson], by name. *)
Definition luxbinFromJson_items : list Json -> list ArrayObj -> list LuxValue * list ArrayObj :=
  fix each (items : list Json) (arrs : list ArrayObj) : list LuxValue * list ArrayObj :=
    match items with
    | [] => ([], arrs)
    | item :: rest =>
        let '(v, arrs1) := luxbinFromJson item arrs in
        let '(vs, arrs2) := each rest arrs1 in
        (v :: vs, arrs2)
    end.

Definition luxbinFromJson_entries
    : list (string * Json) -> list ArrayObj -> list LuxValue * list ArrayObj :=
  fix each (entries : list (string * Json)) (arrs : list ArrayObj)
    : list LuxValue * list ArrayObj :=
    match entries with
    | [] => ([], arrs)
    | (k, item) :: rest =>
        let '(v, arrs1) := luxbinFromJson item arrs in
        let pair := VArray (length arrs1) in
        let arrs2 := arrs1 ++ [mkArrayObj [VString k; v] None] in
        let '(pairs, arrs3) := each rest arrs2 in
        (pair :: pairs, arrs3)
    end.

(** ** Environments: scopes *)

(** Every parent is older than its child: [new Environment(parent)] is the
    only place that sets [parent], and the parent exists by then. *)
Definition wf_envs (es : list Environment) : Prop :=
  forall i fr p, es !! i = Some fr -> parent fr = Some p -> (p < i)%nat.

(** The arguments a call binds to its parameters: [i < args.length ?
    args[i] : null]. *)
Definition bound_argument (args : list LuxValue) (i : nat) : LuxValue :=
  default VNil (args !! i).

(** The position of the last parameter called [name]. *)
Definition last_parameter (params : list (string * option string)) (name : string) (i : nat)
    : Prop :=
  (exists ty, params !! i = Some (name, ty))
  /\ forall j ty, (i < j)%nat -> params !! j <> Some (name, ty).

(** ** The shape of the heap *)

(** A function value points to an environment that exists. *)
Definition value_ok (n : nat) (v : LuxValue) : Prop :=
  match v with VFunction _ _ closure => (closure < n)%nat | _ => True end.

Definition array_ok (n : nat) (obj : ArrayObj) : Prop :=
  Forall (value_ok n) (elems obj) /\ forall v, NaN_property obj = Some v -> value_ok n v.

Definition environment_ok (n : nat) (fr : Environment) : Prop :=
  Forall (fun kv => value_ok n (value (snd kv))) (vars fr).

Definition completion_ok (n : nat) (c : Completion) : Prop :=
  match c with ReturnSignal v => value_ok n v | _ => True end.

(** The environments form a forest in which every parent is older than its
    children, and every closure stored in a variable or in an array is an
    environment of the heap. *)
Definition heap_ok (h : Heap) : Prop :=
  wf_envs (envs h)
  /\ Forall (environment_ok (length (envs h))) (envs h)
  /\ Forall (array_ok (length (envs h))) (arrays h).

(** What the evaluator needs of a built-in: it invents no closure. *)
Definition builtin_ok
    (f : list LuxValue -> list ArrayObj -> list string ->
         Res LuxValue * (list ArrayObj * list string)) : Prop :=
  forall n args arrs out,
    Forall (value_ok n) args -> Forall (array_ok n) arrs ->
    Forall (array_ok n) (fst (snd (f args arrs out)))
    /\ match fst (f args arrs out) with Ok v => value_ok n v | _ => True end.

Definition host_ok (host : Host) : Prop := forall name, builtin_ok (builtin_fn host name).

(** What it needs of the import callback, once [n0] environments exist. *)
Definition import_ok (n0 : nat) (f : ImportCallback) : Prop :=
  forall path file h l,
    heap_ok h -> (n0 <= length (envs h))%nat ->
    heap_ok (fst (snd (f path file h l)))
    /\ (length (envs h) <= length (envs (fst (snd (f path file h l)))))%nat.

Definition callback_ok (n0 : nat) (onImport : option ImportCallback) : Prop :=
  match onImport with Some f => import_ok n0 f | None => True end.

(** [m], started in a good heap with at least [n0] environments, ends in a
    good heap with no fewer environments, and its result satisfies [Q] there. *)
Definition keeps {A} (n0 : nat) (Q : nat -> A -> Prop) (m : M A) : Prop :=
  forall st,
    heap_ok (heap st) -> (n0 <= length (envs (heap st)))%nat ->
    heap_ok (heap (snd (m st)))
    /\ (length (envs (heap st)) <= length (envs (heap (snd (m st)))))%nat
    /\ match fst (m st) with
       | Ok a => Q (length (envs (heap (snd (m st))))) a
       | _ => True
       end.

(** No condition on the result. *)
Definition anything {A} : nat -> A -> Prop := fun _ _ => True.

(** ** repl.ts: the line handler *)

Definition BLOCK_OPENERS : list string := ["func"; "if"; "while"; "for"; "try"].

(** [BLOCK_OPENERS.includes(word)] *)
Definition is_opener (word : string) : bool := existsb (String.eqb word) BLOCK_OPENERS.

(** One turn of the loop over the words of a line: [if
    (BLOCK_OPENERS.includes(word)) depth++; if (word === "end") depth =
    Math.max(0, depth - 1)]. *)
Definition track_word (depth : nat) (word : string) : nat :=
  let depth := if is_opener word then S depth else depth in
  if String.eqb word "end" then Nat.pred depth else depth.

Definition track_depth (words : list string) (depth : nat) : nat :=
  fold_left track_word words depth.

(** What [handleLine] does after it has looked at a line. *)
Inductive ReplAction :=
| ReplExit
| ReplHelp
| ReplClear
| ReplWait                 (* prompt again, with the continuation prompt *)
| ReplBlank                (* prompt again, nothing to run *)
| ReplRun (source : string).

(** [handleLine(line)] on the variables [buffer] and [depth] of [startRepl];
    [trim] is [String.prototype.trim] and [words] is [s => s.split(/\s+/)]. *)
Definition handleLine (trim : string -> string) (words : string -> list string)
    (line : string) (buffer : string) (depth : nat) : ReplAction * (string * nat) :=
  let command :=
    if Nat.eqb depth 0 then
      let trimmed := trim line in
      if String.eqb trimmed ".exit" || String.eqb trimmed ".quit" then Some ReplExit
      else if String.eqb trimmed ".help" then Some ReplHelp
      else if String.eqb trimmed ".clear" then Some ReplClear
      else None
    else None in
  match command with
  | Some action => (action, (buffer, depth))
  | None =>
      let buffer := buffer +:+ (if String.eqb buffer "" then "" else LF) +:+ line in
      let depth := track_depth (words (trim line)) depth in
      if Nat.ltb 0 depth then (ReplWait, (buffer, depth))
      else if String.eqb (trim buffer) "" then (ReplBlank, ("", O))
      else (ReplRun buffer, ("", O))
  end.

(** The lines typed one after the other; the actions, oldest first. *)
Fixpoint handleLines (trim : string -> string) (words : string -> list string)
    (lines : list string) (buffer : string) (depth : nat) : list ReplAction :=
  match lines with
  | [] => []
  | line :: rest =>
      let '(action, (buffer, depth)) := handleLine trim words line buffer depth in
      action :: handleLines trim words rest buffer depth
  end.

(** The number of block openers and of [end]s among the words. *)
Definition count_openers (words : list string) : nat :=
  length (List.filter is_opener words).

Definition count_ends (words : list string) : nat :=
  length (List.filter (fun word => String.eqb word "end") words).

(** The lines that are commands of the REPL itself. *)
Definition is_command (trimmed : string) : bool :=
  String.eqb trimmed ".exit" || String.eqb trimmed ".quit" || String.eqb trimmed ".help"
  || String.eqb trimmed ".clear".

(** A stand-in for [split(/\s+/)] on the lines of the examples, which hold
    single spaces only. *)
Fixpoint split_spaces (word : string) (s : string) : list string :=
  match s with
  | EmptyString => [word]
  | String c rest =>
      if Ascii.eqb c (Ascii.ascii_of_nat 32) then word :: split_spaces "" rest
      else split_spaces (word +:+ String c "") rest
  end.

(** An [if] / [else if] chain, typed line by line. *)
Definition else_if_lines : list string :=
  ["if a then"; "x = 1"; "else if b then"; "x = 2"; "end"].

(** Two files: [main.lux] imports [shapes]; [shapes.lux] defines a function,
    a constant, a mutable variable and a constant named like a built-in:
<<
    func double(n)           # line 1
      return n * 2
    end
    const PI = 3             # line 4
    let counter = 0          # line 5
    const println = 7        # line 6
>> *)
Definition export_files : list (string * Program) :=
  [("main.lux", mkProgram [ImportStatement "shapes" 1 1]);
   ("shapes.lux",
    mkProgram
      [func "double" ["n"]
         [ReturnStatement (Some (BinaryExpression "*" (Identifier "n") (num 2))) 2 1] 1;
       ConstDeclaration "PI" None (num 3) 4 1;
       LetDeclaration "counter" None (Some (num 0)) 5 1;
       ConstDeclaration "println" None (num 7) 6 1])].

(** ** Data for the instances *)

(** [-2 ^ 2] *)
Definition tokens_unary : list Token :=
  [mkToken MINUS "-" 1 1; mkToken NUMBER "2" 1 2; mkToken CARET "^" 1 4;
   mkToken NUMBER "2" 1 6; mkToken EOF "" 1 7].

(** The array [[1, 2]]. *)
Definition one_two : ArrayObj := mkArrayObj [VNumber 1; VNumber 2] None.

(** A global environment with [x = 1], and an empty block under it. *)
Definition global_x : Environment := mkEnvironment [("x", mkEntry (VNumber 1) false)] None.
Definition two_scopes : list Environment := [global_x; mkEnvironment [] (Some O)].

(** The state in which the call [f(1)] of [func f(a, b)] binds its
    parameters: the environment of the call is empty. *)
Definition call_state : IState :=
  mkIState (mkHeap [mkEnvironment [] None] [] O []) empty_loader 0 [].

(** The right-hand side of an index assignment shortens the array after the
    bounds check:
<<
    let a = [1, 2, 3]        # line 1
    func shrink()            # line 2
      pop(a)
      pop(a)
      return 9
    end
    a[2] = shrink()          # line 7
    println(a)
    println(len(a))
    println(a[1])
>> *)
Definition hole_example : Program :=
  mkProgram
    [let_ "a" (ArrayLiteral [num 1; num 2; num 3]) 1;
     func "shrink" []
       [stmt_expr (call "pop" [ident "a"] 3) 3;
        stmt_expr (call "pop" [ident "a"] 4) 4;
        ReturnStatement (Some (num 9)) 5 1] 2;
     IndexAssignment "a" (num 2) (call "shrink" [] 7) 7 1;
     println (ident "a") 8;
     println (call "len" [ident "a"] 9) 9;
     println (IndexExpression (ident "a") (num 1)) 10].

(** An array that contains itself, printed by [+] and by [println]:
<<
    let a = [1]              # line 1
    push(a, a)
    try                      # line 3
      let s = "" + a
    catch e
      println(e)             # line 6
    end
    println(a)               # line 8
>> *)
Definition cycle_example : Program :=
  mkProgram
    [let_ "a" (ArrayLiteral [num 1]) 1;
     stmt_expr (call "push" [ident "a"; ident "a"] 2) 2;
     TryCatchStatement
       [let_ "s" (binop "+" (StringLiteral EmptyString) (ident "a")) 4]
       "e" [println (ident "e") 6] 3 1;
     println (ident "a") 8].

(** An index that is NaN:
<<
    let a = [1]              # line 1
    println(a[sqrt(0 - 1)])
    a[sqrt(0 - 1)] = 5       # line 3
    println(a[sqrt(0 - 1)])
    println(a)
>> *)
Definition nan_index_example : Program :=
  mkProgram
    [let_ "a" (ArrayLiteral [num 1]) 1;
     println (IndexExpression (ident "a") (call "sqrt" [binop "-" (num 0) (num 1)] 2)) 2;
     IndexAssignment "a" (call "sqrt" [binop "-" (num 0) (num 1)] 3) (num 5) 3 1;
     println (IndexExpression (ident "a") (call "sqrt" [binop "-" (num 0) (num 1)] 4)) 4;
     println (ident "a") 5].

(** * Properties *)

(** ** A relational reading of the evaluator

    Many properties of the evaluator relate two runs of the same code (with
    less and more fuel, under two budgets) or state an invariant of one run.
    All of them follow one traversal of the evaluator: a relation [T] on
    computations that is closed under the operations the evaluator is written
    with relates the evaluator to itself. *)

Section Parametricity.

Context (host : Host) (file : string) (limit1 limit2 : Z)
        (onImport : option ImportCallback).
Context (T : forall A : Type, M A -> M A -> Prop).

Hypothesis T_ret : forall A (a : A), T A (ret a) (ret a).
Hypothesis T_bind : forall A B (m1 m2 : M A) (k1 k2 : A -> M B),
  T A m1 m2 -> (forall a, T B (k1 a) (k2 a)) -> T B (bind m1 k1) (bind m2 k2).
Hypothesis T_throw : forall A e, T A (throw e) (throw e).
Hypothesis T_diverge : forall A, T A diverge diverge.
Hypothesis T_tryCatch : forall A (m1 m2 : M A) (h1 h2 : Thrown -> M A),
  T A m1 m2 -> (forall e, T A (h1 e) (h2 e)) -> T A (tryCatch m1 h1) (tryCatch m2 h2).
Hypothesis T_liftHeap : forall A (f : Heap -> Res A * Heap), T A (liftHeap f) (liftHeap f).
Hypothesis T_throwRuntimeError : forall A message line column,
  T A (throwRuntimeError file message line column)
      (throwRuntimeError file message line column).
Hypothesis T_step : T unit (step file limit1) (step file limit2).
Hypothesis T_withFrame : forall A frame (m1 m2 : M A),
  T A m1 m2 -> T A (withFrame frame m1) (withFrame frame m2).
Hypothesis T_importCall : forall callback path,
  onImport = Some callback ->
  T unit (importCall callback path file) (importCall callback path file).

Ltac T_leaf :=
  first
    [ apply T_ret | apply T_throw | apply T_diverge | apply T_throwRuntimeError
    | apply T_step | apply T_liftHeap ].

Ltac T_case :=
  match goal with
  | |- T _ (match ?x with _ => _ end) _ => destruct x
  | |- T _ (if ?b then _ else _) _ => destruct b
  end.

Ltac T_go :=
  repeat first
    [ T_leaf
    | apply T_withFrame
    | apply T_bind; [ | intros ]
    | apply T_tryCatch; [ | intros ]
    | T_case ].

Lemma T_mapM_ A B (f1 f2 : A -> M B) (l : list A) :
  (forall a, T B (f1 a) (f2 a)) -> T (list B) (mapM_ f1 l) (mapM_ f2 l).
Proof.
  intros Hf. induction l as [|x l IH]; simpl; T_go; auto.
Qed.

Lemma T_bindParams funcEnv params args :
  T unit (bindParams funcEnv params args) (bindParams funcEnv params args).
Proof.
  revert args. induction params as [|[name ty] params IH]; intros args; simpl; T_go.
  apply IH.
Qed.

Lemma T_executeBlockWith (exec1 exec2 : Statement -> nat -> M Completion) statements env :
  (forall s e, T Completion (exec1 s e) (exec2 s e)) ->
  T Completion (executeBlockWith exec1 statements env)
               (executeBlockWith exec2 statements env).
Proof.
  intros Hexec. induction statements as [|s rest IH]; simpl; T_go; auto.
Qed.

Lemma T_stringifyM v : T string (stringifyM host v) (stringifyM host v).
Proof. unfold stringifyM. T_go. Qed.

Lemma T_evaluateBinaryOp op left right :
  T LuxValue (evaluateBinaryOp host file op left right)
             (evaluateBinaryOp host file op left right).
Proof.
  unfold evaluateBinaryOp.
  repeat first [ T_leaf | apply T_bind; [ | intros ] | apply T_stringifyM | T_case ].
Qed.

Lemma T_indexValue obj index :
  T LuxValue (indexValue host file obj index) (indexValue host file obj index).
Proof. unfold indexValue, getArray, readHeap. T_go. Qed.

Section Bodies.

Context (evalE1 evalE2 : Expression -> nat -> M LuxValue)
        (execS1 execS2 : Statement -> nat -> M Completion)
        (whileL1 whileL2 : Expression -> list Statement -> nat -> M Completion)
        (forL1 forL2 : nat -> nat -> string -> list Statement -> nat -> M Completion).
Hypothesis T_evalE : forall e env, T LuxValue (evalE1 e env) (evalE2 e env).
Hypothesis T_execS : forall s env, T Completion (execS1 s env) (execS2 s env).
Hypothesis T_whileL : forall c b env, T Completion (whileL1 c b env) (whileL2 c b env).
Hypothesis T_forL : forall a i v b env,
  T Completion (forL1 a i v b env) (forL2 a i v b env).

Ltac T_rec :=
  repeat first
    [ T_leaf
    | apply T_evalE | apply T_whileL | apply T_forL
    | apply T_executeBlockWith; [ exact T_execS ]
    | apply T_mapM_; [ intros ]
    | apply T_bindParams | apply T_evaluateBinaryOp | apply T_indexValue
    | apply T_importCall; [ assumption ]
    | apply T_withFrame
    | apply T_bind; [ | intros ]
    | apply T_tryCatch; [ | intros ]
    | T_case ].

Lemma T_evaluateExpressionBody expr env :
  T LuxValue (evaluateExpressionBody host file limit1 evalE1 execS1 expr env)
             (evaluateExpressionBody host file limit2 evalE2 execS2 expr env).
Proof.
  unfold evaluateExpressionBody, envGet, newArray, callBuiltin, newEnvironment.
  destruct expr; T_rec.
Qed.

Lemma T_alternates alts alternate env :
  T Completion (alternates evalE1 execS1 alts alternate env)
               (alternates evalE2 execS2 alts alternate env).
Proof.
  unfold newEnvironment.
  induction alts as [|[c b] rest IH]; simpl; T_rec. apply IH.
Qed.

Lemma T_executeStatementBody stmt env :
  T Completion
    (executeStatementBody host file limit1 onImport evalE1 execS1 whileL1 forL1 stmt env)
    (executeStatementBody host file limit2 onImport evalE2 execS2 whileL2 forL2 stmt env).
Proof.
  unfold executeStatementBody, envGet, envSet, define, newFunction, newEnvironment,
    getArray, putArray, readHeap.
  destruct stmt;
    try match goal with
        | |- context [importCall] =>
            generalize T_importCall; destruct onImport as [callback|]; intros T_call
        end;
    repeat first [ apply T_alternates | apply T_call; reflexivity | T_rec ].
Qed.

Lemma T_whileLoopBody condition body env :
  T Completion
    (whileLoopBody file limit1 evalE1 execS1 whileL1 condition body env)
    (whileLoopBody file limit2 evalE2 execS2 whileL2 condition body env).
Proof. unfold whileLoopBody, newEnvironment. T_rec. Qed.

Lemma T_forLoopBody a i variable body env :
  T Completion
    (forLoopBody file limit1 execS1 forL1 a i variable body env)
    (forLoopBody file limit2 execS2 forL2 a i variable body env).
Proof. unfold forLoopBody, getArray, readHeap, newEnvironment, define. T_rec. Qed.

End Bodies.

(** The evaluator under the two budgets, with the same fuel. *)
Lemma T_evaluator (n : nat) :
  (forall e env, T LuxValue (evaluateExpression host file limit1 onImport n e env)
                            (evaluateExpression host file limit2 onImport n e env)) /\
  (forall s env, T Completion (executeStatement host file limit1 onImport n s env)
                              (executeStatement host file limit2 onImport n s env)) /\
  (forall c b env, T Completion (whileLoop host file limit1 onImport n c b env)
                                (whileLoop host file limit2 onImport n c b env)) /\
  (forall a i v b env, T Completion (forLoop host file limit1 onImport n a i v b env)
                                    (forLoop host file limit2 onImport n a i v b env)).
Proof.
  induction n as [|n (IHe & IHs & IHw & IHf)]; simpl.
  - repeat split; intros; apply T_diverge.
  - repeat split; intros.
    + apply T_evaluateExpressionBody; assumption.
    + apply T_executeStatementBody; assumption.
    + apply T_whileLoopBody; assumption.
    + apply T_forLoopBody; assumption.
Qed.

(** The evaluator with [n] and with [n + 1] units of fuel, when [T] relates
    the computation without result to every computation. *)
Lemma T_evaluator_fuel (n : nat) :
  (forall A (m : M A), T A diverge m) ->
  (forall e env, T LuxValue (evaluateExpression host file limit1 onImport n e env)
                            (evaluateExpression host file limit2 onImport (S n) e env)) /\
  (forall s env, T Completion (executeStatement host file limit1 onImport n s env)
                              (executeStatement host file limit2 onImport (S n) s env)) /\
  (forall c b env, T Completion (whileLoop host file limit1 onImport n c b env)
                                (whileLoop host file limit2 onImport (S n) c b env)) /\
  (forall a i v b env, T Completion (forLoop host file limit1 onImport n a i v b env)
                                    (forLoop host file limit2 onImport (S n) a i v b env)).
Proof.
  intros T_bottom.
  induction n as [|n (IHe & IHs & IHw & IHf)].
  - repeat split; intros; apply T_bottom.
  - repeat split; intros.
    + apply T_evaluateExpressionBody; assumption.
    + apply T_executeStatementBody; assumption.
    + apply T_whileLoopBody; assumption.
    + apply T_forLoopBody; assumption.
Qed.

End Parametricity.

(** ** More fuel gives the same result *)

Section Refinement.

Context (host : Host) (file : string) (limit : Z) (onImport : option ImportCallback).

Lemma refines_refl A (m : M A) : refines m m.
Proof. intros st r st' H _. exact H. Qed.

Lemma refines_diverge A (m : M A) : refines diverge m.
Proof. intros st r st' H Hr. inversion H; subst. congruence. Qed.

Lemma refines_bind A B (m1 m2 : M A) (k1 k2 : A -> M B) :
  refines m1 m2 -> (forall a, refines (k1 a) (k2 a)) -> refines (bind m1 k1) (bind m2 k2).
Proof.
  intros Hm Hk st r st' H Hr. unfold bind in *.
  destruct (m1 st) as [[a|e|] st1] eqn:E1.
  - rewrite (Hm _ _ _ E1) by discriminate. apply Hk; assumption.
  - rewrite (Hm _ _ _ E1) by discriminate. exact H.
  - inversion H; subst. congruence.
Qed.

Lemma refines_tryCatch A (m1 m2 : M A) (h1 h2 : Thrown -> M A) :
  refines m1 m2 -> (forall e, refines (h1 e) (h2 e)) ->
  refines (tryCatch m1 h1) (tryCatch m2 h2).
Proof.
  intros Hm Hh st r st' H Hr. unfold tryCatch in *.
  destruct (m1 st) as [[a|e|] st1] eqn:E1.
  - rewrite (Hm _ _ _ E1) by discriminate. exact H.
  - rewrite (Hm _ _ _ E1) by discriminate. apply Hh; assumption.
  - inversion H; subst. congruence.
Qed.

Lemma refines_withFrame A frame (m1 m2 : M A) :
  refines m1 m2 -> refines (withFrame frame m1) (withFrame frame m2).
Proof.
  intros Hm. unfold withFrame.
  apply refines_bind; [apply refines_refl|intros _].
  apply refines_bind; [exact Hm|intros a]. apply refines_refl.
Qed.

(** One more unit of fuel. *)
Lemma fuel_S (n : nat) :
  (forall e env, refines (evaluateExpression host file limit onImport n e env)
                         (evaluateExpression host file limit onImport (S n) e env)) /\
  (forall s env, refines (executeStatement host file limit onImport n s env)
                         (executeStatement host file limit onImport (S n) s env)) /\
  (forall c b env, refines (whileLoop host file limit onImport n c b env)
                           (whileLoop host file limit onImport (S n) c b env)) /\
  (forall a i v b env, refines (forLoop host file limit onImport n a i v b env)
                               (forLoop host file limit onImport (S n) a i v b env)).
Proof.
  apply (T_evaluator_fuel host file limit limit onImport (@refines)).
  - intros; apply refines_refl.
  - apply refines_bind.
  - intros; apply refines_refl.
  - apply refines_tryCatch.
  - intros; apply refines_refl.
  - intros; apply refines_refl.
  - apply refines_refl.
  - apply refines_withFrame.
  - intros; apply refines_refl.
  - apply refines_diverge.
Qed.

Lemma evaluateExpression_fuel n m e env st r st' :
  (n <= m)%nat -> r <> Diverge ->
  evaluateExpression host file limit onImport n e env st = (r, st') ->
  evaluateExpression host file limit onImport m e env st = (r, st').
Proof.
  intros Hle Hr. induction Hle as [|m Hle IH]; intros H; [exact H|].
  apply (proj1 (fuel_S m)); auto.
Qed.

Lemma executeStatement_fuel n m s env st r st' :
  (n <= m)%nat -> r <> Diverge ->
  executeStatement host file limit onImport n s env st = (r, st') ->
  executeStatement host file limit onImport m s env st = (r, st').
Proof.
  intros Hle Hr. induction Hle as [|m Hle IH]; intros H; [exact H|].
  apply (proj1 (proj2 (fuel_S m))); auto.
Qed.

Lemma refines_executeBlockWith (exec1 exec2 : Statement -> nat -> M Completion) stmts env :
  (forall s e, refines (exec1 s e) (exec2 s e)) ->
  refines (executeBlockWith exec1 stmts env) (executeBlockWith exec2 stmts env).
Proof.
  intros Hexec. induction stmts as [|s rest IH]; simpl.
  - apply refines_refl.
  - apply refines_bind; [apply Hexec|]. intros [ | | | ]; auto using refines_refl.
Qed.

Lemma executeBlock_fuel n m stmts env st r st' :
  (n <= m)%nat -> r <> Diverge ->
  executeBlock host file limit onImport n stmts env st = (r, st') ->
  executeBlock host file limit onImport m stmts env st = (r, st').
Proof.
  intros Hle Hr H. unfold executeBlock in *.
  refine (refines_executeBlockWith _ _ stmts env _ st r st' H Hr).
  intros s e st0 r0 st0' H0 Hr0. eapply executeStatement_fuel; eauto.
Qed.

End Refinement.

(** ** Entering an expression or a statement *)

Section Entry.

Context (host : Host) (file : string) (limit : Z) (onImport : option ImportCallback).

Lemma step_within st :
  steps st < limit -> step file limit st = (Ok tt, entered st).
Proof.
  intros H. unfold step, entered. simpl.
  destruct (Z.ltb_spec limit (steps st + 1)); [lia|reflexivity].
Qed.

Lemma step_beyond st :
  limit <= steps st ->
  step file limit st =
    (Throw (ThrownRuntime (new_RuntimeError budget_message file 0 0 (callStack st))),
     entered st).
Proof.
  intros H. unfold step, entered. simpl.
  destruct (Z.ltb_spec limit (steps st + 1)); [reflexivity|lia].
Qed.

Lemma evaluateExpression_entry n expr env st :
  steps st < limit ->
  evaluateExpression host file limit onImport (S n) expr env st =
    evaluateExpressionBody host file limit
      (evaluateExpression host file limit onImport n)
      (executeStatement host file limit onImport n) expr env st.
Proof. reflexivity. Qed.

End Entry.

(** ** Short-circuit evaluation of [and] and [or] *)

Section ShortCircuit.

Context (host : Host) (file : string) (onImport : option ImportCallback).

Lemma binary_and_unfold n l r env st :
  steps st < STEP_LIMIT ->
  evaluateExpression host file STEP_LIMIT onImport (S n) (BinaryExpression "and" l r) env st =
    (left <- evaluateExpression host file STEP_LIMIT onImport n l env ;;
     if negb (isTruthy left) then ret left
     else evaluateExpression host file STEP_LIMIT onImport n r env) (entered st).
Proof.
  intros H. simpl. unfold evaluateExpressionBody, bind at 1.
  rewrite step_within by assumption. reflexivity.
Qed.

Lemma binary_or_unfold n l r env st :
  steps st < STEP_LIMIT ->
  evaluateExpression host file STEP_LIMIT onImport (S n) (BinaryExpression "or" l r) env st =
    (left <- evaluateExpression host file STEP_LIMIT onImport n l env ;;
     if isTruthy left then ret left
     else evaluateExpression host file STEP_LIMIT onImport n r env) (entered st).
Proof.
  intros H. simpl. unfold evaluateExpressionBody, bind at 1.
  rewrite step_within by assumption. reflexivity.
Qed.

(** The left operand alone decides: whatever the right operand is. *)
Lemma left_decides l env st lres st1 (op : string) :
  steps st < STEP_LIMIT ->
  op = "and" \/ op = "or" ->
  evaluates host file onImport l env (entered st) lres st1 ->
  match lres with
  | Ok lv => (if String.eqb op "and" then negb (isTruthy lv) else isTruthy lv) = true
  | _ => True
  end ->
  forall r, evaluates host file onImport (BinaryExpression op l r) env st lres st1.
Proof.
  intros Hst Hop (n & Hl & Hnd) Hdec r. exists (S n). split; [|exact Hnd].
  destruct Hop as [-> | ->].
  - rewrite binary_and_unfold by assumption. unfold bind. rewrite Hl.
    destruct lres as [lv| |]; try reflexivity. simpl in Hdec. rewrite Hdec. reflexivity.
  - rewrite binary_or_unfold by assumption. unfold bind. rewrite Hl.
    destruct lres as [lv| |]; try reflexivity. simpl in Hdec. rewrite Hdec. reflexivity.
Qed.

(** The left operand does not decide: the result is the right operand's. *)
Lemma right_decides l r env st lv st1 rres st2 (op : string) :
  steps st < STEP_LIMIT ->
  op = "and" \/ op = "or" ->
  evaluates host file onImport l env (entered st) (Ok lv) st1 ->
  (if String.eqb op "and" then negb (isTruthy lv) else isTruthy lv) = false ->
  evaluates host file onImport r env st1 rres st2 ->
  evaluates host file onImport (BinaryExpression op l r) env st rres st2.
Proof.
  intros Hst Hop (n & Hl & _) Hdec (m & Hr & Hnd).
  exists (S (Nat.max n m)). split; [|exact Hnd].
  apply (evaluateExpression_fuel host file STEP_LIMIT onImport n (Nat.max n m)) in Hl;
    [|lia|discriminate].
  apply (evaluateExpression_fuel host file STEP_LIMIT onImport m (Nat.max n m)) in Hr;
    [|lia|assumption].
  destruct Hop as [-> | ->].
  - rewrite binary_and_unfold by assumption. unfold bind. rewrite Hl.
    simpl in Hdec. rewrite Hdec. exact Hr.
  - rewrite binary_or_unfold by assumption. unfold bind. rewrite Hl.
    simpl in Hdec. rewrite Hdec. exact Hr.
Qed.

(** C4. In [l and r] and [l or r] the left operand is evaluated first, from
    the state in which the expression was entered.  When it throws, the
    expression throws the same.  When its truthiness decides (falsy for [and],
    truthy for [or]) the expression returns the left value in the state the
    left operand left, whatever the right operand is: [r] is not evaluated.
    Otherwise the result and the final state are those of evaluating [r] next. *)
Theorem and_or_short_circuit (l : Expression) (env : nat) (st st1 : IState)
    (lres : Res LuxValue) :
  steps st < STEP_LIMIT ->
  evaluates host file onImport l env (entered st) lres st1 ->
  match lres with
  | Ok lv =>
      (isTruthy lv = false ->
       forall r, evaluates host file onImport (BinaryExpression "and" l r) env st (Ok lv) st1)
      /\ (isTruthy lv = true ->
          forall r rres st2,
            evaluates host file onImport r env st1 rres st2 ->
            evaluates host file onImport (BinaryExpression "and" l r) env st rres st2)
      /\ (isTruthy lv = true ->
          forall r, evaluates host file onImport (BinaryExpression "or" l r) env st (Ok lv) st1)
      /\ (isTruthy lv = false ->
          forall r rres st2,
            evaluates host file onImport r env st1 rres st2 ->
            evaluates host file onImport (BinaryExpression "or" l r) env st rres st2)
  | _ =>
      forall r,
        evaluates host file onImport (BinaryExpression "and" l r) env st lres st1
        /\ evaluates host file onImport (BinaryExpression "or" l r) env st lres st1
  end.
Proof.
  intros Hst Hl. destruct lres as [lv|e|].
  - repeat split; intros Ht; intros.
    + apply (left_decides l env st (Ok lv) st1 "and"); auto. simpl. now rewrite Ht.
    + apply (right_decides l r env st lv st1 rres st2 "and"); auto. simpl. now rewrite Ht.
    + apply (left_decides l env st (Ok lv) st1 "or"); auto.
    + apply (right_decides l r env st lv st1 rres st2 "or"); auto.
  - intros r. split.
    + apply (left_decides l env st (Throw e) st1 "and"); auto.
    + apply (left_decides l env st (Throw e) st1 "or"); auto.
  - destruct Hl as (n & _ & Hnd). congruence.
Qed.

End ShortCircuit.

(** An instance: [false and unbound] is [false] after two steps, although
    evaluating [unbound] would throw. *)
Lemma and_or_short_circuit_witness :
  evaluates (test_host []) "<stdin>" None
    (BinaryExpression "and" (BooleanLiteral false) (Identifier "unbound")) 0
    (initial_state (test_host [])) (Ok (VBoolean false))
    (entered (entered (initial_state (test_host [])))).
Proof.
  refine (proj1 (and_or_short_circuit (test_host []) "<stdin>" None (BooleanLiteral false) 0
                   (initial_state (test_host []))
                   (entered (entered (initial_state (test_host []))))
                   (Ok (VBoolean false)) _ _) eq_refl _).
  - vm_compute. reflexivity.
  - exists 1%nat. split; [vm_compute; reflexivity | discriminate].
Defined.

(** ** [try]/[catch] *)

Section TryCatch.

Context (host : Host) (file : string) (onImport : option ImportCallback).

Lemma newEnvironment_run parent st :
  newEnvironment (Some parent) st = (Ok (child_env st), with_child_env parent st).
Proof. reflexivity. Qed.

Lemma define_run env name v c st :
  define env name v c st = (Ok tt, with_binding env name v c st).
Proof. reflexivity. Qed.

Lemma define_fresh es parent name v c :
  Environment_define (es ++ [mkEnvironment [] parent]) (length es) name v c =
  es ++ [mkEnvironment [(name, mkEntry v c)] parent].
Proof.
  unfold Environment_define.
  rewrite lookup_app_r by lia. rewrite Nat.sub_diag. simpl.
  rewrite insert_app_r_alt by lia. rewrite Nat.sub_diag. reflexivity.
Qed.

Lemma try_catch_unfold n tryBody catchVariable catchBody line column env st :
  steps st < STEP_LIMIT ->
  executeStatement host file STEP_LIMIT onImport (S n)
    (TryCatchStatement tryBody catchVariable catchBody line column) env st =
  match executeBlock host file STEP_LIMIT onImport n tryBody (child_env (entered st))
          (with_child_env env (entered st)) with
  | (Throw e, st1) =>
      executeBlock host file STEP_LIMIT onImport n catchBody (child_env st1)
        (with_binding (child_env st1) catchVariable (VString (thrown_message e)) false
           (with_child_env env st1))
  | other => other
  end.
Proof.
  intros H. simpl. unfold executeStatementBody, bind at 1.
  rewrite step_within by assumption.
  unfold tryCatch, bind. rewrite newEnvironment_run. unfold executeBlock.
  destruct (executeBlockWith _ tryBody _ _) as [[c|e|] st1]; reflexivity.
Qed.


End TryCatch.


(** ** Error strings *)

Lemma append_assoc (a b c : string) : (a +:+ b) +:+ c = a +:+ (b +:+ c).
Proof.
  induction a as [|x a IH]; [reflexivity|].
  change (String x ((a +:+ b) +:+ c) = String x (a +:+ (b +:+ c))). now rewrite IH.
Qed.

Lemma append_empty_r (a : string) : a +:+ "" = a.
Proof.
  induction a as [|x a IH]; [reflexivity|].
  change (String x (a +:+ "") = String x a). now rewrite IH.
Qed.

Lemma format_frame_location frame :
  format_frame frame =
  LF +:+ "  at " +:+ sf_name frame +:+ " ("
  +:+ location (sf_file frame) (sf_line frame) (sf_column frame) +:+ ")".
Proof. unfold format_frame, location. now rewrite !append_assoc. Qed.

Lemma fold_frames frames (acc : string) :
  fold_left (fun acc frame => acc +:+ format_frame frame) frames acc =
  acc +:+ frame_lines frames.
Proof.
  revert acc. induction frames as [|frame rest IH]; intros acc; simpl.
  - now rewrite append_empty_r.
  - rewrite IH, format_frame_location. now rewrite !append_assoc.
Qed.

Lemma LuxbinError_format_shape (e : LuxbinError) :
  LuxbinError_format e =
  err_name e +:+ ": " +:+ err_message e
  +:+ (if 0 <? err_line e
       then " at " +:+ location (err_file e) (err_line e) (err_column e) else "").
Proof. unfold LuxbinError_format, location. destruct (0 <? err_line e); reflexivity. Qed.

Lemma RuntimeError_format_shape (e : RuntimeError) :
  RuntimeError_format e =
  err_name (rt_base e) +:+ ": " +:+ err_message (rt_base e)
  +:+ (if 0 <? err_line (rt_base e)
       then LF +:+ "  at "
            +:+ location (err_file (rt_base e)) (err_line (rt_base e)) (err_column (rt_base e))
       else "")
  +:+ frame_lines (rt_callStack e).
Proof.
  unfold RuntimeError_format. rewrite fold_frames. unfold location.
  destruct (0 <? err_line (rt_base e)); rewrite ?append_assoc; simpl;
    rewrite ?append_assoc; reflexivity.
Qed.

Section RuntimeErrors.

Context (host : Host) (file : string) (limit : Z) (onImport : option ImportCallback).

Lemma undefined_variable_error n name env st :
  steps st < limit ->
  Environment_lookup (envs (heap st)) env name = None ->
  evaluateExpression host file limit onImport (S n) (Identifier name) env st =
    (Throw (ThrownRuntime
       (new_RuntimeError ("Undefined variable: '" +:+ name +:+ "'") file 0 0 (callStack st))),
     entered st).
Proof.
  intros Hst Hlook. simpl. unfold evaluateExpressionBody, bind.
  rewrite step_within by assumption.
  unfold tryCatch, envGet, liftHeap, Environment_get. simpl. rewrite Hlook. reflexivity.
Qed.

Lemma division_by_zero_error (op : string) l r st :
  op = "/" \/ op = "%" ->
  PrimFloat.eqb r 0%float = true ->
  evaluateBinaryOp host file op (VNumber l) (VNumber r) st =
    (Throw (ThrownRuntime (new_RuntimeError "Division by zero" file 0 0 (callStack st))), st).
Proof.
  intros [-> | ->] Hr; unfold evaluateBinaryOp; simpl; rewrite Hr; reflexivity.
Qed.

Lemma index_error_position obj index st e st' :
  indexValue host file obj index st = (Throw e, st') ->
  exists message,
    e = ThrownRuntime (new_RuntimeError message file 0 0 (callStack st)) /\ st' = st.
Proof.
  unfold indexValue, bind, getArray, readHeap, liftHeap, throwRuntimeError, ret.
  intros H. destruct st as [h ld n cs].
  destruct obj, index; simpl in H;
    repeat match type of H with
           | context [if ?b then _ else _] => destruct b
           end;
    inversion H; subst; eexists; split; reflexivity.
Qed.

End RuntimeErrors.

(** C7, as the code has it.  [LuxbinError.format] gives [KIND: message],
    followed by [ at FILE:LINE:COLUMN] only when the line is positive.
    [RuntimeError.format] gives [KIND: message], then on a line of its own
    [  at FILE:LINE:COLUMN] only when the line is positive, then one line
    [  at NAME (FILE:LINE:COLUMN)] per call frame.  The runtime errors raised
    while evaluating an expression for an undefined variable, a division by
    zero or an index carry line 0 and column 0, so their formatted string has
    no location: it is [RuntimeError: message] and the frame lines. *)
Theorem error_string_shape :
  (forall e : LuxbinError,
     LuxbinError_format e =
     err_name e +:+ ": " +:+ err_message e
     +:+ (if 0 <? err_line e
          then " at " +:+ location (err_file e) (err_line e) (err_column e) else ""))
  /\ (forall e : RuntimeError,
        RuntimeError_format e =
        err_name (rt_base e) +:+ ": " +:+ err_message (rt_base e)
        +:+ (if 0 <? err_line (rt_base e)
             then LF +:+ "  at "
                  +:+ location (err_file (rt_base e)) (err_line (rt_base e))
                        (err_column (rt_base e))
             else "")
        +:+ frame_lines (rt_callStack e))
  /\ (forall message file frames,
        RuntimeError_format (new_RuntimeError message file 0 0 frames) =
        "RuntimeError: " +:+ message +:+ frame_lines frames)
  /\ (forall host file limit onImport n name env st,
        steps st < limit ->
        Environment_lookup (envs (heap st)) env name = None ->
        evaluateExpression host file limit onImport (S n) (Identifier name) env st =
          (Throw (ThrownRuntime
             (new_RuntimeError ("Undefined variable: '" +:+ name +:+ "'") file 0 0
                (callStack st))),
           entered st))
  /\ (forall host file (op : string) l r st,
        op = "/" \/ op = "%" ->
        PrimFloat.eqb r 0%float = true ->
        evaluateBinaryOp host file op (VNumber l) (VNumber r) st =
          (Throw (ThrownRuntime (new_RuntimeError "Division by zero" file 0 0 (callStack st))),
           st))
  /\ (forall host file obj index st e st',
        indexValue host file obj index st = (Throw e, st') ->
        exists message,
          e = ThrownRuntime (new_RuntimeError message file 0 0 (callStack st)) /\ st' = st).
Proof.
  split; [exact LuxbinError_format_shape|].
  split; [exact RuntimeError_format_shape|].
  split; [intros; rewrite RuntimeError_format_shape; reflexivity|].
  split; [intros; apply undefined_variable_error; assumption|].
  split; [intros; apply division_by_zero_error; assumption|].
  intros. eapply index_error_position; eassumption.
Qed.

(** The claim as the specification states it fails on the program [xyz]: the
    error string of the run has no file, line or column. *)
Lemma error_string_without_location :
  error_of (run (test_host []) 3 undefined_variable_example) =
  Some (Some "RuntimeError: Undefined variable: 'xyz'").
Proof. vm_compute. reflexivity. Qed.

(** ** The export rule of the module loader *)

Lemma vars_get_set_eq name en vs : vars_get name (vars_set name en vs) = Some en.
Proof.
  induction vs as [|[k old] rest IH]; simpl.
  - now rewrite String.eqb_refl.
  - destruct (String.eqb k name) eqn:E; simpl; rewrite E; [reflexivity|exact IH].
Qed.

Lemma vars_get_set_ne name name' en vs :
  name' <> name -> vars_get name' (vars_set name en vs) = vars_get name' vs.
Proof.
  intros Hne. induction vs as [|[k old] rest IH]; simpl.
  - destruct (String.eqb_spec name name'); [congruence|reflexivity].
  - destruct (String.eqb_spec k name) as [->|Hk]; simpl.
    + destruct (String.eqb_spec name name'); [congruence|reflexivity].
    + destruct (String.eqb k name'); [reflexivity|exact IH].
Qed.

Lemma define_lookup es this name v c e :
  Environment_define es this name v c !! e =
  match es !! e with
  | Some fr =>
      if Nat.eqb e this
      then Some (mkEnvironment (vars_set name (mkEntry v c) (vars fr)) (parent fr))
      else Some fr
  | None => None
  end.
Proof.
  unfold Environment_define. destruct (es !! this) as [fr|] eqn:Ethis.
  - destruct (Nat.eqb_spec e this) as [->|Hne].
    + rewrite Ethis. apply list_lookup_insert_eq. eapply lookup_lt_Some; eauto.
    + rewrite list_lookup_insert_ne by congruence. destruct (es !! e); reflexivity.
  - destruct (Nat.eqb_spec e this) as [->|Hne].
    + now rewrite Ethis.
    + destruct (es !! e); reflexivity.
Qed.

Lemma define_length es this name v c :
  length (Environment_define es this name v c) = length es.
Proof. unfold Environment_define. destruct (es !! this); [apply length_insert|reflexivity]. Qed.

Lemma define_getOwnEntry_eq es this name v c fr :
  es !! this = Some fr ->
  Environment_getOwnEntry (Environment_define es this name v c) this name = Some (mkEntry v c).
Proof.
  intros H. unfold Environment_getOwnEntry. rewrite define_lookup, H, Nat.eqb_refl. simpl.
  apply vars_get_set_eq.
Qed.

Lemma define_getOwnEntry_ne es this name v c e name' :
  name' <> name ->
  Environment_getOwnEntry (Environment_define es this name v c) e name' =
  Environment_getOwnEntry es e name'.
Proof.
  intros Hne. unfold Environment_getOwnEntry. rewrite define_lookup.
  destruct (es !! e) as [fr|]; [|reflexivity].
  destruct (Nat.eqb e this); [|reflexivity]. simpl. now apply vars_get_set_ne.
Qed.

Lemma define_getOwnEntry_other es this name v c e name' :
  e <> this ->
  Environment_getOwnEntry (Environment_define es this name v c) e name' =
  Environment_getOwnEntry es e name'.
Proof.
  intros Hne. unfold Environment_getOwnEntry. rewrite define_lookup.
  destruct (es !! e) as [fr|]; [|reflexivity].
  destruct (Nat.eqb_spec e this); [congruence|reflexivity].
Qed.

Lemma define_find_ne fuel es this name v c e name' :
  name' <> name ->
  Environment_find fuel (Environment_define es this name v c) e name' =
  Environment_find fuel es e name'.
Proof.
  intros Hne. revert e. induction fuel as [|fuel IH]; intros e; simpl; [reflexivity|].
  rewrite define_lookup. destruct (es !! e) as [fr|]; [|reflexivity].
  destruct (Nat.eqb e this); simpl; [|destruct (vars_get name' (vars fr)); [reflexivity|];
    destruct (parent fr); [apply IH|reflexivity]].
  rewrite vars_get_set_ne by assumption.
  destruct (vars_get name' (vars fr)); [reflexivity|].
  destruct (parent fr); [apply IH|reflexivity].
Qed.

Lemma define_has_ne es this name v c e name' :
  name' <> name ->
  Environment_has (Environment_define es this name v c) e name' = Environment_has es e name'.
Proof.
  intros Hne. unfold Environment_has, Environment_lookup.
  now rewrite define_length, define_find_ne.
Qed.

Lemma has_own es this name en :
  Environment_getOwnEntry es this name = Some en -> Environment_has es this name = true.
Proof.
  unfold Environment_getOwnEntry, Environment_has, Environment_lookup.
  destruct (es !! this) as [fr|] eqn:E; [|discriminate]. intros H.
  assert (Hlen : (this < length es)%nat) by (eapply lookup_lt_Some; eauto).
  destruct (length es) as [|k]; [lia|]. simpl. now rewrite E, H.
Qed.

Lemma has_false_own es this name :
  Environment_has es this name = false -> Environment_getOwnEntry es this name = None.
Proof.
  intros H. destruct (Environment_getOwnEntry es this name) as [en|] eqn:E; [|reflexivity].
  apply has_own in E. congruence.
Qed.

(** What one turn of the loop does. *)
Lemma mergeExport_cases globalEnv moduleEnv es name :
  mergeExport globalEnv moduleEnv es name = es
  \/ exists en,
       Environment_getOwnEntry es moduleEnv name = Some en
       /\ exported en = true
       /\ Environment_has es globalEnv name = false
       /\ mergeExport globalEnv moduleEnv es name =
          Environment_define es globalEnv name (value en) (constant en).
Proof.
  unfold mergeExport.
  destruct (Environment_getOwnEntry es moduleEnv name) as [en|] eqn:E; [|now left].
  destruct (Environment_has es globalEnv name) eqn:Hhas.
  - left. destruct (value en); try reflexivity; destruct (constant en); reflexivity.
  - unfold exported.
    destruct (value en) eqn:Ev; simpl;
      try (destruct (constant en) eqn:Ec; [right; exists en; rewrite Ev, Ec; auto|now left]);
      right; exists en; rewrite Ev; auto.
Qed.

Lemma mergeExport_unexported globalEnv moduleEnv es name :
  match Environment_getOwnEntry es moduleEnv name with
  | Some en => exported en = false
  | None => True
  end ->
  mergeExport globalEnv moduleEnv es name = es.
Proof.
  intros H. destruct (mergeExport_cases globalEnv moduleEnv es name) as [Heq|(en & E & Hex & _)];
    [exact Heq|]. rewrite E in H. congruence.
Qed.

Lemma mergeExport_exported globalEnv moduleEnv es name en :
  Environment_getOwnEntry es moduleEnv name = Some en ->
  exported en = true ->
  Environment_has es globalEnv name = false ->
  mergeExport globalEnv moduleEnv es name =
  Environment_define es globalEnv name (value en) (constant en).
Proof.
  intros Hen Hex Hhas. unfold mergeExport. rewrite Hen, Hhas.
  unfold exported in Hex.
  destruct (value en); simpl in Hex; try rewrite Hex; reflexivity.
Qed.

Lemma mergeExports_fold globalEnv moduleEnv names : forall es gframe,
  es !! globalEnv = Some gframe ->
  let es' := fold_left (mergeExport globalEnv moduleEnv) names es in
  (forall name,
     Environment_getOwnEntry es' globalEnv name =
     if Environment_has es globalEnv name
     then Environment_getOwnEntry es globalEnv name
     else if bool_decide (name ∈ names) then
       match Environment_getOwnEntry es moduleEnv name with
       | Some en => if exported en then Some en else None
       | None => None
       end
     else None)
  /\ (forall e name, e <> globalEnv ->
        Environment_getOwnEntry es' e name = Environment_getOwnEntry es e name)
  /\ length es' = length es.
Proof.
  induction names as [|n0 rest IH]; intros es gframe Hg; cbn [fold_left]; cbv zeta.
  - repeat split; auto. intros name.
    destruct (Environment_has es globalEnv name) eqn:Hhas; [reflexivity|].
    case_bool_decide as Hin; [set_solver|]. now apply has_false_own.
  - destruct (mergeExport_cases globalEnv moduleEnv es n0)
      as [Heq|(en & Hen & Hex & Hhas & Heq)]; rewrite Heq.
    + (* this turn changes nothing *)
      destruct (IH es gframe Hg) as (IH1 & IH2 & IH3). repeat split; auto.
      intros name. rewrite IH1.
      destruct (Environment_has es globalEnv name) eqn:Hn; [reflexivity|].
      destruct (decide (name = n0)) as [->|Hne].
      * assert (Hun : match Environment_getOwnEntry es moduleEnv n0 with
                      | Some en => exported en = false
                      | None => True
                      end).
        { destruct (Environment_getOwnEntry es moduleEnv n0) as [en|] eqn:Hen; [|exact I].
          destruct (exported en) eqn:Hex; [|reflexivity]. exfalso.
          assert (Hown : Environment_getOwnEntry es globalEnv n0 = None)
            by now apply has_false_own.
          assert (Hnew : Environment_getOwnEntry
                           (Environment_define es globalEnv n0 (value en) (constant en))
                           globalEnv n0 = Some (mkEntry (value en) (constant en)))
            by (eapply define_getOwnEntry_eq; eauto).
          rewrite (mergeExport_exported _ _ _ _ _ Hen Hex Hn) in Heq.
          rewrite Heq in Hnew. congruence. }
        repeat case_bool_decide; try reflexivity; try set_solver;
          destruct (Environment_getOwnEntry es moduleEnv n0) as [en|]; try reflexivity;
          now rewrite Hun.
      * repeat case_bool_decide; try reflexivity; set_solver.
    + (* this turn defines [n0] in the global environment *)
      assert (Hmg : moduleEnv <> globalEnv).
      { intros ->. apply has_own in Hen. congruence. }
      set (es1 := Environment_define es globalEnv n0 (value en) (constant en)).
      assert (Hg1 : exists gframe1, es1 !! globalEnv = Some gframe1).
      { unfold es1. rewrite define_lookup, Hg, Nat.eqb_refl. eauto. }
      destruct Hg1 as (gframe1 & Hg1).
      destruct (IH es1 gframe1 Hg1) as (IH1 & IH2 & IH3).
      repeat split.
      * intros name. rewrite IH1.
        destruct (decide (name = n0)) as [->|Hne].
        -- assert (Hown1 : Environment_getOwnEntry es1 globalEnv n0
                           = Some (mkEntry (value en) (constant en)))
             by (eapply define_getOwnEntry_eq; eauto).
           rewrite (has_own _ _ _ _ Hown1), Hown1, Hhas.
           case_bool_decide; [|set_solver].
           rewrite Hen, Hex. destruct en; reflexivity.
        -- unfold es1. rewrite define_has_ne by assumption.
           rewrite !define_getOwnEntry_ne by assumption.
           destruct (Environment_has es globalEnv name); [reflexivity|].
           repeat case_bool_decide; try reflexivity; set_solver.
      * intros e name He. rewrite IH2 by assumption.
        unfold es1. now apply define_getOwnEntry_other.
      * rewrite IH3. apply define_length.
Qed.

Lemma getOwnEntry_not_own es this name :
  name ∉ Environment_getOwnNames es this -> Environment_getOwnEntry es this name = None.
Proof.
  unfold Environment_getOwnNames, Environment_getOwnEntry.
  destruct (es !! this) as [fr|]; [|reflexivity].
  induction (vars fr) as [|[k en] rest IH]; simpl; [reflexivity|]. intros Hnot.
  destruct (String.eqb_spec k name) as [->|Hne]; [set_solver|].
  apply IH. set_solver.
Qed.

(** After [mergeExports(moduleEnv)], for every name: a name the global
    environment already had keeps its binding (nothing is overwritten); a name
    it did not have is bound there exactly when the module's own bindings
    hold it with a user function, a built-in or a constant, and then to the
    module's own entry; a non-constant binding of another value is not
    propagated.  Nothing else changes: the other environments, the arrays and
    the output are as before. *)
Lemma mergeExports_rule (globalEnv moduleEnv : nat) (h : Heap)
    (gframe : Environment) :
  envs h !! globalEnv = Some gframe ->
  (forall name,
     Environment_getOwnEntry (envs (ModuleLoader_mergeExports globalEnv moduleEnv h))
       globalEnv name =
     if Environment_has (envs h) globalEnv name
     then Environment_getOwnEntry (envs h) globalEnv name
     else
       match Environment_getOwnEntry (envs h) moduleEnv name with
       | Some en => if exported en then Some en else None
       | None => None
       end)
  /\ (forall e name, e <> globalEnv ->
        Environment_getOwnEntry (envs (ModuleLoader_mergeExports globalEnv moduleEnv h)) e name
        = Environment_getOwnEntry (envs h) e name)
  /\ arrays (ModuleLoader_mergeExports globalEnv moduleEnv h) = arrays h
  /\ output (ModuleLoader_mergeExports globalEnv moduleEnv h) = output h.
Proof.
  intros Hg. unfold ModuleLoader_mergeExports. simpl.
  destruct (mergeExports_fold globalEnv moduleEnv
              (Environment_getOwnNames (envs h) moduleEnv) (envs h) gframe Hg)
    as (H1 & H2 & _).
  repeat split; auto.
  intros name. rewrite H1.
  destruct (Environment_has (envs h) globalEnv name); [reflexivity|].
  case_bool_decide as Hin; [reflexivity|].
  now rewrite getOwnEntry_not_own.
Qed.

(** On [export_example]: the function and the constant are propagated, the
    mutable variable is not, and [println] keeps its built-in. *)
Example mergeExports_example :
  map fst <$> (vars <$> envs (ModuleLoader_mergeExports 0 1 export_example) !! O)
  = Some ["println"; "double"; "PI"]
  /\ Environment_get (envs (ModuleLoader_mergeExports 0 1 export_example)) 0 "println"
     = Ok (VBuiltin "println").
Proof. split; vm_compute; reflexivity. Qed.

(** ** The step budget *)

Section Budget.

Context (host : Host) (file : string) (limit1 limit2 : Z)
        (onImport : option ImportCallback).
Hypothesis limits : limit1 <= limit2.

Lemma within_budget_same A (m : M A) :
  (forall st r st', m st = (r, st') -> steps st <= steps st') ->
  within_budget limit1 m m.
Proof. intros H st r st' E. split; [eapply H; eauto|auto]. Qed.

Lemma within_budget_bind A B (m1 m2 : M A) (k1 k2 : A -> M B) :
  within_budget limit1 m1 m2 -> (forall a, within_budget limit1 (k1 a) (k2 a)) ->
  within_budget limit1 (bind m1 k1) (bind m2 k2).
Proof.
  intros Hm Hk st r st' H. unfold bind in *.
  destruct (m1 st) as [[a|e|] st1] eqn:E1.
  - destruct (Hm _ _ _ E1) as [Hle1 Hm2]. destruct (Hk a _ _ _ H) as [Hle2 Hk2].
    split; [lia|]. intros Hlim. rewrite Hm2 by lia. auto.
  - inversion H; subst. destruct (Hm _ _ _ E1) as [Hle1 Hm2].
    split; [lia|]. intros Hlim. now rewrite Hm2.
  - inversion H; subst. destruct (Hm _ _ _ E1) as [Hle1 Hm2].
    split; [lia|]. intros Hlim. now rewrite Hm2.
Qed.

Lemma within_budget_tryCatch A (m1 m2 : M A) (h1 h2 : Thrown -> M A) :
  within_budget limit1 m1 m2 -> (forall e, within_budget limit1 (h1 e) (h2 e)) ->
  within_budget limit1 (tryCatch m1 h1) (tryCatch m2 h2).
Proof.
  intros Hm Hh st r st' H. unfold tryCatch in *.
  destruct (m1 st) as [[a|e|] st1] eqn:E1.
  - inversion H; subst. destruct (Hm _ _ _ E1) as [Hle1 Hm2].
    split; [lia|]. intros Hlim. now rewrite Hm2.
  - destruct (Hm _ _ _ E1) as [Hle1 Hm2]. destruct (Hh e _ _ _ H) as [Hle2 Hh2].
    split; [lia|]. intros Hlim. rewrite Hm2 by lia. auto.
  - inversion H; subst. destruct (Hm _ _ _ E1) as [Hle1 Hm2].
    split; [lia|]. intros Hlim. now rewrite Hm2.
Qed.

Lemma within_budget_step : within_budget limit1 (step file limit1) (step file limit2).
Proof.
  intros st r st' H. unfold step in *. simpl in *.
  destruct (Z.ltb_spec limit1 (steps st + 1)); inversion H; subst; simpl.
  - split; [lia|]. intros. lia.
  - split; [lia|]. intros _.
    destruct (Z.ltb_spec limit2 (steps st + 1)); [lia|reflexivity].
Qed.

Lemma within_budget_liftHeap A (f : Heap -> Res A * Heap) :
  within_budget limit1 (liftHeap f) (liftHeap f).
Proof.
  apply within_budget_same. intros st r st' H. unfold liftHeap in H.
  destruct (f (heap st)) as [r0 h]. inversion H; subst. simpl. lia.
Qed.

Lemma within_budget_withFrame A frame (m1 m2 : M A) :
  within_budget limit1 m1 m2 ->
  within_budget limit1 (withFrame frame m1) (withFrame frame m2).
Proof.
  intros Hm. unfold withFrame.
  apply within_budget_bind.
  - apply within_budget_same. intros st r st' H. inversion H; subst. simpl. lia.
  - intros _. apply within_budget_bind; [exact Hm|]. intros a.
    apply within_budget_bind.
    + apply within_budget_same. intros st r st' H. inversion H; subst. simpl. lia.
    + intros _. apply within_budget_same. intros st r st' H. inversion H; subst. lia.
Qed.

Lemma within_budget_importCall callback path :
  within_budget limit1 (importCall callback path file) (importCall callback path file).
Proof.
  apply within_budget_same. intros st r st' H. unfold importCall in H.
  destruct (callback path file (heap st) (loader st)) as [r0 [h l]].
  inversion H; subst. simpl. lia.
Qed.

(** The evaluator under the budget [limit1] and under a larger one. *)
Lemma within_budget_evaluator (n : nat) :
  (forall e env,
     within_budget limit1 (evaluateExpression host file limit1 onImport n e env)
                          (evaluateExpression host file limit2 onImport n e env)) /\
  (forall s env,
     within_budget limit1 (executeStatement host file limit1 onImport n s env)
                          (executeStatement host file limit2 onImport n s env)) /\
  (forall c b env,
     within_budget limit1 (whileLoop host file limit1 onImport n c b env)
                          (whileLoop host file limit2 onImport n c b env)) /\
  (forall a i v b env,
     within_budget limit1 (forLoop host file limit1 onImport n a i v b env)
                          (forLoop host file limit2 onImport n a i v b env)).
Proof.
  apply (T_evaluator host file limit1 limit2 onImport (@within_budget limit1)).
  - intros. apply within_budget_same. intros st r st' H. inversion H; subst. lia.
  - apply within_budget_bind.
  - intros. apply within_budget_same. intros st r st' H. inversion H; subst. lia.
  - intros. apply within_budget_same. intros st r st' H. inversion H; subst. lia.
  - apply within_budget_tryCatch.
  - apply within_budget_liftHeap.
  - intros. apply within_budget_same. intros st r st' H. inversion H; subst. lia.
  - apply within_budget_step.
  - apply within_budget_withFrame.
  - intros. apply within_budget_importCall.
Qed.

Lemma within_budget_executeBlock n stmts env :
  within_budget limit1 (executeBlock host file limit1 onImport n stmts env)
                       (executeBlock host file limit2 onImport n stmts env).
Proof.
  unfold executeBlock.
  apply (T_executeBlockWith (@within_budget limit1)).
  - intros. apply within_budget_same. intros st r st' H. inversion H; subst. lia.
  - apply within_budget_bind.
  - apply (proj1 (proj2 (within_budget_evaluator n))).
Qed.

End Budget.

(** A run that ends with at most [limit1] steps on its counter is the same
    under every larger budget: the budget did not abort it. *)
Lemma interpretWith_within_budget host limit1 limit2 fuel program options h l result :
  limit1 <= limit2 ->
  interpretWith host limit1 fuel program options h l = Some result ->
  res_steps (fst result) <= limit1 ->
  interpretWith host limit2 fuel program options h l = Some result.
Proof.
  intros Hle. unfold interpretWith.
  destruct (match opt_globalEnv options with Some g => _ | None => _ end) as [g h0].
  destruct (executeBlock host _ limit1 _ fuel _ g _) as [r st] eqn:E.
  apply (within_budget_executeBlock host _ limit1 limit2 _ Hle) in E.
  destruct E as [_ E]. intros H Hsteps.
  assert (Hst : steps st <= limit1).
  { destruct r as [c|[m|e|e]|]; inversion H; subst; exact Hsteps. }
  rewrite (E Hst). exact H.
Qed.

Section BudgetRuns.

Context (host : Host) (file : string) (limit : Z) (onImport : option ImportCallback).

Lemma whileLoop_S k condition body env :
  whileLoop host file limit onImport (S k) condition body env =
  whileLoopBody file limit
    (evaluateExpression host file limit onImport k)
    (executeStatement host file limit onImport k)
    (whileLoop host file limit onImport k) condition body env.
Proof. reflexivity. Qed.

Lemma executeStatement_S k stmt env :
  executeStatement host file limit onImport (S k) stmt env =
  executeStatementBody host file limit onImport
    (evaluateExpression host file limit onImport k)
    (executeStatement host file limit onImport k)
    (whileLoop host file limit onImport k)
    (forLoop host file limit onImport k) stmt env.
Proof. reflexivity. Qed.

Lemma forLoop_S k a i variable body env :
  forLoop host file limit onImport (S k) a i variable body env =
  forLoopBody file limit
    (executeStatement host file limit onImport k)
    (forLoop host file limit onImport k) a i variable body env.
Proof. reflexivity. Qed.

Lemma boolean_literal_run k b env st :
  steps st < limit ->
  evaluateExpression host file limit onImport (S k) (BooleanLiteral b) env st =
  (Ok (VBoolean b), entered st).
Proof.
  intros H. simpl. unfold evaluateExpressionBody, bind. now rewrite step_within.
Qed.

Lemma number_literal_run k v f env st :
  steps st < limit ->
  evaluateExpression host file limit onImport (S k) (NumberLiteral v f) env st =
  (Ok (VNumber v), entered st).
Proof.
  intros H. simpl. unfold evaluateExpressionBody, bind. now rewrite step_within.
Qed.

(** Entering an expression or a statement with the counter at the budget
    throws the budget error at once. *)
Lemma expression_entry_beyond k expr env st :
  limit <= steps st ->
  evaluateExpression host file limit onImport (S k) expr env st =
  (Throw (budget_error file (callStack st)), entered st).
Proof.
  intros H. simpl. unfold evaluateExpressionBody, bind. now rewrite step_beyond.
Qed.

Lemma statement_entry_beyond k stmt env st :
  limit <= steps st ->
  executeStatement host file limit onImport (S k) stmt env st =
  (Throw (budget_error file (callStack st)), entered st).
Proof.
  intros H. simpl. unfold executeStatementBody, bind. now rewrite step_beyond.
Qed.

(** A turn of a [while] loop whose condition held is metered. *)
Lemma while_turn_beyond k condition body env st cond st1 :
  evaluateExpression host file limit onImport k condition env st = (Ok cond, st1) ->
  isTruthy cond = true ->
  limit <= steps st1 ->
  whileLoop host file limit onImport (S k) condition body env st =
  (Throw (budget_error file (callStack st1)), entered st1).
Proof.
  intros Hc Ht H. rewrite whileLoop_S. unfold whileLoopBody, bind.
  rewrite Hc, Ht. now rewrite step_beyond.
Qed.

(** A turn of a [for] loop is metered. *)
Lemma for_turn_beyond k a i variable body env st obj item :
  arrays (heap st) !! a = Some obj ->
  elems obj !! i = Some item ->
  limit <= steps st ->
  forLoop host file limit onImport (S k) a i variable body env st =
  (Throw (budget_error file (callStack st)), entered st).
Proof.
  intros Ha Hi H. rewrite forLoop_S.
  unfold forLoopBody, bind, getArray, readHeap, liftHeap. simpl.
  rewrite Ha. simpl. rewrite Hi.
  destruct st as [h ld n cs]. simpl in *.
  rewrite (step_beyond file limit (mkIState h ld n cs)) by assumption. reflexivity.
Qed.

End BudgetRuns.

(** [while true do end] from a counter [2 * j] short of the budget: [j] turns,
    each with a fresh environment, then the budget error. *)
Lemma while_true_spins host file onImport env (j : nat) : forall st,
  steps st = STEP_LIMIT - 2 * Z.of_nat j ->
  whileLoop host file STEP_LIMIT onImport (S (S j)) (BooleanLiteral true) [] env st =
  (Throw (budget_error file (callStack st)),
   mkIState
     (set_envs (envs (heap st) ++ replicate j (mkEnvironment [] (Some env))) (heap st))
     (loader st) (STEP_LIMIT + 1) (callStack st)).
Proof.
  induction j as [|j IH]; intros st Hs.
  - rewrite whileLoop_S. unfold whileLoopBody, bind.
    rewrite expression_entry_beyond by lia.
    destruct st as [[es arrs fs out] ld n cs]. simpl in *.
    unfold entered, set_envs. simpl. rewrite app_nil_r. now rewrite Hs, Z.sub_0_r.
  - rewrite whileLoop_S. unfold whileLoopBody, bind.
    rewrite boolean_literal_run by lia.
    change (isTruthy (VBoolean true)) with true. cbv beta iota.
    rewrite step_within by (simpl; lia). cbv beta iota.
    rewrite newEnvironment_run. simpl executeBlockWith. unfold ret at 1.
    rewrite IH by (simpl; lia).
    destruct st as [[es arrs fs out] ld n cs]. simpl.
    unfold set_envs. simpl. now rewrite <- app_assoc.
Qed.


(** *** What one entry costs *)

Section OwnCost.

Context (host : Host) (file : string) (limit : Z) (onImport : option ImportCallback).
Context (R : Z -> Z -> Prop).
Hypothesis R_refl : forall x, R x x.
Hypothesis R_trans : forall x y z, R x y -> R y z -> R x z.

Lemma advances_ret A (a : A) : advances R (ret a).
Proof. intros st. apply R_refl. Qed.

Lemma advances_throw A e : advances R (@throw A e).
Proof. intros st. apply R_refl. Qed.

Lemma advances_throwRuntimeError A message line column :
  advances R (@throwRuntimeError file A message line column).
Proof. intros st. apply R_refl. Qed.

Lemma advances_liftHeap A (f : Heap -> Res A * Heap) : advances R (liftHeap f).
Proof. intros st. unfold liftHeap. destruct (f (heap st)). apply R_refl. Qed.

Lemma advances_bind A B (m : M A) (k : A -> M B) :
  advances R m -> (forall a, advances R (k a)) -> advances R (bind m k).
Proof.
  intros Hm Hk st. unfold bind. specialize (Hm st).
  destruct (m st) as [[a|e|] st1]; simpl in *; [|exact Hm|exact Hm].
  eapply R_trans; [exact Hm|apply Hk].
Qed.

Lemma advances_tryCatch A (m : M A) (handler : Thrown -> M A) :
  advances R m -> (forall e, advances R (handler e)) -> advances R (tryCatch m handler).
Proof.
  intros Hm Hh st. unfold tryCatch. specialize (Hm st).
  destruct (m st) as [[a|e|] st1]; simpl in *; [exact Hm| |exact Hm].
  eapply R_trans; [exact Hm|apply Hh].
Qed.

Lemma advances_withFrame A frame (m : M A) :
  advances R m -> advances R (withFrame frame m).
Proof.
  intros Hm. unfold withFrame.
  apply advances_bind; [intros st; apply R_refl|intros _].
  apply advances_bind; [exact Hm|intros a].
  apply advances_bind; [intros st; apply R_refl|intros _]. apply advances_ret.
Qed.

Lemma advances_importCall callback path :
  advances R (importCall callback path file).
Proof.
  intros st. unfold importCall.
  destruct (callback path file (heap st) (loader st)) as [r [h l]]. apply R_refl.
Qed.

(** The parts of the evaluator that make no call of [step()] themselves. *)
Local Abbreviation Adv := (fun (A : Type) (m _ : M A) => advances R m).

Lemma advances_mapM_ A B (f : A -> M B) (l : list A) :
  (forall a, advances R (f a)) -> advances R (mapM_ f l).
Proof.
  intros Hf. refine (T_mapM_ Adv _ _ A B f f l Hf); cbv beta; intros;
    auto using advances_ret, advances_bind.
Qed.

Lemma advances_bindParams funcEnv params args :
  advances R (bindParams funcEnv params args).
Proof.
  refine (T_bindParams Adv _ _ _ funcEnv params args); cbv beta; intros;
    auto using advances_ret, advances_bind, advances_liftHeap.
Qed.

Lemma advances_executeBlockWith (exec : Statement -> nat -> M Completion) statements env :
  (forall s e, advances R (exec s e)) -> advances R (executeBlockWith exec statements env).
Proof.
  intros Hexec.
  refine (T_executeBlockWith Adv _ _ exec exec statements env Hexec); cbv beta; intros;
    auto using advances_ret, advances_bind.
Qed.

Lemma advances_evaluateBinaryOp op left right :
  advances R (evaluateBinaryOp host file op left right).
Proof.
  refine (T_evaluateBinaryOp host file Adv _ _ _ _ op left right); cbv beta; intros;
    auto using advances_ret, advances_bind, advances_liftHeap, advances_throwRuntimeError.
Qed.

Lemma advances_indexValue obj index : advances R (indexValue host file obj index).
Proof.
  refine (T_indexValue host file Adv _ _ _ _ obj index); cbv beta; intros;
    auto using advances_ret, advances_bind, advances_liftHeap, advances_throwRuntimeError.
Qed.

Context (evalE : Expression -> nat -> M LuxValue)
        (execS : Statement -> nat -> M Completion)
        (whileL : Expression -> list Statement -> nat -> M Completion)
        (forL : nat -> nat -> string -> list Statement -> nat -> M Completion).
Hypothesis advances_evalE : forall e env, advances R (evalE e env).
Hypothesis advances_execS : forall s env, advances R (execS s env).
Hypothesis advances_whileL : forall c b env, advances R (whileL c b env).
Hypothesis advances_forL : forall a i v b env, advances R (forL a i v b env).

Lemma advances_alternates alts alternate env :
  advances R (alternates evalE execS alts alternate env).
Proof.
  refine (T_alternates Adv _ _ _ evalE evalE execS execS advances_evalE advances_execS
            alts alternate env); cbv beta; intros;
    auto using advances_ret, advances_bind, advances_liftHeap.
Qed.

Ltac advance :=
  repeat first
    [ apply advances_ret | apply advances_throw | apply advances_throwRuntimeError
    | apply advances_liftHeap
    | apply advances_evalE | apply advances_execS
    | apply advances_whileL | apply advances_forL
    | apply advances_executeBlockWith; [ exact advances_execS ]
    | apply advances_mapM_; [ intros ]
    | apply advances_bindParams | apply advances_evaluateBinaryOp
    | apply advances_indexValue | apply advances_importCall | apply advances_alternates
    | apply advances_withFrame
    | apply advances_bind; [ | intros ]
    | apply advances_tryCatch; [ | intros ]
    | match goal with
      | |- advances _ (match ?x with _ => _ end) => destruct x
      | |- advances _ (if ?b then _ else _) => destruct b
      end ].

(** [step()] and then a computation: the counter is one up before the
    computation starts, whether [step()] throws or not. *)
Lemma step_then A (m : M A) st :
  advances R m -> R (steps st + 1) (steps (snd (bind (step file limit) (fun _ => m) st))).
Proof.
  intros Hm. unfold bind, step.
  destruct (limit <? steps _); simpl; [apply R_refl|].
  apply (Hm (mkIState (heap st) (loader st) (steps st + 1) (callStack st))).
Qed.

Lemma expression_entry_cost expr env st :
  R (steps st + 1)
    (steps (snd (evaluateExpressionBody host file limit evalE execS expr env st))).
Proof.
  unfold evaluateExpressionBody. apply step_then.
  unfold envGet, newArray, callBuiltin, newEnvironment, callFunction.
  destruct expr; advance.
Qed.

Lemma statement_entry_cost stmt env st :
  R (steps st + 1)
    (steps (snd (executeStatementBody host file limit onImport evalE execS whileL forL
                   stmt env st))).
Proof.
  unfold executeStatementBody. apply step_then.
  unfold envGet, envSet, define, newFunction, newEnvironment, getArray, putArray, readHeap.
  destruct stmt; advance.
Qed.

Lemma while_turn_cost condition body env st cond st1 :
  evalE condition env st = (Ok cond, st1) ->
  if isTruthy cond
  then R (steps st1 + 1)
         (steps (snd (whileLoopBody file limit evalE execS whileL condition body env st)))
  else whileLoopBody file limit evalE execS whileL condition body env st = (Ok Normal, st1).
Proof.
  intros Hc. destruct (isTruthy cond) eqn:Ht.
  - unfold whileLoopBody. unfold bind at 1. rewrite Hc, Ht.
    apply step_then. unfold newEnvironment. advance.
  - unfold whileLoopBody, bind. now rewrite Hc, Ht.
Qed.

Lemma for_turn_cost a i variable body env st obj :
  arrays (heap st) !! a = Some obj ->
  match elems obj !! i with
  | Some item =>
      R (steps st + 1)
        (steps (snd (forLoopBody file limit execS forL a i variable body env st)))
  | None => forLoopBody file limit execS forL a i variable body env st = (Ok Normal, st)
  end.
Proof.
  intros Ha.
  assert (Hget : getArray a st = (Ok obj, st)).
  { unfold getArray, readHeap, liftHeap. rewrite Ha. destruct st; reflexivity. }
  destruct (elems obj !! i) as [item|] eqn:Hi.
  - unfold forLoopBody. unfold bind at 1. rewrite Hget, Hi.
    apply step_then. unfold newEnvironment, define. advance.
  - unfold forLoopBody, bind. now rewrite Hget, Hi.
Qed.

End OwnCost.

(** The counter never goes down: every part of the evaluator advances it by
    zero or more. *)
Lemma evaluator_advances host file limit onImport (n : nat) :
  (forall e env, advances Z.le (evaluateExpression host file limit onImport n e env)) /\
  (forall s env, advances Z.le (executeStatement host file limit onImport n s env)) /\
  (forall c b env, advances Z.le (whileLoop host file limit onImport n c b env)) /\
  (forall a i v b env, advances Z.le (forLoop host file limit onImport n a i v b env)).
Proof.
  apply (T_evaluator host file limit limit onImport (fun A m _ => advances Z.le m)).
  - intros. apply advances_ret. exact Z.le_refl.
  - intros. apply advances_bind; [exact Z.le_trans|assumption|assumption].
  - intros. apply advances_throw. exact Z.le_refl.
  - intros A st. apply Z.le_refl.
  - intros. apply advances_tryCatch; [exact Z.le_trans|assumption|assumption].
  - intros. apply advances_liftHeap. exact Z.le_refl.
  - intros. apply advances_throwRuntimeError. exact Z.le_refl.
  - intros st. unfold step. destruct (limit <? _); simpl; lia.
  - intros. apply advances_withFrame; [exact Z.le_refl|exact Z.le_trans|assumption].
  - intros. apply advances_importCall. exact Z.le_refl.
Qed.



(** The counter of [counting_example] ends at 36: 2 for the declaration and
    its literal; 1 for the [while] statement, 3 for each of the four
    evaluations of its condition, and for each of its three turns 1 for the
    turn and 4 for the assignment; 4 for the [for] statement with its array
    literal, and 1 for each of its two turns. *)
Example steps_of_loops :
  option_map (fun r => (res_steps (fst r), res_error (fst r)))
    (run (test_host []) 10 counting_example)
  = Some (2 + (1 + 4 * 3 + 3 * (1 + 4)) + (4 + 2 * 1), None).
Proof. vm_compute. reflexivity. Qed.

(** ** The call-frame stack *)

Section CallStack.

Context (host : Host) (file : string) (limit : Z) (onImport : option ImportCallback).

Lemma stack_grows_same A (m : M A) :
  (forall st r st', m st = (r, st') -> callStack st' = callStack st) ->
  stack_grows m m.
Proof. intros H st r st' E. rewrite (H _ _ _ E). reflexivity. Qed.

Lemma stack_grows_bind A B (m1 m2 : M A) (k1 k2 : A -> M B) :
  stack_grows m1 m2 -> (forall a, stack_grows (k1 a) (k2 a)) ->
  stack_grows (bind m1 k1) (bind m2 k2).
Proof.
  intros Hm Hk st r st' H. unfold bind in H.
  destruct (m1 st) as [[a|e|] st1] eqn:E1.
  - etransitivity; [eapply Hm; eauto|eapply Hk; eauto].
  - inversion H; subst. eapply Hm; eauto.
  - inversion H; subst. eapply Hm; eauto.
Qed.

Lemma stack_grows_tryCatch A (m1 m2 : M A) (h1 h2 : Thrown -> M A) :
  stack_grows m1 m2 -> (forall e, stack_grows (h1 e) (h2 e)) ->
  stack_grows (tryCatch m1 h1) (tryCatch m2 h2).
Proof.
  intros Hm Hh st r st' H. unfold tryCatch in H.
  destruct (m1 st) as [[a|e|] st1] eqn:E1.
  - inversion H; subst. eapply Hm; eauto.
  - etransitivity; [eapply Hm; eauto|eapply Hh; eauto].
  - inversion H; subst. eapply Hm; eauto.
Qed.

Lemma withFrame_run A frame (m : M A) st :
  withFrame frame m st =
  match m (set_callStack (callStack st ++ [frame]) st) with
  | (Ok a, st') => (Ok a, set_callStack (removelast (callStack st')) st')
  | other => other
  end.
Proof.
  unfold withFrame, bind, pushFrame, popFrame, ret, set_callStack.
  destruct (m _) as [[a|e|] st']; reflexivity.
Qed.

Lemma prefix_removelast (s : list StackFrame) frame s' :
  (s ++ [frame]) `prefix_of` s' -> s `prefix_of` removelast s'.
Proof.
  intros [k ->]. rewrite <- app_assoc. rewrite removelast_app by discriminate.
  now apply prefix_app_r.
Qed.

Lemma stack_grows_withFrame A frame (m1 m2 : M A) :
  stack_grows m1 m2 -> stack_grows (withFrame frame m1) (withFrame frame m2).
Proof.
  intros Hm st r st' H. rewrite withFrame_run in H.
  destruct (m1 _) as [[a|e|] st1] eqn:E1; inversion H; subst;
    apply Hm in E1; simpl in E1.
  - simpl. eapply prefix_removelast; eauto.
  - etransitivity; [|exact E1]. now apply prefix_app_r.
  - etransitivity; [|exact E1]. now apply prefix_app_r.
Qed.

Lemma stack_grows_evaluator (n : nat) :
  (forall e env, stack_grows (evaluateExpression host file limit onImport n e env)
                             (evaluateExpression host file limit onImport n e env)) /\
  (forall s env, stack_grows (executeStatement host file limit onImport n s env)
                             (executeStatement host file limit onImport n s env)) /\
  (forall c b env, stack_grows (whileLoop host file limit onImport n c b env)
                               (whileLoop host file limit onImport n c b env)) /\
  (forall a i v b env, stack_grows (forLoop host file limit onImport n a i v b env)
                                   (forLoop host file limit onImport n a i v b env)).
Proof.
  apply (T_evaluator host file limit limit onImport (@stack_grows)).
  - intros. apply stack_grows_same. intros st r st' Hrun. now inversion Hrun.
  - apply stack_grows_bind.
  - intros. apply stack_grows_same. intros st r st' Hrun. now inversion Hrun.
  - intros. apply stack_grows_same. intros st r st' Hrun. now inversion Hrun.
  - apply stack_grows_tryCatch.
  - intros. apply stack_grows_same. intros st r st' Hrun. unfold liftHeap in Hrun.
    destruct (f (heap st)). now inversion Hrun.
  - intros. apply stack_grows_same. intros st r st' Hrun. now inversion Hrun.
  - apply stack_grows_same. intros st r st' Hrun. unfold step in Hrun. simpl in Hrun.
    destruct (limit <? steps st + 1); now inversion Hrun.
  - apply stack_grows_withFrame.
  - intros. apply stack_grows_same. intros st r st' Hrun. unfold importCall in Hrun.
    destruct (callback path file (heap st) (loader st)) as [r0 [h l]]. now inversion Hrun.
Qed.

Lemma stack_grows_executeBlock n stmts env :
  stack_grows (executeBlock host file limit onImport n stmts env)
              (executeBlock host file limit onImport n stmts env).
Proof.
  unfold executeBlock. apply (T_executeBlockWith (@stack_grows)).
  - intros. apply stack_grows_same. intros st r st' H. now inversion H.
  - apply stack_grows_bind.
  - apply (proj1 (proj2 (stack_grows_evaluator n))).
Qed.

Lemma bindParams_run funcEnv params : forall args st,
  fst (bindParams funcEnv params args st) = Ok tt
  /\ callStack (snd (bindParams funcEnv params args st)) = callStack st.
Proof.
  induction params as [|[name ty] params IH]; intros args st; simpl; [auto|].
  unfold bind. rewrite define_run.
  match goal with
  | |- context [bindParams funcEnv params ?a ?s] => destruct (IH a s) as [H1 H2]
  end.
  split; [exact H1|]. rewrite H2. reflexivity.
Qed.

Lemma callFunction_run n declaration closure args line column st :
  callFunction file (executeStatement host file limit onImport n) declaration closure args
    line column st =
  match executeBlock host file limit onImport n (fd_body declaration) (child_env st)
          (call_entry_state declaration closure args
             (mkStackFrame (fd_name declaration) file line column) st) with
  | (Ok c, st') =>
      (Ok (match c with ReturnSignal v => v | _ => VNil end),
       set_callStack (removelast (callStack st')) st')
  | (Throw e, st') => (Throw e, st')
  | (Diverge, st') => (Diverge, st')
  end.
Proof.
  unfold callFunction, bind at 1. rewrite withFrame_run.
  unfold bind at 1. rewrite newEnvironment_run.
  unfold bind at 1. unfold call_entry_state, executeBlock.
  change (child_env (set_callStack (callStack st ++ [_]) st)) with (child_env st).
  destruct (bindParams_run (child_env st) (fd_params declaration) args
              (with_child_env closure
                 (set_callStack
                    (callStack st ++ [mkStackFrame (fd_name declaration) file line column]) st)))
    as [Hok _].
  destruct (bindParams _ _ _ _) as [r st1]. simpl in Hok. subst r. simpl snd.
  destruct (executeBlockWith _ _ _ st1) as [[c|e|] st']; try reflexivity.
  destruct c; reflexivity.
Qed.

Lemma call_entry_stack declaration closure args frame st :
  callStack (call_entry_state declaration closure args frame st) = callStack st ++ [frame].
Proof.
  unfold call_entry_state.
  now rewrite (proj2 (bindParams_run _ _ _ _)).
Qed.

End CallStack.

(** C10, as the code has it.  A call of a user function pushes its frame
    before the body runs, and the frame stays on the stack while the body
    runs and after.  When the body completes normally or with a return
    signal, the call pops the top frame of the stack the body left; that is
    the call's own frame when the body left the stack as it found it.  When
    the body throws, no frame is popped: the state the error leaves still has
    the frame of the unwound call.  The stack a piece of code finds is never
    shortened by it, so after a [try] statement caught the error the stale
    frame stays on the stack for the rest of the enclosing function body (at
    top level: for the rest of the evaluation), and every error created there
    copies a stack that contains it.  The pop of an enclosing call that
    returns later removes the top frame, whichever it is. *)
Theorem call_frame_discipline :
  (forall host file onImport n declaration closure args line column st rb st',
     executeBlock host file STEP_LIMIT onImport n (fd_body declaration) (child_env st)
       (call_entry_state declaration closure args
          (mkStackFrame (fd_name declaration) file line column) st) = (rb, st') ->
     (callStack st ++ [mkStackFrame (fd_name declaration) file line column])
       `prefix_of` callStack st'
     /\ callFunction file (executeStatement host file STEP_LIMIT onImport n) declaration
          closure args line column st =
        match rb with
        | Ok c =>
            (Ok (match c with ReturnSignal v => v | _ => VNil end),
             set_callStack (removelast (callStack st')) st')
        | Throw e => (Throw e, st')
        | Diverge => (Diverge, st')
        end
     /\ (callStack st' = callStack st ++ [mkStackFrame (fd_name declaration) file line column] ->
         removelast (callStack st') = callStack st))
  /\ (forall host file limit onImport n,
        (forall e env st,
           callStack st `prefix_of`
             callStack (snd (evaluateExpression host file limit onImport n e env st)))
        /\ (forall s env st,
              callStack st `prefix_of`
                callStack (snd (executeStatement host file limit onImport n s env st)))
        /\ (forall stmts env st,
              callStack st `prefix_of`
                callStack (snd (executeBlock host file limit onImport n stmts env st))))
  /\ (forall file message line column st,
        @throwRuntimeError file LuxValue message line column st =
        (Throw (ThrownRuntime (new_RuntimeError message file line column (callStack st))), st)).
Proof.
  split; [|split].
  - intros host file onImport n declaration closure args line column st rb st' Hbody.
    split; [|split].
    + rewrite <- (call_entry_stack declaration closure args
                    (mkStackFrame (fd_name declaration) file line column) st).
      eapply stack_grows_executeBlock; eauto.
    + rewrite callFunction_run, Hbody. destruct rb; reflexivity.
    + intros ->. apply removelast_last.
  - intros host file limit onImport n. split; [|split].
    + intros e env st.
      destruct (evaluateExpression host file limit onImport n e env st) as [r st'] eqn:E.
      eapply (proj1 (stack_grows_evaluator host file limit onImport n)); eauto.
    + intros s env st.
      destruct (executeStatement host file limit onImport n s env st) as [r st'] eqn:E.
      eapply (proj1 (proj2 (stack_grows_evaluator host file limit onImport n))); eauto.
    + intros stmts env st.
      destruct (executeBlock host file limit onImport n stmts env st) as [r st'] eqn:E.
      eapply stack_grows_executeBlock; eauto.
  - reflexivity.
Qed.

(** The push and the pop of a call are not paired on the throwing path.  On
    [stale_frame_example] the call of [g] throws and its frame stays; when
    [f] then completes normally its pop removes the frame of [g] and leaves
    the frame of [f].  The later error at top level, outside every call,
    reports a frame of [f], whose call completed. *)
Lemma stale_frame_is_popped_later :
  error_of (run (test_host []) 10 stale_frame_example) =
  Some (Some ("RuntimeError: Division by zero" +:+ LF +:+ "  at f (<stdin>:7:1)")).
Proof. vm_compute. reflexivity. Qed.

(** An error thrown in a function called at top level and caught there: the
    frame of the unwound call is in the snapshot of the next error. *)
Example stale_frame_at_top_level :
  error_of (run (test_host []) 10
              (mkProgram
                 [func "g" [] [ReturnStatement
                                 (Some (BinaryExpression "/" (num 1) (num 0))) 2 1] 1;
                  TryCatchStatement [stmt_expr (call "g" [] 4) 4] "e" [] 3 1;
                  stmt_expr (BinaryExpression "/" (num 1) (num 0)) 6])) =
  Some (Some ("RuntimeError: Division by zero" +:+ LF +:+ "  at g (<stdin>:4:1)")).
Proof. vm_compute. reflexivity. Qed.

(** ** The module loader *)

Lemma loader_extends_refl l : loader_extends l l.
Proof.
  repeat split; auto. exists []. split; [now rewrite app_nil_r|]. intros p Hp. set_solver.
Qed.

Lemma loader_extends_trans l1 l2 l3 :
  loader_extends l1 l2 -> loader_extends l2 l3 -> loader_extends l1 l3.
Proof.
  intros (Hc1 & Hl1 & new1 & Hr1 & Hn1) (Hc2 & Hl2 & new2 & Hr2 & Hn2).
  repeat split.
  - auto.
  - congruence.
  - exists (new1 ++ new2). split; [rewrite Hr2, Hr1; now rewrite app_assoc|].
    intros p Hp. apply elem_of_app in Hp as [Hp|Hp]; [auto|].
    specialize (Hn2 p Hp). destruct (cache l1 !! p) as [e|] eqn:E; [|reflexivity].
    apply Hc1 in E. congruence.
Qed.

Section LoaderInvariant.

Context (host : Host) (file : string) (limit : Z) (onImport : option ImportCallback).

Hypothesis callback_extends : forall callback path from h l r h' l',
  onImport = Some callback ->
  callback path from h l = (r, (h', l')) -> r <> Diverge -> loader_extends l l'.

Lemma keeps_loader_same A (m : M A) :
  (forall st r st', m st = (r, st') -> loader st' = loader st) ->
  keeps_loader m m.
Proof. intros H st r st' E _. rewrite (H _ _ _ E). apply loader_extends_refl. Qed.

Lemma keeps_loader_bind A B (m1 m2 : M A) (k1 k2 : A -> M B) :
  keeps_loader m1 m2 -> (forall a, keeps_loader (k1 a) (k2 a)) ->
  keeps_loader (bind m1 k1) (bind m2 k2).
Proof.
  intros Hm Hk st r st' H Hr. unfold bind in H.
  destruct (m1 st) as [[a|e|] st1] eqn:E1.
  - eapply loader_extends_trans; [eapply Hm; eauto; discriminate|eapply Hk; eauto].
  - inversion H; subst. eapply Hm; eauto.
  - inversion H; subst. congruence.
Qed.

Lemma keeps_loader_tryCatch A (m1 m2 : M A) (h1 h2 : Thrown -> M A) :
  keeps_loader m1 m2 -> (forall e, keeps_loader (h1 e) (h2 e)) ->
  keeps_loader (tryCatch m1 h1) (tryCatch m2 h2).
Proof.
  intros Hm Hh st r st' H Hr. unfold tryCatch in H.
  destruct (m1 st) as [[a|e|] st1] eqn:E1.
  - inversion H; subst. eapply Hm; eauto.
  - eapply loader_extends_trans; [eapply Hm; eauto; discriminate|eapply Hh; eauto].
  - inversion H; subst. congruence.
Qed.

Lemma keeps_loader_withFrame A frame (m1 m2 : M A) :
  keeps_loader m1 m2 -> keeps_loader (withFrame frame m1) (withFrame frame m2).
Proof.
  intros Hm st r st' H Hr. rewrite withFrame_run in H.
  destruct (m1 _) as [[a|e|] st1] eqn:E1; inversion H; subst;
    [ | |congruence]; exact (Hm _ _ _ E1 ltac:(discriminate)).
Qed.

Lemma keeps_loader_evaluator (n : nat) :
  (forall e env, keeps_loader (evaluateExpression host file limit onImport n e env)
                              (evaluateExpression host file limit onImport n e env)) /\
  (forall s env, keeps_loader (executeStatement host file limit onImport n s env)
                              (executeStatement host file limit onImport n s env)) /\
  (forall c b env, keeps_loader (whileLoop host file limit onImport n c b env)
                                (whileLoop host file limit onImport n c b env)) /\
  (forall a i v b env, keeps_loader (forLoop host file limit onImport n a i v b env)
                                    (forLoop host file limit onImport n a i v b env)).
Proof.
  apply (T_evaluator host file limit limit onImport (@keeps_loader)).
  - intros. apply keeps_loader_same. intros st r st' Hrun. now inversion Hrun.
  - apply keeps_loader_bind.
  - intros. apply keeps_loader_same. intros st r st' Hrun. now inversion Hrun.
  - intros. apply keeps_loader_same. intros st r st' Hrun. now inversion Hrun.
  - apply keeps_loader_tryCatch.
  - intros. apply keeps_loader_same. intros st r st' Hrun. unfold liftHeap in Hrun.
    destruct (f (heap st)). now inversion Hrun.
  - intros. apply keeps_loader_same. intros st r st' Hrun. now inversion Hrun.
  - apply keeps_loader_same. intros st r st' Hrun. unfold step in Hrun. simpl in Hrun.
    destruct (limit <? steps st + 1); now inversion Hrun.
  - apply keeps_loader_withFrame.
  - intros callback path Hcb st r st' Hrun Hr. unfold importCall in Hrun.
    destruct (callback path file (heap st) (loader st)) as [r0 [h l]] eqn:E.
    inversion Hrun; subst. simpl. eapply callback_extends; eauto.
Qed.

Lemma keeps_loader_executeBlock n stmts env :
  keeps_loader (executeBlock host file limit onImport n stmts env)
               (executeBlock host file limit onImport n stmts env).
Proof.
  unfold executeBlock. apply (T_executeBlockWith (@keeps_loader)).
  - intros. apply keeps_loader_same. intros st r st' Hrun. now inversion Hrun.
  - apply keeps_loader_bind.
  - apply (proj1 (proj2 (keeps_loader_evaluator n))).
Qed.

End LoaderInvariant.

Lemma interpretWith_loader host limit fuel program options h l result h' l' :
  (forall callback path from h l r h' l',
     opt_onImport options = Some callback ->
     callback path from h l = (r, (h', l')) -> r <> Diverge -> loader_extends l l') ->
  interpretWith host limit fuel program options h l = Some (result, (h', l')) ->
  loader_extends l l'.
Proof.
  intros Hcb. unfold interpretWith.
  destruct (match opt_globalEnv options with Some g => _ | None => _ end) as [g h0].
  destruct (executeBlock host _ limit _ fuel _ g _) as [r st] eqn:E.
  intros H.
  assert (Hr : r <> Diverge) by (intros ->; discriminate H).
  pose proof (keeps_loader_executeBlock host _ limit _ Hcb _ _ _ _ _ _ E Hr) as HE.
  simpl in HE.
  destruct r as [c|[m|e|e]|]; inversion H; subst; exact HE.
Qed.

Lemma importModuleTry_extends host globalEnv fuel callback resolved h l r h' l' :
  (forall path from h l r h' l',
     callback path from h l = (r, (h', l')) -> r <> Diverge -> loader_extends l l') ->
  cache l !! resolved = None ->
  importModuleTry host globalEnv fuel callback resolved h l = (r, (h', l')) ->
  r <> Diverge ->
  loader_extends l l' /\ (r = Ok tt -> is_Some (cache l' !! resolved)).
Proof.
  intros Hcb Hnone. unfold importModuleTry.
  assert (Hlog : loader_extends l (log_read resolved l)).
  { repeat split; auto. exists [resolved]. split; [reflexivity|].
    intros p Hp. apply list_elem_of_singleton in Hp. now subst. }
  destruct (fs_readFileSync host resolved) as [source|e|];
    [|intros H Hr; inversion H; subst; split; [exact Hlog|discriminate]
     |intros H Hr; inversion H; subst; congruence].
  destruct (parse_source host source resolved) as [program|e|];
    [|intros H Hr; inversion H; subst; split; [exact Hlog|discriminate]
     |intros H Hr; inversion H; subst; congruence].
  destruct (new_Environment (Some globalEnv) (envs h)) as [moduleEnv es].
  destruct (interpret host fuel program _ _ _) as [[result [h1 l1]]|] eqn:E;
    [|intros H Hr; inversion H; subst; congruence].
  apply interpretWith_loader in E;
    [|intros cb path from h0 l0 r0 h0' l0' Hsome; simpl in Hsome; inversion Hsome; subst;
      apply Hcb].
  pose proof (loader_extends_trans _ _ _ Hlog E) as Hext.
  destruct (error_truthy (res_error result)) as [error|].
  - intros H Hr. inversion H; subst. split; [exact Hext|discriminate].
  - intros H Hr. inversion H; subst. split.
    + destruct Hext as (Hc & Hl & new & Hreads & Hnew). repeat split.
      * intros path env Hpath. simpl.
        destruct (decide (path = resolved)) as [->|Hne]; [congruence|].
        rewrite lookup_insert_ne by congruence. auto.
      * exact Hl.
      * exists new. split; [exact Hreads|exact Hnew].
    + intros _. simpl. rewrite lookup_insert_eq. eauto.
Qed.

Lemma importModule_extends host globalEnv (n : nat) :
  forall importPath fromFile h l r h' l',
    ModuleLoader_importModule host globalEnv n importPath fromFile h l = (r, (h', l')) ->
    r <> Diverge ->
    loader_extends l l'
    /\ (r = Ok tt -> is_Some (cache l' !! resolve_import host importPath fromFile)).
Proof.
  induction n as [|k IH]; intros importPath fromFile h l r h' l' H Hr.
  - simpl in H. inversion H; subst. congruence.
  - simpl in H.
    set (resolved := resolve_import host importPath fromFile) in *.
    case_bool_decide as Hloading.
    { inversion H; subst. split; [apply loader_extends_refl|discriminate]. }
    destruct (cache l !! resolved) as [moduleEnv|] eqn:Hcache.
    { inversion H; subst. split; [apply loader_extends_refl|]. intros _. eauto. }
    destruct (negb (fs_existsSync host resolved)).
    { inversion H; subst. split; [apply loader_extends_refl|discriminate]. }
    destruct (importModuleTry host globalEnv k _ resolved h _) as [r1 [h1 l1]] eqn:E.
    assert (Hr1 : r1 <> Diverge) by (intros ->; inversion H; subst; congruence).
    apply importModuleTry_extends in E; [|intros; eapply IH; eauto|exact Hcache|exact Hr1].
    destruct E as ((Hc & Hl & new & Hreads & Hnew) & Hok).
    assert (r = r1 /\ h' = h1 /\ l' = set_loading (loading l1 ∖ {[resolved]}) l1)
      as (-> & -> & ->) by (destruct r1; inversion H; auto; congruence).
    split.
    + repeat split.
      * exact Hc.
      * simpl. rewrite Hl. simpl. set_solver.
      * exists new. split; [exact Hreads|exact Hnew].
    + intros Heq. simpl. auto.
Qed.

(** C8, as the code has it.  An import whose resolved path is in the loading
    set fails with "Circular import detected" and changes nothing.  An import
    of a cached path merges the cached environment and touches neither the
    file system nor the loader.  Every import that returns or throws leaves
    the loading set as it found it, keeps every cached module cached with its
    environment, and reads only files of modules that were not cached when it
    started; after an import that returned, the path is cached.  So a module
    whose evaluation succeeded is never read, parsed or evaluated again.  (A
    module whose evaluation failed is not cached: a later import runs it
    again.) *)
Theorem import_once :
  (forall host globalEnv k importPath fromFile h l,
     resolve_import host importPath fromFile ∈ loading l ->
     ModuleLoader_importModule host globalEnv (S k) importPath fromFile h l =
     (Throw (ThrownError ("Circular import detected: "
                          +:+ resolve_import host importPath fromFile)), (h, l)))
  /\ (forall host globalEnv k importPath fromFile h l moduleEnv,
        resolve_import host importPath fromFile ∉ loading l ->
        cache l !! resolve_import host importPath fromFile = Some moduleEnv ->
        ModuleLoader_importModule host globalEnv (S k) importPath fromFile h l =
        (Ok tt, (ModuleLoader_mergeExports globalEnv moduleEnv h, l)))
  /\ (forall host globalEnv n importPath fromFile h l r h' l',
        ModuleLoader_importModule host globalEnv n importPath fromFile h l = (r, (h', l')) ->
        r <> Diverge ->
        loader_extends l l'
        /\ (r = Ok tt -> is_Some (cache l' !! resolve_import host importPath fromFile)))
  /\ (forall l l' path env,
        loader_extends l l' ->
        cache l !! path = Some env ->
        cache l' !! path = Some env
        /\ loading l' = loading l
        /\ exists new, reads l' = reads l ++ new /\ path ∉ new).
Proof.
  split; [|split; [|split]].
  - intros host globalEnv k importPath fromFile h l Hin. simpl.
    now rewrite bool_decide_eq_true_2.
  - intros host globalEnv k importPath fromFile h l moduleEnv Hnot Hcache. simpl.
    rewrite bool_decide_eq_false_2 by assumption. now rewrite Hcache.
  - intros. eapply importModule_extends; eauto.
  - intros l l' path env (Hc & Hl & new & Hreads & Hnew) Hpath.
    split; [auto|]. split; [exact Hl|]. exists new. split; [exact Hreads|].
    intros Hin. apply Hnew in Hin. congruence.
Qed.

(** The claim as stated fails on [failing_import_files]: [bad.lux] is read
    and evaluated twice in one loader lifetime (its line is printed twice),
    because a module whose evaluation fails is not cached. *)
Lemma failing_module_runs_twice :
  run_file (test_host failing_import_files) 10 "main.lux" =
  Some (["loading bad"; "loading bad"], None, ["main.lux"; "bad.lux"; "bad.lux"]).
Proof. vm_compute. reflexivity. Qed.

(** A module that evaluates successfully is read and evaluated once, however
    often it is imported. *)
Example successful_module_runs_once :
  run_file (test_host repeated_import_files) 10 "main.lux" =
  Some (["loading util"], None, ["main.lux"; "util.lux"]).
Proof. vm_compute. reflexivity. Qed.

(** ** Array indices *)

Lemma digits2_pos_bound (m : positive) : Z.pos m < 2 ^ Z.pos (digits2_pos m).
Proof.
  induction m as [p IH|p IH|]; simpl digits2_pos.
  - rewrite Pos2Z.inj_succ, Z.pow_succ_r by lia. lia.
  - rewrite Pos2Z.inj_succ, Z.pow_succ_r by lia. lia.
  - reflexivity.
Qed.

(** A double strictly between -1 and 0 is [-m * 2^e] with [m < 2^-e]. *)
Lemma fraction_mantissa (m : positive) (e : Z) :
  valid_binary (S754_finite true m e) = true ->
  SFltb (S754_finite true 4503599627370496 (-52)) (S754_finite true m e) = true ->
  e < 0 /\ Z.pos m < 2 ^ (- e).
Proof.
  intros Hvalid Hlow.
  unfold valid_binary, bounded, canonical_mantissa in Hvalid.
  apply andb_prop in Hvalid as [Hcanon _]. apply Z.eqb_eq in Hcanon.
  unfold fexp in Hcanon.
  pose proof (digits2_pos_bound m) as Hdig.
  unfold SFltb, SFcompare in Hlow.
  destruct (Z.compare_spec (-52) e) as [Heq|Hlt|Hgt]; try discriminate Hlow.
  - subst e. split; [reflexivity|].
    destruct (Pos.compare_cont Eq 4503599627370496 m) eqn:Hc; try discriminate Hlow.
    change (Pos.compare_cont Eq 4503599627370496 m)
      with (Pos.compare 4503599627370496 m) in Hc.
    apply Pos.compare_gt_iff in Hc. exact Hc.
  - split; [clear Hdig Hcanon Hlow; lia|].
    assert (Hd : Z.pos (digits2_pos m) <= 53)
      by (clear Hdig Hlow; unfold prec, emin, emax in Hcanon; lia).
    eapply Z.lt_le_trans; [exact Hdig|].
    clear Hdig Hlow Hcanon. apply Z.pow_le_mono_r; lia.
Qed.

(** [Math.floor] of a number strictly between -1 and 0 is -1. *)
Lemma floor_of_negative_fraction (x : float) :
  PrimFloat.ltb (-1)%float x = true -> PrimFloat.ltb x 0%float = true ->
  Math_floor x = FloorInt (-1).
Proof.
  rewrite !ltb_spec. unfold Math_floor.
  pose proof (Prim2SF_valid x) as Hvalid.
  change (Prim2SF (-1)%float) with (S754_finite true 4503599627370496 (-52)).
  change (Prim2SF 0%float) with (S754_zero false).
  destruct (Prim2SF x) as [s|s| |s m e]; intros Hlow Hhigh.
  - destruct s; discriminate Hhigh.
  - destruct s; [discriminate Hlow|discriminate Hhigh].
  - discriminate Hlow.
  - destruct s; [|discriminate Hhigh].
    destruct (fraction_mantissa m e Hvalid Hlow) as [He Hm].
    clear Hvalid Hlow Hhigh.
    f_equal. rewrite Z.shiftl_div_pow2 by lia.
    symmetry. apply (Z.div_unique_pos _ _ (-1) (2 ^ (- e) - Z.pos m)); lia.
Qed.

Section Indexing.

Context (host : Host) (file : string) (limit : Z) (onImport : option ImportCallback).

Lemma index_read_run a x st obj :
  arrays (heap st) !! a = Some obj ->
  indexValue host file (VArray a) (VNumber x) st =
  if out_of_bounds (Math_floor x) (length (elems obj))
  then (Throw (ThrownRuntime
          (new_RuntimeError (out_of_bounds_message host x (length (elems obj))) file 0 0
             (callStack st))), st)
  else (Ok (array_read obj (Math_floor x)), st).
Proof.
  intros Ha. unfold indexValue, bind, getArray, readHeap, liftHeap. simpl.
  rewrite Ha. simpl. destruct st as [h ld n cs].
  destruct (out_of_bounds _ _); reflexivity.
Qed.

Lemma index_not_a_number a index st :
  match index with VNumber _ => False | _ => True end ->
  indexValue host file (VArray a) index st =
  (Throw (ThrownRuntime
     (new_RuntimeError "Array index must be a number" file 0 0 (callStack st))), st).
Proof. destruct index; intros H; try contradiction; reflexivity. Qed.

Lemma index_expression_run n object index env st a st1 iv st2 :
  steps st < limit ->
  evaluateExpression host file limit onImport n object env (entered st) = (Ok (VArray a), st1) ->
  evaluateExpression host file limit onImport n index env st1 = (Ok iv, st2) ->
  evaluateExpression host file limit onImport (S n) (IndexExpression object index) env st =
  indexValue host file (VArray a) iv st2.
Proof.
  intros Hst Ho Hi. simpl. unfold evaluateExpressionBody, bind.
  rewrite step_within by assumption. now rewrite Ho, Hi.
Qed.

Lemma index_assignment_run n name index value line column env st a x st1 obj :
  steps st < limit ->
  Environment_get (envs (heap st)) env name = Ok (VArray a) ->
  evaluateExpression host file limit onImport n index env (entered st) = (Ok (VNumber x), st1) ->
  arrays (heap st1) !! a = Some obj ->
  executeStatement host file limit onImport (S n)
    (IndexAssignment name index value line column) env st =
  if out_of_bounds (Math_floor x) (length (elems obj))
  then (Throw (ThrownRuntime
          (new_RuntimeError (out_of_bounds_message host x (length (elems obj))) file
             line column (callStack st1))), st1)
  else
    match evaluateExpression host file limit onImport n value env st1 with
    | (Ok v, st2) => (Ok Normal, with_array_write a (Math_floor x) v st2)
    | (Throw e, st2) => (Throw e, st2)
    | (Diverge, st2) => (Diverge, st2)
    end.
Proof.
  intros Hst Hget Hi Ha. simpl. unfold executeStatementBody, bind at 1.
  rewrite step_within by assumption.
  unfold bind at 1. unfold envGet, liftHeap. simpl. rewrite Hget.
  unfold bind at 1.
  replace (mkIState (heap st) (loader st) (steps st + 1) (callStack st)) with (entered st)
    by reflexivity.
  rewrite Hi. unfold bind at 1. unfold getArray, readHeap, liftHeap. simpl.
  rewrite Ha. simpl.
  destruct (out_of_bounds _ _).
  - destruct st1 as [h1 ld1 n1 cs1]. reflexivity.
  - unfold bind.
    replace (mkIState (heap st1) (loader st1) (steps st1) (callStack st1)) with st1
      by (destruct st1; reflexivity).
    destruct (evaluateExpression host file limit onImport n value env st1)
      as [[v|e|] st2]; reflexivity.
Qed.

Lemma index_assignment_not_a_number n name index value line column env st a iv st1 :
  steps st < limit ->
  Environment_get (envs (heap st)) env name = Ok (VArray a) ->
  evaluateExpression host file limit onImport n index env (entered st) = (Ok iv, st1) ->
  match iv with VNumber _ => False | _ => True end ->
  executeStatement host file limit onImport (S n)
    (IndexAssignment name index value line column) env st =
  (Throw (ThrownRuntime
     (new_RuntimeError "Array index must be a number" file line column (callStack st1))),
   st1).
Proof.
  intros Hst Hget Hi Hiv. simpl. unfold executeStatementBody, bind at 1.
  rewrite step_within by assumption.
  unfold bind at 1. unfold envGet, liftHeap. simpl. rewrite Hget.
  unfold bind at 1.
  replace (mkIState (heap st) (loader st) (steps st + 1) (callStack st)) with (entered st)
    by reflexivity.
  rewrite Hi. destruct iv; try contradiction; reflexivity.
Qed.

Lemma index_assignment_not_an_array n name index value line column env st v :
  steps st < limit ->
  Environment_get (envs (heap st)) env name = Ok v ->
  match v with VArray _ => False | _ => True end ->
  executeStatement host file limit onImport (S n)
    (IndexAssignment name index value line column) env st =
  (Throw (ThrownRuntime
     (new_RuntimeError ("'" +:+ name +:+ "' is not an array") file line column
        (callStack st))),
   entered st).
Proof.
  intros Hst Hget Hv. simpl. unfold executeStatementBody, bind at 1.
  rewrite step_within by assumption.
  unfold bind at 1. unfold envGet, liftHeap. simpl. rewrite Hget.
  destruct v; try contradiction; reflexivity.
Qed.

End Indexing.

Lemma elems_length obj : length (elems obj) = length (slots obj).
Proof. unfold elems. apply length_map. Qed.

Lemma elems_mkArrayObj vs np : elems (mkArrayObj vs np) = vs.
Proof.
  unfold elems, mkArrayObj. simpl. induction vs as [|v vs IH]; simpl; congruence.
Qed.

Lemma elems_lookup obj i :
  elems obj !! i = option_map (default VUndefined) (slots obj !! i).
Proof. unfold elems. rewrite list_lookup_fmap. now destruct (slots obj !! i). Qed.

(** [x !== x] holds of NaN only, and the floor of NaN is NaN. *)
Lemma floor_nan x : Math_floor x = FloorNaN <-> PrimFloat.eqb x x = false.
Proof.
  rewrite FloatAxioms.eqb_spec. unfold Math_floor, SFeqb, SFcompare.
  destruct (Prim2SF x) as [s|s| |s m e].
  - split; [discriminate|]. destruct s; discriminate.
  - split; [destruct s; discriminate|]. destruct s; discriminate.
  - split; reflexivity.
  - split; [discriminate|].
    rewrite Z.compare_refl.
    change (Pos.compare_cont Eq m m) with (Pos.compare m m).
    rewrite Pos.compare_refl. destruct s; discriminate.
Qed.

Lemma array_read_in_range obj k :
  0 <= k < Z.of_nat (length (elems obj)) ->
  exists v, elems obj !! Z.to_nat k = Some v /\ array_read obj (FloorInt k) = v.
Proof.
  intros Hk. destruct (elems obj !! Z.to_nat k) as [v|] eqn:E.
  - exists v. split; [reflexivity|]. unfold array_read. now rewrite E.
  - apply lookup_ge_None in E. lia.
Qed.

Lemma array_write_in_range obj k v :
  0 <= k < Z.of_nat (length (elems obj)) ->
  slots (array_write obj (FloorInt k) v) = <[Z.to_nat k := Some v]> (slots obj)
  /\ elems (array_write obj (FloorInt k) v) = <[Z.to_nat k := v]> (elems obj)
  /\ NaN_property (array_write obj (FloorInt k) v) = NaN_property obj.
Proof.
  rewrite elems_length. intros Hk. unfold array_write.
  destruct (Nat.ltb_spec (Z.to_nat k) (length (slots obj))); [|lia].
  split; [reflexivity|]. split; [|reflexivity].
  unfold elems. simpl. now rewrite list_fmap_insert.
Qed.

Lemma array_write_past_the_end obj k v :
  Z.of_nat (length (elems obj)) <= k ->
  slots (array_write obj (FloorInt k) v) =
    slots obj ++ replicate (Z.to_nat k - length (slots obj)) None ++ [Some v]
  /\ elems (array_write obj (FloorInt k) v) =
       elems obj ++ replicate (Z.to_nat k - length (elems obj)) VUndefined ++ [v]
  /\ NaN_property (array_write obj (FloorInt k) v) = NaN_property obj.
Proof.
  intros Hk. pose proof (elems_length obj) as Hlen. unfold array_write.
  destruct (Nat.ltb_spec (Z.to_nat k) (length (slots obj))); [lia|].
  split; [reflexivity|]. split; [|reflexivity].
  unfold elems in *. simpl. rewrite !fmap_app, fmap_replicate, length_map. reflexivity.
Qed.

Lemma floor_to_string_int host x k :
  Math_floor x = FloorInt k ->
  floor_to_string host x =
  if Z.abs k <? 2 ^ 53 then string_of_Z k else number_to_string host x.
Proof. intros H. unfold floor_to_string. now rewrite H. Qed.




(** Positive fractions round down: [a[1.5] = 99] writes, and [a[1.75]] reads,
    the element at position 1. *)
Example fractional_index_rounds_down :
  option_map (fun r => res_output (fst r)) (run (test_host []) 10 fractional_index_example)
  = Some ["99"].
Proof. vm_compute. reflexivity. Qed.

(** ** Constant bindings *)

Lemma find_own fuel es : forall this name holder en,
  Environment_find fuel es this name = Some (holder, en) ->
  Environment_getOwnEntry es holder name = Some en.
Proof.
  induction fuel as [|fuel IH]; intros this name holder en H; simpl in H; [discriminate|].
  destruct (es !! this) as [fr|] eqn:E; [|discriminate].
  destruct (vars_get name (vars fr)) as [en0|] eqn:Ev.
  - inversion H; subst. unfold Environment_getOwnEntry. now rewrite E.
  - destruct (parent fr) as [p|]; [|discriminate]. eapply IH; eauto.
Qed.

Lemma set_constant_fails es this name v holder en :
  Environment_lookup es this name = Some (holder, en) ->
  constant en = true ->
  Environment_set es this name v =
  Throw (ThrownError ("Cannot reassign constant: '" +:+ name +:+ "'")).
Proof. intros Hl Hc. unfold Environment_set. now rewrite Hl, Hc. Qed.

Lemma set_keeps_constants es this name v es' e n en :
  Environment_set es this name v = Ok es' ->
  Environment_getOwnEntry es e n = Some en ->
  constant en = true ->
  Environment_getOwnEntry es' e n = Some en.
Proof.
  unfold Environment_set, Environment_lookup.
  destruct (Environment_find (length es) es this name) as [[holder en0]|] eqn:Hfind;
    [|discriminate].
  destruct (constant en0) eqn:Hc0; [discriminate|].
  intros H Hown Hc. inversion H; subst. apply find_own in Hfind.
  destruct (decide (n = name)) as [->|Hn].
  - destruct (decide (e = holder)) as [->|He]; [congruence|].
    now rewrite define_getOwnEntry_other.
  - now rewrite define_getOwnEntry_ne.
Qed.

Section Declarations.

Context (host : Host) (file : string) (limit : Z) (onImport : option ImportCallback).

Lemma assignment_to_constant n name value line column env st v st1 holder en :
  steps st < limit ->
  evaluateExpression host file limit onImport n value env (entered st) = (Ok v, st1) ->
  Environment_lookup (envs (heap st1)) env name = Some (holder, en) ->
  constant en = true ->
  executeStatement host file limit onImport (S n) (Assignment name value line column) env st =
  (Throw (ThrownRuntime
     (new_RuntimeError ("Cannot reassign constant: '" +:+ name +:+ "'") file line column
        (callStack st1))), st1).
Proof.
  intros Hst Hv Hl Hc. simpl. unfold executeStatementBody, bind at 1.
  rewrite step_within by assumption. unfold bind at 1. rewrite Hv.
  unfold bind, tryCatch, envSet, liftHeap.
  rewrite (set_constant_fails _ _ _ v _ _ Hl Hc).
  destruct st1 as [h1 ld1 n1 cs1]. reflexivity.
Qed.

Lemma const_declaration_run n name ty value line column env st v st1 :
  steps st < limit ->
  evaluateExpression host file limit onImport n value env (entered st) = (Ok v, st1) ->
  executeStatement host file limit onImport (S n)
    (ConstDeclaration name ty value line column) env st =
  (Ok Normal, with_binding env name v true st1).
Proof.
  intros Hst Hv. simpl. unfold executeStatementBody, bind at 1.
  rewrite step_within by assumption. unfold bind at 1. rewrite Hv. reflexivity.
Qed.

Lemma let_declaration_run n name ty value line column env st v st1 :
  steps st < limit ->
  evaluateExpression host file limit onImport n value env (entered st) = (Ok v, st1) ->
  executeStatement host file limit onImport (S n)
    (LetDeclaration name ty (Some value) line column) env st =
  (Ok Normal, with_binding env name v false st1).
Proof.
  intros Hst Hv. simpl. unfold executeStatementBody, bind at 1.
  rewrite step_within by assumption. unfold bind at 1. rewrite Hv. reflexivity.
Qed.

Lemma function_declaration_run n declaration env st :
  steps st < limit ->
  executeStatement host file limit onImport (S n)
    (FunctionDeclarationStatement declaration) env st =
  (Ok Normal,
   with_binding env (fd_name declaration)
     (VFunction (functions (heap st)) declaration env) true (with_function (entered st))).
Proof.
  intros Hst. simpl. unfold executeStatementBody, bind at 1.
  rewrite step_within by assumption. reflexivity.
Qed.

End Declarations.




(** Reassigning a constant fails, as the tests of the repository expect. *)
Example constant_reassignment_fails :
  outcome_of (run (test_host []) 10 const_reassigned) =
  Some ([], Some ("RuntimeError: Cannot reassign constant: 'x'" +:+ LF
                  +:+ "  at <stdin>:2:1")).
Proof. vm_compute. reflexivity. Qed.

(** An instance of the import rules: an import of [a] while [a.lux] is being
    loaded fails, and nothing changes. *)
Lemma import_once_witness :
  ModuleLoader_importModule (test_host []) 0 1 "a" "main.lux" empty_heap
    (mkLoaderState ∅ {["a.lux"]} []) =
  (Throw (ThrownError "Circular import detected: a.lux"),
   (empty_heap, mkLoaderState ∅ {["a.lux"]} [])).
Proof.
  apply (proj1 import_once (test_host []) 0%nat 0%nat "a" "main.lux" empty_heap
           (mkLoaderState ∅ {["a.lux"]} [])).
  vm_compute. reflexivity.
Defined.

(** An instance of the error shapes: an unbound identifier. *)
Lemma error_string_shape_witness :
  evaluateExpression (test_host []) "<stdin>" STEP_LIMIT None 1 (Identifier "xyz") 0
    (initial_state (test_host [])) =
  (Throw (ThrownRuntime (new_RuntimeError "Undefined variable: 'xyz'" "<stdin>" 0 0 [])),
   entered (initial_state (test_host []))).
Proof.
  apply (proj1 (proj2 (proj2 (proj2 error_string_shape)))
           (test_host []) "<stdin>" STEP_LIMIT None 0%nat "xyz" 0%nat
           (initial_state (test_host []))); vm_compute; reflexivity.
Defined.

(** An instance of the frame discipline: a call of [g] at line 5 whose body
    throws leaves the frame of [g] on the stack. *)
Lemma call_frame_discipline_witness :
  callFunction "<stdin>" (executeStatement (test_host []) "<stdin>" STEP_LIMIT None 3)
    g_declaration 0 [] 5 1 g_declared =
  (Throw (ThrownRuntime
     (new_RuntimeError "Division by zero" "<stdin>" 0 0 [mkStackFrame "g" "<stdin>" 5 1])),
   snd (executeBlock (test_host []) "<stdin>" STEP_LIMIT None 3 (fd_body g_declaration)
          (child_env g_declared)
          (call_entry_state g_declaration 0 [] (mkStackFrame "g" "<stdin>" 5 1) g_declared)))
  /\ callStack
       (snd (executeBlock (test_host []) "<stdin>" STEP_LIMIT None 3 (fd_body g_declaration)
               (child_env g_declared)
               (call_entry_state g_declaration 0 [] (mkStackFrame "g" "<stdin>" 5 1)
                  g_declared)))
     = [mkStackFrame "g" "<stdin>" 5 1].
Proof.
  split.
  - refine (proj1 (proj2 (proj1 call_frame_discipline (test_host []) "<stdin>" None 3%nat
                            g_declaration 0%nat [] 5 1 g_declared
                            (Throw (ThrownRuntime
                               (new_RuntimeError "Division by zero" "<stdin>" 0 0
                                  [mkStackFrame "g" "<stdin>" 5 1]))) _ _))).
    vm_compute. reflexivity.
  - vm_compute. reflexivity.
Defined.

(** ** The repository's interpreter tests on the model

    The expected outputs are those of tests/interpreter.test.ts. *)

Example repository_test_hello :
  outcome_of (run (test_host []) 10 hello_example) = Some (["hello"], None).
Proof. vm_compute. reflexivity. Qed.

Example repository_test_arithmetic :
  outcome_of (run (test_host []) 10 test_arithmetic) = Some (["14"], None).
Proof. vm_compute. reflexivity. Qed.

Example repository_test_while :
  outcome_of (run (test_host []) 10 test_while) = Some (["0"; "1"; "2"], None).
Proof. vm_compute. reflexivity. Qed.

Example repository_test_for :
  outcome_of (run (test_host []) 10 test_for) = Some (["10"; "20"; "30"], None).
Proof. vm_compute. reflexivity. Qed.

Example repository_test_recursion :
  outcome_of (run (test_host []) 30 test_fac) = Some (["120"], None).
Proof. vm_compute. reflexivity. Qed.

Example repository_test_break :
  outcome_of (run (test_host []) 10 test_break) = Some (["3"], None).
Proof. vm_compute. reflexivity. Qed.

Example repository_test_continue :
  outcome_of (run (test_host []) 10 test_continue) = Some (["0"; "1"; "3"; "4"], None).
Proof. vm_compute. reflexivity. Qed.

Example repository_test_index_assignment :
  outcome_of (run (test_host []) 10 test_index_assignment) = Some (["99"], None).
Proof. vm_compute. reflexivity. Qed.

Example repository_test_closures :
  outcome_of (run (test_host []) 10 test_closures) = Some (["1"; "2"], None).
Proof. vm_compute. reflexivity. Qed.

Example repository_test_nested_scopes :
  outcome_of (run (test_host []) 10 test_nested_scopes) = Some (["inner"; "outer"], None).
Proof. vm_compute. reflexivity. Qed.

Example repository_test_logical :
  outcome_of (run (test_host []) 10 test_logical) = Some (["false"; "true"], None).
Proof. vm_compute. reflexivity. Qed.

Example array_aliasing :
  outcome_of (run (test_host []) 10 test_aliasing) = Some (["7"; "2"], None).
Proof. vm_compute. reflexivity. Qed.

(** ** The parser *)

Lemma TokenType_index_inj a b : TokenType_index a = TokenType_index b -> a = b.
Proof. destruct a; destruct b; simpl; intros H; first [reflexivity | discriminate H]. Qed.

Lemma TokenType_eqb_eq a b : TokenType_eqb a b = true <-> a = b.
Proof.
  unfold TokenType_eqb. rewrite Nat.eqb_eq. split.
  - apply TokenType_index_inj.
  - now intros ->.
Qed.

Lemma TokenType_eqb_refl a : TokenType_eqb a a = true.
Proof. now apply TokenType_eqb_eq. Qed.

Lemma existsb_TokenType t ops :
  existsb (TokenType_eqb t) ops = true -> In t ops.
Proof.
  rewrite existsb_exists. intros (x & Hin & Heq). apply TokenType_eqb_eq in Heq. now subst.
Qed.

Section ParserSafety.

Context (Number : string -> float) (tokens : list Token) (file : string) (eof : nat).
Hypothesis eof_token : exists token, tokens !! eof = Some token /\ tok_type token = EOF.

Local Abbreviation Safe := (safe tokens file eof).

Lemma safe_ret A (Q : A -> nat -> Prop) a pos :
  (pos <= eof)%nat -> Q a pos -> Safe Q (pret a) (pret a) pos.
Proof. intros Hle HQ. exists (Ok a), pos. repeat split; assumption. Qed.

Lemma safe_ret_eq A (a : A) pos :
  (pos <= eof)%nat -> Safe (fun a' pos' => a' = a /\ pos' = pos) (pret a) (pret a) pos.
Proof. intros Hle. apply safe_ret; [assumption|]. split; reflexivity. Qed.

Lemma safe_throw A (Q : A -> nat -> Prop) e pos :
  positioned tokens file e -> Safe Q (pthrow e) (pthrow e) pos.
Proof. intros He. exists (Throw e), pos. repeat split; assumption. Qed.

Lemma safe_bind A B (Q1 : A -> nat -> Prop) (Q : B -> nat -> Prop)
    (p1 p2 : P A) (k1 k2 : A -> P B) pos :
  Safe Q1 p1 p2 pos ->
  (forall a pos', (pos' <= eof)%nat -> Q1 a pos' -> Safe Q (k1 a) (k2 a) pos') ->
  Safe Q (pbind p1 k1) (pbind p2 k2) pos.
Proof.
  intros (r & pos' & E1 & E2 & Hr) Hk.
  destruct r as [a|e|].
  - destruct Hr as [Hle HQ].
    destruct (Hk a pos' Hle HQ) as (r2 & pos2 & E1' & E2' & Hr2).
    exists r2, pos2. unfold pbind. rewrite E1, E2. repeat split; assumption.
  - exists (Throw e), pos'. unfold pbind. rewrite E1, E2. repeat split; assumption.
  - destruct Hr.
Qed.

Lemma safe_weaken A (Q Q' : A -> nat -> Prop) (p1 p2 : P A) pos :
  Safe Q p1 p2 pos ->
  (forall a pos', (pos' <= eof)%nat -> Q a pos' -> Q' a pos') ->
  Safe Q' p1 p2 pos.
Proof.
  intros (r & pos' & E1 & E2 & Hr) HQ. exists r, pos'. repeat split; try assumption.
  destruct r; try assumption. destruct Hr as [Hle Ha]. split; [assumption|]. now apply HQ.
Qed.

Lemma lookup_inside pos : (pos <= eof)%nat -> exists token, tokens !! pos = Some token.
Proof.
  intros Hle. destruct eof_token as (t & Ht & _).
  apply lookup_lt_is_Some. apply lookup_lt_Some in Ht. lia.
Qed.

Lemma before_eof pos token :
  tokens !! pos = Some token -> tok_type token <> EOF -> (pos <= eof)%nat -> (pos < eof)%nat.
Proof.
  intros Hpos Hty Hle. destruct eof_token as (t & Ht & Hteof).
  destruct (decide (pos = eof)) as [->|Hne]; [|lia].
  rewrite Ht in Hpos. inversion Hpos; subst. contradiction.
Qed.

Lemma safe_peek pos :
  (pos <= eof)%nat ->
  Safe (fun token pos' => pos' = pos /\ tokens !! pos = Some token) (peek tokens) (peek tokens) pos.
Proof.
  intros Hle. destruct (lookup_inside pos Hle) as (token & Ht).
  exists (Ok token), pos. unfold peek. rewrite Ht. repeat split; assumption.
Qed.

Lemma safe_advance pos token :
  tokens !! pos = Some token -> tok_type token <> EOF -> (pos <= eof)%nat ->
  Safe (fun _ pos' => pos' = S pos) advance advance pos.
Proof.
  intros Ht Hty Hle. pose proof (before_eof pos token Ht Hty Hle).
  exists (Ok tt), (S pos). repeat split. lia.
Qed.

Lemma positioned_unexpected type token :
  token ∈ tokens -> positioned tokens file (unexpected file type token).
Proof. intros Hin. eexists _, token. split; [assumption|reflexivity]. Qed.

Lemma safe_expect type pos :
  (pos <= eof)%nat -> type <> EOF ->
  Safe (fun token pos' => pos' = S pos /\ token ∈ tokens /\ tok_type token = type)
    (expect tokens file type) (expect tokens file type) pos.
Proof.
  intros Hle Hty. unfold expect.
  eapply safe_bind; [apply safe_peek; assumption|].
  intros token pos' _ [-> Ht]. cbv beta.
  destruct (TokenType_eqb (tok_type token) type) eqn:E.
  - apply TokenType_eqb_eq in E.
    eapply safe_bind; [eapply safe_advance; [eassumption| congruence | assumption]|].
    intros _ pos' Hle' ->. apply safe_ret; [assumption|].
    repeat split; [|assumption]. eapply list_elem_of_lookup_2; eassumption.
  - apply safe_throw, positioned_unexpected. eapply list_elem_of_lookup_2; eassumption.
Qed.

Lemma safe_match type pos :
  (pos <= eof)%nat -> type <> EOF ->
  Safe (fun (b : bool) pos' => if b then pos' = S pos else pos' = pos)
    (match_ tokens type) (match_ tokens type) pos.
Proof.
  intros Hle Hty. unfold match_.
  eapply safe_bind; [apply safe_peek; assumption|].
  intros token pos' _ [-> Ht]. cbv beta.
  destruct (TokenType_eqb (tok_type token) type) eqn:E.
  - apply TokenType_eqb_eq in E.
    eapply safe_bind; [eapply safe_advance; [eassumption| congruence | assumption]|].
    intros _ pos' Hle' ->. apply safe_ret; [assumption|reflexivity].
  - apply safe_ret; [assumption|reflexivity].
Qed.

Lemma safe_expectNewline pos :
  (pos <= eof)%nat ->
  Safe (fun _ pos' => (pos <= pos')%nat) (expectNewline tokens) (expectNewline tokens) pos.
Proof.
  intros Hle. unfold expectNewline.
  eapply safe_bind; [apply safe_peek; assumption|].
  intros token pos' _ [-> Ht]. cbv beta.
  destruct (TokenType_eqb (tok_type token) NEWLINE) eqn:E.
  - apply TokenType_eqb_eq in E.
    eapply safe_weaken; [eapply safe_advance; [eassumption| congruence | assumption]|].
    cbv beta. intros; lia.
  - apply safe_ret; [assumption|lia].
Qed.

Lemma safe_skipNewlines f1 f2 pos :
  (pos <= eof)%nat -> (eof < f1 + pos)%nat -> (eof < f2 + pos)%nat ->
  Safe (fun _ pos' => (pos <= pos')%nat) (skipNewlines tokens f1) (skipNewlines tokens f2) pos.
Proof.
  revert f2 pos. induction f1 as [|f1 IH]; intros f2 pos Hle H1 H2; [lia|].
  destruct f2 as [|f2]; [lia|]. simpl.
  eapply safe_bind; [apply safe_peek; assumption|].
  intros token pos' _ [-> Ht]. cbv beta.
  destruct (TokenType_eqb (tok_type token) NEWLINE) eqn:E.
  - apply TokenType_eqb_eq in E.
    eapply safe_bind; [eapply safe_advance; [eassumption| congruence | assumption]|].
    intros _ pos' Hle' ->.
    eapply safe_weaken; [apply IH; lia|]. cbv beta. intros; lia.
  - apply safe_ret; [assumption|lia].
Qed.

Ltac token_facts :=
  repeat match goal with
         | H : TokenType_eqb _ _ = true |- _ => apply TokenType_eqb_eq in H
         | H : existsb (TokenType_eqb _) _ = true |- _ => apply existsb_TokenType in H
         end.

Ltac safe_prim :=
  first
    [ apply safe_peek; lia
    | apply safe_expect; [lia | discriminate]
    | apply safe_match; [lia | discriminate]
    | apply safe_expectNewline; lia
    | apply safe_skipNewlines; lia
    | apply safe_ret_eq; lia
    | eapply safe_advance; [eassumption | token_facts; simpl in *; intuition congruence | lia] ].

Ltac safe_unfold :=
  unfold expr_past, expr_after, exprs_after, stmt_past, stmts_after.

Ltac safe_post :=
  let a := fresh "a" in
  let p := fresh "pos" in
  let Hle := fresh "Hle" in
  let HQ := fresh "HQ" in
  intros a p Hle HQ; cbv beta in HQ;
  unfold expr_past, expr_after, exprs_after, stmt_past, stmts_after in HQ;
  repeat match goal with
         | H : _ /\ _ |- _ => destruct H
         | H : (if ?b then _ else _) |- _ => destruct b eqn:?
         end;
  subst; cbv beta iota.

Ltac safe_seq := eapply safe_bind; [ safe_prim | safe_post ].

Lemma calls_ok_app a b : calls_ok tokens a -> calls_ok tokens b -> calls_ok tokens (a ++ b).
Proof. intros Ha Hb. apply Forall_app; split; assumption. Qed.

Lemma calls_ok_nil : calls_ok tokens [].
Proof. constructor. Qed.

Lemma calls_ok_cons token l :
  token ∈ tokens -> tok_type token = IDENTIFIER -> calls_ok tokens l ->
  calls_ok tokens ((tok_value token, (tok_line token, tok_column token)) :: l).
Proof.
  intros Hin Hty Hl. constructor; [|assumption]. exists token. repeat split; assumption.
Qed.

Lemma positions_ok_app a b :
  positions_ok tokens a -> positions_ok tokens b -> positions_ok tokens (a ++ b).
Proof. intros Ha Hb. apply Forall_app; split; assumption. Qed.

Lemma positions_ok_nil : positions_ok tokens [].
Proof. constructor. Qed.

Lemma positions_ok_cons token l :
  token ∈ tokens -> positions_ok tokens l ->
  positions_ok tokens ((tok_line token, tok_column token) :: l).
Proof. intros Hin Hl. constructor; [|assumption]. exists token. split; [assumption|reflexivity]. Qed.

Lemma flat_map_snoc {A B} (f : A -> list B) l x :
  flat_map f (l ++ [x]) = flat_map f l ++ f x.
Proof. rewrite flat_map_app. simpl. now rewrite app_nil_r. Qed.

Ltac member :=
  first [ assumption | eapply list_elem_of_lookup_2; eassumption ].

Ltac nodes :=
  simpl; rewrite ?flat_map_snoc; simpl; rewrite ?app_nil_r;
  repeat first
    [ assumption
    | apply calls_ok_nil | apply positions_ok_nil
    | apply calls_ok_app | apply positions_ok_app
    | apply calls_ok_cons; [member | token_facts; congruence | ]
    | apply positions_ok_cons; [member | ] ].

Ltac safe_done :=
  apply safe_ret; [lia | safe_unfold; repeat split; first [lia | nodes]].

Lemma safe_binaryLoop ops operator (op1 op2 : P Expression) f1 :
  ~ In EOF ops ->
  forall f2 left pos,
  (forall p, (pos < p)%nat -> (p <= eof)%nat -> Safe (expr_past tokens p) op1 op2 p) ->
  (pos <= eof)%nat -> (eof < f1 + pos)%nat -> (eof < f2 + pos)%nat ->
  calls_ok tokens (Expression_calls left) ->
  Safe (expr_after tokens pos) (binaryLoop tokens f1 ops operator op1 left)
       (binaryLoop tokens f2 ops operator op2 left) pos.
Proof.
  intros Hops. induction f1 as [|f1 IH]; intros f2 left pos Hop Hle H1 H2 Hleft; [lia|].
  destruct f2 as [|f2]; [lia|]. simpl.
  safe_seq.
  destruct (existsb (TokenType_eqb (tok_type a)) ops) eqn:E.
  - apply existsb_TokenType in E.
    eapply safe_bind.
    { eapply safe_advance; [eassumption| |lia]. intros Heq. rewrite Heq in E. contradiction. }
    safe_post.
    eapply safe_bind; [apply Hop; lia|]. safe_post.
    eapply safe_weaken.
    + apply IH; try lia.
      * intros p Hp Hpe. apply Hop; lia.
      * nodes.
    + intros e p Hpe [Hp He]. split; [lia|assumption].
  - safe_done.
Qed.

Lemma safe_binaryLevel ops operator (op1 op2 : P Expression) f1 f2 pos :
  ~ In EOF ops ->
  (forall p, (pos <= p)%nat -> (p <= eof)%nat -> Safe (expr_past tokens p) op1 op2 p) ->
  (pos <= eof)%nat -> (eof < f1 + pos)%nat -> (eof < f2 + pos)%nat ->
  Safe (expr_past tokens pos) (binaryLevel tokens f1 ops operator op1)
       (binaryLevel tokens f2 ops operator op2) pos.
Proof.
  intros Hops Hop Hle H1 H2. unfold binaryLevel.
  eapply safe_bind; [apply Hop; lia|]. safe_post.
  eapply safe_weaken.
  - apply safe_binaryLoop; try assumption; try lia.
    intros p Hp Hpe. apply Hop; lia.
  - intros e p Hpe [Hp He]. split; [lia|assumption].
Qed.

Lemma safe_parseUnary (prim1 prim2 : P Expression) f1 :
  forall f2 pos,
  (forall p, (pos <= p)%nat -> (p <= eof)%nat -> Safe (expr_past tokens p) prim1 prim2 p) ->
  (pos <= eof)%nat -> (eof < f1 + pos)%nat -> (eof < f2 + pos)%nat ->
  Safe (expr_past tokens pos) (parseUnary tokens f1 prim1) (parseUnary tokens f2 prim2) pos.
Proof.
  induction f1 as [|f1 IH]; intros f2 pos Hprim Hle H1 H2; [lia|].
  destruct f2 as [|f2]; [lia|]. simpl.
  safe_seq.
  destruct (tok_type a) eqn:E; try (apply Hprim; lia).
  - safe_seq.
    eapply safe_bind; [apply IH; try lia; intros; apply Hprim; lia|].
    safe_post. safe_done.
  - safe_seq.
    eapply safe_bind; [apply IH; try lia; intros; apply Hprim; lia|].
    safe_post. safe_done.
Qed.

Lemma safe_parseExponent (prim1 prim2 : P Expression) f1 :
  forall f2 pos,
  (forall p, (pos <= p)%nat -> (p <= eof)%nat -> Safe (expr_past tokens p) prim1 prim2 p) ->
  (pos <= eof)%nat -> (eof < f1 + pos)%nat -> (eof < f2 + pos)%nat ->
  Safe (expr_past tokens pos) (parseExponent tokens f1 prim1)
       (parseExponent tokens f2 prim2) pos.
Proof.
  induction f1 as [|f1 IH]; intros f2 pos Hprim Hle H1 H2; [lia|].
  destruct f2 as [|f2]; [lia|]. cbn [parseExponent].
  eapply safe_bind; [apply safe_parseUnary; try lia; assumption|].
  safe_post.
  safe_seq.
  destruct (TokenType_eqb (tok_type a0) CARET) eqn:E.
  - safe_seq.
    eapply safe_bind; [apply IH; try lia; intros; apply Hprim; lia|].
    safe_post. safe_done.
  - safe_done.
Qed.

Ltac level_ops := simpl; intuition discriminate.

Lemma safe_parseOr (prim1 prim2 : P Expression) f1 f2 pos :
  (forall p, (pos <= p)%nat -> (p <= eof)%nat -> Safe (expr_past tokens p) prim1 prim2 p) ->
  (pos <= eof)%nat -> (eof < f1 + pos)%nat -> (eof < f2 + pos)%nat ->
  Safe (expr_past tokens pos) (parseOr tokens f1 prim1) (parseOr tokens f2 prim2) pos.
Proof.
  intros Hprim Hle H1 H2.
  unfold parseOr, parseAnd, parseEquality, parseComparison, parseAddition,
    parseMultiplication.
  repeat (apply safe_binaryLevel; [level_ops| |lia|lia|lia]; intros).
  apply safe_parseExponent; try lia. intros; apply Hprim; lia.
Qed.

Lemma safe_commaLoop (pe1 pe2 : P Expression) f1 :
  forall f2 elements pos,
  (forall p, (pos < p)%nat -> (p <= eof)%nat -> Safe (expr_past tokens p) pe1 pe2 p) ->
  (pos <= eof)%nat -> (eof < f1 + pos)%nat -> (eof < f2 + pos)%nat ->
  calls_ok tokens (flat_map Expression_calls elements) ->
  Safe (exprs_after tokens pos) (commaLoop tokens f1 pe1 elements)
       (commaLoop tokens f2 pe2 elements) pos.
Proof.
  induction f1 as [|f1 IH]; intros f2 elements pos Hpe Hle H1 H2 Hel; [lia|].
  destruct f2 as [|f2]; [lia|]. simpl.
  safe_seq.
  - eapply safe_bind; [apply Hpe; lia|]. safe_post.
    eapply safe_weaken.
    + apply IH; try lia; [intros; apply Hpe; lia | nodes].
    + intros e p Hpe' [Hp He]. split; [lia|assumption].
  - safe_done.
Qed.

Lemma safe_parseElements (pe1 pe2 : P Expression) f1 f2 close pos :
  (forall p, (pos <= p)%nat -> (p <= eof)%nat -> Safe (expr_past tokens p) pe1 pe2 p) ->
  (pos <= eof)%nat -> (eof < f1 + pos)%nat -> (eof < f2 + pos)%nat ->
  Safe (exprs_after tokens pos) (parseElements tokens f1 pe1 close)
       (parseElements tokens f2 pe2 close) pos.
Proof.
  intros Hpe Hle H1 H2. unfold parseElements.
  safe_seq.
  destruct (TokenType_eqb (tok_type a) close) eqn:E.
  - safe_done.
  - eapply safe_bind; [apply Hpe; lia|]. safe_post.
    eapply safe_weaken.
    + apply safe_commaLoop; try lia; [intros; apply Hpe; lia | nodes].
    + intros e p Hpe' [Hp He]. split; [lia|assumption].
Qed.

Lemma safe_indexChain (pe1 pe2 : P Expression) f1 :
  forall f2 expr pos,
  (forall p, (pos < p)%nat -> (p <= eof)%nat -> Safe (expr_past tokens p) pe1 pe2 p) ->
  (pos <= eof)%nat -> (eof < f1 + pos)%nat -> (eof < f2 + pos)%nat ->
  calls_ok tokens (Expression_calls expr) ->
  Safe (expr_after tokens pos) (indexChain tokens file f1 pe1 expr)
       (indexChain tokens file f2 pe2 expr) pos.
Proof.
  induction f1 as [|f1 IH]; intros f2 expr pos Hpe Hle H1 H2 Hex; [lia|].
  destruct f2 as [|f2]; [lia|]. simpl.
  safe_seq.
  destruct (TokenType_eqb (tok_type a) LBRACKET) eqn:E.
  - safe_seq.
    eapply safe_bind; [apply Hpe; lia|]. safe_post.
    safe_seq.
    eapply safe_weaken.
    + apply IH; try lia; [intros; apply Hpe; lia | nodes].
    + intros e p Hpe' [Hp He]. split; [lia|assumption].
  - safe_done.
Qed.

Lemma positioned_at message token :
  token ∈ tokens ->
  positioned tokens file
    (ThrownLuxbin (new_ParseError message file (tok_line token) (tok_column token))).
Proof. intros Hin. exists message, token. split; [assumption|reflexivity]. Qed.

Lemma safe_parsePrimary (pe1 pe2 : P Expression) f1 f2 pos :
  (forall p, (pos < p)%nat -> (p <= eof)%nat -> Safe (expr_past tokens p) pe1 pe2 p) ->
  (pos <= eof)%nat -> (eof < f1 + pos)%nat -> (eof < f2 + pos)%nat ->
  Safe (expr_past tokens pos) (parsePrimary Number tokens file f1 pe1)
       (parsePrimary Number tokens file f2 pe2) pos.
Proof.
  intros Hpe Hle H1 H2. unfold parsePrimary.
  safe_seq.
  destruct (tok_type a) eqn:E;
    try (apply safe_throw, positioned_at; member);
    try (safe_seq; safe_done).
  - (* identifier *)
    safe_seq. safe_seq.
    destruct (TokenType_eqb (tok_type a1) LPAREN) eqn:E1;
      [|destruct (TokenType_eqb (tok_type a1) LBRACKET) eqn:E2].
    + safe_seq.
      eapply safe_bind; [apply safe_parseElements; try lia; intros; apply Hpe; lia|].
      safe_post. safe_seq.
      eapply safe_weaken.
      * apply safe_indexChain; try lia; [intros; apply Hpe; lia | nodes].
      * intros e p Hpe' [Hp He]. split; [lia|assumption].
    + safe_seq.
      eapply safe_bind; [apply Hpe; lia|]. safe_post.
      safe_seq. safe_done.
    + safe_done.
  - (* parenthesis *)
    safe_seq.
    eapply safe_bind; [apply Hpe; lia|]. safe_post.
    safe_seq. safe_done.
  - (* array literal *)
    safe_seq.
    eapply safe_bind; [apply safe_parseElements; try lia; intros; apply Hpe; lia|].
    safe_post. safe_seq. safe_done.
Qed.

Lemma safe_parseExpression f1 :
  forall f2 pos,
  (pos <= eof)%nat -> (eof + 1 < f1 + pos)%nat -> (eof + 1 < f2 + pos)%nat ->
  Safe (expr_past tokens pos) (parseExpression Number tokens file f1)
       (parseExpression Number tokens file f2) pos.
Proof.
  induction f1 as [|f1 IH]; intros f2 pos Hle H1 H2; [lia|].
  destruct f2 as [|f2]; [lia|]. simpl.
  apply safe_parseOr; try lia.
  intros p Hp Hpe. apply safe_parsePrimary; try lia.
  intros q Hq Hqe. apply IH; lia.
Qed.

Ltac safe_finish := solve [safe_done].

Ltac safe_run call :=
  repeat first
    [ safe_finish
    | safe_seq
    | eapply safe_bind; [ solve [call] | safe_post ]
    | match goal with
      | |- safe _ _ _ _ (if ?b then _ else _) _ _ => destruct b eqn:?
      end ].

Lemma safe_peekAt offset pos :
  (pos <= eof)%nat ->
  Safe (fun _ pos' => pos' = pos) (peekAt tokens offset) (peekAt tokens offset) pos.
Proof.
  intros Hle. unfold peekAt, safe. cbv beta zeta.
  destruct eof_token as (t & Ht & _). pose proof (lookup_lt_Some _ _ _ Ht) as Hlen.
  destruct (length tokens <=? pos + offset)%nat eqn:E.
  - destruct (last tokens) as [token|] eqn:El.
    + exists (Ok token), pos. repeat split; first [reflexivity | assumption].
    + apply last_None in El. rewrite El in Hlen. simpl in Hlen. lia.
  - apply Nat.leb_gt in E. destruct (lookup_lt_is_Some_2 tokens (pos + offset) E) as [token Hk].
    rewrite Hk. exists (Ok token), pos. repeat split; first [reflexivity | assumption].
Qed.

Lemma safe_typeAnnotation pos :
  (pos <= eof)%nat ->
  Safe (fun _ pos' => (pos <= pos')%nat) (typeAnnotation tokens file)
       (typeAnnotation tokens file) pos.
Proof.
  intros Hle. unfold typeAnnotation.
  safe_seq; [safe_seq|]; apply safe_ret; lia.
Qed.

Lemma safe_blockLoop closing (ps1 ps2 : P Statement) f1 :
  forall f2 body pos,
  (forall p, (pos <= p)%nat -> (p <= eof)%nat -> Safe (stmt_past tokens p) ps1 ps2 p) ->
  (pos <= eof)%nat -> (eof < f1 + pos)%nat -> (eof < f2 + pos)%nat ->
  positions_ok tokens (flat_map Statement_positions body) ->
  calls_ok tokens (flat_map Statement_calls body) ->
  Safe (stmts_after tokens pos) (blockLoop tokens f1 closing ps1 body)
       (blockLoop tokens f2 closing ps2 body) pos.
Proof.
  induction f1 as [|f1 IH]; intros f2 body pos Hps Hle H1 H2 Hpos Hcalls; [lia|].
  destruct f2 as [|f2]; [lia|]. cbn [blockLoop].
  safe_seq.
  destruct (existsb (TokenType_eqb (tok_type a)) closing) eqn:E.
  - safe_done.
  - eapply safe_bind; [apply Hps; lia|]. safe_post.
    safe_seq.
    eapply safe_weaken.
    + apply IH; try lia; [intros; apply Hps; lia | nodes | nodes].
    + intros e p Hpe' (Hp & He1 & He2). repeat split; [lia|assumption|assumption].
Qed.

Ltac safe_call :=
  first
    [ apply safe_parseExpression; lia
    | apply safe_typeAnnotation; lia
    | apply safe_peekAt; lia ].

Ltac safe_optional :=
  match goal with
  | |- safe _ _ _ _ _ _ ?p =>
      eapply (safe_bind _ _
                (fun v q => (p <= q)%nat /\
                   calls_ok tokens
                     (match v with Some e => Expression_calls e | None => [] end)))
  end.

Ltac safe_moved :=
  match goal with
  | |- safe _ _ _ _ _ _ ?p => eapply (safe_bind _ _ (fun _ q => (p <= q)%nat))
  end.

Lemma safe_parseLetDeclaration f1 f2 pos :
  (pos <= eof)%nat -> (eof + 1 < f1 + pos)%nat -> (eof + 1 < f2 + pos)%nat ->
  Safe (stmt_past tokens pos) (parseLetDeclaration Number tokens file f1)
       (parseLetDeclaration Number tokens file f2) pos.
Proof.
  intros Hle H1 H2. unfold parseLetDeclaration.
  safe_seq. safe_seq. eapply safe_bind; [safe_call|safe_post]. safe_seq.
  - safe_optional.
    + safe_run safe_call.
    + safe_post. safe_run safe_call.
  - safe_run safe_call.
Qed.

Lemma safe_parseConstDeclaration f1 f2 pos :
  (pos <= eof)%nat -> (eof + 1 < f1 + pos)%nat -> (eof + 1 < f2 + pos)%nat ->
  Safe (stmt_past tokens pos) (parseConstDeclaration Number tokens file f1)
       (parseConstDeclaration Number tokens file f2) pos.
Proof. intros Hle H1 H2. unfold parseConstDeclaration. safe_run safe_call. Qed.

Lemma safe_parseAssignment f1 f2 pos :
  (pos <= eof)%nat -> (eof + 1 < f1 + pos)%nat -> (eof + 1 < f2 + pos)%nat ->
  Safe (stmt_past tokens pos) (parseAssignment Number tokens file f1)
       (parseAssignment Number tokens file f2) pos.
Proof. intros Hle H1 H2. unfold parseAssignment. safe_run safe_call. Qed.

Lemma safe_parseExpressionStatement f1 f2 pos :
  (pos <= eof)%nat -> (eof + 1 < f1 + pos)%nat -> (eof + 1 < f2 + pos)%nat ->
  Safe (stmt_past tokens pos) (parseExpressionStatement Number tokens file f1)
       (parseExpressionStatement Number tokens file f2) pos.
Proof. intros Hle H1 H2. unfold parseExpressionStatement. safe_run safe_call. Qed.

Lemma safe_restart A (Q : A -> nat -> Prop) (p1 p2 : P A) pos pos' :
  Safe Q p1 p2 pos -> Safe Q (fun _ => p1 pos) (fun _ => p2 pos) pos'.
Proof. intros H. exact H. Qed.

Lemma safe_parseIndexAssignmentOrExpression f1 f2 pos :
  (pos <= eof)%nat -> (eof + 1 < f1 + pos)%nat -> (eof + 1 < f2 + pos)%nat ->
  Safe (stmt_past tokens pos) (parseIndexAssignmentOrExpression Number tokens file f1)
       (parseIndexAssignmentOrExpression Number tokens file f2) pos.
Proof.
  intros Hle H1 H2. unfold parseIndexAssignmentOrExpression.
  change (Safe (stmt_past tokens pos)
    (pbind (expect tokens file IDENTIFIER) (fun tok =>
       pbind (expect tokens file LBRACKET) (fun _ =>
       pbind (parseExpression Number tokens file f1) (fun index =>
       pbind (expect tokens file RBRACKET) (fun _ =>
       pbind (peek tokens) (fun next =>
         if TokenType_eqb (tok_type next) EQUALS
         then pbind advance (fun _ =>
              pbind (parseExpression Number tokens file f1) (fun value =>
              pbind (expectNewline tokens) (fun _ =>
              pret (IndexAssignment (tok_value tok) index value (tok_line tok) (tok_column tok)))))
         else fun _ => parseExpressionStatement Number tokens file f1 pos))))))
    (pbind (expect tokens file IDENTIFIER) (fun tok =>
       pbind (expect tokens file LBRACKET) (fun _ =>
       pbind (parseExpression Number tokens file f2) (fun index =>
       pbind (expect tokens file RBRACKET) (fun _ =>
       pbind (peek tokens) (fun next =>
         if TokenType_eqb (tok_type next) EQUALS
         then pbind advance (fun _ =>
              pbind (parseExpression Number tokens file f2) (fun value =>
              pbind (expectNewline tokens) (fun _ =>
              pret (IndexAssignment (tok_value tok) index value (tok_line tok) (tok_column tok)))))
         else fun _ => parseExpressionStatement Number tokens file f2 pos))))))
    pos).
  safe_seq. safe_seq. eapply safe_bind; [safe_call|safe_post]. safe_seq. safe_seq.
  destruct (TokenType_eqb (tok_type a3) EQUALS) eqn:E.
  - safe_run safe_call.
  - apply safe_restart. apply safe_parseExpressionStatement; lia.
Qed.

Lemma safe_paramLoop f1 :
  forall f2 params pos,
  (pos <= eof)%nat -> (eof < f1 + pos)%nat -> (eof < f2 + pos)%nat ->
  Safe (fun _ pos' => (pos <= pos')%nat) (paramLoop tokens file f1 params)
       (paramLoop tokens file f2 params) pos.
Proof.
  induction f1 as [|f1 IH]; intros f2 params pos Hle H1 H2; [lia|].
  destruct f2 as [|f2]; [lia|]. cbn [paramLoop].
  safe_seq. eapply safe_bind; [safe_call|safe_post]. safe_seq.
  - eapply safe_weaken; [apply IH; lia|]. cbv beta. intros; lia.
  - apply safe_ret; lia.
Qed.

Section Statements.

Context (ps1 ps2 : P Statement) (pos : nat).
Hypothesis Hps :
  forall p, (pos < p)%nat -> (p <= eof)%nat -> Safe (stmt_past tokens p) ps1 ps2 p.
Context (f1 f2 : nat).
Hypothesis Hle : (pos <= eof)%nat.
Hypothesis H1 : (eof + 1 < f1 + pos)%nat.
Hypothesis H2 : (eof + 1 < f2 + pos)%nat.

Ltac safe_block :=
  first
    [ safe_call
    | apply safe_blockLoop;
        [intros; apply Hps; lia | lia | lia | lia | apply positions_ok_nil | apply calls_ok_nil] ].

Lemma safe_elseLoop g1 :
  forall g2 alts p,
  (pos < p)%nat -> (p <= eof)%nat -> (eof + 1 < g1 + p)%nat -> (eof + 1 < g2 + p)%nat ->
  positions_ok tokens (flat_map (fun alt => flat_map Statement_positions (snd alt)) alts) ->
  calls_ok tokens
    (flat_map (fun alt => Expression_calls (fst alt) ++ flat_map Statement_calls (snd alt))
       alts) ->
  Safe (fun r pos' =>
          (p <= pos')%nat /\
          positions_ok tokens
            (flat_map (fun alt => flat_map Statement_positions (snd alt)) (fst r)
             ++ match snd r with
                | Some body => flat_map Statement_positions body
                | None => []
                end) /\
          calls_ok tokens
            (flat_map (fun alt => Expression_calls (fst alt)
                                  ++ flat_map Statement_calls (snd alt)) (fst r)
             ++ match snd r with
                | Some body => flat_map Statement_calls body
                | None => []
                end))
       (elseLoop Number tokens file g1 ps1 alts)
       (elseLoop Number tokens file g2 ps2 alts) p.
Proof.
  induction g1 as [|g1 IH]; intros g2 alts p Hp Hpe G1 G2 Hpos Hcalls; [lia|].
  destruct g2 as [|g2]; [lia|]. cbn [elseLoop].
  safe_seq.
  destruct (TokenType_eqb (tok_type a) ELSE) eqn:E.
  - safe_seq. safe_seq.
    destruct (TokenType_eqb (tok_type a1) IF) eqn:E1.
    + safe_seq. eapply safe_bind; [safe_call|safe_post]. safe_seq. safe_seq. safe_seq.
      eapply safe_bind; [safe_block|safe_post].
      eapply safe_weaken.
      * apply IH; try lia; nodes.
      * cbv beta. intros r q Hq (Hq' & Hr1 & Hr2). repeat split; [lia|assumption|assumption].
    + safe_seq. safe_seq.
      eapply safe_bind; [safe_block|safe_post].
      apply safe_ret; [lia|]. repeat split; [lia|nodes|nodes].
  - apply safe_ret; [lia|]. repeat split; [lia|nodes|nodes].
Qed.

Lemma safe_parseFunctionDeclaration :
  Safe (stmt_past tokens pos) (parseFunctionDeclaration tokens file f1 ps1)
       (parseFunctionDeclaration tokens file f2 ps2) pos.
Proof.
  unfold parseFunctionDeclaration.
  safe_seq. safe_seq. safe_seq. safe_seq.
  safe_moved.
  { destruct (TokenType_eqb (tok_type a2) RPAREN).
    - apply safe_ret; lia.
    - apply safe_paramLoop; lia. }
  safe_post. safe_run safe_block.
Qed.

Lemma safe_parseIfStatement :
  Safe (stmt_past tokens pos) (parseIfStatement Number tokens file f1 ps1)
       (parseIfStatement Number tokens file f2 ps2) pos.
Proof.
  unfold parseIfStatement.
  safe_seq. eapply safe_bind; [safe_call|safe_post]. safe_seq. safe_seq. safe_seq.
  eapply safe_bind; [safe_block|safe_post].
  eapply safe_bind; [apply safe_elseLoop; try lia; nodes|safe_post].
  safe_run safe_block.
Qed.

Lemma safe_parseWhileStatement :
  Safe (stmt_past tokens pos) (parseWhileStatement Number tokens file f1 ps1)
       (parseWhileStatement Number tokens file f2 ps2) pos.
Proof. unfold parseWhileStatement. safe_run safe_block. Qed.

Lemma safe_parseForStatement :
  Safe (stmt_past tokens pos) (parseForStatement Number tokens file f1 ps1)
       (parseForStatement Number tokens file f2 ps2) pos.
Proof. unfold parseForStatement. safe_run safe_block. Qed.

Lemma safe_parseTryCatchStatement :
  Safe (stmt_past tokens pos) (parseTryCatchStatement tokens file f1 ps1)
       (parseTryCatchStatement tokens file f2 ps2) pos.
Proof. unfold parseTryCatchStatement. safe_run safe_block. Qed.

End Statements.

Lemma safe_parseReturnStatement f1 f2 pos :
  (pos <= eof)%nat -> (eof + 1 < f1 + pos)%nat -> (eof + 1 < f2 + pos)%nat ->
  Safe (stmt_past tokens pos) (parseReturnStatement Number tokens file f1)
       (parseReturnStatement Number tokens file f2) pos.
Proof.
  intros Hle H1 H2. unfold parseReturnStatement.
  safe_seq. safe_seq.
  safe_optional.
  - safe_run safe_call.
  - safe_post. safe_run safe_call.
Qed.

Lemma safe_parseImportStatement pos :
  (pos <= eof)%nat ->
  Safe (stmt_past tokens pos) (parseImportStatement tokens file)
       (parseImportStatement tokens file) pos.
Proof. intros Hle. unfold parseImportStatement. safe_run safe_call. Qed.

Lemma safe_parseStatement f1 :
  forall f2 pos,
  (pos <= eof)%nat -> (eof + 2 < f1 + pos)%nat -> (eof + 2 < f2 + pos)%nat ->
  Safe (stmt_past tokens pos) (parseStatement Number tokens file f1)
       (parseStatement Number tokens file f2) pos.
Proof.
  induction f1 as [|f1 IH]; intros f2 pos Hle H1 H2; [lia|].
  destruct f2 as [|f2]; [lia|]. cbn [parseStatement].
  safe_seq.
  assert (Hrec : forall p, (pos < p)%nat -> (p <= eof)%nat ->
                 Safe (stmt_past tokens p) (parseStatement Number tokens file f1)
                      (parseStatement Number tokens file f2) p)
    by (intros; apply IH; lia).
  destruct (tok_type a) eqn:E;
    try (apply safe_parseExpressionStatement; lia).
  - (* identifier *)
    eapply safe_bind; [safe_call|safe_post].
    repeat match goal with
           | |- safe _ _ _ _ (if ?b then _ else _) _ _ => destruct b
           end.
    + apply safe_parseAssignment; lia.
    + apply safe_parseIndexAssignmentOrExpression; lia.
    + apply safe_parseExpressionStatement; lia.
  - apply safe_parseLetDeclaration; lia.
  - apply safe_parseConstDeclaration; lia.
  - apply safe_parseFunctionDeclaration; try assumption; lia.
  - apply safe_parseReturnStatement; lia.
  - apply safe_parseIfStatement; try assumption; lia.
  - apply safe_parseWhileStatement; try assumption; lia.
  - apply safe_parseForStatement; try assumption; lia.
  - safe_run safe_call.
  - safe_run safe_call.
  - apply safe_parseImportStatement; lia.
  - apply safe_parseTryCatchStatement; try assumption; lia.
Qed.

Lemma safe_parse f1 f2 :
  (eof + 2 < f1)%nat -> (eof + 2 < f2)%nat ->
  Safe (fun program _ =>
          positions_ok tokens (flat_map Statement_positions (prog_body program)) /\
          calls_ok tokens (flat_map Statement_calls (prog_body program)))
       (Parser_parse Number tokens file f1) (Parser_parse Number tokens file f2) O.
Proof.
  intros H1 H2. unfold Parser_parse.
  safe_seq.
  eapply safe_bind.
  { apply safe_blockLoop; try lia;
      [intros; apply safe_parseStatement; lia | apply positions_ok_nil | apply calls_ok_nil]. }
  safe_post. apply safe_ret; [lia|]. split; assumption.
Qed.

End ParserSafety.

Lemma eof_index (tokens : list Token) :
  has_eof tokens = true ->
  exists eof, (eof < length tokens)%nat /\
              exists token, tokens !! eof = Some token /\ tok_type token = EOF.
Proof.
  unfold has_eof. rewrite existsb_exists. intros (token & Hin & Hty).
  apply TokenType_eqb_eq in Hty.
  apply list_elem_of_In, list_elem_of_lookup_1 in Hin as [eof Heof].
  exists eof. split; [eapply lookup_lt_Some; eassumption|].
  exists token. split; assumption.
Qed.

(** X1. The parser is total on every token array that holds an end-of-input
    token: it stops after a number of calls and loop turns bounded by the
    length of the array (the result is the same for every amount of fuel
    from [length tokens + 2] on), it never reads outside the array, and it
    ends with a program or with a [ParseError] that carries the parser's file
    name and the line and column of one of the tokens. *)
Theorem parser_total (Number : string -> float) (tokens : list Token) (file : string)
    (fuel : nat) :
  has_eof tokens = true ->
  (length tokens + 2 <= fuel)%nat ->
  parse Number fuel tokens file = parse Number (length tokens + 2) tokens file
  /\ match parse Number fuel tokens file with
     | Ok _ => True
     | Throw e => positioned tokens file e
     | Diverge => False
     end.
Proof.
  intros Hin Hfuel. destruct (eof_index tokens Hin) as (eof & Hlt & Heof).
  destruct (safe_parse Number tokens file eof Heof fuel (length tokens + 2))
    as (r & pos' & E1 & E2 & Hr); [lia|lia|].
  unfold parse. rewrite E1, E2. split; [reflexivity|].
  simpl. destruct r; [exact I|exact Hr|exact Hr].
Qed.

(** X2. Every line and column recorded in a parsed program is the line and
    column of a token of the input: each statement node, nested ones
    included, carries the position of some token, and each call node carries
    the name, line and column of an identifier token. *)
Theorem parsed_positions (Number : string -> float) (tokens : list Token) (file : string)
    (fuel : nat) (program : Program) :
  has_eof tokens = true ->
  (length tokens + 2 <= fuel)%nat ->
  parse Number fuel tokens file = Ok program ->
  (forall p, p ∈ flat_map Statement_positions (prog_body program) -> from_token tokens p)
  /\ (forall c, c ∈ flat_map Statement_calls (prog_body program) ->
                from_identifier tokens c).
Proof.
  intros Hin Hfuel Hparse. destruct (eof_index tokens Hin) as (eof & Hlt & Heof).
  destruct (safe_parse Number tokens file eof Heof fuel fuel)
    as (r & pos' & E1 & _ & Hr); [lia|lia|].
  unfold parse in Hparse. rewrite E1 in Hparse. simpl in Hparse. subst r.
  destruct Hr as (_ & Hpos & Hcalls).
  split; intros x Hx.
  - unfold positions_ok in Hpos. rewrite Forall_forall in Hpos. now apply Hpos.
  - unfold calls_ok in Hcalls. rewrite Forall_forall in Hcalls. now apply Hcalls.
Qed.

(** *** Binding powers of the binary operators *)

Lemma level_ops_power t n :
  existsb (TokenType_eqb t) (level_ops n) =
  match binding_power t with
  | Some m => Nat.eqb m n && Nat.leb n 6
  | None => false
  end.
Proof.
  do 7 (destruct n as [|n]; [destruct t; reflexivity|]).
  destruct t; simpl; rewrite ?andb_false_r; reflexivity.
Qed.

Lemma level_operator_of o n :
  binding_power (tok_type o) = Some n -> (n <= 6)%nat -> level_operator n o = operator_of o.
Proof.
  unfold operator_of. intros Hp Hn.
  destruct (tok_type o); inversion Hp; subst; try reflexivity; lia.
Qed.

Lemma parseLevel_binary tokens n fuel prim :
  (1 <= n <= 6)%nat ->
  parseLevel tokens n fuel prim =
  binaryLevel tokens fuel (level_ops n) (level_operator n) (parseLevel tokens (S n) fuel prim).
Proof.
  intros Hn. do 7 (destruct n as [|n]; [first [lia | reflexivity]|]). lia.
Qed.

Lemma stops_follow n t : stops n t -> tok_type t <> LPAREN /\ tok_type t <> LBRACKET.
Proof.
  unfold stops. destruct (tok_type t); simpl; intros H;
    first [exact H | split; discriminate].
Qed.

Lemma stops_weaken n m t : stops n t -> (n <= m)%nat -> stops m t.
Proof. unfold stops. destruct (binding_power (tok_type t)); [lia|tauto]. Qed.

Lemma stops_level_ops n t :
  stops n t -> existsb (TokenType_eqb (tok_type t)) (level_ops n) = false.
Proof.
  unfold stops. rewrite level_ops_power.
  destruct (binding_power (tok_type t)) as [m|]; [|reflexivity].
  intros Hlt. destruct (Nat.eqb_spec m n); [lia|reflexivity].
Qed.

Lemma stops_not_caret n t : stops n t -> (n <= 7)%nat -> tok_type t <> CARET.
Proof.
  unfold stops. intros H Hn Heq. rewrite Heq in H. simpl in H. lia.
Qed.

Lemma power_stops o n m : binding_power (tok_type o) = Some n -> (n < m)%nat -> stops m o.
Proof. unfold stops. intros -> H. exact H. Qed.

Section Precedence.

Local Open Scope nat_scope.

Context (Number : string -> float) (tokens : list Token) (file : string).
Context (prim : P Expression).

(** What [parsePrimary] does on a literal or identifier token that no
    parenthesis or bracket follows. *)
Hypothesis prim_atom : forall pos a ea t,
  tokens !! pos = Some a -> parsePrimaryToken Number a = Some ea ->
  tokens !! S pos = Some t -> tok_type t <> LPAREN -> tok_type t <> LBRACKET ->
  prim pos = (Ok ea, S pos).

Lemma peek_at pos t : tokens !! pos = Some t -> peek tokens pos = (Ok t, pos).
Proof. unfold peek. now intros ->. Qed.

Lemma unary_atom k pos a ea t :
  tokens !! pos = Some a -> parsePrimaryToken Number a = Some ea ->
  tokens !! S pos = Some t -> tok_type t <> LPAREN -> tok_type t <> LBRACKET ->
  parseUnary tokens (S k) prim pos = (Ok ea, S pos).
Proof.
  intros Ha Hea Ht H1 H2. cbn [parseUnary]. unfold pbind. rewrite (peek_at _ _ Ha).
  pose proof Hea as Hty. unfold parsePrimaryToken in Hty. revert Hty.
  destruct (tok_type a); intros Hty; try discriminate Hty; eapply prim_atom; eassumption.
Qed.

Lemma loop_stop k ops operator operand left q t :
  tokens !! q = Some t -> existsb (TokenType_eqb (tok_type t)) ops = false ->
  binaryLoop tokens (S k) ops operator operand left q = (Ok left, q).
Proof.
  intros Ht Hops. cbn [binaryLoop]. unfold pbind. rewrite (peek_at _ _ Ht), Hops. reflexivity.
Qed.

Lemma loop_step k ops operator operand left q o r q' :
  tokens !! q = Some o -> existsb (TokenType_eqb (tok_type o)) ops = true ->
  operand (S q) = (Ok r, q') ->
  binaryLoop tokens (S k) ops operator operand left q =
  binaryLoop tokens k ops operator operand (BinaryExpression (operator o) left r) q'.
Proof.
  intros Ho Hops Hr. cbn [binaryLoop]. unfold pbind, advance.
  rewrite (peek_at _ _ Ho), Hops, Hr. reflexivity.
Qed.

Lemma level_start f ops operator operand pos l q :
  operand pos = (Ok l, q) ->
  binaryLevel tokens f ops operator operand pos = binaryLoop tokens f ops operator operand l q.
Proof. intros Hl. unfold binaryLevel, pbind. rewrite Hl. reflexivity. Qed.

Lemma exponent_stop k pos l q t :
  parseUnary tokens (S k) prim pos = (Ok l, q) ->
  tokens !! q = Some t -> tok_type t <> CARET ->
  parseExponent tokens (S k) prim pos = (Ok l, q).
Proof.
  intros Hl Ht Hty. cbn [parseExponent]. unfold pbind. rewrite Hl, (peek_at _ _ Ht).
  destruct (TokenType_eqb (tok_type t) CARET) eqn:E; [|reflexivity].
  apply TokenType_eqb_eq in E. contradiction.
Qed.

Lemma exponent_step k pos l q o r q' :
  parseUnary tokens (S k) prim pos = (Ok l, q) ->
  tokens !! q = Some o -> tok_type o = CARET ->
  parseExponent tokens k prim (S q) = (Ok r, q') ->
  parseExponent tokens (S k) prim pos = (Ok (BinaryExpression "^" l r), q').
Proof.
  intros Hl Ho Hty Hr. cbn [parseExponent]. unfold pbind, advance.
  rewrite Hl, (peek_at _ _ Ho), Hty. cbn. rewrite Hr. reflexivity.
Qed.

(** An operand alone: the levels from [n] on return the atom when the token
    after it binds looser than [n]. *)
Lemma level_atom d :
  forall n k pos a ea t,
  (n + d = 8)%nat -> (1 <= n)%nat ->
  tokens !! pos = Some a -> parsePrimaryToken Number a = Some ea ->
  tokens !! S pos = Some t -> stops n t ->
  parseLevel tokens n (S k) prim pos = (Ok ea, S pos).
Proof.
  induction d as [|d IH]; intros n k pos a ea t Hd Hn Ha Hea Ht Hstop.
  - assert (n = 8%nat) as -> by lia. cbn [parseLevel].
    destruct (stops_follow _ _ Hstop). eapply unary_atom; eassumption.
  - destruct (Nat.eq_dec n 7) as [->|Hn7].
    + cbn [parseLevel]. destruct (stops_follow _ _ Hstop).
      eapply exponent_stop; [eapply unary_atom; eassumption|eassumption|].
      eapply stops_not_caret; [eassumption|lia].
    + rewrite parseLevel_binary by lia.
      erewrite level_start;
        [|eapply (IH (S n)); try eassumption; [lia|lia|eapply stops_weaken; [eassumption|lia]]].
      eapply loop_stop; [eassumption|]. now apply stops_level_ops.
Qed.

(** One operator between two atoms. *)
Lemma level_binary d :
  forall j n k pos a ea o b eb t,
  (j + d = n)%nat -> (1 <= j)%nat ->
  binding_power (tok_type o) = Some n ->
  tokens !! pos = Some a -> parsePrimaryToken Number a = Some ea ->
  tokens !! S pos = Some o ->
  tokens !! S (S pos) = Some b -> parsePrimaryToken Number b = Some eb ->
  tokens !! S (S (S pos)) = Some t -> stops j t ->
  parseLevel tokens j (S (S k)) prim pos =
  (Ok (BinaryExpression (operator_of o) ea eb), S (S (S pos))).
Proof.
  induction d as [|d IH]; intros j n k pos a ea o b eb t Hd Hj Hpow Ha Hea Ho Hb Heb Ht Hstop.
  - assert (j = n) as -> by lia.
    assert (Hn : (n <= 7)%nat) by (destruct (tok_type o); inversion Hpow; lia).
    destruct (Nat.eq_dec n 7) as [->|Hn7].
    + cbn [parseLevel].
      assert (Hcaret : tok_type o = CARET) by (destruct (tok_type o); inversion Hpow; reflexivity).
      unfold operator_of. rewrite Hcaret.
      eapply exponent_step;
        [eapply unary_atom; try eassumption; rewrite Hcaret; discriminate
        |eassumption|assumption|].
      eapply (level_atom 1 7); try eassumption; lia.
    + rewrite parseLevel_binary by lia.
      erewrite level_start;
        [|eapply (level_atom (7 - n) (S n)); try eassumption;
          [lia|lia|eapply power_stops; [eassumption|lia]]].
      erewrite loop_step; [|eassumption| |].
      * rewrite (level_operator_of _ _ Hpow) by lia.
        eapply loop_stop; [eassumption|]. now apply stops_level_ops.
      * rewrite level_ops_power, Hpow, Nat.eqb_refl. apply Nat.leb_le. lia.
      * eapply (level_atom (7 - n) (S n)); try eassumption;
          [lia|lia|eapply stops_weaken; [eassumption|lia]].
  - assert (Hn : (n <= 7)%nat) by (destruct (tok_type o); inversion Hpow; lia).
    rewrite parseLevel_binary by lia.
    erewrite level_start;
      [|eapply (IH (S j)); try eassumption; [lia|lia|eapply stops_weaken; [eassumption|lia]]].
    eapply loop_stop; [eassumption|]. now apply stops_level_ops.
Qed.

Ltac loop_turn Hp operand :=
  etransitivity;
    [eapply loop_step;
       [eassumption
       |rewrite level_ops_power, Hp, Nat.eqb_refl; apply Nat.leb_le; lia
       |operand]
    |].

Ltac loop_end :=
  eapply loop_stop; [eassumption|]; now apply stops_level_ops.

(** Two operators between three atoms, at the levels up to the looser of the
    two operators. *)
Lemma level_ternary d :
  forall j n1 n2 k pos a ea o1 b eb o2 c ec stop,
  (j + d = Nat.min n1 n2)%nat -> (1 <= j)%nat ->
  binding_power (tok_type o1) = Some n1 -> binding_power (tok_type o2) = Some n2 ->
  tokens !! pos = Some a -> parsePrimaryToken Number a = Some ea ->
  tokens !! S pos = Some o1 ->
  tokens !! S (S pos) = Some b -> parsePrimaryToken Number b = Some eb ->
  tokens !! S (S (S pos)) = Some o2 ->
  tokens !! S (S (S (S pos))) = Some c -> parsePrimaryToken Number c = Some ec ->
  tokens !! S (S (S (S (S pos)))) = Some stop -> stops j stop ->
  parseLevel tokens j (S (S (S k))) prim pos =
  (Ok (if (n2 <? n1) || ((n1 =? n2) && negb (n1 =? 7))
       then BinaryExpression (operator_of o2) (BinaryExpression (operator_of o1) ea eb) ec
       else BinaryExpression (operator_of o1) ea (BinaryExpression (operator_of o2) eb ec)),
   S (S (S (S (S pos))))).
Proof.
  induction d as [|d IH];
    intros j n1 n2 k pos a ea o1 b eb o2 c ec stop Hd Hj Hp1 Hp2 Ha Hea Ho1 Hb Heb Ho2 Hc Hec
      Hs Hstop.
  - assert (Hn1 : (n1 <= 7)%nat) by (destruct (tok_type o1); inversion Hp1; lia).
    assert (Hn2 : (n2 <= 7)%nat) by (destruct (tok_type o2); inversion Hp2; lia).
    destruct (lt_eq_lt_dec n1 n2) as [[Hlt|Heq]|Hgt].
    + (* the second operator binds tighter *)
      assert (j = n1) as -> by lia.
      replace ((n2 <? n1) || ((n1 =? n2) && negb (n1 =? 7))) with false
        by (symmetry; apply orb_false_iff; split;
            [apply Nat.ltb_ge; lia | apply andb_false_iff; left; apply Nat.eqb_neq; lia]).
      rewrite parseLevel_binary by lia.
      erewrite level_start;
        [|eapply (level_atom (7 - n1) (S n1)); try eassumption;
          [lia|lia|eapply power_stops; [eassumption|lia]]].
      loop_turn Hp1
        ltac:(eapply (level_binary (n2 - S n1) (S n1) n2); try eassumption;
              [lia|lia|eapply stops_weaken; [eassumption|lia]]).
      rewrite (level_operator_of _ _ Hp1) by lia. loop_end.
    + subst n2. assert (j = n1) as -> by lia.
      destruct (Nat.eq_dec n1 7) as [->|Hn7].
      * (* two exponents *)
        cbn [parseLevel Nat.ltb Nat.leb Nat.eqb orb andb negb].
        assert (Hcaret : tok_type o1 = CARET)
          by (destruct (tok_type o1); inversion Hp1; reflexivity).
        unfold operator_of at 1. rewrite Hcaret.
        eapply exponent_step;
          [eapply unary_atom; try eassumption; rewrite Hcaret; discriminate
          |eassumption|assumption|].
        eapply (level_binary 0 7 7); try eassumption; lia.
      * (* two operators of one level *)
        replace ((n1 <? n1) || ((n1 =? n1) && negb (n1 =? 7))) with true
          by (symmetry; apply orb_true_iff; right; apply andb_true_iff; split;
              [apply Nat.eqb_refl | apply negb_true_iff, Nat.eqb_neq; lia]).
        rewrite parseLevel_binary by lia.
        erewrite level_start;
          [|eapply (level_atom (7 - n1) (S n1)); try eassumption;
            [lia|lia|eapply power_stops; [eassumption|lia]]].
        loop_turn Hp1
          ltac:(eapply (level_atom (7 - n1) (S n1)); try eassumption;
                [lia|lia|eapply power_stops; [eassumption|lia]]).
        loop_turn Hp2
          ltac:(eapply (level_atom (7 - n1) (S n1)); try eassumption;
                [lia|lia|eapply stops_weaken; [eassumption|lia]]).
        rewrite (level_operator_of _ _ Hp1), (level_operator_of _ _ Hp2) by lia. loop_end.
    + (* the first operator binds tighter *)
      assert (j = n2) as -> by lia.
      replace ((n2 <? n1) || ((n1 =? n2) && negb (n1 =? 7))) with true
        by (symmetry; apply orb_true_iff; left; apply Nat.ltb_lt; lia).
      rewrite parseLevel_binary by lia.
      erewrite level_start;
        [|eapply (level_binary (n1 - S n2) (S n2) n1); try eassumption;
          [lia|lia|eapply power_stops; [eassumption|lia]]].
      loop_turn Hp2
        ltac:(eapply (level_atom (7 - n2) (S n2)); try eassumption;
              [lia|lia|eapply stops_weaken; [eassumption|lia]]).
      rewrite (level_operator_of _ _ Hp2) by lia. loop_end.
  - assert (Hn1 : (n1 <= 7)%nat) by (destruct (tok_type o1); inversion Hp1; lia).
    rewrite parseLevel_binary by lia.
    erewrite level_start;
      [|eapply (IH (S j) n1 n2 _ pos a ea o1 b eb o2 c ec stop); try eassumption;
        [lia|lia|eapply stops_weaken; [eassumption|lia]]].
    loop_end.
Qed.

End Precedence.

Lemma primary_atom Number tokens file fuel parseExpr pos a ea t :
  tokens !! pos = Some a -> parsePrimaryToken Number a = Some ea ->
  tokens !! S pos = Some t -> tok_type t <> LPAREN -> tok_type t <> LBRACKET ->
  parsePrimary Number tokens file fuel parseExpr pos = (Ok ea, S pos).
Proof.
  intros Ha Hea Ht H1 H2. unfold parsePrimary, pbind. rewrite (peek_at _ _ _ Ha).
  unfold parsePrimaryToken in Hea. revert Hea.
  destruct (tok_type a); intros Hea; inversion Hea; subst; try reflexivity.
  - unfold advance. rewrite (peek_at _ _ _ Ht).
    destruct (TokenType_eqb (tok_type t) LPAREN) eqn:E1;
      [apply TokenType_eqb_eq in E1; contradiction|].
    destruct (TokenType_eqb (tok_type t) LBRACKET) eqn:E2;
      [apply TokenType_eqb_eq in E2; contradiction|].
    reflexivity.
Qed.

(** X3. Binary operators group by binding power.  In [a o1 b o2 c], with
    literals or identifiers [a], [b], [c] and binary operators [o1], [o2],
    followed by a token that is no operator and no opening bracket, the
    parser builds [(a o1 b) o2 c] when [o1] binds tighter than [o2] or as
    tightly (left associativity), except for two [^], and [a o1 (b o2 c)]
    otherwise: [^] is right-associative and binds tightest, then [* / %],
    [+ -], the comparisons, [== !=], [and], [or]. *)
Theorem operator_precedence (Number : string -> float) (tokens : list Token) (file : string)
    (fuel pos n1 n2 : nat) (a o1 b o2 c stop : Token) (ea eb ec : Expression) :
  tokens !! pos = Some a -> parsePrimaryToken Number a = Some ea ->
  tokens !! S pos = Some o1 -> binding_power (tok_type o1) = Some n1 ->
  tokens !! S (S pos) = Some b -> parsePrimaryToken Number b = Some eb ->
  tokens !! S (S (S pos)) = Some o2 -> binding_power (tok_type o2) = Some n2 ->
  tokens !! S (S (S (S pos))) = Some c -> parsePrimaryToken Number c = Some ec ->
  tokens !! S (S (S (S (S pos)))) = Some stop -> stops 1 stop ->
  (4 <= fuel)%nat ->
  parseExpression Number tokens file fuel pos =
  (Ok (if (n2 <? n1)%nat || ((n1 =? n2)%nat && negb (n1 =? 7)%nat)
       then BinaryExpression (operator_of o2) (BinaryExpression (operator_of o1) ea eb) ec
       else BinaryExpression (operator_of o1) ea (BinaryExpression (operator_of o2) eb ec)),
   S (S (S (S (S pos))))).
Proof.
  intros Ha Hea Ho1 Hp1 Hb Heb Ho2 Hp2 Hc Hec Hs Hstop Hfuel.
  do 4 (destruct fuel as [|fuel]; [lia|]). cbn [parseExpression].
  assert (Hmin : (1 <= Nat.min n1 n2)%nat).
  { destruct (tok_type o1); inversion Hp1; destruct (tok_type o2); inversion Hp2; lia. }
  change (parseOr tokens (S (S (S fuel))))
    with (parseLevel tokens 1 (S (S (S fuel)))).
  eapply (level_ternary Number tokens _ (primary_atom Number tokens file _ _)
            (Nat.min n1 n2 - 1) 1 n1 n2);
    try eassumption; lia.
Qed.

(** X4. Literal and identifier nodes do not keep the position of their
    token.  For a number, string, boolean or nil token, or an identifier
    that no parenthesis or bracket follows, [parsePrimary] consumes the one
    token and returns a node that depends on the token's type and text only:
    a token with the same type and text at another place of another array
    gives the same node, and the node has no line or column. *)
Theorem primary_forgets_position (Number : string -> float) (file : string)
    (fuel1 fuel2 : nat) (parseExpr1 parseExpr2 : P Expression)
    (tokens1 tokens2 : list Token) (pos1 pos2 : nat) (a1 a2 t1 t2 : Token)
    (e : Expression) :
  tokens1 !! pos1 = Some a1 -> tokens2 !! pos2 = Some a2 ->
  tok_type a2 = tok_type a1 -> tok_value a2 = tok_value a1 ->
  parsePrimaryToken Number a1 = Some e ->
  tokens1 !! S pos1 = Some t1 -> tok_type t1 <> LPAREN -> tok_type t1 <> LBRACKET ->
  tokens2 !! S pos2 = Some t2 -> tok_type t2 <> LPAREN -> tok_type t2 <> LBRACKET ->
  parsePrimary Number tokens1 file fuel1 parseExpr1 pos1 = (Ok e, S pos1)
  /\ parsePrimary Number tokens2 file fuel2 parseExpr2 pos2 = (Ok e, S pos2)
  /\ expression_position e = None.
Proof.
  intros H1 H2 Hty Hval He Ht1 Hp1 Hb1 Ht2 Hp2 Hb2.
  assert (He2 : parsePrimaryToken Number a2 = Some e)
    by (unfold parsePrimaryToken in *; rewrite Hty, Hval; exact He).
  split; [eapply primary_atom; eassumption|].
  split; [eapply primary_atom; eassumption|].
  unfold parsePrimaryToken in He. destruct (tok_type a1); inversion He; reflexivity.
Qed.

(** ** The parser on the token arrays of the examples *)

Lemma parser_total_witness :
  parse test_Number 6 tokens_missing_value "<stdin>" =
  parse test_Number (length tokens_missing_value + 2) tokens_missing_value "<stdin>"
  /\ match parse test_Number 6 tokens_missing_value "<stdin>" with
     | Ok _ => True
     | Throw e => positioned tokens_missing_value "<stdin>" e
     | Diverge => False
     end.
Proof.
  apply (parser_total test_Number tokens_missing_value "<stdin>" 6).
  - reflexivity.
  - simpl. lia.
Defined.

Lemma parsed_positions_witness :
  (forall p,
     p ∈ flat_map Statement_positions
           [FunctionDeclarationStatement
              (mkFunctionDeclaration "add" [("a", None); ("b", None)] None
                 [ReturnStatement
                    (Some (BinaryExpression "+" (Identifier "a") (Identifier "b"))) 2 1]
                 1 1);
            ExpressionStatement
              (CallExpression "println"
                 [CallExpression "add" [NumberLiteral 3 false; NumberLiteral 4 false] 4 9] 4 1)
              4 1] ->
     from_token tokens_function p)
  /\ (forall c,
        c ∈ flat_map Statement_calls
              [FunctionDeclarationStatement
                 (mkFunctionDeclaration "add" [("a", None); ("b", None)] None
                    [ReturnStatement
                       (Some (BinaryExpression "+" (Identifier "a") (Identifier "b"))) 2 1]
                    1 1);
               ExpressionStatement
                 (CallExpression "println"
                    [CallExpression "add" [NumberLiteral 3 false; NumberLiteral 4 false] 4 9]
                    4 1)
                 4 1] ->
        from_identifier tokens_function c).
Proof.
  apply (parsed_positions test_Number tokens_function "<stdin>" 27
           (mkProgram
              [FunctionDeclarationStatement
                 (mkFunctionDeclaration "add" [("a", None); ("b", None)] None
                    [ReturnStatement
                       (Some (BinaryExpression "+" (Identifier "a") (Identifier "b"))) 2 1]
                    1 1);
               ExpressionStatement
                 (CallExpression "println"
                    [CallExpression "add" [NumberLiteral 3 false; NumberLiteral 4 false] 4 9]
                    4 1)
                 4 1])).
  - reflexivity.
  - simpl. lia.
  - vm_compute. reflexivity.
Defined.

Lemma operator_precedence_witness :
  parseExpression test_Number tokens_precedence "<stdin>" 4 3%nat =
  (Ok (BinaryExpression "+" (NumberLiteral 1 false)
         (BinaryExpression "*" (NumberLiteral 2 false) (NumberLiteral 3 false))), 8%nat).
Proof.
  apply (operator_precedence test_Number tokens_precedence "<stdin>" 4 3 5 6
           (mkToken NUMBER "1" 1 9) (mkToken PLUS "+" 1 11) (mkToken NUMBER "2" 1 13)
           (mkToken STAR "*" 1 15) (mkToken NUMBER "3" 1 17) (mkToken EOF "" 1 18)
           (NumberLiteral 1 false) (NumberLiteral 2 false) (NumberLiteral 3 false));
    first [reflexivity | split; discriminate | lia].
Defined.

Lemma primary_forgets_position_witness :
  parsePrimary test_Number tokens_function "<stdin>" 0 pdiverge 9%nat = (Ok (Identifier "a"), 10%nat)
  /\ parsePrimary test_Number tokens_function "<stdin>" 0 pdiverge 3%nat
     = (Ok (Identifier "a"), 4%nat)
  /\ expression_position (Identifier "a") = None.
Proof.
  apply (primary_forgets_position test_Number "<stdin>" 0 0 pdiverge pdiverge
           tokens_function tokens_function 9 3
           (mkToken IDENTIFIER "a" 2 8) (mkToken IDENTIFIER "a" 1 10)
           (mkToken PLUS "+" 2 10) (mkToken COMMA "," 1 11) (Identifier "a"));
    first [reflexivity | discriminate].
Defined.

(** The parser's tests: [1 + 2 * 3], [2 ^ 3 ^ 2], an [else if] chain, and the
    two readings of [name[index]]. *)
Example parser_test_precedence :
  parse test_Number 11 tokens_precedence "<stdin>" =
  Ok (mkProgram
        [LetDeclaration "x" None
           (Some (BinaryExpression "+" (NumberLiteral 1 false)
                    (BinaryExpression "*" (NumberLiteral 2 false) (NumberLiteral 3 false))))
           1 1]).
Proof. vm_compute. reflexivity. Qed.

Example parser_test_exponent :
  parse test_Number 11 tokens_exponent "<stdin>" =
  Ok (mkProgram
        [LetDeclaration "x" None
           (Some (BinaryExpression "^" (NumberLiteral 2 false)
                    (BinaryExpression "^" (NumberLiteral 3 false) (NumberLiteral 2 false))))
           1 1]).
Proof. vm_compute. reflexivity. Qed.

Example parser_test_else_if :
  parse test_Number 34 tokens_else_if "<stdin>" =
  Ok (mkProgram
        [IfStatement (BinaryExpression "==" (Identifier "x") (NumberLiteral 1 false))
           [LetDeclaration "a" None (Some (NumberLiteral 1 false)) 2 1]
           [(BinaryExpression "==" (Identifier "x") (NumberLiteral 2 false),
             [LetDeclaration "a" None (Some (NumberLiteral 2 false)) 4 1])]
           (Some [LetDeclaration "a" None (Some (NumberLiteral 3 false)) 6 1])
           1 1]).
Proof. vm_compute. reflexivity. Qed.

Example parser_test_index :
  parse test_Number 14 tokens_index "<stdin>" =
  Ok (mkProgram
        [IndexAssignment "arr" (NumberLiteral 1 false) (NumberLiteral 99 false) 1 1;
         ExpressionStatement (IndexExpression (Identifier "arr") (NumberLiteral 1 false)) 2 1]).
Proof. vm_compute. reflexivity. Qed.

Example parser_test_missing_value :
  parse test_Number 6 tokens_missing_value "<stdin>" =
  Throw (ThrownLuxbin
           (new_ParseError ("Unexpected token EOF (" +:+ DQ +:+ DQ +:+ ")") "<stdin>" 1 8)).
Proof. vm_compute. reflexivity. Qed.

(** ** Unary operators *)

Section UnaryPrecedence.

Local Open Scope nat_scope.

Context (Number : string -> float) (tokens : list Token) (file : string).
Context (prim : P Expression).

Hypothesis prim_atom : forall pos a ea t,
  tokens !! pos = Some a -> parsePrimaryToken Number a = Some ea ->
  tokens !! S pos = Some t -> tok_type t <> LPAREN -> tok_type t <> LBRACKET ->
  prim pos = (Ok ea, S pos).

Lemma unary_prefix k pos u a ea t :
  tokens !! pos = Some u -> tok_type u = MINUS \/ tok_type u = NOT ->
  tokens !! S pos = Some a -> parsePrimaryToken Number a = Some ea ->
  tokens !! S (S pos) = Some t -> tok_type t <> LPAREN -> tok_type t <> LBRACKET ->
  parseUnary tokens (S (S k)) prim pos
  = (Ok (UnaryExpression (if TokenType_eqb (tok_type u) NOT then "not" else "-") ea),
     S (S pos)).
Proof.
  intros Hu Hty Ha Hea Ht H1 H2.
  pose proof (unary_atom Number tokens prim prim_atom k (S pos) a ea t Ha Hea Ht H1 H2) as Hop.
  remember (S k) as k' eqn:Ek. cbn [parseUnary]. unfold pbind. rewrite (peek_at _ _ _ Hu).
  destruct Hty as [-> | ->]; cbn [TokenType_eqb TokenType_index Nat.eqb]; unfold advance;
    rewrite Hop; reflexivity.
Qed.

(** An operand that [parseUnary] parses, alone. *)
Lemma level_unit d :
  forall n k pos l q t,
  n + d = 8 -> 1 <= n ->
  parseUnary tokens (S k) prim pos = (Ok l, q) ->
  tokens !! q = Some t -> stops n t ->
  parseLevel tokens n (S k) prim pos = (Ok l, q).
Proof.
  induction d as [|d IH]; intros n k pos l q t Hd Hn Hl Ht Hstop.
  - assert (n = 8) as -> by lia. exact Hl.
  - destruct (Nat.eq_dec n 7) as [->|Hn7].
    + cbn [parseLevel].
      eapply exponent_stop; [exact Hl|eassumption|].
      eapply stops_not_caret; [eassumption|lia].
    + rewrite parseLevel_binary by lia.
      erewrite level_start;
        [|eapply (IH (S n)); try eassumption; [lia|lia|eapply stops_weaken; [eassumption|lia]]].
      eapply loop_stop; [eassumption|]. now apply stops_level_ops.
Qed.

(** One operator between an operand of [parseUnary] and an atom. *)
Lemma level_unit_binary d :
  forall j n k pos l q o b eb t,
  j + d = n -> 1 <= j ->
  binding_power (tok_type o) = Some n ->
  parseUnary tokens (S (S k)) prim pos = (Ok l, q) ->
  tokens !! q = Some o ->
  tokens !! S q = Some b -> parsePrimaryToken Number b = Some eb ->
  tokens !! S (S q) = Some t -> stops j t ->
  parseLevel tokens j (S (S k)) prim pos =
  (Ok (BinaryExpression (operator_of o) l eb), S (S q)).
Proof.
  induction d as [|d IH]; intros j n k pos l q o b eb t Hd Hj Hpow Hl Ho Hb Heb Ht Hstop.
  - assert (j = n) as -> by lia.
    assert (Hn : n <= 7) by (destruct (tok_type o); inversion Hpow; lia).
    destruct (Nat.eq_dec n 7) as [->|Hn7].
    + cbn [parseLevel].
      assert (Hcaret : tok_type o = CARET) by (destruct (tok_type o); inversion Hpow; reflexivity).
      unfold operator_of. rewrite Hcaret.
      eapply exponent_step; [exact Hl|eassumption|assumption|].
      eapply (level_atom Number tokens prim prim_atom 1 7); try eassumption; lia.
    + rewrite parseLevel_binary by lia.
      erewrite level_start;
        [|eapply (level_unit (7 - n) (S n)); try eassumption;
          [lia|lia|eapply power_stops; [eassumption|lia]]].
      erewrite loop_step; [|eassumption| |].
      * rewrite (level_operator_of _ _ Hpow) by lia.
        eapply loop_stop; [eassumption|]. now apply stops_level_ops.
      * rewrite level_ops_power, Hpow, Nat.eqb_refl. apply Nat.leb_le. lia.
      * eapply (level_atom Number tokens prim prim_atom (7 - n) (S n)); try eassumption;
          [lia|lia|eapply stops_weaken; [eassumption|lia]].
  - assert (Hn : n <= 7) by (destruct (tok_type o); inversion Hpow; lia).
    rewrite parseLevel_binary by lia.
    erewrite level_start;
      [|eapply (IH (S j)); try eassumption; [lia|lia|eapply stops_weaken; [eassumption|lia]]].
    eapply loop_stop; [eassumption|]. now apply stops_level_ops.
Qed.

End UnaryPrecedence.

(** X5. A unary operator binds tighter than every binary operator, the
    exponent included: in [u a o b], with [u] one of [-] and [not], [a] and
    [b] literals or names and [o] any binary operator, the operand of [u] is
    [a] alone.  So [-a ^ b] is [(-a) ^ b], and [not a == b] is
    [(not a) == b]. *)
Theorem unary_binds_tightest (Number : string -> float) (tokens : list Token) (file : string)
    (fuel pos n : nat) (u a o b stop : Token) (ea eb : Expression) :
  tokens !! pos = Some u -> tok_type u = MINUS \/ tok_type u = NOT ->
  tokens !! S pos = Some a -> parsePrimaryToken Number a = Some ea ->
  tokens !! S (S pos) = Some o -> binding_power (tok_type o) = Some n ->
  tokens !! S (S (S pos)) = Some b -> parsePrimaryToken Number b = Some eb ->
  tokens !! S (S (S (S pos))) = Some stop -> stops 1 stop ->
  (3 <= fuel)%nat ->
  parseExpression Number tokens file fuel pos =
  (Ok (BinaryExpression (operator_of o)
         (UnaryExpression (if TokenType_eqb (tok_type u) NOT then "not" else "-") ea) eb),
   S (S (S (S pos)))).
Proof.
  intros Hu Hty Ha Hea Ho Hpow Hb Heb Hs Hstop Hfuel.
  do 3 (destruct fuel as [|fuel]; [lia|]). cbn [parseExpression].
  assert (Hn : (1 <= n)%nat) by (destruct (tok_type o); inversion Hpow; lia).
  assert (Hfollow : tok_type o <> LPAREN /\ tok_type o <> LBRACKET)
    by (split; intros E; rewrite E in Hpow; discriminate Hpow).
  change (parseOr tokens (S (S fuel))) with (parseLevel tokens 1 (S (S fuel))).
  eapply (level_unit_binary Number tokens _ (primary_atom Number tokens file _ _) (n - 1) 1 n);
    try eassumption; try lia.
  eapply unary_prefix; try eassumption; try tauto.
  apply primary_atom.
Qed.

(** ** The token a node is built from *)

Lemma pbind_ok {A B} (p : P A) (k : A -> P B) pos b pos' :
  pbind p k pos = (Ok b, pos') -> exists a q, p pos = (Ok a, q) /\ k a q = (Ok b, pos').
Proof.
  unfold pbind. destruct (p pos) as [[a|e|] q]; intros H; [eauto|discriminate|discriminate].
Qed.

Lemma pret_ok {A} (a b : A) pos pos' : pret a pos = (Ok b, pos') -> a = b /\ pos' = pos.
Proof. unfold pret. intros H. inversion H. auto. Qed.

Lemma advance_ok pos u pos' : advance pos = (Ok u, pos') -> pos' = S pos.
Proof. unfold advance. intros H. inversion H. reflexivity. Qed.

Lemma yields_run {A} (Q : A -> Prop) (p : P A) pos a pos' :
  yields Q p -> p pos = (Ok a, pos') -> Q a.
Proof. intros H. apply H. Qed.

Section ParserNodes.

Context (Number : string -> float) (tokens : list Token) (file : string).

Lemma peek_ok pos t pos' :
  peek tokens pos = (Ok t, pos') -> tokens !! pos = Some t /\ pos' = pos.
Proof. unfold peek. destruct (tokens !! pos); intros H; inversion H; auto. Qed.

Lemma expect_ok type pos t pos' :
  expect tokens file type pos = (Ok t, pos') ->
  tokens !! pos = Some t /\ tok_type t = type /\ pos' = S pos.
Proof.
  unfold expect. intros H. apply pbind_ok in H as (token & q & Hpeek & H).
  apply peek_ok in Hpeek as [Ht ->].
  destruct (TokenType_eqb (tok_type token) type) eqn:E; [|discriminate H].
  apply TokenType_eqb_eq in E.
  apply pbind_ok in H as (u & q & Hadv & H). apply advance_ok in Hadv. subst q.
  apply pret_ok in H as [<- ->]. auto.
Qed.

Ltac pinv :=
  repeat match goal with
  | H : pbind _ _ _ = (Ok _, _) |- _ =>
      let x := fresh "x" in
      let q := fresh "q" in
      let E := fresh "E" in
      apply pbind_ok in H as (x & q & E & H); cbv beta in H
  | H : pret _ _ = (Ok _, _) |- _ => apply pret_ok in H as [? ?]; subst
  | H : pthrow _ _ = (Ok _, _) |- _ => discriminate H
  | H : pdiverge _ = (Ok _, _) |- _ => discriminate H
  | H : expect _ _ _ _ = (Ok _, _) |- _ => apply expect_ok in H as (? & ? & ?)
  | H : peek _ _ = (Ok _, _) |- _ => apply peek_ok in H as (? & ?)
  | H : advance _ = (Ok _, _) |- _ => apply advance_ok in H
  | Hy : yields _ ?p, H : ?p _ = (Ok _, _) |- _ => apply (yields_run _ _ _ _ _ Hy) in H
  | H : (if ?b then _ else _) _ = (Ok _, _) |- _ => destruct b eqn:?
  end.

Ltac calls :=
  unfold calls_from, calls_from_all in *;
  cbn [Expression_calls flat_map] in *;
  rewrite ?flat_map_snoc, ?Forall_app, ?Forall_cons, ?Forall_nil in *;
  intuition auto.

(** *** Expressions *)

Lemma yields_binaryLoop ops operator operand :
  yields (calls_from tokens) operand ->
  forall fuel left, calls_from tokens left ->
  yields (calls_from tokens) (binaryLoop tokens fuel ops operator operand left).
Proof.
  intros Hop. induction fuel as [|k IH]; intros left Hl pos a pos' H; cbn [binaryLoop] in H.
  - discriminate H.
  - pinv; [|exact Hl]. eapply IH; [|exact H]. calls.
Qed.

Lemma yields_binaryLevel fuel ops operator operand :
  yields (calls_from tokens) operand ->
  yields (calls_from tokens) (binaryLevel tokens fuel ops operator operand).
Proof.
  intros Hop pos a pos' H. unfold binaryLevel in H. pinv.
  eapply yields_binaryLoop; eauto.
Qed.

Lemma yields_parseUnary prim :
  yields (calls_from tokens) prim ->
  forall fuel, yields (calls_from tokens) (parseUnary tokens fuel prim).
Proof.
  intros Hprim. induction fuel as [|k IH]; intros pos a pos' H; cbn [parseUnary] in H.
  - discriminate H.
  - apply pbind_ok in H as (token & q & Hpeek & H).
    destruct (tok_type token); pinv; calls.
Qed.

Lemma yields_parseExponent prim :
  yields (calls_from tokens) prim ->
  forall fuel, yields (calls_from tokens) (parseExponent tokens fuel prim).
Proof.
  intros Hprim. induction fuel as [|k IH]; intros pos a pos' H; cbn [parseExponent] in H.
  - discriminate H.
  - pose proof (yields_parseUnary prim Hprim (S k)) as Hunary.
    pinv; calls.
Qed.

Lemma yields_parseOr fuel prim :
  yields (calls_from tokens) prim ->
  yields (calls_from tokens) (parseOr tokens fuel prim).
Proof.
  intros Hprim. unfold parseOr, parseAnd, parseEquality, parseComparison, parseAddition,
    parseMultiplication.
  repeat apply yields_binaryLevel. now apply yields_parseExponent.
Qed.

Lemma yields_commaLoop pe :
  yields (calls_from tokens) pe ->
  forall fuel elements, calls_from_all tokens elements ->
  yields (calls_from_all tokens) (commaLoop tokens fuel pe elements).
Proof.
  intros Hpe. induction fuel as [|k IH]; intros elements He pos a pos' H;
    cbn [commaLoop] in H.
  - discriminate H.
  - pinv; [|exact He]. eapply IH; [|exact H]. calls.
Qed.

Lemma yields_parseElements fuel pe close :
  yields (calls_from tokens) pe ->
  yields (calls_from_all tokens) (parseElements tokens fuel pe close).
Proof.
  intros Hpe pos a pos' H. unfold parseElements in H. pinv; [calls|].
  eapply yields_commaLoop; [exact Hpe| |exact H]. calls.
Qed.

Lemma yields_indexChain pe :
  yields (calls_from tokens) pe ->
  forall fuel expr, calls_from tokens expr ->
  yields (calls_from tokens) (indexChain tokens file fuel pe expr).
Proof.
  intros Hpe. induction fuel as [|k IH]; intros expr He pos a pos' H;
    cbn [indexChain] in H.
  - discriminate H.
  - pinv; [|exact He]. eapply IH; [|exact H]. calls.
Qed.

Lemma yields_parsePrimary fuel pe :
  yields (calls_from tokens) pe ->
  yields (calls_from tokens) (parsePrimary Number tokens file fuel pe).
Proof.
  intros Hpe pos a pos' H. unfold parsePrimary in H.
  apply pbind_ok in H as (token & q & Hpeek & H). apply peek_ok in Hpeek as [Htoken ->].
  pose proof (yields_parseElements fuel pe RBRACKET Hpe) as Hlist.
  pose proof (yields_parseElements fuel pe RPAREN Hpe) as Hargs.
  destruct (tok_type token) eqn:Etype; pinv; try solve [calls].
  (* a call *)
  subst. eapply yields_indexChain; [exact Hpe| |exact H].
  unfold calls_from. cbn [Expression_calls]. constructor; [|assumption].
  match goal with
  | Hnext : tokens !! S pos = Some ?next |- _ => exists pos, token, next
  end.
  repeat split; try assumption. now apply TokenType_eqb_eq.
Qed.

Lemma yields_parseExpression fuel :
  yields (calls_from tokens) (parseExpression Number tokens file fuel).
Proof.
  induction fuel as [|k IH]; intros pos a pos' H; cbn [parseExpression] in H.
  - discriminate H.
  - eapply yields_parseOr; [|exact H]. now apply yields_parsePrimary.
Qed.

(** *** Statements *)

Ltac nodes :=
  unfold alternates_from, nodes_from, block_from, calls_from, calls_from_all in *;
  cbn [Statement_nodes Statement_calls Expression_calls flat_map fst snd] in *;
  repeat progress (rewrite ?flat_map_snoc, ?Forall_app, ?Forall_cons, ?Forall_nil in * );
  intuition auto.

(** The statement started at [pos] with the token there, and so did, each at
    its place, the statements nested in it. *)
Ltac finish :=
  match goal with
  | |- starts_at _ ?pos ?s /\ _ =>
      let Hs := fresh "Hs" in
      assert (Hs : starts_at tokens pos s)
        by (eexists; split; [eassumption|split; [cbn; auto|reflexivity]]);
      split; [exact Hs|];
      assert (originates tokens s) by (exists pos; exact Hs);
      nodes
  end.

Lemma yields_blockLoop closing ps :
  yields (nodes_from tokens) ps ->
  forall fuel body, block_from tokens body ->
  yields (block_from tokens) (blockLoop tokens fuel closing ps body).
Proof.
  intros Hps. induction fuel as [|k IH]; intros body Hb pos a pos' H; cbn [blockLoop] in H.
  - discriminate H.
  - pinv; [exact Hb|]. eapply IH; [|exact H]. nodes.
Qed.

Lemma block_from_nil : block_from tokens [].
Proof. split; constructor. Qed.

Ltac blocks Hps :=
  repeat match goal with
  | H : blockLoop _ _ _ _ [] _ = (Ok _, _) |- _ =>
      apply (yields_blockLoop _ _ Hps _ [] block_from_nil) in H
  end.

Lemma let_nodes fuel pos s pos' :
  parseLetDeclaration Number tokens file fuel pos = (Ok s, pos') ->
  starts_at tokens pos s /\ nodes_from tokens s.
Proof.
  intros H. unfold parseLetDeclaration in H.
  pose proof (yields_parseExpression fuel) as Hexpr. pinv; finish.
Qed.

Lemma const_nodes fuel pos s pos' :
  parseConstDeclaration Number tokens file fuel pos = (Ok s, pos') ->
  starts_at tokens pos s /\ nodes_from tokens s.
Proof.
  intros H. unfold parseConstDeclaration in H.
  pose proof (yields_parseExpression fuel) as Hexpr. pinv; finish.
Qed.

Lemma assignment_nodes fuel pos s pos' :
  parseAssignment Number tokens file fuel pos = (Ok s, pos') ->
  starts_at tokens pos s /\ nodes_from tokens s.
Proof.
  intros H. unfold parseAssignment in H.
  pose proof (yields_parseExpression fuel) as Hexpr. pinv; finish.
Qed.

Lemma expression_statement_nodes fuel pos s pos' token :
  tokens !! pos = Some token -> statement_keyword (tok_type token) = false ->
  parseExpressionStatement Number tokens file fuel pos = (Ok s, pos') ->
  starts_at tokens pos s /\ nodes_from tokens s.
Proof.
  intros Htoken Hkey H. unfold parseExpressionStatement in H.
  pose proof (yields_parseExpression fuel) as Hexpr. pinv.
  assert (x = token) by congruence. subst x. finish.
Qed.

Lemma index_assignment_nodes fuel pos s pos' :
  parseIndexAssignmentOrExpression Number tokens file fuel pos = (Ok s, pos') ->
  starts_at tokens pos s /\ nodes_from tokens s.
Proof.
  intros H. unfold parseIndexAssignmentOrExpression in H.
  pose proof (yields_parseExpression fuel) as Hexpr. pinv.
  - finish.
  - eapply expression_statement_nodes; [eassumption| |exact H].
    match goal with Hty : tok_type _ = IDENTIFIER |- _ => now rewrite Hty end.
Qed.

Lemma return_nodes fuel pos s pos' :
  parseReturnStatement Number tokens file fuel pos = (Ok s, pos') ->
  starts_at tokens pos s /\ nodes_from tokens s.
Proof.
  intros H. unfold parseReturnStatement in H.
  pose proof (yields_parseExpression fuel) as Hexpr. pinv; finish.
Qed.

Lemma import_nodes pos s pos' :
  parseImportStatement tokens file pos = (Ok s, pos') ->
  starts_at tokens pos s /\ nodes_from tokens s.
Proof. intros H. unfold parseImportStatement in H. pinv; finish. Qed.

Section Blocks.

Context (ps : P Statement).
Hypothesis Hps : yields (nodes_from tokens) ps.

Lemma function_nodes fuel pos s pos' :
  parseFunctionDeclaration tokens file fuel ps pos = (Ok s, pos') ->
  starts_at tokens pos s /\ nodes_from tokens s.
Proof.
  intros H. unfold parseFunctionDeclaration in H. pinv; blocks Hps; finish.
Qed.

Lemma yields_elseLoop :
  forall fuel alts, alternates_from tokens (alts, None) ->
  yields (alternates_from tokens) (elseLoop Number tokens file fuel ps alts).
Proof.
  induction fuel as [|k IH]; intros alts Ha pos a pos' H; cbn [elseLoop] in H.
  - discriminate H.
  - pose proof (yields_parseExpression (S k)) as Hexpr.
    pinv; blocks Hps.
    + eapply IH; [|exact H]. nodes.
    + nodes.
    + exact Ha.
Qed.

Lemma if_nodes fuel pos s pos' :
  parseIfStatement Number tokens file fuel ps pos = (Ok s, pos') ->
  starts_at tokens pos s /\ nodes_from tokens s.
Proof.
  intros H. unfold parseIfStatement in H.
  pose proof (yields_parseExpression fuel) as Hexpr.
  pose proof (yields_elseLoop fuel [] ltac:(repeat split; constructor)) as Helse.
  pinv; blocks Hps.
  match goal with Ha : alternates_from _ ?alts |- _ => destruct alts as [alts [alternate|]] end;
    finish.
Qed.

Lemma while_nodes fuel pos s pos' :
  parseWhileStatement Number tokens file fuel ps pos = (Ok s, pos') ->
  starts_at tokens pos s /\ nodes_from tokens s.
Proof.
  intros H. unfold parseWhileStatement in H.
  pose proof (yields_parseExpression fuel) as Hexpr. pinv; blocks Hps; finish.
Qed.

Lemma for_nodes fuel pos s pos' :
  parseForStatement Number tokens file fuel ps pos = (Ok s, pos') ->
  starts_at tokens pos s /\ nodes_from tokens s.
Proof.
  intros H. unfold parseForStatement in H.
  pose proof (yields_parseExpression fuel) as Hexpr. pinv; blocks Hps; finish.
Qed.

Lemma try_nodes fuel pos s pos' :
  parseTryCatchStatement tokens file fuel ps pos = (Ok s, pos') ->
  starts_at tokens pos s /\ nodes_from tokens s.
Proof.
  intros H. unfold parseTryCatchStatement in H. pinv; blocks Hps; finish.
Qed.

End Blocks.

Lemma statement_nodes fuel : forall pos s pos',
  parseStatement Number tokens file fuel pos = (Ok s, pos') ->
  starts_at tokens pos s /\ nodes_from tokens s.
Proof.
  induction fuel as [|k IH]; intros pos s pos' H; cbn [parseStatement] in H.
  - discriminate H.
  - assert (Hps : yields (nodes_from tokens) (parseStatement Number tokens file k))
      by (intros p0 s0 p0' H0; exact (proj2 (IH _ _ _ H0))).
    apply pbind_ok in H as (token & q & Hpeek & H). apply peek_ok in Hpeek as [Htoken ->].
    destruct (tok_type token) eqn:Etype;
      try (eapply expression_statement_nodes;
           [exact Htoken|rewrite Etype; reflexivity|exact H]).
    + (* an identifier *)
      apply pbind_ok in H as (next & q & Hnext & H).
      assert (q = pos) as ->.
      { unfold peekAt in Hnext.
        destruct (if (length tokens <=? pos + 1)%nat then _ else _);
          inversion Hnext; reflexivity. }
      destruct (TokenType_eqb (tok_type next) EQUALS); [now apply assignment_nodes in H|].
      destruct (TokenType_eqb (tok_type next) LBRACKET);
        [now apply index_assignment_nodes in H|].
      eapply expression_statement_nodes; [exact Htoken|rewrite Etype; reflexivity|exact H].
    + now apply let_nodes in H.
    + now apply const_nodes in H.
    + now apply function_nodes in H.
    + now apply return_nodes in H.
    + now apply if_nodes in H.
    + now apply while_nodes in H.
    + now apply for_nodes in H.
    + pinv; finish.
    + pinv; finish.
    + now apply import_nodes in H.
    + now apply try_nodes in H.
Qed.

Lemma program_nodes fuel :
  yields (fun program => block_from tokens (prog_body program))
    (Parser_parse Number tokens file fuel).
Proof.
  intros pos program pos' H. unfold Parser_parse in H.
  assert (Hps : yields (nodes_from tokens) (parseStatement Number tokens file fuel))
    by (intros p0 s0 p0' H0; exact (proj2 (statement_nodes _ _ _ _ H0))).
  pinv; blocks Hps. assumption.
Qed.

End ParserNodes.




(** ** Environments *)

Lemma find_define_same (es : list Environment) (holder : nat) (name : string) (v : LuxValue)
    (c : bool) (old : Entry) :
  Environment_getOwnEntry es holder name = Some old ->
  forall fuel e,
    Environment_find fuel (Environment_define es holder name v c) e name
    = match Environment_find fuel es e name with
      | Some (h, en) => Some (h, if Nat.eqb h holder then mkEntry v c else en)
      | None => None
      end.
Proof.
  intros Hown. induction fuel as [|fuel IH]; intros e; simpl; [reflexivity|].
  rewrite define_lookup. destruct (es !! e) as [fr|] eqn:Ee; [|reflexivity].
  destruct (Nat.eqb_spec e holder) as [->|Hne]; simpl.
  - rewrite vars_get_set_eq. unfold Environment_getOwnEntry in Hown.
    rewrite Ee in Hown. rewrite Hown, Nat.eqb_refl. reflexivity.
  - destruct (vars_get name (vars fr)) as [en|].
    + destruct (Nat.eqb_spec e holder); [congruence|reflexivity].
    + destruct (parent fr) as [p|]; [apply IH|reflexivity].
Qed.

(** X6. Assignment writes the nearest binding of the name and nothing
    else.  When [env.set(name, v)] returns, the name was bound, by a
    non-constant entry of some environment [holder] on the parent chain; no
    environment is created; from every environment every name resolves to the
    same holder as before, with the entry it had, except that the entry of
    [name] in [holder] now holds [v].  So [env.get(name)] gives [v], and so
    does every closure that saw the same binding. *)
Theorem set_writes_nearest_binding (es es' : list Environment) (this : nat) (name : string)
    (v : LuxValue) :
  Environment_set es this name v = Ok es' ->
  exists holder old,
    Environment_lookup es this name = Some (holder, old)
    /\ constant old = false
    /\ length es' = length es
    /\ Environment_get es' this name = Ok v
    /\ forall e n,
         Environment_lookup es' e n
         = match Environment_lookup es e n with
           | Some (h, en) =>
               Some (h, if Nat.eqb h holder && String.eqb n name then mkEntry v false else en)
           | None => None
           end.
Proof.
  unfold Environment_set.
  destruct (Environment_lookup es this name) as [[holder old]|] eqn:Hfind; [|discriminate].
  destruct (constant old) eqn:Hc; [discriminate|].
  intros H. inversion H; subst es'; clear H.
  exists holder, old. split; [reflexivity|]. split; [exact Hc|].
  split; [apply define_length|].
  assert (Hown : Environment_getOwnEntry es holder name = Some old)
    by (eapply find_own; exact Hfind).
  assert (Hall : forall e n,
    Environment_lookup (Environment_define es holder name v false) e n
    = match Environment_lookup es e n with
      | Some (h, en) =>
          Some (h, if Nat.eqb h holder && String.eqb n name then mkEntry v false else en)
      | None => None
      end).
  { intros e n. unfold Environment_lookup. rewrite define_length.
    destruct (String.eqb_spec n name) as [->|Hn].
    - rewrite (find_define_same es holder name v false old Hown).
      destruct (Environment_find (length es) es e name) as [[h en]|]; [|reflexivity].
      now rewrite andb_true_r.
    - rewrite define_find_ne by exact Hn.
      destruct (Environment_find (length es) es e n) as [[h en]|]; [|reflexivity].
      now rewrite andb_false_r. }
  split; [|exact Hall].
  unfold Environment_get. rewrite Hall, Hfind, Nat.eqb_refl, String.eqb_refl. reflexivity.
Qed.

Lemma find_fuel (es : list Environment) (name : string) :
  wf_envs es ->
  forall this fuel1 fuel2, (this < fuel1)%nat -> (this < fuel2)%nat ->
    Environment_find fuel1 es this name = Environment_find fuel2 es this name.
Proof.
  intros Hwf this. induction this as [this IH] using lt_wf_ind.
  intros [|fuel1] [|fuel2] H1 H2; try lia.
  cbn [Environment_find]. destruct (es !! this) as [fr|] eqn:E; [|reflexivity].
  destruct (vars_get name (vars fr)); [reflexivity|].
  destruct (parent fr) as [p|] eqn:Ep; [|reflexivity].
  pose proof (Hwf this fr p E Ep) as Hp. apply IH; lia.
Qed.

Lemma find_stays_below (es : list Environment) (extra : list Environment) (name : string) :
  wf_envs es ->
  forall this fuel, (this < length es)%nat ->
    Environment_find fuel (es ++ extra) this name = Environment_find fuel es this name.
Proof.
  intros Hwf this. induction this as [this IH] using lt_wf_ind.
  intros [|fuel] Hlt; [reflexivity|].
  cbn [Environment_find]. rewrite lookup_app_l by exact Hlt.
  destruct (es !! this) as [fr|] eqn:E; [|reflexivity].
  destruct (vars_get name (vars fr)); [reflexivity|].
  destruct (parent fr) as [p|] eqn:Ep; [|reflexivity].
  pose proof (Hwf this fr p E Ep) as Hp. apply IH; lia.
Qed.

Lemma wf_envs_child (es : list Environment) (p : nat) (vs : list (string * Entry)) :
  wf_envs es -> (p < length es)%nat -> wf_envs (es ++ [mkEnvironment vs (Some p)]).
Proof.
  intros Hwf Hp i fr q Hi Hq.
  destruct (decide (i < length es)%nat) as [Hlt|Hge].
  - rewrite lookup_app_l in Hi by exact Hlt. eapply Hwf; eauto.
  - rewrite lookup_app_r in Hi by lia.
    destruct (i - length es)%nat as [|k] eqn:Ek; [|destruct k; discriminate Hi].
    simpl in Hi. inversion Hi; subst fr. simpl in Hq. inversion Hq; subst q. lia.
Qed.

(** X7. Block scoping.  A block, a loop turn and a [catch] each run in a
    fresh environment under the current one, a call in a fresh environment
    under the closure of the function.  A declaration made in such an
    environment is read back from there; every other name resolves from the new
    environment as it does from its parent; and from each environment that
    existed before, every name, the declared one too, resolves as before: the
    declaration is invisible outside, and does not touch a binding of the
    same name it shadows. *)
Theorem declaration_in_fresh_scope (es : list Environment) (p : nat) (name : string)
    (v : LuxValue) (c : bool) :
  wf_envs es -> (p < length es)%nat ->
  let child := fst (new_Environment (Some p) es) in
  let es' := Environment_define (snd (new_Environment (Some p) es)) child name v c in
  wf_envs es'
  /\ Environment_lookup es' child name = Some (child, mkEntry v c)
  /\ Environment_get es' child name = Ok v
  /\ (forall n, n <> name -> Environment_lookup es' child n = Environment_lookup es p n)
  /\ (forall e n, (e < length es)%nat -> Environment_lookup es' e n = Environment_lookup es e n).
Proof.
  intros Hwf Hp. cbn [new_Environment fst snd]. rewrite define_fresh.
  set (fr := mkEnvironment [(name, mkEntry v c)] (Some p)).
  assert (Hwf' : wf_envs (es ++ [fr])) by now apply wf_envs_child.
  assert (Hchild : (es ++ [fr]) !! length es = Some fr)
    by (rewrite lookup_app_r by lia; now rewrite Nat.sub_diag).
  assert (Hlen : length (es ++ [fr]) = S (length es))
    by (rewrite length_app; simpl; lia).
  assert (Hold : forall e n, (e < length es)%nat ->
            Environment_lookup (es ++ [fr]) e n = Environment_lookup es e n).
  { intros e n He. unfold Environment_lookup. rewrite Hlen, find_stays_below by assumption.
    apply find_fuel; [exact Hwf|lia|lia]. }
  assert (Hown : Environment_lookup (es ++ [fr]) (length es) name
                 = Some (length es, mkEntry v c)).
  { unfold Environment_lookup. rewrite Hlen. cbn [Environment_find]. rewrite Hchild.
    simpl. now rewrite String.eqb_refl. }
  split; [exact Hwf'|]. split; [exact Hown|].
  split; [unfold Environment_get; now rewrite Hown|].
  split; [|exact Hold].
  intros n Hn. rewrite <- (Hold p n Hp).
  assert (Hstep : Environment_find (S (length es)) (es ++ [fr]) (length es) n
                  = Environment_find (length es) (es ++ [fr]) p n).
  { cbn [Environment_find]. rewrite Hchild. simpl.
    destruct (String.eqb_spec name n) as [->|_]; [congruence|reflexivity]. }
  unfold Environment_lookup. rewrite Hlen, Hstep.
  apply find_fuel; [exact Hwf'|lia|lia].
Qed.

Lemma defineBuiltins_fold (names : list string) (g : nat) :
  forall es fr, es !! g = Some fr ->
    (forall name, name ∈ names ->
       Environment_getOwnEntry
         (fold_left (fun es name => Environment_define es g name (VBuiltin name) true) names es)
         g name = Some (mkEntry (VBuiltin name) true))
    /\ (forall e name, e <> g \/ name ∉ names ->
          Environment_getOwnEntry
            (fold_left (fun es name => Environment_define es g name (VBuiltin name) true) names es)
            e name = Environment_getOwnEntry es e name).
Proof.
  induction names as [|n names IH]; intros es fr Hg; simpl.
  - split; [intros name H; inversion H|reflexivity].
  - assert (Hg' : exists fr', Environment_define es g n (VBuiltin n) true !! g = Some fr').
    { rewrite define_lookup, Hg, Nat.eqb_refl. eauto. }
    destruct Hg' as [fr' Hg'].
    destruct (IH _ _ Hg') as [Hin Hout]. split.
    + intros name Hname. destruct (decide (name ∈ names)) as [Hmem|Hnot]; [now apply Hin|].
      apply elem_of_cons in Hname as [->|Hname]; [|contradiction].
      rewrite Hout by (right; exact Hnot). eapply define_getOwnEntry_eq; eauto.
    + intros e name Hcase.
      assert (Hcase' : e <> g \/ name ∉ names).
      { destruct Hcase as [He|Hname]; [now left|]. right. intros H. apply Hname. now right. }
      rewrite Hout by exact Hcase'.
      destruct Hcase as [He|Hname].
      * now apply define_getOwnEntry_other.
      * apply define_getOwnEntry_ne. intros ->. apply Hname. now left.
Qed.

(** X8. The built-ins are constants of the global environment.  After
    [interpret] has registered [createStdlib] in a global environment, every
    name of the standard library is bound there to its built-in as a
    constant, so an assignment to it from any scope that does not redeclare
    it fails with "Cannot reassign constant"; names that are no built-ins,
    and all other environments, are as they were. *)
Theorem builtins_are_constants (host : Host) (es : list Environment) (g : nat)
    (fr : Environment) :
  es !! g = Some fr ->
  (forall name, name ∈ stdlib_names host ->
     Environment_getOwnEntry (defineBuiltins host g es) g name
     = Some (mkEntry (VBuiltin name) true)
     /\ Environment_get (defineBuiltins host g es) g name = Ok (VBuiltin name)
     /\ forall v,
          Environment_set (defineBuiltins host g es) g name v
          = Throw (ThrownError ("Cannot reassign constant: '" +:+ name +:+ "'")))
  /\ (forall e name, e <> g \/ name ∉ stdlib_names host ->
        Environment_getOwnEntry (defineBuiltins host g es) e name
        = Environment_getOwnEntry es e name).
Proof.
  intros Hg. unfold defineBuiltins.
  destruct (defineBuiltins_fold (stdlib_names host) g es fr Hg) as [Hin Hout].
  split; [|exact Hout].
  intros name Hname. specialize (Hin name Hname).
  set (es' := fold_left _ _ _) in *.
  assert (Hlook : Environment_lookup es' g name = Some (g, mkEntry (VBuiltin name) true)).
  { unfold Environment_lookup, Environment_getOwnEntry in *.
    destruct (es' !! g) as [fr'|] eqn:E; [|discriminate].
    assert (Hlt : (g < length es')%nat) by (eapply lookup_lt_Some; eauto).
    destruct (length es') as [|k]; [lia|]. cbn [Environment_find]. now rewrite E, Hin. }
  split; [exact Hin|]. split.
  - unfold Environment_get. now rewrite Hlook.
  - intros v. unfold Environment_set. now rewrite Hlook.
Qed.

(** ** Calls, blocks and operators *)

Lemma bindParams_cons (funcEnv : nat) (name : string) (ty : option string)
    (params : list (string * option string)) (args : list LuxValue) (st : IState) :
  bindParams funcEnv ((name, ty) :: params) args st
  = bindParams funcEnv params (tail args)
      (with_binding funcEnv name (bound_argument args 0) false st).
Proof. destruct args; reflexivity. Qed.

Lemma with_binding_envs (env : nat) (name : string) (v : LuxValue) (c : bool) (st : IState) :
  envs (heap (with_binding env name v c st))
  = Environment_define (envs (heap st)) env name v c.
Proof. reflexivity. Qed.

Lemma bindParams_frame (funcEnv : nat) (params : list (string * option string)) :
  forall args st,
    let st' := snd (bindParams funcEnv params args st) in
    arrays (heap st') = arrays (heap st)
    /\ output (heap st') = output (heap st)
    /\ functions (heap st') = functions (heap st)
    /\ loader st' = loader st /\ steps st' = steps st
    /\ length (envs (heap st')) = length (envs (heap st))
    /\ (forall e name,
          e <> funcEnv \/ (forall ty, (name, ty) ∉ params) ->
          Environment_getOwnEntry (envs (heap st')) e name
          = Environment_getOwnEntry (envs (heap st)) e name).
Proof.
  induction params as [|[n ty] params IH]; intros args st.
  - simpl. repeat split; reflexivity.
  - rewrite bindParams_cons.
    destruct (IH (tail args) (with_binding funcEnv n (bound_argument args 0) false st))
      as (Ha & Ho & Hf & Hl & Hs & Hlen & Hown).
    cbv zeta. rewrite Ha, Ho, Hf, Hl, Hs, Hlen.
    repeat split; try reflexivity.
    + rewrite with_binding_envs. apply define_length.
    + intros e name Hcase. rewrite Hown.
      * rewrite with_binding_envs. destruct Hcase as [He|Hname].
        -- now apply define_getOwnEntry_other.
        -- apply define_getOwnEntry_ne. intros ->. apply (Hname ty). now left.
      * destruct Hcase as [He|Hname]; [now left|]. right. intros ty' H.
        apply (Hname ty'). now right.
Qed.

Lemma bound_argument_tail (args : list LuxValue) (i : nat) :
  bound_argument (tail args) i = bound_argument args (S i).
Proof. destruct args; reflexivity. Qed.

(** X9. Arity of a call.  Binding the parameters of a call never fails and
    touches nothing but the environment of the call: each parameter becomes
    an ordinary (assignable) variable of that environment, bound to the
    argument at its position, or to nil when the call passed fewer
    arguments; arguments beyond the parameters are dropped; of two
    parameters of the same name the later one wins; all other names and
    environments, the arrays and the output are as before. *)
Theorem parameters_bound_by_position (funcEnv : nat) (params : list (string * option string))
    (args : list LuxValue) (st : IState) (fr : Environment) :
  envs (heap st) !! funcEnv = Some fr ->
  let st' := snd (bindParams funcEnv params args st) in
  fst (bindParams funcEnv params args st) = Ok tt
  /\ (forall i name, last_parameter params name i ->
        Environment_getOwnEntry (envs (heap st')) funcEnv name
        = Some (mkEntry (bound_argument args i) false))
  /\ (forall e name, e <> funcEnv \/ (forall ty, (name, ty) ∉ params) ->
        Environment_getOwnEntry (envs (heap st')) e name
        = Environment_getOwnEntry (envs (heap st)) e name)
  /\ arrays (heap st') = arrays (heap st)
  /\ output (heap st') = output (heap st)
  /\ callStack st' = callStack st.
Proof.
  intros Hfr. cbv zeta.
  destruct (bindParams_run funcEnv params args st) as [Hok Hstack].
  destruct (bindParams_frame funcEnv params args st) as (Ha & Ho & _ & _ & _ & _ & Hown).
  split; [exact Hok|]. split; [|repeat split; assumption].
  clear Hok Hstack Ha Ho Hown. revert args st fr Hfr.
  induction params as [|[n ty] params IH]; intros args st fr Hfr i name [[ty' Hi] Hlast].
  - discriminate Hi.
  - rewrite bindParams_cons.
    set (st1 := with_binding funcEnv n (bound_argument args 0) false st).
    assert (Hfr1 : exists fr1, envs (heap st1) !! funcEnv = Some fr1).
    { unfold st1. rewrite with_binding_envs, define_lookup, Hfr, Nat.eqb_refl. eauto. }
    destruct Hfr1 as [fr1 Hfr1].
    destruct i as [|i].
    + simpl in Hi. inversion Hi; subst n ty'.
      destruct (bindParams_frame funcEnv params (tail args) st1) as (_ & _ & _ & _ & _ & _ & Hown).
      cbv zeta in Hown. rewrite Hown.
      * unfold st1. rewrite with_binding_envs. eapply define_getOwnEntry_eq; eauto.
      * right. intros ty'' Hin. apply list_elem_of_lookup_1 in Hin as [j Hj].
        apply (Hlast (S j) ty''); [lia|exact Hj].
    + rewrite <- bound_argument_tail. apply (IH (tail args) st1 fr1 Hfr1).
      split; [exists ty'; exact Hi|].
      intros j ty'' Hj. apply (Hlast (S j) ty''). lia.
Qed.

(** X10. Blocks run in sequence and stop at the first signal.  Executing
    the statements [first ++ rest] is executing [first] and, only if that
    completes normally, executing [rest] in the state it left; after a
    [return], [break], [continue] or an error inside [first], no statement of
    [rest] runs and the state and result are those of [first]. *)
Theorem block_stops_at_first_signal (host : Host) (file : string) (limit : Z)
    (onImport : option ImportCallback) (fuel : nat) (first rest : list Statement) (env : nat)
    (st : IState) :
  executeBlock host file limit onImport fuel (first ++ rest) env st
  = match executeBlock host file limit onImport fuel first env st with
    | (Ok Normal, st1) => executeBlock host file limit onImport fuel rest env st1
    | stopped => stopped
    end.
Proof.
  unfold executeBlock. revert st.
  induction first as [|stmt first IH]; intros st; [reflexivity|].
  cbn [executeBlockWith app]. unfold bind.
  destruct (executeStatement host file limit onImport fuel stmt env st) as [[[]| |] st1];
    try reflexivity.
  apply IH.
Qed.

Lemma stringifyM_run (host : Host) (v : LuxValue) (st : IState) :
  stringifyM host v st = (stringify host (arrays (heap st)) v, st).
Proof.
  destruct st as [h ld n cs]. unfold stringifyM, liftHeap. reflexivity.
Qed.

Lemma stringify_result (host : Host) (arrs : list ArrayObj) (v : LuxValue) :
  (exists s, stringify host arrs v = Ok s) \/ stringify host arrs v = Throw stack_overflow.
Proof.
  unfold stringify. destruct (stringify_fuel host (S (length arrs)) arrs v); eauto.
Qed.

Lemma evaluateBinaryOp_pure (host : Host) (file : string) (op : string)
    (left right : LuxValue) (st : IState) :
  snd (evaluateBinaryOp host file op left right st) = st
  /\ match fst (evaluateBinaryOp host file op left right st) with
     | Ok (VFunction _ _ _) | Ok (VBuiltin _) => False
     | _ => True
     end.
Proof.
  unfold evaluateBinaryOp.
  destruct (String.eqb_spec op "+") as [->|Hplus].
  - cbn [andb].
    destruct (match left with VString _ => true | _ => false end
              || match right with VString _ => true | _ => false end) eqn:Hs.
    + unfold bind. rewrite !stringifyM_run.
      destruct (stringify host (arrays (heap st)) left); [|split; [reflexivity|exact I]..].
      destruct (stringify host (arrays (heap st)) right); split; try reflexivity; exact I.
    + destruct left, right; try discriminate Hs; cbn; split; try reflexivity; exact I.
  - cbn [andb].
    destruct left, right;
      repeat match goal with
             | |- context [String.eqb op ?s] => destruct (String.eqb_spec op s); try subst op
             | |- context [PrimFloat.eqb ?a ?b] => destruct (PrimFloat.eqb a b)
             end;
      cbn; split; try reflexivity; try congruence; auto.
Qed.


(** X11. Binary operators are pure and typed.  Applying an operator to two
    values changes nothing in the state, and always ends with a value or an
    error.  The value is a number or a boolean, or, for [+] with a string
    operand only, the string that joins the two printed operands.  The error
    is "Division by zero" or "Cannot apply operator", which names the
    operator and the types of both operands, both raised at position 0:0
    with the current call stack, or, only when [+] with a string operand has
    to print an array that contains itself, the stack overflow of the
    runtime, which is an error like any other. *)
Theorem binary_operators_are_pure (host : Host) (file : string) (op : string)
    (left right : LuxValue) (st : IState) :
  let is_string v := match v with VString _ => true | _ => false end in
  snd (evaluateBinaryOp host file op left right st) = st
  /\ match fst (evaluateBinaryOp host file op left right st) with
     | Ok (VNumber _) => is_string left || is_string right = false
     | Ok (VBoolean _) => True
     | Ok (VString s) =>
         op = "+" /\ is_string left || is_string right = true
         /\ exists l r,
              stringify host (arrays (heap st)) left = Ok l
              /\ stringify host (arrays (heap st)) right = Ok r
              /\ s = l +:+ r
     | Ok _ => False
     | Throw e =>
         e = ThrownRuntime (new_RuntimeError "Division by zero" file 0 0 (callStack st))
         \/ e = ThrownRuntime
                  (new_RuntimeError
                     ("Cannot apply operator '" +:+ op +:+ "' to " +:+ typeOf left +:+ " and "
                      +:+ typeOf right) file 0 0 (callStack st))
         \/ (e = stack_overflow
             /\ op = "+" /\ is_string left || is_string right = true
             /\ (stringify host (arrays (heap st)) left = Throw stack_overflow
                 \/ stringify host (arrays (heap st)) right = Throw stack_overflow))
     | Diverge => False
     end.
Proof.
  cbv zeta. unfold evaluateBinaryOp.
  destruct (String.eqb_spec op "+") as [->|Hplus].
  - cbn [andb].
    destruct (match left with VString _ => true | _ => false end
              || match right with VString _ => true | _ => false end) eqn:Hs.
    + unfold bind. rewrite !stringifyM_run.
      destruct (stringify_result host (arrays (heap st)) left) as [[l Hl]|Hl]; rewrite Hl.
      * destruct (stringify_result host (arrays (heap st)) right) as [[r Hr]|Hr]; rewrite Hr.
        -- cbn. split; [reflexivity|]. split; [reflexivity|]. split; [reflexivity|].
           exists l, r. auto.
        -- cbn. split; [reflexivity|]. right. right. auto.
      * cbn. split; [reflexivity|]. right. right. auto.
    + destruct left, right; try discriminate Hs;
        cbn; split; try reflexivity; try (right; left; reflexivity).
  - cbn [andb].
    destruct left, right;
      repeat match goal with
             | |- context [String.eqb op ?s] => destruct (String.eqb_spec op s); try subst op
             | |- context [PrimFloat.eqb ?a ?b] => destruct (PrimFloat.eqb a b)
             end;
      cbn; split; try reflexivity; try congruence; auto.
Qed.

(** ** The shape of the heap is kept *)

Lemma value_ok_mono (n n' : nat) (v : LuxValue) :
  (n <= n')%nat -> value_ok n v -> value_ok n' v.
Proof. destruct v; simpl; try tauto. lia. Qed.

Lemma values_ok_mono (n n' : nat) (vs : list LuxValue) :
  (n <= n')%nat -> Forall (value_ok n) vs -> Forall (value_ok n') vs.
Proof.
  intros Hle H. eapply Forall_impl; [exact H|]. intros v. now apply value_ok_mono.
Qed.

Lemma array_ok_mono (n n' : nat) (obj : ArrayObj) :
  (n <= n')%nat -> array_ok n obj -> array_ok n' obj.
Proof.
  intros Hle [Hel Hnan]. split; [now apply (values_ok_mono n)|].
  intros v Hv. apply (value_ok_mono n); [exact Hle|now apply Hnan].
Qed.

Lemma arrays_ok_mono (n n' : nat) (arrs : list ArrayObj) :
  (n <= n')%nat -> Forall (array_ok n) arrs -> Forall (array_ok n') arrs.
Proof.
  intros Hle H. eapply Forall_impl; [exact H|]. intros obj. now apply array_ok_mono.
Qed.

Lemma environment_ok_mono (n n' : nat) (fr : Environment) :
  (n <= n')%nat -> environment_ok n fr -> environment_ok n' fr.
Proof.
  intros Hle H. unfold environment_ok. eapply Forall_impl; [exact H|].
  intros kv. now apply value_ok_mono.
Qed.

Lemma completion_ok_mono (n n' : nat) (c : Completion) :
  (n <= n')%nat -> completion_ok n c -> completion_ok n' c.
Proof. destruct c; simpl; try tauto. now apply value_ok_mono. Qed.

Lemma vars_set_ok (n : nat) (name : string) (en : Entry) (vs : list (string * Entry)) :
  value_ok n (value en) ->
  Forall (fun kv => value_ok n (value (snd kv))) vs ->
  Forall (fun kv => value_ok n (value (snd kv))) (vars_set name en vs).
Proof.
  intros Hen. induction 1 as [|[k old] rest Hold Hrest IH]; simpl.
  - constructor; [exact Hen|constructor].
  - destruct (String.eqb k name); constructor; assumption.
Qed.

Lemma vars_get_ok (n : nat) (name : string) (en : Entry) (vs : list (string * Entry)) :
  Forall (fun kv => value_ok n (value (snd kv))) vs ->
  vars_get name vs = Some en -> value_ok n (value en).
Proof.
  induction 1 as [|[k old] rest Hold Hrest IH]; simpl; [discriminate|].
  destruct (String.eqb k name); [|exact IH]. intros H. inversion H; subst. exact Hold.
Qed.

Lemma define_ok (h : Heap) (env : nat) (name : string) (v : LuxValue) (c : bool) :
  heap_ok h -> value_ok (length (envs h)) v ->
  heap_ok (set_envs (Environment_define (envs h) env name v c) h).
Proof.
  intros (Hwf & Henv & Harr) Hv. unfold heap_ok. cbn [envs arrays set_envs].
  rewrite define_length. split; [|split; [|exact Harr]].
  - intros i fr p Hi Hp. rewrite define_lookup in Hi.
    destruct (envs h !! i) as [fr0|] eqn:E; [|discriminate].
    destruct (Nat.eqb i env); inversion Hi; subst fr; eapply Hwf; eauto.
  - apply Forall_lookup. intros i fr Hi. rewrite define_lookup in Hi.
    destruct (envs h !! i) as [fr0|] eqn:E; [|discriminate].
    pose proof (Forall_lookup_1 _ _ _ _ Henv E) as H0.
    destruct (Nat.eqb i env); inversion Hi; subst fr; [|exact H0].
    unfold environment_ok. cbn [vars]. now apply vars_set_ok.
Qed.

Lemma child_ok (h : Heap) (p : nat) :
  heap_ok h -> (p < length (envs h))%nat ->
  heap_ok (set_envs (envs h ++ [mkEnvironment [] (Some p)]) h).
Proof.
  intros (Hwf & Henv & Harr) Hp. unfold heap_ok. cbn [envs arrays set_envs].
  rewrite length_app. cbn [length].
  split; [now apply wf_envs_child|]. split.
  - apply Forall_app. split.
    + eapply Forall_impl; [exact Henv|]. intros fr. apply environment_ok_mono. lia.
    + constructor; [constructor|constructor].
  - eapply arrays_ok_mono; [|exact Harr]. lia.
Qed.

Lemma lookup_ok (h : Heap) (this : nat) (name : string) (holder : nat) (en : Entry) :
  heap_ok h ->
  Environment_lookup (envs h) this name = Some (holder, en) ->
  value_ok (length (envs h)) (value en).
Proof.
  intros (_ & Henv & _) Hfind. apply find_own in Hfind.
  unfold Environment_getOwnEntry in Hfind.
  destruct (envs h !! holder) as [fr|] eqn:E; [|discriminate].
  eapply vars_get_ok; [|exact Hfind]. exact (Forall_lookup_1 _ _ _ _ Henv E).
Qed.

Lemma array_read_ok (n : nat) (obj : ArrayObj) (idx : Floor) :
  array_ok n obj -> value_ok n (array_read obj idx).
Proof.
  intros [Hel Hnan]. destruct idx as [k| | |]; simpl; try exact I.
  - destruct (elems obj !! Z.to_nat k) as [v|] eqn:E; [|exact I].
    exact (Forall_lookup_1 _ _ _ _ Hel E).
  - destruct (NaN_property obj) as [v|]; [now apply Hnan|exact I].
Qed.

Lemma mkArrayObj_ok (n : nat) (vs : list LuxValue) :
  Forall (value_ok n) vs -> array_ok n (mkArrayObj vs None).
Proof.
  intros Hvs. split; [now rewrite elems_mkArrayObj|]. intros v Hv. discriminate Hv.
Qed.

Lemma array_write_ok (n : nat) (obj : ArrayObj) (idx : Floor) (v : LuxValue) :
  array_ok n obj -> value_ok n v -> array_ok n (array_write obj idx v).
Proof.
  intros [Hel Hnan] Hv. destruct idx as [k| | |]; cbn [array_write];
    try (split; assumption).
  - unfold elems in Hel.
    destruct (Z.to_nat k <? length (slots obj))%nat; split; unfold elems;
      cbn [slots NaN_property]; try exact Hnan.
    + rewrite list_fmap_insert. now apply Forall_insert.
    + rewrite !fmap_app, fmap_replicate.
      apply Forall_app. split; [exact Hel|]. apply Forall_app. split.
      * apply Forall_replicate. exact I.
      * constructor; [exact Hv|constructor].
  - split; [exact Hel|]. cbn [NaN_property]. intros w Hw. inversion Hw; subst. exact Hv.
Qed.

(** *** The monad *)

Lemma keeps_ret {A} (n0 : nat) (Q : nat -> A -> Prop) (a : A) :
  (forall n, (n0 <= n)%nat -> Q n a) -> keeps n0 Q (ret a).
Proof. intros HQ st Hok Hn. simpl. split; [exact Hok|]. split; [lia|]. now apply HQ. Qed.

Lemma keeps_throw {A} (n0 : nat) (Q : nat -> A -> Prop) (e : Thrown) :
  keeps n0 Q (throw e).
Proof. intros st Hok Hn. simpl. auto. Qed.

Lemma keeps_diverge {A} (n0 : nat) (Q : nat -> A -> Prop) : keeps n0 Q diverge.
Proof. intros st Hok Hn. simpl. auto. Qed.

Lemma keeps_throwRuntimeError {A} (file : string) (n0 : nat) (Q : nat -> A -> Prop)
    (message : string) (line column : Z) :
  keeps n0 Q (throwRuntimeError file message line column).
Proof. intros st Hok Hn. simpl. auto. Qed.

Lemma keeps_bind {A B} (n0 : nat) (Q1 : nat -> A -> Prop) (Q2 : nat -> B -> Prop)
    (m : M A) (k : A -> M B) :
  keeps n0 Q1 m ->
  (forall a n1, (n0 <= n1)%nat -> Q1 n1 a -> keeps n1 Q2 (k a)) ->
  keeps n0 Q2 (bind m k).
Proof.
  intros Hm Hk st Hok Hn. unfold bind.
  destruct (Hm st Hok Hn) as (Hok1 & Hle1 & HQ1).
  destruct (m st) as [[a|e|] st1]; cbn [fst snd] in *; auto.
  destruct (Hk a (length (envs (heap st1))) ltac:(lia) HQ1 st1 Hok1 ltac:(lia))
    as (Hok2 & Hle2 & HQ2).
  split; [exact Hok2|]. split; [lia|exact HQ2].
Qed.

Lemma keeps_tryCatch {A} (n0 : nat) (Q : nat -> A -> Prop) (m : M A)
    (handler : Thrown -> M A) :
  keeps n0 Q m ->
  (forall e n1, (n0 <= n1)%nat -> keeps n1 Q (handler e)) ->
  keeps n0 Q (tryCatch m handler).
Proof.
  intros Hm Hh st Hok Hn. unfold tryCatch.
  destruct (Hm st Hok Hn) as (Hok1 & Hle1 & HQ1).
  destruct (m st) as [[a|e|] st1]; cbn [fst snd] in *; auto.
  destruct (Hh e (length (envs (heap st1))) ltac:(lia) st1 Hok1 ltac:(lia))
    as (Hok2 & Hle2 & HQ2).
  split; [exact Hok2|]. split; [lia|exact HQ2].
Qed.

Lemma keeps_weaken {A} (n0 n1 : nat) (Q Q' : nat -> A -> Prop) (m : M A) :
  keeps n0 Q m -> (n0 <= n1)%nat -> (forall n a, (n1 <= n)%nat -> Q n a -> Q' n a) ->
  keeps n1 Q' m.
Proof.
  intros Hm Hle HQ st Hok Hn. destruct (Hm st Hok ltac:(lia)) as (Hok1 & Hle1 & HQ1).
  split; [exact Hok1|]. split; [exact Hle1|].
  destruct (fst (m st)); auto. apply HQ; [lia|exact HQ1].
Qed.

(** *** The operations on the heap *)

Lemma keeps_step (file : string) (limit : Z) (n0 : nat) :
  keeps n0 anything (step file limit).
Proof.
  intros st Hok Hn. unfold step. cbn [heap steps].
  destruct (limit <? steps st + 1); cbn; (split; [exact Hok|split; [lia|exact I]]).
Qed.

Lemma keeps_newEnvironment (n0 p : nat) :
  (p < n0)%nat -> keeps n0 (fun n a => (a < n)%nat) (newEnvironment (Some p)).
Proof.
  intros Hp st Hok Hn. unfold newEnvironment, liftHeap. cbn.
  split; [apply child_ok; [exact Hok|lia]|]. rewrite length_app. cbn. lia.
Qed.

Lemma keeps_define (n0 env : nat) (name : string) (v : LuxValue) (c : bool) :
  value_ok n0 v -> keeps n0 anything (define env name v c).
Proof.
  intros Hv st Hok Hn. unfold define, liftHeap. cbn.
  split; [apply define_ok; [exact Hok|eapply value_ok_mono; eauto]|].
  rewrite define_length. split; [lia|exact I].
Qed.

Lemma keeps_envGet (n0 env : nat) (name : string) :
  keeps n0 value_ok (envGet env name).
Proof.
  intros st Hok Hn. unfold envGet, liftHeap, Environment_get.
  destruct (Environment_lookup (envs (heap st)) env name) as [[holder en]|] eqn:E; cbn.
  - split; [exact Hok|]. split; [lia|]. eapply lookup_ok; eauto.
  - auto.
Qed.

Lemma keeps_envSet (n0 env : nat) (name : string) (v : LuxValue) :
  value_ok n0 v -> keeps n0 anything (envSet env name v).
Proof.
  intros Hv st Hok Hn. unfold envSet, liftHeap, Environment_set.
  destruct (Environment_lookup (envs (heap st)) env name) as [[holder en]|]; cbn; auto.
  destruct (constant en); cbn; auto.
  split; [apply define_ok; [exact Hok|eapply value_ok_mono; eauto]|].
  rewrite define_length. split; [lia|exact I].
Qed.

Lemma keeps_newArray (n0 : nat) (vs : list LuxValue) :
  Forall (value_ok n0) vs -> keeps n0 value_ok (newArray vs).
Proof.
  intros Hvs st (Hwf & Henv & Harr) Hn. unfold newArray, liftHeap. cbn.
  split; [|split; [lia|exact I]].
  split; [exact Hwf|]. split; [exact Henv|].
  apply Forall_app. split; [exact Harr|]. constructor; [|constructor].
  apply mkArrayObj_ok. eapply values_ok_mono; eauto.
Qed.

Lemma keeps_newFunction (n0 : nat) (d : FunctionDeclaration) (closure : nat) :
  (closure < n0)%nat -> keeps n0 value_ok (newFunction d closure).
Proof.
  intros Hc st Hok Hn. unfold newFunction, liftHeap. cbn.
  split; [exact Hok|]. split; lia.
Qed.

Lemma keeps_getArray (n0 a : nat) : keeps n0 array_ok (getArray a).
Proof.
  intros st Hok Hn. unfold getArray, readHeap, liftHeap. cbn.
  split; [exact Hok|]. split; [lia|].
  destruct Hok as (_ & _ & Harr).
  destruct (arrays (heap st) !! a) as [obj|] eqn:E; cbn.
  - exact (Forall_lookup_1 _ _ _ _ Harr E).
  - split; [constructor|]. intros v Hv. discriminate Hv.
Qed.

Lemma keeps_putArray (n0 a : nat) (obj : ArrayObj) :
  array_ok n0 obj -> keeps n0 anything (putArray a obj).
Proof.
  intros Hobj st (Hwf & Henv & Harr) Hn. unfold putArray, liftHeap. cbn.
  split; [|split; [lia|exact I]].
  split; [exact Hwf|]. split; [exact Henv|].
  apply Forall_insert; [exact Harr|]. eapply array_ok_mono; eauto.
Qed.

Lemma keeps_stringifyM (host : Host) (n0 : nat) (v : LuxValue) :
  keeps n0 anything (stringifyM host v).
Proof.
  intros st Hok Hn. rewrite stringifyM_run. cbn [fst snd].
  split; [exact Hok|]. split; [lia|]. now destruct (stringify host _ v).
Qed.

Lemma keeps_withFrame {A} (n0 : nat) (Q : nat -> A -> Prop) (frame : StackFrame) (m : M A) :
  keeps n0 Q m -> keeps n0 Q (withFrame frame m).
Proof.
  intros Hm st Hok Hn. unfold withFrame, bind, pushFrame, popFrame, ret.
  specialize (Hm (mkIState (heap st) (loader st) (steps st) (callStack st ++ [frame]))
                Hok Hn).
  cbn [heap] in Hm.
  destruct (m _) as [[a|e|] st1]; cbn [fst snd heap] in *; exact Hm.
Qed.

Lemma keeps_callBuiltin (host : Host) (n0 : nat) (name : string) (args : list LuxValue) :
  host_ok host -> Forall (value_ok n0) args ->
  keeps n0 value_ok (callBuiltin host name args).
Proof.
  intros Hhost Hargs st (Hwf & Henv & Harr) Hn. unfold callBuiltin, liftHeap.
  pose proof (Hhost name (length (envs (heap st))) args (arrays (heap st)) (output (heap st))
                (values_ok_mono _ _ _ Hn Hargs) Harr) as [Harr' Hres].
  destruct (builtin_fn host name args (arrays (heap st)) (output (heap st)))
    as [r [arrs out]]. cbn [fst snd heap envs arrays] in *.
  split; [split; [exact Hwf|split; [exact Henv|exact Harr']]|].
  split; [lia|exact Hres].
Qed.

Lemma keeps_importCall (n0 : nat) (f : ImportCallback) (path file : string) :
  import_ok n0 f -> keeps n0 anything (importCall f path file).
Proof.
  intros Hf st Hok Hn. unfold importCall.
  pose proof (Hf path file (heap st) (loader st) Hok Hn) as [Hok' Hle].
  destruct (f path file (heap st) (loader st)) as [r [h l]]. cbn [fst snd heap] in *.
  split; [exact Hok'|]. split; [exact Hle|]. now destruct r.
Qed.

Lemma keeps_mapM_ {A} (f : A -> M LuxValue) (l : list A) :
  forall n0,
    (forall x n1, (n0 <= n1)%nat -> keeps n1 value_ok (f x)) ->
    keeps n0 (fun n vs => Forall (value_ok n) vs) (mapM_ f l).
Proof.
  induction l as [|x l IH]; intros n0 Hf; cbn [mapM_].
  - apply keeps_ret. intros. constructor.
  - eapply keeps_bind; [apply Hf; lia|]. intros y n1 Hn1 Hy.
    eapply keeps_bind; [apply IH; intros; apply Hf; lia|]. intros ys n2 Hn2 Hys.
    apply keeps_ret. intros n Hn. constructor.
    + eapply value_ok_mono; [|exact Hy]. lia.
    + eapply values_ok_mono; [|exact Hys]. lia.
Qed.

Lemma keeps_bindParams (funcEnv : nat) (params : list (string * option string)) :
  forall args n0, Forall (value_ok n0) args ->
    keeps n0 anything (bindParams funcEnv params args).
Proof.
  induction params as [|[name ty] params IH]; intros args n0 Hargs; cbn [bindParams].
  - apply keeps_ret. intros. exact I.
  - eapply keeps_bind.
    + apply keeps_define. destruct Hargs; [exact I|assumption].
    + intros _ n1 Hn1 _. apply IH. eapply values_ok_mono; [exact Hn1|].
      destruct Hargs; [constructor|assumption].
Qed.

Lemma keeps_evaluateBinaryOp (host : Host) (file : string) (n0 : nat) (op : string)
    (left right : LuxValue) :
  keeps n0 value_ok (evaluateBinaryOp host file op left right).
Proof.
  intros st Hok Hn.
  destruct (evaluateBinaryOp_pure host file op left right st) as [Hst Hres].
  rewrite Hst. split; [exact Hok|]. split; [lia|].
  destruct (fst (evaluateBinaryOp host file op left right st)) as [[]| |]; try exact I;
    try contradiction.
Qed.

Lemma keeps_indexValue (host : Host) (file : string) (n0 : nat) (obj index : LuxValue) :
  keeps n0 value_ok (indexValue host file obj index).
Proof.
  unfold indexValue. destruct obj; try apply keeps_throwRuntimeError.
  - destruct index; try apply keeps_throwRuntimeError.
    destruct (out_of_bounds _ _); [apply keeps_throwRuntimeError|].
    apply keeps_ret. intros. destruct (Math_floor x) as [k| | |]; simpl; try exact I.
    now destruct (String.get (Z.to_nat k) s).
  - destruct index; try apply keeps_throwRuntimeError.
    eapply keeps_bind; [apply keeps_getArray|]. intros arr n1 Hn1 Harr.
    destruct (out_of_bounds _ _); [apply keeps_throwRuntimeError|].
    apply keeps_ret. intros n Hn. apply array_read_ok. eapply array_ok_mono; eauto.
Qed.

(** *** The evaluator *)

Ltac ok_now :=
  cbv beta in *;
  first
    [ exact I
    | assumption
    | lia
    | eapply value_ok_mono; [|eassumption]; lia
    | eapply values_ok_mono; [|eassumption]; lia
    | eapply array_ok_mono; [|eassumption]; lia
    | eapply completion_ok_mono; [|eassumption]; lia ].

Section KeptBodies.

Context (host : Host) (file : string) (limit : Z) (onImport : option ImportCallback).
Context (base : nat).
Hypothesis Hhost : host_ok host.
Hypothesis Himport : callback_ok base onImport.

Context (evalE : Expression -> nat -> M LuxValue)
        (execS : Statement -> nat -> M Completion)
        (whileL : Expression -> list Statement -> nat -> M Completion)
        (forL : nat -> nat -> string -> list Statement -> nat -> M Completion).

Hypothesis HevalE : forall expr env n0,
  (base <= n0)%nat -> (env < n0)%nat -> keeps n0 value_ok (evalE expr env).
Hypothesis HexecS : forall stmt env n0,
  (base <= n0)%nat -> (env < n0)%nat -> keeps n0 completion_ok (execS stmt env).
Hypothesis HwhileL : forall condition body env n0,
  (base <= n0)%nat -> (env < n0)%nat -> keeps n0 completion_ok (whileL condition body env).
Hypothesis HforL : forall a i variable body env n0,
  (base <= n0)%nat -> (env < n0)%nat -> keeps n0 completion_ok (forL a i variable body env).

Ltac prim :=
  first
    [ apply keeps_step
    | apply keeps_throwRuntimeError
    | apply keeps_envGet
    | apply keeps_getArray
    | apply keeps_evaluateBinaryOp
    | apply keeps_indexValue
    | apply HevalE; lia
    | apply HexecS; lia
    | apply HwhileL; lia
    | apply HforL; lia
    | apply keeps_newEnvironment; lia
    | apply keeps_newFunction; lia
    | apply keeps_define; ok_now
    | apply keeps_envSet; ok_now
    | apply keeps_newArray; ok_now
    | apply keeps_ret; intros; simpl; ok_now ].

Ltac seq := eapply keeps_bind; [prim|intros ? ? ? ?; cbv beta in *].

Lemma keeps_executeBlockWith (statements : list Statement) :
  forall env n0, (base <= n0)%nat -> (env < n0)%nat ->
    keeps n0 completion_ok (executeBlockWith execS statements env).
Proof.
  induction statements as [|stmt rest IH]; intros env n0 Hbase Henv; cbn [executeBlockWith].
  - prim.
  - seq. destruct a; try prim. apply IH; lia.
Qed.

Lemma keeps_block (parent : nat) (body : list Statement) (n0 : nat) :
  (base <= n0)%nat -> (parent < n0)%nat ->
  keeps n0 completion_ok
    (blockEnv <- newEnvironment (Some parent) ;; executeBlockWith execS body blockEnv).
Proof.
  intros Hbase Hparent. seq. apply keeps_executeBlockWith; lia.
Qed.

Lemma keeps_callFunction (declaration : FunctionDeclaration) (closure : nat)
    (args : list LuxValue) (line column : Z) (n0 : nat) :
  (base <= n0)%nat -> (closure < n0)%nat -> Forall (value_ok n0) args ->
  keeps n0 value_ok (callFunction file execS declaration closure args line column).
Proof.
  intros Hbase Hclosure Hargs. unfold callFunction.
  eapply keeps_bind.
  - apply keeps_withFrame. seq.
    eapply keeps_bind; [apply keeps_bindParams; ok_now|]. intros _ n2 Hn2 _.
    apply keeps_executeBlockWith; lia.
  - intros result n1 Hn1 Hresult. destruct result; prim.
Qed.

Lemma keeps_evaluateExpressionBody (expr : Expression) (env n0 : nat) :
  (base <= n0)%nat -> (env < n0)%nat ->
  keeps n0 value_ok (evaluateExpressionBody host file limit evalE execS expr env).
Proof.
  intros Hbase Henv. unfold evaluateExpressionBody. seq.
  destruct expr as [operator l r|operator operand|callee arguments line column|object index
                   |elements|x isFloat|s|b| |name].
  - destruct (String.eqb _ "and").
    { seq. destruct (negb (isTruthy a0)); prim. }
    destruct (String.eqb _ "or").
    { seq. destruct (isTruthy a0); prim. }
    seq. seq. prim.
  - seq. destruct (String.eqb _ "-"); [destruct a0; prim|].
    destruct (String.eqb _ "not"); prim.
  - eapply keeps_bind; [apply keeps_tryCatch; [prim|intros; prim]|].
    intros callee_value n2 Hn2 Hcallee.
    eapply keeps_bind; [apply keeps_mapM_; intros; apply HevalE; lia|].
    intros vs n3 Hn3 Hvs. cbv beta in *.
    destruct callee_value; try prim.
    + apply keeps_callFunction; [lia| |exact Hvs].
      simpl in Hcallee. lia.
    + apply keeps_tryCatch; [apply keeps_callBuiltin; assumption|].
      intros e n4 Hn4. destruct e; first [prim|apply keeps_throw].
  - seq. seq. prim.
  - eapply keeps_bind; [apply keeps_mapM_; intros; apply HevalE; lia|].
    intros vs n2 Hn2 Hvs. prim.
  - prim.
  - prim.
  - prim.
  - prim.
  - apply keeps_tryCatch; [prim|]. intros; prim.
Qed.

Lemma keeps_alternates (alts : list (Expression * list Statement))
    (alternate : option (list Statement)) :
  forall env n0, (base <= n0)%nat -> (env < n0)%nat ->
    keeps n0 completion_ok (alternates evalE execS alts alternate env).
Proof.
  induction alts as [|[condition body] rest IH]; intros env n0 Hbase Henv;
    cbn [alternates].
  - destruct alternate; [apply keeps_block; lia|prim].
  - seq. destruct (isTruthy a); [apply keeps_block; lia|apply IH; lia].
Qed.

Lemma keeps_executeStatementBody (stmt : Statement) (env n0 : nat) :
  (base <= n0)%nat -> (env < n0)%nat ->
  keeps n0 completion_ok
    (executeStatementBody host file limit onImport evalE execS whileL forL stmt env).
Proof.
  intros Hbase Henv. unfold executeStatementBody. seq.
  destruct stmt as [name ty value line column|name ty value line column
                   |name value line column|name index value line column
                   |condition consequent alternateConditions alternate line column
                   |condition body line column|variable iterable body line column
                   |declaration|value line column|line column|line column
                   |path line column|tryBody catchVariable catchBody line column
                   |expression line column].
  - eapply keeps_bind; [destruct value; prim|]. intros v n2 Hn2 Hv. seq. prim.
  - seq. seq. prim.
  - seq. eapply keeps_bind; [apply keeps_tryCatch; [prim|intros; prim]|].
    intros; prim.
  - seq. destruct a0; try prim. seq. destruct a0; try prim. seq.
    destruct (out_of_bounds _ _); [prim|]. seq. seq.
    eapply keeps_bind; [apply keeps_putArray; apply array_write_ok; ok_now|].
    intros; prim.
  - seq. destruct (isTruthy a0); [apply keeps_block; lia|apply keeps_alternates; lia].
  - prim.
  - seq. destruct a0; prim.
  - seq. seq. prim.
  - eapply keeps_bind; [destruct value; prim|]. intros v n2 Hn2 Hv. prim.
  - prim.
  - prim.
  - eapply (keeps_bind _ anything).
    + destruct onImport as [callback|]; [|prim].
      apply keeps_importCall. intros path' file' h l Hok Hn.
      apply Himport; [exact Hok|lia].
    + intros; prim.
  - apply keeps_tryCatch; [apply keeps_block; lia|].
    intros e n2 Hn2. seq. seq. apply keeps_executeBlockWith; lia.
  - seq. prim.
Qed.

Lemma keeps_loop_result (result : Completion) (again : M Completion) (n0 : nat) :
  completion_ok n0 result -> keeps n0 completion_ok again ->
  keeps n0 completion_ok
    match result with
    | ReturnSignal v => ret (ReturnSignal v)
    | BreakSignal => ret Normal
    | _ => again
    end.
Proof. intros Hresult Hagain. destruct result; try exact Hagain; prim. Qed.

Lemma keeps_whileLoopBody (condition : Expression) (body : list Statement) (env n0 : nat) :
  (base <= n0)%nat -> (env < n0)%nat ->
  keeps n0 completion_ok (whileLoopBody file limit evalE execS whileL condition body env).
Proof.
  intros Hbase Henv. unfold whileLoopBody. seq.
  destruct (isTruthy a); [|prim]. seq. seq.
  eapply keeps_bind; [apply keeps_executeBlockWith; lia|].
  intros result n4 Hn4 Hresult. apply keeps_loop_result; [exact Hresult|prim].
Qed.

Lemma keeps_forLoopBody (a i : nat) (variable : string) (body : list Statement)
    (env n0 : nat) :
  (base <= n0)%nat -> (env < n0)%nat ->
  keeps n0 completion_ok (forLoopBody file limit execS forL a i variable body env).
Proof.
  intros Hbase Henv. unfold forLoopBody. seq.
  destruct (elems a0 !! i) as [item|] eqn:Eitem; [|prim].
  assert (Hitem : value_ok n1 item)
    by (destruct H0 as [Hel _]; exact (Forall_lookup_1 _ _ _ _ Hel Eitem)).
  seq. seq. seq.
  eapply keeps_bind; [apply keeps_executeBlockWith; lia|].
  intros result n5 Hn5 Hresult. apply keeps_loop_result; [exact Hresult|prim].
Qed.

End KeptBodies.

Section KeptEvaluator.

Context (host : Host) (file : string) (limit : Z) (onImport : option ImportCallback).
Context (base : nat).
Hypothesis Hhost : host_ok host.
Hypothesis Himport : callback_ok base onImport.

Lemma keeps_evaluator (fuel : nat) :
  (forall expr env n0, (base <= n0)%nat -> (env < n0)%nat ->
     keeps n0 value_ok (evaluateExpression host file limit onImport fuel expr env))
  /\ (forall stmt env n0, (base <= n0)%nat -> (env < n0)%nat ->
        keeps n0 completion_ok (executeStatement host file limit onImport fuel stmt env))
  /\ (forall condition body env n0, (base <= n0)%nat -> (env < n0)%nat ->
        keeps n0 completion_ok (whileLoop host file limit onImport fuel condition body env))
  /\ (forall a i variable body env n0, (base <= n0)%nat -> (env < n0)%nat ->
        keeps n0 completion_ok (forLoop host file limit onImport fuel a i variable body env)).
Proof.
  induction fuel as [|fuel (IHe & IHs & IHw & IHf)].
  - split; [|split; [|split]].
    + intros expr env n0 Hb He. apply keeps_diverge.
    + intros stmt env n0 Hb He. apply keeps_diverge.
    + intros condition body env n0 Hb He. apply keeps_diverge.
    + intros a i variable body env n0 Hb He. apply keeps_diverge.
  - split; [|split; [|split]].
    + intros expr env n0 Hb He. cbn [evaluateExpression].
      eapply keeps_evaluateExpressionBody; eauto.
    + intros stmt env n0 Hb He. cbn [executeStatement].
      eapply keeps_executeStatementBody; eauto.
    + intros condition body env n0 Hb He. cbn [whileLoop].
      eapply keeps_whileLoopBody; eauto.
    + intros a i variable body env n0 Hb He. cbn [forLoop].
      eapply keeps_forLoopBody; eauto.
Qed.

Lemma keeps_executeBlock (fuel : nat) (statements : list Statement) (env n0 : nat) :
  (base <= n0)%nat -> (env < n0)%nat ->
  keeps n0 completion_ok (executeBlock host file limit onImport fuel statements env).
Proof.
  intros Hbase Henv. unfold executeBlock.
  eapply keeps_executeBlockWith; [|exact Hbase|exact Henv].
  apply (keeps_evaluator fuel).
Qed.

End KeptEvaluator.

Lemma import_ok_later (n0 n1 : nat) (onImport : option ImportCallback) :
  (n0 <= n1)%nat -> callback_ok n0 onImport -> callback_ok n1 onImport.
Proof.
  intros Hle. destruct onImport as [f|]; [|exact id].
  intros Hf path file h l Hok Hn. apply Hf; [exact Hok|lia].
Qed.

Lemma defineBuiltins_ok (host : Host) (g : nat) (h : Heap) :
  heap_ok h -> heap_ok (set_envs (defineBuiltins host g (envs h)) h).
Proof.
  unfold defineBuiltins. generalize (stdlib_names host) as names.
  intros names. revert h. induction names as [|name names IH]; intros h Hok.
  - destruct h. exact Hok.
  - cbn [fold_left].
    specialize (IH (set_envs (Environment_define (envs h) g name (VBuiltin name) true) h)
                  (define_ok h g name (VBuiltin name) true Hok I)).
    exact IH.
Qed.

Lemma defineBuiltins_length (host : Host) (g : nat) (es : list Environment) :
  length (defineBuiltins host g es) = length es.
Proof.
  unfold defineBuiltins. generalize (stdlib_names host) as names.
  intros names. revert es. induction names as [|name names IH]; intros es; [reflexivity|].
  cbn [fold_left]. rewrite IH. apply define_length.
Qed.

Lemma interpretWith_keeps (host : Host) (limit : Z) (fuel : nat) (program : Program)
    (options : InterpreterOptions) (h h' : Heap) (l l' : LoaderState)
    (result : InterpretResult) :
  host_ok host -> heap_ok h ->
  callback_ok (length (envs h)) (opt_onImport options) ->
  (forall g, opt_globalEnv options = Some g -> (g < length (envs h))%nat) ->
  interpretWith host limit fuel program options h l = Some (result, (h', l')) ->
  heap_ok h' /\ (length (envs h) <= length (envs h'))%nat
  /\ (res_env result < length (envs h'))%nat.
Proof.
  intros Hhost Hok Himport Hglobal. unfold interpretWith.
  set (file := default "<stdin>" (opt_file options)).
  assert (Hstart : exists g h0,
    match opt_globalEnv options with
    | Some g => (g, h)
    | None => let '(g, es) := new_Environment None (envs h) in
              (g, set_envs (defineBuiltins host g es) h)
    end = (g, h0)
    /\ heap_ok h0 /\ (g < length (envs h0))%nat /\ (length (envs h) <= length (envs h0))%nat).
  { destruct (opt_globalEnv options) as [g|].
    - exists g, h. split; [reflexivity|]. split; [exact Hok|]. split; [now apply Hglobal|lia].
    - cbn [new_Environment].
      exists (length (envs h)),
        (set_envs (defineBuiltins host (length (envs h))
                     (envs h ++ [mkEnvironment [] None])) h).
      split; [reflexivity|].
      assert (Hok1 : heap_ok (set_envs (envs h ++ [mkEnvironment [] None]) h)).
      { destruct Hok as (Hwf & Henv & Harr). unfold heap_ok. cbn [envs arrays set_envs].
        rewrite length_app. cbn [length]. split; [|split].
        - intros i fr p Hi Hp.
          destruct (decide (i < length (envs h))%nat) as [Hlt|Hge].
          + rewrite lookup_app_l in Hi by exact Hlt. eapply Hwf; eauto.
          + rewrite lookup_app_r in Hi by lia.
            destruct (i - length (envs h))%nat as [|k]; [|destruct k; discriminate Hi].
            simpl in Hi. inversion Hi; subst fr. discriminate Hp.
        - apply Forall_app. split.
          + eapply Forall_impl; [exact Henv|]. intros fr. apply environment_ok_mono. lia.
          + constructor; [constructor|constructor].
        - eapply arrays_ok_mono; [|exact Harr]. lia. }
      pose proof (defineBuiltins_ok host (length (envs h)) _ Hok1) as Hok2.
      cbn [envs set_envs] in Hok2 |- *.
      split; [exact Hok2|]. rewrite defineBuiltins_length, length_app. cbn [length]. lia. }
  destruct Hstart as (g & h0 & -> & Hok0 & Hg & Hle0).
  pose proof (keeps_executeBlock host file limit (opt_onImport options) (length (envs h0))
                Hhost (import_ok_later _ _ _ Hle0 Himport) fuel (prog_body program) g
                (length (envs h0)) ltac:(lia) Hg (mkIState h0 l 0 []) Hok0 ltac:(cbn; lia))
    as (Hok' & Hle' & _).
  cbn [heap] in Hle'.
  destruct (executeBlock host file limit (opt_onImport options) fuel (prog_body program) g
              (mkIState h0 l 0 [])) as [r st].
  cbn [fst snd] in *.
  destruct r as [c|[]|]; intros H; inversion H; subst; cbn [res_env];
    (split; [exact Hok'|split; lia]).
Qed.

(** *** The module loader *)

Lemma own_entry_ok (h : Heap) (e : nat) (name : string) (en : Entry) :
  heap_ok h -> Environment_getOwnEntry (envs h) e name = Some en ->
  value_ok (length (envs h)) (value en).
Proof.
  intros (_ & Henv & _). unfold Environment_getOwnEntry.
  destruct (envs h !! e) as [fr|] eqn:E; [|discriminate].
  apply vars_get_ok. exact (Forall_lookup_1 _ _ _ _ Henv E).
Qed.

Lemma mergeExport_ok (globalEnv moduleEnv : nat) (h : Heap) (name : string) :
  heap_ok h -> heap_ok (set_envs (mergeExport globalEnv moduleEnv (envs h) name) h).
Proof.
  intros Hok.
  destruct (mergeExport_cases globalEnv moduleEnv (envs h) name)
    as [->|(en & Hown & _ & _ & ->)].
  - destruct h. exact Hok.
  - apply define_ok; [exact Hok|]. eapply own_entry_ok; eauto.
Qed.

Lemma mergeExport_length (globalEnv moduleEnv : nat) (es : list Environment) (name : string) :
  length (mergeExport globalEnv moduleEnv es name) = length es.
Proof.
  destruct (mergeExport_cases globalEnv moduleEnv es name) as [->|(en & _ & _ & _ & ->)];
    [reflexivity|apply define_length].
Qed.

Lemma mergeExports_ok (globalEnv moduleEnv : nat) (h : Heap) :
  heap_ok h ->
  heap_ok (ModuleLoader_mergeExports globalEnv moduleEnv h)
  /\ length (envs (ModuleLoader_mergeExports globalEnv moduleEnv h)) = length (envs h).
Proof.
  unfold ModuleLoader_mergeExports.
  generalize (Environment_getOwnNames (envs h) moduleEnv) as names.
  intros names. revert h. induction names as [|name names IH]; intros h Hok.
  - destruct h. split; [exact Hok|reflexivity].
  - cbn [fold_left].
    destruct (IH (set_envs (mergeExport globalEnv moduleEnv (envs h) name) h)
                (mergeExport_ok globalEnv moduleEnv h name Hok)) as [IH1 IH2].
    cbn [envs set_envs] in IH1, IH2 |- *. split; [exact IH1|].
    rewrite IH2. apply mergeExport_length.
Qed.

Lemma importModule_ok (host : Host) (globalEnv : nat) :
  host_ok host ->
  forall fuel, import_ok (S globalEnv) (ModuleLoader_importModule host globalEnv fuel).
Proof.
  intros Hhost. induction fuel as [|fuel IH]; intros path file h l Hok Hn.
  - cbn. split; [exact Hok|lia].
  - cbn [ModuleLoader_importModule].
    set (resolved := resolve_import host path file).
    destruct (bool_decide (resolved ∈ loading l)); [cbn; split; [exact Hok|lia]|].
    destruct (cache l !! resolved) as [moduleEnv|].
    { cbn [fst snd]. destruct (mergeExports_ok globalEnv moduleEnv h Hok) as [H1 H2].
      split; [exact H1|lia]. }
    destruct (negb (fs_existsSync host resolved)); [cbn; split; [exact Hok|lia]|].
    assert (Htry : forall l0,
      heap_ok (fst (snd (importModuleTry host globalEnv fuel
                           (ModuleLoader_importModule host globalEnv fuel) resolved h l0)))
      /\ (length (envs h)
          <= length (envs (fst (snd (importModuleTry host globalEnv fuel
                                       (ModuleLoader_importModule host globalEnv fuel)
                                       resolved h l0)))))%nat).
    { intros l0. unfold importModuleTry.
      destruct (fs_readFileSync host resolved) as [source| |];
        try (cbn; split; [exact Hok|lia]).
      destruct (parse_source host source resolved) as [program| |];
        try (cbn; split; [exact Hok|lia]).
      cbn [new_Environment].
      destruct (interpret host fuel program _ _ _) as [[result [h1 l1]]|] eqn:Erun;
        [|cbn; split; [exact Hok|lia]].
      unfold interpret in Erun.
      apply interpretWith_keeps in Erun as (Hok1 & Hle1 & _); try assumption.
      - cbn [envs set_envs] in Hle1. rewrite length_app in Hle1. cbn [length] in Hle1.
        destruct (error_truthy (res_error result)); cbn [fst snd].
        + split; [exact Hok1|lia].
        + destruct (mergeExports_ok globalEnv (res_env result) h1 Hok1) as [H1 H2].
          split; [exact H1|lia].
      - apply child_ok; [exact Hok|lia].
      - cbn [opt_onImport envs set_envs callback_ok]. rewrite length_app. cbn [length].
        intros path' file' h' l' Hok' Hn'. apply IH; [exact Hok'|lia].
      - cbn [opt_globalEnv envs set_envs]. intros g Hg. inversion Hg; subst g.
        rewrite length_app. cbn [length]. lia. }
    specialize (Htry (set_loading ({[resolved]} ∪ loading l) l)).
    destruct (importModuleTry host globalEnv fuel (ModuleLoader_importModule host globalEnv fuel)
                resolved h (set_loading ({[resolved]} ∪ loading l) l)) as [r [h1 l1]].
    cbn [fst snd] in Htry. destruct r; cbn [fst snd]; exact Htry.
Qed.

Lemma runFile_keeps (host : Host) (globalEnv fuel : nat) (filePath : string) (h h' : Heap)
    (l l' : LoaderState) (result : list string * option string) :
  host_ok host -> heap_ok h -> (globalEnv < length (envs h))%nat ->
  ModuleLoader_runFile host globalEnv fuel filePath h l = Some (result, (h', l')) ->
  heap_ok h' /\ (length (envs h) <= length (envs h'))%nat.
Proof.
  intros Hhost Hok Hg. unfold ModuleLoader_runFile.
  destruct (fs_readFileSync host (path_resolve1 host filePath)) as [source|e|].
  - destruct (parse_source host source (path_resolve1 host filePath)) as [program|e|].
    + destruct (interpret host fuel program _ h _) as [[res [h1 l1]]|] eqn:Erun;
        [|discriminate].
      intros H. inversion H; subst. unfold interpret in Erun.
      apply interpretWith_keeps in Erun as (Hok1 & Hle1 & _); try assumption.
      * split; assumption.
      * cbn [opt_onImport callback_ok]. intros path file h0 l0 Hok0 Hn0.
        apply (importModule_ok host globalEnv Hhost fuel); [exact Hok0|lia].
      * cbn [opt_globalEnv]. intros g Hg'. inversion Hg'; subst. exact Hg.
    + intros H. inversion H; subst. split; [exact Hok|lia].
    + discriminate.
  - intros H. inversion H; subst. split; [exact Hok|lia].
  - discriminate.
Qed.

Lemma new_ModuleLoader_ok (host : Host) :
  heap_ok (snd (new_ModuleLoader host))
  /\ (fst (new_ModuleLoader host) < length (envs (snd (new_ModuleLoader host))))%nat.
Proof.
  unfold new_ModuleLoader. cbn [new_Environment fst snd envs length app].
  assert (Hok0 : heap_ok (mkHeap [mkEnvironment [] None] [] O [])).
  { split; [|split].
    - intros i fr p Hi Hp. destruct i as [|i]; [|discriminate Hi].
      inversion Hi; subst. discriminate Hp.
    - repeat constructor.
    - constructor. }
  split.
  - exact (defineBuiltins_ok host O _ Hok0).
  - rewrite defineBuiltins_length. cbn. lia.
Qed.

(** *** The built-ins of the standard library *)

Lemma arg_ok (n i : nat) (args : list LuxValue) :
  Forall (value_ok n) args -> value_ok n (arg i args).
Proof.
  intros Hargs. unfold arg. destruct (args !! i) as [v|] eqn:E; [|exact I].
  exact (Forall_lookup_1 _ _ _ _ Hargs E).
Qed.

Lemma returns_ok (n : nat) (v : LuxValue) (arrs : list ArrayObj) (out : list string) :
  Forall (array_ok n) arrs -> value_ok n v ->
  Forall (array_ok n) (fst (snd (returns v arrs out)))
  /\ match fst (returns v arrs out) with Ok v => value_ok n v | _ => True end.
Proof. intros. split; assumption. Qed.

Lemma fails_ok (n : nat) (message : string) (arrs : list ArrayObj) (out : list string) :
  Forall (array_ok n) arrs ->
  Forall (array_ok n) (fst (snd (fails message arrs out)))
  /\ match fst (fails message arrs out) with Ok v => value_ok n v | _ => True end.
Proof. intros. split; [assumption|exact I]. Qed.

Ltac builtin_cases :=
  repeat first
    [ assumption
    | progress cbn [fst snd returns fails]
    | split; [assumption|first [exact I|assumption]]
    | match goal with
      | |- context [match ?x with _ => _ end] =>
          lazymatch x with
          | context [match _ with _ => _ end] => fail
          | _ => destruct x eqn:?
          end
      end ].

Lemma math_unary_ok (name : string) (f : float -> float) : builtin_ok (math_unary name f).
Proof. intros n args arrs out Hargs Harrs. unfold math_unary. builtin_cases. Qed.

Lemma positive_argument_ok (message : string) (k : float -> LuxValue) :
  (forall n x, value_ok n (k x)) -> builtin_ok (positive_argument message k).
Proof.
  intros Hk n args arrs out Hargs Harrs. unfold positive_argument.
  destruct (arg 0 args); try (apply fails_ok; assumption).
  destruct (x <=? 0)%float; [apply fails_ok; assumption|].
  apply returns_ok; [assumption|apply Hk].
Qed.

Lemma array_push_ok : builtin_ok array_push.
Proof.
  intros n args arrs out Hargs Harrs. unfold array_push.
  destruct (arg 0 args); try (apply fails_ok; assumption).
  destruct (arrs !! address) as [obj|] eqn:E; [|apply fails_ok; assumption].
  cbn [fst snd]. split; [|exact I].
  pose proof (Forall_lookup_1 _ _ _ _ Harrs E) as [Hel Hnan].
  apply Forall_insert; [exact Harrs|]. split; [|exact Hnan].
  unfold elems in *. cbn [slots]. rewrite fmap_app.
  apply Forall_app. split; [exact Hel|]. constructor; [now apply arg_ok|constructor].
Qed.

Lemma removelast_ok {A} (P : A -> Prop) (l : list A) : Forall P l -> Forall P (removelast l).
Proof.
  induction 1 as [|x l Hx Hl IH]; [constructor|]. simpl.
  destruct l; [constructor|]. constructor; assumption.
Qed.

Lemma removelast_fmap {A B} (f : A -> B) (l : list A) :
  removelast (f <$> l) = f <$> removelast l.
Proof.
  induction l as [|x l IH]; [reflexivity|]. destruct l as [|y l]; [reflexivity|].
  cbn [fmap list_fmap removelast] in *. now rewrite IH.
Qed.

Lemma last_fmap {A B} (f : A -> B) (l : list A) : last (f <$> l) = f <$> last l.
Proof.
  induction l as [|x l IH]; [reflexivity|]. destruct l as [|y l]; [reflexivity|].
  exact IH.
Qed.

Lemma last_ok {A} (P : A -> Prop) (l : list A) (x : A) :
  Forall P l -> last l = Some x -> P x.
Proof.
  induction 1 as [|y l Hy Hl IH]; [discriminate|].
  destruct l as [|z l]; [intros H; inversion H; subst; exact Hy|exact IH].
Qed.

Lemma array_pop_ok : builtin_ok array_pop.
Proof.
  intros n args arrs out Hargs Harrs. unfold array_pop.
  destruct (arg 0 args); try (apply fails_ok; assumption).
  destruct (arrs !! address) as [obj|] eqn:E; [|apply fails_ok; assumption].
  pose proof (Forall_lookup_1 _ _ _ _ Harrs E) as [Hel Hnan].
  destruct (last (slots obj)) as [slot|] eqn:Elast; [|apply fails_ok; assumption].
  cbn [fst snd]. split.
  - apply Forall_insert; [exact Harrs|]. split; [|exact Hnan].
    unfold elems in *. cbn [slots]. rewrite <- removelast_fmap. now apply removelast_ok.
  - assert (Hlast : last (elems obj) = Some (default VUndefined slot))
      by (unfold elems; now rewrite last_fmap, Elast).
    pose proof (last_ok _ _ _ Hel Hlast) as Hv.
    destruct (default VUndefined slot); try exact I; exact Hv.
Qed.

Lemma array_reverse_ok : builtin_ok array_reverse.
Proof.
  intros n args arrs out Hargs Harrs. unfold array_reverse.
  destruct (arg 0 args); try (apply fails_ok; assumption).
  destruct (arrs !! address) as [obj|] eqn:E; [|apply fails_ok; assumption].
  pose proof (Forall_lookup_1 _ _ _ _ Harrs E) as [Hel Hnan].
  cbn [fst snd]. split; [|exact I].
  apply Forall_app. split; [exact Harrs|]. constructor; [|constructor].
  split; [rewrite elems_mkArrayObj; now apply Forall_reverse|]. intros v Hv. discriminate Hv.
Qed.

Lemma quantum_entangle_ok : builtin_ok quantum_entangle.
Proof.
  intros n args arrs out Hargs Harrs. unfold quantum_entangle.
  destruct (length args <? 2)%nat; [apply fails_ok; assumption|].
  cbn [fst snd]. split; [|exact I].
  apply Forall_app. split; [exact Harrs|]. constructor; [|constructor].
  split; [|intros v Hv; discriminate Hv]. rewrite elems_mkArrayObj.
  repeat constructor; now apply arg_ok.
Qed.

Lemma string_split_ok : builtin_ok string_split.
Proof.
  intros n args arrs out Hargs Harrs. unfold string_split.
  destruct (arg 0 args); try (apply fails_ok; assumption).
  cbn [fst snd]. split; [|exact I].
  apply Forall_app. split; [exact Harrs|]. constructor; [|constructor].
  split; [|intros v Hv; discriminate Hv]. rewrite elems_mkArrayObj.
  apply Forall_forall. intros v Hv. apply list_elem_of_fmap in Hv as (piece & -> & _). exact I.
Qed.

Lemma embedded_ok (host : Host) :
  host_ok host -> Forall (fun entry => builtin_ok (snd entry)) (embedded_builtins host).
Proof.
  intros Hhost. unfold embedded_builtins.
  repeat (apply Forall_cons; split; [cbn [snd]|]); try apply Forall_nil;
    try apply math_unary_ok;
    try (apply positive_argument_ok; intros; exact I);
    try apply array_push_ok; try apply array_pop_ok; try apply array_reverse_ok;
    try apply quantum_entangle_ok; try apply string_split_ok; try exact I.
  all: intros n args arrs out Hargs Harrs.
  all: try (pose proof (Hhost "to_int" n args arrs out Hargs Harrs));
       try (pose proof (Hhost "to_float" n args arrs out Hargs Harrs)).
  all: unfold io_print, io_println, io_input, math_pow, math_min, math_max, string_len,
         string_concat, string_join, string_contains, string_replace, array_map, array_filter, array_indexOf,
         type_to_int, type_to_float, type_to_string, type_to_bool, type_type,
         quantum_superpose, quantum_photon_wavelength, quantum_photon_char.
  all: builtin_cases.
Qed.

Lemma lookup_builtin_ok (name : string) (table : list (string * Builtin)) (f : Builtin) :
  Forall (fun entry => builtin_ok (snd entry)) table ->
  lookup_builtin name table = Some f -> builtin_ok f.
Proof.
  induction 1 as [|[n g] table Hg Htable IH]; simpl; [discriminate|].
  destruct (String.eqb n name); [|exact IH]. intros H. inversion H; subst. exact Hg.
Qed.

Lemma test_host_ok (files : list (string * Program)) : host_ok (test_host files).
Proof.
  intros name n args arrs out Hargs Harrs. cbn [builtin_fn test_host]. unfold test_builtin.
  destruct (String.eqb name "println" || String.eqb name "print");
    [cbn; split; [assumption|exact I]|].
  destruct (String.eqb name "to_string"); [cbn; split; [assumption|exact I]|].
  destruct (String.eqb name "push").
  { destruct Hargs as [|v args Hv Hargs]; [cbn; split; [assumption|exact I]|].
    destruct v; try (cbn; split; [assumption|exact I]).
    destruct (arrs !! address) as [obj|] eqn:E; [|cbn; split; [assumption|exact I]].
    pose proof (Forall_lookup_1 _ _ _ _ Harrs E) as [Hel Hnan].
    cbn [fst snd]. split; [|exact I].
    apply Forall_insert; [exact Harrs|]. split; [|exact Hnan].
    unfold elems in *. cbn [slots]. rewrite fmap_app.
    apply Forall_app. split; [exact Hel|]. constructor; [|constructor].
    destruct Hargs; [exact I|assumption]. }
  destruct (String.eqb name "pop"); [|cbn; split; [assumption|exact I]].
  destruct Hargs as [|v args Hv Hargs]; [cbn; split; [assumption|exact I]|].
  destruct v; try (cbn; split; [assumption|exact I]).
  destruct (arrs !! address) as [obj|] eqn:E; [|cbn; split; [assumption|exact I]].
  pose proof (Forall_lookup_1 _ _ _ _ Harrs E) as [Hel Hnan].
  destruct (slots obj) as [|w ws] eqn:Eel; [cbn; split; [assumption|exact I]|].
  cbn [fst snd]. split.
  - apply Forall_insert; [exact Harrs|]. split; [|exact Hnan].
    unfold elems in *. cbn [slots]. rewrite <- removelast_fmap. rewrite <- Eel.
    now apply removelast_ok.
  - assert (Hlast : value_ok n (List.last (elems obj) VUndefined)).
    { clear Eel. induction Hel as [|x l Hx Hl IH]; [exact I|].
      destruct l; [exact Hx|exact IH]. }
    destruct (List.last (elems obj) VUndefined); try exact I; exact Hlast.
Qed.

(** X12. The heap keeps its shape.  With built-ins and an import callback
    that invent no closures, every run of [interpret] that returns leaves the
    environments a forest in which each parent is older than its children,
    and every function value stored in a variable or an array closes over an
    environment that exists; environments are only added.  In such a heap
    the walk along [parent] that [get], [set] and [has] make ends before it
    has seen every environment: more fuel never changes what a lookup
    finds. *)
Theorem interpret_keeps_heap_shape (host : Host) (fuel : nat) (program : Program)
    (options : InterpreterOptions) (h h' : Heap) (l l' : LoaderState)
    (result : InterpretResult) :
  host_ok host -> heap_ok h ->
  callback_ok (length (envs h)) (opt_onImport options) ->
  (forall g, opt_globalEnv options = Some g -> (g < length (envs h))%nat) ->
  interpret host fuel program options h l = Some (result, (h', l')) ->
  heap_ok h'
  /\ (length (envs h) <= length (envs h'))%nat
  /\ (res_env result < length (envs h'))%nat
  /\ forall this name more,
       (this < length (envs h'))%nat ->
       Environment_find (length (envs h') + more) (envs h') this name
       = Environment_lookup (envs h') this name.
Proof.
  intros Hhost Hok Himport Hglobal Hrun. unfold interpret in Hrun.
  destruct (interpretWith_keeps _ _ _ _ _ _ _ _ _ _ Hhost Hok Himport Hglobal Hrun)
    as (Hok' & Hle & Hres).
  split; [exact Hok'|]. split; [exact Hle|]. split; [exact Hres|].
  intros this name more Hthis. unfold Environment_lookup.
  apply find_fuel; [exact (proj1 Hok')|lia|lia].
Qed.

(** X13. The module loader keeps the shape of the heap.  The heap of a new
    loader has it; every import, whether it loads a module, merges a cached
    one or fails, and every [runFile] keeps it and removes no environment. *)
Theorem loader_keeps_heap_shape (host : Host) (globalEnv fuel : nat) :
  host_ok host ->
  heap_ok (snd (new_ModuleLoader host))
  /\ (fst (new_ModuleLoader host) < length (envs (snd (new_ModuleLoader host))))%nat
  /\ (forall importPath fromFile h l,
        heap_ok h -> (globalEnv < length (envs h))%nat ->
        let h' := fst (snd (ModuleLoader_importModule host globalEnv fuel importPath fromFile
                              h l)) in
        heap_ok h' /\ (length (envs h) <= length (envs h'))%nat)
  /\ (forall filePath h l result h' l',
        heap_ok h -> (globalEnv < length (envs h))%nat ->
        ModuleLoader_runFile host globalEnv fuel filePath h l = Some (result, (h', l')) ->
        heap_ok h' /\ (length (envs h) <= length (envs h'))%nat).
Proof.
  intros Hhost. destruct (new_ModuleLoader_ok host) as [Hnew Hglobal].
  split; [exact Hnew|]. split; [exact Hglobal|]. split.
  - intros importPath fromFile h l Hok Hg.
    apply (importModule_ok host globalEnv Hhost fuel); [exact Hok|lia].
  - intros filePath h l result h' l' Hok Hg Hrun. eapply runFile_keeps; eauto.
Qed.

(** X14. The standard library invents no closure.  Each embedded built-in,
    given arguments and arrays whose function values close over existing
    environments, returns such a value and leaves such arrays; so the
    registry of [createStdlib] is a host under which the heap keeps its
    shape, when the built-ins left to the host are. *)
Theorem stdlib_invents_no_closure (host : Host) :
  host_ok host -> host_ok (with_stdlib host).
Proof.
  intros Hhost name. cbn [with_stdlib builtin_fn]. unfold stdlib_fn.
  destruct (lookup_builtin name (embedded_builtins host)) as [f|] eqn:E.
  - eapply lookup_builtin_ok; [apply embedded_ok; exact Hhost|exact E].
  - apply Hhost.
Qed.

(** ** The export rule on an import *)

Lemma interpretWith_env host limit fuel program file g onImport h l result h' l' :
  interpretWith host limit fuel program (mkInterpreterOptions file (Some g) onImport) h l
  = Some (result, (h', l')) ->
  res_env result = g.
Proof.
  unfold interpretWith. cbn [opt_globalEnv opt_file opt_onImport].
  destruct (executeBlock _ _ _ _ _ _ _ _) as [[c|[m|e|e]|] st]; intros H; inversion H;
    reflexivity.
Qed.

(** C9, as the code has it.  An import that returns has merged the exports
    of one module environment into the global environment and has touched
    nothing else: the environment is the cached one when the module was
    loaded before, and otherwise the environment in which the module has just
    been executed without error, which is then cached.  The merge follows the
    export rule.  A name the global environment already had (at the end of
    the module's execution) keeps its binding.  A name it did not have is
    bound there exactly when the module's own bindings hold it with a user
    function, a built-in or a constant, and then with the module's own
    entry; a non-constant binding of another value is not propagated.  The
    other environments, the arrays and the output are those the module left.
    An import that throws has merged nothing. *)
Theorem import_export_rule (host : Host) (globalEnv k : nat) (importPath fromFile : string)
    (h : Heap) (l : LoaderState) :
  host_ok host -> heap_ok h -> (globalEnv < length (envs h))%nat ->
  let resolved := resolve_import host importPath fromFile in
  let executed moduleEnv result hm lm :=
    exists source program,
      cache l !! resolved = None
      /\ fs_readFileSync host resolved = Ok source
      /\ parse_source host source resolved = Ok program
      /\ moduleEnv = length (envs h)
      /\ interpret host k program
           (mkInterpreterOptions (Some resolved) (Some moduleEnv)
              (Some (ModuleLoader_importModule host globalEnv k)))
           (set_envs (envs h ++ [mkEnvironment [] (Some globalEnv)]) h)
           (log_read resolved (set_loading ({[resolved]} ∪ loading l) l))
         = Some (result, (hm, lm)) in
  (forall h' l',
     ModuleLoader_importModule host globalEnv (S k) importPath fromFile h l
     = (Ok tt, (h', l')) ->
     exists moduleEnv hm,
       (cache l !! resolved = Some moduleEnv /\ hm = h /\ l' = l
        \/ exists result lm,
             executed moduleEnv result hm lm
             /\ error_truthy (res_error result) = None
             /\ res_env result = moduleEnv)
       /\ cache l' !! resolved = Some moduleEnv
       /\ h' = ModuleLoader_mergeExports globalEnv moduleEnv hm
       /\ (forall name,
             Environment_getOwnEntry (envs h') globalEnv name =
             if Environment_has (envs hm) globalEnv name
             then Environment_getOwnEntry (envs hm) globalEnv name
             else
               match Environment_getOwnEntry (envs hm) moduleEnv name with
               | Some en => if exported en then Some en else None
               | None => None
               end)
       /\ (forall e name, e <> globalEnv ->
             Environment_getOwnEntry (envs h') e name
             = Environment_getOwnEntry (envs hm) e name)
       /\ arrays h' = arrays hm
       /\ output h' = output hm)
  /\ (forall e h' l',
        ModuleLoader_importModule host globalEnv (S k) importPath fromFile h l
        = (Throw e, (h', l')) ->
        h' = h
        \/ exists moduleEnv result lm error,
             executed moduleEnv result h' lm
             /\ error_truthy (res_error result) = Some error
             /\ e = ThrownError ("Error in module " +:+ resolved +:+ ": " +:+ error)).
Proof.
  intros Hhost Hok Hglobal resolved executed.
  assert (Hrule : forall moduleEnv hm,
    (globalEnv < length (envs hm))%nat ->
    (forall name,
       Environment_getOwnEntry (envs (ModuleLoader_mergeExports globalEnv moduleEnv hm))
         globalEnv name =
       if Environment_has (envs hm) globalEnv name
       then Environment_getOwnEntry (envs hm) globalEnv name
       else
         match Environment_getOwnEntry (envs hm) moduleEnv name with
         | Some en => if exported en then Some en else None
         | None => None
         end)
    /\ (forall e name, e <> globalEnv ->
          Environment_getOwnEntry (envs (ModuleLoader_mergeExports globalEnv moduleEnv hm))
            e name
          = Environment_getOwnEntry (envs hm) e name)
    /\ arrays (ModuleLoader_mergeExports globalEnv moduleEnv hm) = arrays hm
    /\ output (ModuleLoader_mergeExports globalEnv moduleEnv hm) = output hm).
  { intros moduleEnv hm Hlt. apply lookup_lt_is_Some_2 in Hlt as [gframe Hg].
    exact (mergeExports_rule globalEnv moduleEnv hm gframe Hg). }
  cbn [ModuleLoader_importModule]. fold resolved.
  destruct (bool_decide (resolved ∈ loading l)).
  { split; [discriminate|]. intros e h' l' H. inversion H. now left. }
  destruct (cache l !! resolved) as [cached|] eqn:Ecache.
  { split; [|discriminate]. intros h' l' H. inversion H; subst h' l'.
    exists cached, h. split; [left; auto|]. split; [exact Ecache|].
    split; [reflexivity|]. now apply Hrule. }
  destruct (negb (fs_existsSync host resolved)).
  { split; [discriminate|]. intros e h' l' H. inversion H. now left. }
  unfold importModuleTry.
  destruct (fs_readFileSync host resolved) as [source|e0|] eqn:Eread;
    [|split; [discriminate|intros e h' l' H; inversion H; now left]
     |split; discriminate].
  destruct (parse_source host source resolved) as [program|e0|] eqn:Eparse;
    [|split; [discriminate|intros e h' l' H; inversion H; now left]
     |split; discriminate].
  cbn [new_Environment].
  destruct (interpret host k program _ _ _) as [[result [hm lm]]|] eqn:Erun;
    [|split; discriminate].
  assert (Hexecuted : executed (length (envs h)) result hm lm)
    by (exists source, program; auto).
  destruct (error_truthy (res_error result)) as [error|] eqn:Eerror.
  { split; [discriminate|]. intros e h' l' H. inversion H; subst. right.
    exists (length (envs h)), result, lm, error. auto. }
  split; [|discriminate]. intros h' l' H. inversion H; subst h' l'.
  pose proof (interpretWith_env _ _ _ _ _ _ _ _ _ _ _ _ Erun) as Henv.
  assert (Hlt : (globalEnv < length (envs hm))%nat).
  { unfold interpret in Erun.
    apply interpretWith_keeps in Erun as (_ & Hle & _); try assumption.
    - cbn [envs set_envs] in Hle. rewrite length_app in Hle. lia.
    - apply child_ok; [exact Hok|lia].
    - cbn [opt_onImport envs set_envs callback_ok]. rewrite length_app. cbn [length].
      intros path' file' h0 l0 Hok0 Hn0.
      apply (importModule_ok host globalEnv Hhost k); [exact Hok0|lia].
    - cbn [opt_globalEnv envs set_envs]. intros g Hg. inversion Hg; subst g.
      rewrite length_app. cbn [length]. lia. }
  exists (length (envs h)), hm. rewrite Henv.
  split; [right; exists result, lm; auto|].
  split; [cbn [cache set_loading set_cache]; apply lookup_insert_eq|].
  split; [reflexivity|]. now apply Hrule.
Qed.

(** An instance: [import "shapes"] from [main.lux] in a new loader.  The
    function [double] and the constant [PI] are propagated, the mutable
    [counter] is not, and [println] keeps its built-in. *)
Lemma import_export_rule_witness :
  let host := test_host export_files in
  let g := fst (new_ModuleLoader host) in
  let h := snd (new_ModuleLoader host) in
  let after := snd (ModuleLoader_importModule host g 6 "shapes" "main.lux" h empty_loader) in
  (exists moduleEnv hm,
     cache (snd after) !! "shapes.lux" = Some moduleEnv
     /\ fst after = ModuleLoader_mergeExports g moduleEnv hm
     /\ forall name,
          Environment_getOwnEntry (envs (fst after)) g name =
          if Environment_has (envs hm) g name
          then Environment_getOwnEntry (envs hm) g name
          else
            match Environment_getOwnEntry (envs hm) moduleEnv name with
            | Some en => if exported en then Some en else None
            | None => None
            end)
  /\ map fst <$> (vars <$> envs (fst after) !! g)
     = Some ["println"; "print"; "to_string"; "push"; "pop"; "double"; "PI"]
  /\ Environment_get (envs (fst after)) g "println" = Ok (VBuiltin "println").
Proof.
  cbv zeta. split; [|split; vm_compute; reflexivity].
  destruct (proj1 (import_export_rule (test_host export_files)
                     (fst (new_ModuleLoader (test_host export_files))) 5
                     "shapes" "main.lux"
                     (snd (new_ModuleLoader (test_host export_files))) empty_loader
                     (test_host_ok export_files)
                     (proj1 (new_ModuleLoader_ok (test_host export_files)))
                     (proj2 (new_ModuleLoader_ok (test_host export_files))))
              (fst (snd (ModuleLoader_importModule (test_host export_files)
                           (fst (new_ModuleLoader (test_host export_files))) 6
                           "shapes" "main.lux"
                           (snd (new_ModuleLoader (test_host export_files))) empty_loader)))
              (snd (snd (ModuleLoader_importModule (test_host export_files)
                           (fst (new_ModuleLoader (test_host export_files))) 6
                           "shapes" "main.lux"
                           (snd (new_ModuleLoader (test_host export_files))) empty_loader))))
    as (moduleEnv & hm & _ & Hcache & Hmerge & Hrule & _).
  - vm_compute. reflexivity.
  - exists moduleEnv, hm. split; [exact Hcache|]. split; [exact Hmerge|exact Hrule].
Defined.

(** ** The built-ins *)

(** X15. [push] followed by [pop] is a round trip: [push(arr, v)] returns the
    array itself with [v] appended, and [pop(arr)] right after it returns [v]
    (nil when nothing or [undefined] was pushed) and leaves every array as it
    was before the [push]. *)
Theorem push_pop_round_trip (arrs : list ArrayObj) (out : list string) (a : nat)
    (obj : ArrayObj) (v : LuxValue) (rest : list LuxValue) :
  arrs !! a = Some obj ->
  exists arrs1,
    array_push (VArray a :: v :: rest) arrs out = (Ok (VArray a), (arrs1, out))
    /\ option_map elems (arrs1 !! a) = Some (elems obj ++ [v])
    /\ array_pop [VArray a] arrs1 out
       = (Ok (match v with VUndefined => VNil | _ => v end), (arrs, out))
    /\ (elems obj = [] -> array_pop [VArray a] arrs out = fails "pop: array is empty" arrs out).
Proof.
  intros Ha. pose proof (lookup_lt_Some _ _ _ Ha) as Hlt.
  exists (<[a := Build_ArrayObj (slots obj ++ [Some v]) (NaN_property obj)]> arrs).
  unfold array_push, array_pop, arg. simpl. rewrite Ha.
  rewrite list_lookup_insert_eq by exact Hlt. simpl.
  rewrite last_snoc, removelast_last, list_insert_insert_eq.
  repeat split.
  - unfold elems. simpl. now rewrite fmap_app.
  - f_equal; [destruct v; reflexivity|].
    f_equal. destruct obj as [es np]. simpl. now rewrite list_insert_id.
  - intros Hempty. apply (f_equal length) in Hempty. rewrite elems_length in Hempty.
    destruct (slots obj); [reflexivity|discriminate Hempty].
Qed.

(** X16. [reverse] copies: it returns a new array that holds the elements in
    reverse order and leaves its argument, and every other array, as it was;
    reversing the result again gives a third array with the elements in the
    original order. *)
Theorem reverse_copies (arrs : list ArrayObj) (out : list string) (a : nat)
    (obj : ArrayObj) (rest : list LuxValue) :
  arrs !! a = Some obj ->
  exists b c arrs1 arrs2,
    array_reverse (VArray a :: rest) arrs out = (Ok (VArray b), (arrs1, out))
    /\ array_reverse [VArray b] arrs1 out = (Ok (VArray c), (arrs2, out))
    /\ b <> a /\ c <> a /\ c <> b
    /\ arrs `prefix_of` arrs1 /\ arrs1 `prefix_of` arrs2
    /\ option_map elems (arrs2 !! b) = Some (reverse (elems obj))
    /\ option_map elems (arrs2 !! c) = Some (elems obj).
Proof.
  intros Ha. pose proof (lookup_lt_Some _ _ _ Ha) as Hlt.
  set (first := mkArrayObj (reverse (elems obj)) None).
  set (second := mkArrayObj (reverse (reverse (elems obj))) None).
  exists (length arrs), (S (length arrs)), (arrs ++ [first]), ((arrs ++ [first]) ++ [second]).
  unfold array_reverse, arg. simpl. rewrite Ha.
  assert (Hb : (arrs ++ [first]) !! length arrs = Some first)
    by (rewrite lookup_app_r by lia; now rewrite Nat.sub_diag).
  rewrite Hb. simpl. rewrite length_app. simpl. rewrite Nat.add_1_r.
  assert (Hfirst : elems first = reverse (elems obj)) by apply elems_mkArrayObj.
  rewrite Hfirst. fold second.
  repeat split; try lia.
  - now apply prefix_app_r.
  - now apply prefix_app_r.
  - rewrite lookup_app_l by (rewrite length_app; simpl; lia). rewrite Hb. simpl.
    now rewrite Hfirst.
  - rewrite lookup_app_r by (rewrite length_app; simpl; lia).
    rewrite length_app. simpl. replace (S (length arrs) - (length arrs + 1))%nat with O by lia.
    simpl. unfold second. now rewrite elems_mkArrayObj, reverse_involutive.
Qed.

Lemma indexOf_from_spec (x : LuxValue) (vs : list LuxValue) :
  forall start,
  match indexOf_from start x vs with
  | Some i =>
      (start <= i)%nat
      /\ (exists v, vs !! (i - start)%nat = Some v /\ strict_equal v x = true)
      /\ (forall j v, (j < i - start)%nat -> vs !! j = Some v -> strict_equal v x = false)
  | None => forall v, v ∈ vs -> strict_equal v x = false
  end.
Proof.
  induction vs as [|w vs IH]; intros start; simpl.
  - intros v Hv. inversion Hv.
  - destruct (strict_equal w x) eqn:E.
    + split; [lia|]. rewrite Nat.sub_diag. split; [exists w; split; [reflexivity|exact E]|].
      intros j v Hj. lia.
    + specialize (IH (S start)). destruct (indexOf_from (S start) x vs) as [i|].
      * destruct IH as (Hle & (v & Hv & Heq) & Hbefore).
        split; [lia|]. split.
        -- exists v. split; [|exact Heq].
           replace (i - start)%nat with (S (i - S start)) by lia. exact Hv.
        -- intros j u Hj Hu. destruct j as [|j]; simpl in Hu.
           ++ inversion Hu; subst. exact E.
           ++ apply (Hbefore j u); [lia|exact Hu].
      * intros v Hv. apply elem_of_cons in Hv as [->|Hv]; [exact E|now apply IH].
Qed.

Lemma SFcompare_refl (f : spec_float) : f <> S754_nan -> SFcompare f f = Some Eq.
Proof.
  destruct f as [s|s| |s m e]; intros Hnan; try reflexivity.
  - destruct s; reflexivity.
  - contradiction.
  - simpl. rewrite Z.compare_refl.
    change (PosDef.Pos.compare_cont Eq m m) with (Pos.compare m m).
    rewrite Pos.compare_refl. destruct s; reflexivity.
Qed.

Lemma is_nan_Prim2SF (x : float) : is_nan x = true <-> Prim2SF x = S754_nan.
Proof.
  unfold is_nan. rewrite FloatAxioms.eqb_spec. unfold SFeqb. split.
  - intros H. destruct (Prim2SF x) as [s|s| |s m e] eqn:E; try reflexivity;
      rewrite SFcompare_refl in H by discriminate; discriminate H.
  - intros ->. reflexivity.
Qed.

Lemma strict_equal_nan (v : LuxValue) (x : float) :
  is_nan x = true -> strict_equal v (VNumber x) = false.
Proof.
  intros Hnan. apply is_nan_Prim2SF in Hnan. destruct v; try reflexivity. simpl.
  rewrite FloatAxioms.eqb_spec, Hnan. unfold SFeqb. destruct (Prim2SF x0); reflexivity.
Qed.

(** X17. [indexOf(arr, x)] is the index of the first element that is
    strictly equal ([===]) to [x], and -1 when there is none.  NaN is never
    found, whatever the array holds. *)
Theorem indexOf_first_match (arrs : list ArrayObj) (out : list string) (a : nat)
    (obj : ArrayObj) (x : LuxValue) (rest : list LuxValue) :
  arrs !! a = Some obj ->
  ((exists i v,
      array_indexOf (VArray a :: x :: rest) arrs out
      = returns (VNumber (number_of_nat i)) arrs out
      /\ elems obj !! i = Some v /\ strict_equal v x = true
      /\ forall j w, (j < i)%nat -> elems obj !! j = Some w -> strict_equal w x = false)
   \/ (array_indexOf (VArray a :: x :: rest) arrs out = returns (VNumber (-1)) arrs out
       /\ forall v, v ∈ elems obj -> strict_equal v x = false))
  /\ (forall y, x = VNumber y -> is_nan y = true ->
        array_indexOf (VArray a :: x :: rest) arrs out = returns (VNumber (-1)) arrs out).
Proof.
  intros Ha. unfold array_indexOf, arg. simpl. rewrite Ha.
  pose proof (indexOf_from_spec x (elems obj) 0) as H.
  destruct (indexOf_from 0 x (elems obj)) as [i|].
  - destruct H as (_ & (v & Hv & Heq) & Hbefore). rewrite Nat.sub_0_r in *.
    split.
    + left. exists i, v. repeat split; assumption.
    + intros y -> Hnan. rewrite strict_equal_nan in Heq by exact Hnan. discriminate Heq.
  - split; [right; split; [reflexivity|exact H]|reflexivity].
Qed.

(** X18. [to_bool] is the truthiness of the interpreter: [to_bool(v)] is true
    exactly when [if v], [while v], [v and ...], [v or ...] and [not v] take
    [v] for true; with no argument it is true. *)
Theorem to_bool_is_truthiness (v : LuxValue) (rest : list LuxValue) (arrs : list ArrayObj)
    (out : list string) :
  type_to_bool (v :: rest) arrs out = returns (VBoolean (isTruthy v)) arrs out
  /\ type_to_bool [] arrs out = returns (VBoolean true) arrs out.
Proof.
  split; [|reflexivity]. unfold type_to_bool, arg. simpl.
  destruct v as [|[]| |[]| | | |]; reflexivity.
Qed.

Lemma mapM_agree {A B} (f g : A -> option B) (l : list A) :
  Forall (fun x => f x = g x) l -> mapM f l = mapM g l.
Proof.
  induction 1 as [|x l Hx Hl IH]; [reflexivity|].
  simpl. rewrite Hx, IH. reflexivity.
Qed.

Lemma stringify_agree (host : Host) (arrs : list ArrayObj) (fuel : nat) :
  forall v, function_free fuel arrs v = true ->
            local_stringify_fuel host fuel arrs v = stringify_fuel host fuel arrs v.
Proof.
  induction fuel as [|fuel IH]; intros v Hfree; destruct v; try reflexivity;
    try discriminate Hfree.
  simpl in *. destruct (arrs !! address) as [obj|]; [|reflexivity].
  unfold map_slots.
  rewrite (mapM_agree
             (fun slot => match slot with
                          | Some v => local_stringify_fuel host fuel arrs v
                          | None => Some EmptyString
                          end)
             (fun slot => match slot with
                          | Some v => stringify_fuel host fuel arrs v
                          | None => Some EmptyString
                          end)).
  - reflexivity.
  - apply Forall_forall. intros [x|] Hx; [|reflexivity]. apply IH.
    rewrite forallb_forall in Hfree. apply Hfree. unfold elems.
    apply list_elem_of_In in Hx. exact (in_map (default VUndefined) _ _ Hx).
Qed.

(** X19. The built-ins print values with a [stringify] of their own, which
    agrees with the interpreter's [stringify] (the one string concatenation
    uses) on every value that holds no function, and differs on functions:
    [println(f)] and [to_string(f)] give [[object Object]] where
    ["" + f] gives [<function f>] or [<builtin f>]. *)
Theorem stringify_of_builtins (host : Host) (arrs : list ArrayObj) :
  (forall v, function_free (S (length arrs)) arrs v = true ->
             local_stringify host arrs v = stringify host arrs v)
  /\ (forall address declaration closure,
        local_stringify host arrs (VFunction address declaration closure)
        = Ok "[object Object]"
        /\ stringify host arrs (VFunction address declaration closure)
           = Ok ("<function " +:+ fd_name declaration +:+ ">"))
  /\ (forall name,
        local_stringify host arrs (VBuiltin name) = Ok "[object Object]"
        /\ stringify host arrs (VBuiltin name) = Ok ("<builtin " +:+ name +:+ ">")).
Proof.
  split; [|split].
  - intros v Hfree. unfold local_stringify, stringify. now rewrite stringify_agree.
  - intros. split; reflexivity.
  - intros. split; reflexivity.
Qed.

(** X22. Photonic encoding is a round trip on ASCII: for a string that
    starts with a character of code below 128, [photon_char] of the
    wavelength that [photon_wavelength] gives is that first character. *)
Theorem photon_round_trip (c : Ascii.ascii) (rest : string) (arrs : list ArrayObj)
    (out : list string) :
  (Ascii.nat_of_ascii c < 128)%nat ->
  exists w,
    quantum_photon_wavelength [VString (String c rest)] arrs out = returns (VNumber w) arrs out
    /\ quantum_photon_char [VNumber w] arrs out
       = returns (VString (String c EmptyString)) arrs out.
Proof.
  intros Hlt. exists (photon_wavelength_of c).
  unfold quantum_photon_wavelength, quantum_photon_char, arg, returns. simpl.
  assert (H : photon_char_of (photon_wavelength_of c)
              = Ascii.ascii_of_nat (Ascii.nat_of_ascii c mod 128)).
  { destruct c as [[] [] [] [] [] [] [] []]; vm_compute; reflexivity. }
  rewrite H, Nat.mod_small by exact Hlt. now rewrite Ascii.ascii_nat_embedding.
Qed.

Lemma SFcompare_antisym (f g : spec_float) :
  SFcompare g f = option_map CompOpp (SFcompare f g).
Proof.
  destruct f as [s|s| |s m e], g as [t|t| |t n d]; try reflexivity;
    try (destruct s, t; reflexivity); try (destruct s; reflexivity);
    try (destruct t; reflexivity).
  simpl. rewrite (Z.compare_antisym e d).
  change (PosDef.Pos.compare_cont Eq n m) with (Pos.compare n m).
  change (PosDef.Pos.compare_cont Eq m n) with (Pos.compare m n).
  rewrite (Pos.compare_antisym m n).
  destruct s, t, (e ?= d)%Z, (m ?= n)%positive; reflexivity.
Qed.

Lemma SFcompare_not_nan (f g : spec_float) :
  f <> S754_nan -> g <> S754_nan -> exists c, SFcompare f g = Some c.
Proof.
  destruct f, g; intros Hf Hg; try contradiction; simpl; eauto.
Qed.

Lemma float_leb_ltb (x y : float) :
  is_nan x = false -> is_nan y = false -> (x <=? y)%float = negb (y <? x)%float.
Proof.
  intros Hx Hy. rewrite FloatAxioms.leb_spec, FloatAxioms.ltb_spec.
  unfold SFleb, SFltb. rewrite (SFcompare_antisym (Prim2SF x) (Prim2SF y)).
  destruct (SFcompare_not_nan (Prim2SF x) (Prim2SF y)) as [c ->].
  - intros H. apply is_nan_Prim2SF in H. congruence.
  - intros H. apply is_nan_Prim2SF in H. congruence.
  - destruct c; reflexivity.
Qed.

Lemma float_nan_leb (x y : float) : is_nan y = true -> (x <=? y)%float = false.
Proof.
  intros H. apply is_nan_Prim2SF in H. rewrite FloatAxioms.leb_spec, H. unfold SFleb.
  destruct (Prim2SF x); reflexivity.
Qed.

Lemma float_nan_ltb (x y : float) : is_nan x = true -> (x <? y)%float = false.
Proof.
  intros H. apply is_nan_Prim2SF in H. rewrite FloatAxioms.ltb_spec, H. reflexivity.
Qed.

Lemma float_nan_leb_l (x y : float) : is_nan x = true -> (x <=? y)%float = false.
Proof.
  intros H. apply is_nan_Prim2SF in H. rewrite FloatAxioms.leb_spec, H. reflexivity.
Qed.

Lemma float_ltb_leb (x y : float) : (x <? y)%float = true -> (x <=? y)%float = true.
Proof.
  rewrite FloatAxioms.leb_spec, FloatAxioms.ltb_spec. unfold SFleb, SFltb.
  destruct (SFcompare (Prim2SF x) (Prim2SF y)) as [[]|]; congruence.
Qed.

(** X23. [em_band] splits the positive wavelengths at the thresholds 1e-11,
    1e-8, 3.8e-7, 7.8e-7, 1e-3 and 1 metres: the bands leave no gap, every
    wavelength from 1 metre on (infinity too) is [radio], and NaN, which
    passes the check for a positive argument, is [gamma].  Zero, negative
    numbers and values that are no number are refused. *)
Theorem em_band_thresholds (args : list LuxValue) (arrs : list ArrayObj) (out : list string) :
  quantum_em_band args arrs out
  = match arg 0 args with
    | VNumber wl =>
        if (wl <=? 0)%float
        then fails "em_band: expected positive wavelength in meters" arrs out
        else returns (VString (if is_nan wl then "gamma"
                               else if (wl <? 1e-11)%float then "gamma"
                               else if (wl <? 1e-8)%float then "xray"
                               else if (wl <? 3.8e-7)%float then "ultraviolet"
                               else if (wl <? 7.8e-7)%float then "visible"
                               else if (wl <? 1e-3)%float then "infrared"
                               else if (wl <? 1)%float then "microwave"
                               else "radio")) arrs out
    | _ => fails "em_band: expected positive wavelength in meters" arrs out
    end.
Proof.
  unfold quantum_em_band, positive_argument.
  destruct (arg 0 args) as [| | | | | | |]; try reflexivity.
  match goal with |- context [(?w <=? 0)%float] => rename w into wl end.
  destruct (wl <=? 0)%float eqn:Hpos; [reflexivity|].
  f_equal. f_equal. f_equal. unfold em_band_of, EM_BANDS.
  destruct (is_nan wl) eqn:Hnan.
  - rewrite !(float_nan_leb _ wl) by exact Hnan. reflexivity.
  - assert (H0 : (0 <=? wl)%float = true).
    { rewrite (float_leb_ltb 0 wl) by (reflexivity || exact Hnan).
      destruct (wl <? 0)%float eqn:E; [|reflexivity].
      apply float_ltb_leb in E. congruence. }
    rewrite H0.
    rewrite !(fun a H => float_leb_ltb a wl H Hnan) by reflexivity.
    destruct (wl <? 1e-11)%float; [reflexivity|].
    destruct (wl <? 1e-8)%float; [reflexivity|].
    destruct (wl <? 3.8e-7)%float; [reflexivity|].
    destruct (wl <? 7.8e-7)%float; [reflexivity|].
    destruct (wl <? 1e-3)%float; [reflexivity|].
    destruct (wl <? 1)%float; [reflexivity|].
    destruct (wl <? 1e5)%float; reflexivity.
Qed.

Lemma Json_induction (P : Json -> Prop) :
  P JNull -> (forall x, P (JNumber x)) -> (forall s, P (JString s)) ->
  (forall b, P (JBoolean b)) ->
  (forall items, Forall P items -> P (JArray items)) ->
  (forall entries, Forall (fun kv => P (snd kv)) entries -> P (JObject entries)) ->
  forall val, P val.
Proof.
  intros Hnull Hnum Hstr Hbool Harr Hobj.
  fix IH 1. intros [|x|s|b|items|entries].
  - exact Hnull.
  - apply Hnum.
  - apply Hstr.
  - apply Hbool.
  - apply Harr. induction items as [|item items IHitems]; constructor.
    + apply IH.
    + exact IHitems.
  - apply Hobj. induction entries as [|[k item] entries IHentries]; constructor.
    + apply IH.
    + exact IHentries.
Qed.

Lemma luxbinFromJson_array (items : list Json) (arrs : list ArrayObj) :
  luxbinFromJson (JArray items) arrs
  = let '(vs, arrs') := luxbinFromJson_items items arrs in
    (VArray (length arrs'), arrs' ++ [mkArrayObj vs None]).
Proof. reflexivity. Qed.

Lemma luxbinFromJson_object (entries : list (string * Json)) (arrs : list ArrayObj) :
  luxbinFromJson (JObject entries) arrs
  = let '(pairs, arrs') := luxbinFromJson_entries entries arrs in
    (VArray (length arrs'), arrs' ++ [mkArrayObj pairs None]).
Proof. reflexivity. Qed.

(** What the round trip needs of one conversion: the heap only grows, and
    the value converts back in every larger heap with enough fuel. *)
Definition converts_back (val : Json) : Prop :=
  forall arrs,
    arrs `prefix_of` snd (luxbinFromJson val arrs)
    /\ forall ext fuel,
         (length (snd (luxbinFromJson val arrs)) <= fuel)%nat ->
         luxbinToJson_fuel fuel (snd (luxbinFromJson val arrs) ++ ext)
           (fst (luxbinFromJson val arrs))
         = Some (entries_as_pairs val).

Lemma items_convert_back (items : list Json) :
  Forall converts_back items ->
  forall arrs,
    arrs `prefix_of` snd (luxbinFromJson_items items arrs)
    /\ forall ext fuel,
         (length (snd (luxbinFromJson_items items arrs)) <= fuel)%nat ->
         mapM (luxbinToJson_fuel fuel (snd (luxbinFromJson_items items arrs) ++ ext))
           (fst (luxbinFromJson_items items arrs))
         = Some (map entries_as_pairs items).
Proof.
  induction 1 as [|item items Hitem _ IH]; intros arrs.
  - split; [reflexivity|]. intros. reflexivity.
  - change (luxbinFromJson_items (item :: items) arrs)
      with (let '(v, arrs1) := luxbinFromJson item arrs in
            let '(vs, arrs2) := luxbinFromJson_items items arrs1 in (v :: vs, arrs2)).
    destruct (Hitem arrs) as [Hgrow1 Hback1].
    destruct (luxbinFromJson item arrs) as [v arrs1] eqn:E1. simpl in Hgrow1, Hback1.
    destruct (IH arrs1) as [Hgrow2 Hback2].
    destruct (luxbinFromJson_items items arrs1) as [vs arrs2] eqn:E2.
    simpl in Hgrow2, Hback2 |- *.
    split; [now transitivity arrs1|].
    intros ext fuel Hfuel. destruct Hgrow2 as [more ->].
    cbn [mapM]. rewrite Hback2 by exact Hfuel.
    rewrite <- (assoc_L (++)), Hback1 by (rewrite length_app in Hfuel; lia).
    reflexivity.
Qed.

Lemma entries_convert_back (entries : list (string * Json)) :
  Forall (fun kv => converts_back (snd kv)) entries ->
  forall arrs,
    arrs `prefix_of` snd (luxbinFromJson_entries entries arrs)
    /\ forall ext fuel,
         (length (snd (luxbinFromJson_entries entries arrs)) <= fuel)%nat ->
         mapM (luxbinToJson_fuel fuel (snd (luxbinFromJson_entries entries arrs) ++ ext))
           (fst (luxbinFromJson_entries entries arrs))
         = Some (map (fun kv => JArray [JString (fst kv); entries_as_pairs (snd kv)]) entries).
Proof.
  induction 1 as [|[k item] entries Hitem _ IH]; intros arrs.
  - split; [reflexivity|]. intros. reflexivity.
  - change (luxbinFromJson_entries ((k, item) :: entries) arrs)
      with (let '(v, arrs1) := luxbinFromJson item arrs in
            let '(pairs, arrs3) :=
              luxbinFromJson_entries entries (arrs1 ++ [mkArrayObj [VString k; v] None]) in
            (VArray (length arrs1) :: pairs, arrs3)).
    simpl in Hitem. destruct (Hitem arrs) as [Hgrow1 Hback1].
    destruct (luxbinFromJson item arrs) as [v arrs1] eqn:E1. simpl in Hgrow1, Hback1.
    destruct (IH (arrs1 ++ [mkArrayObj [VString k; v] None])) as [Hgrow2 Hback2].
    destruct (luxbinFromJson_entries entries (arrs1 ++ [mkArrayObj [VString k; v] None]))
      as [pairs arrs3] eqn:E2.
    simpl in Hgrow2, Hback2 |- *.
    split.
    { transitivity arrs1; [exact Hgrow1|].
      transitivity (arrs1 ++ [mkArrayObj [VString k; v] None]);
        [now apply prefix_app_r|exact Hgrow2]. }
    intros ext fuel Hfuel. destruct Hgrow2 as [more ->].
    rewrite !length_app in Hfuel. simpl in Hfuel.
    destruct fuel as [|fuel]; [lia|].
    rewrite Hback2 by (rewrite !length_app; simpl; lia).
    cbn [luxbinToJson_fuel].
    rewrite <- !(assoc_L (++)).
    rewrite lookup_app_r by lia. rewrite Nat.sub_diag. cbn [lookup list_lookup app]. rewrite elems_mkArrayObj.
    cbn [mapM luxbinToJson_fuel mbind option_bind mret option_ret].
    rewrite Hback1 by lia. destruct fuel; reflexivity.
Qed.

Lemma every_value_converts_back (val : Json) : converts_back val.
Proof.
  induction val as [|x|s|b|items IH|entries IH] using Json_induction; intros arrs;
    try (split; [reflexivity|]; intros ext fuel _; destruct fuel; reflexivity).
  - rewrite luxbinFromJson_array.
    destruct (items_convert_back items IH arrs) as [Hgrow Hback].
    destruct (luxbinFromJson_items items arrs) as [vs arrs'] eqn:E.
    simpl in Hgrow, Hback |- *.
    split; [transitivity arrs'; [exact Hgrow|now apply prefix_app_r]|].
    intros ext fuel Hfuel. rewrite length_app in Hfuel. simpl in Hfuel.
    destruct fuel as [|fuel]; [lia|]. cbn [luxbinToJson_fuel].
    rewrite <- (assoc_L (++)), lookup_app_r by lia. rewrite Nat.sub_diag.
    cbn [lookup list_lookup app]. rewrite elems_mkArrayObj. rewrite Hback by lia. reflexivity.
  - rewrite luxbinFromJson_object.
    destruct (entries_convert_back entries IH arrs) as [Hgrow Hback].
    destruct (luxbinFromJson_entries entries arrs) as [pairs arrs'] eqn:E.
    simpl in Hgrow, Hback |- *.
    split; [transitivity arrs'; [exact Hgrow|now apply prefix_app_r]|].
    intros ext fuel Hfuel. rewrite length_app in Hfuel. simpl in Hfuel.
    destruct fuel as [|fuel]; [lia|]. cbn [luxbinToJson_fuel].
    rewrite <- (assoc_L (++)), lookup_app_r by lia. rewrite Nat.sub_diag.
    cbn [lookup list_lookup app]. rewrite elems_mkArrayObj. rewrite Hback by lia. reflexivity.
Qed.

(** X24. JSON round trip: converting a parsed JSON value to a LuxBin value
    ([json_parse]) and back ([json_stringify]) gives the value again, with
    every object written as the array of its [[key, value]] pairs; the
    conversion only adds arrays, and the way back never fails on what it
    made. *)
Theorem json_round_trip (val : Json) (arrs : list ArrayObj) :
  arrs `prefix_of` snd (luxbinFromJson val arrs)
  /\ luxbinToJson (snd (luxbinFromJson val arrs)) (fst (luxbinFromJson val arrs))
     = Some (entries_as_pairs val).
Proof.
  destruct (every_value_converts_back val arrs) as [Hgrow Hback].
  split; [exact Hgrow|]. unfold luxbinToJson.
  specialize (Hback [] (S (length (snd (luxbinFromJson val arrs))))).
  rewrite app_nil_r in Hback. apply Hback. lia.
Qed.

(** ** [min] and [max] *)

Lemma SFleb_trans (f g h : spec_float) :
  SFleb f g = true -> SFleb g h = true -> SFleb f h = true.
Proof.
  unfold SFleb.
  destruct f as [[]|[]| |[] m1 e1], g as [[]|[]| |[] m2 e2], h as [[]|[]| |[] m3 e3];
    simpl; try congruence;
    change (PosDef.Pos.compare_cont Eq m1 m2) with (Pos.compare m1 m2);
    change (PosDef.Pos.compare_cont Eq m2 m3) with (Pos.compare m2 m3);
    change (PosDef.Pos.compare_cont Eq m1 m3) with (Pos.compare m1 m3);
    destruct (Z.compare_spec e1 e2), (Z.compare_spec e2 e3), (Z.compare_spec e1 e3);
    try lia; try congruence;
    destruct (Pos.compare_spec m1 m2), (Pos.compare_spec m2 m3), (Pos.compare_spec m1 m3);
    simpl; try lia; try congruence.
Qed.

Lemma float_leb_trans (a b c : float) :
  (a <=? b)%float = true -> (b <=? c)%float = true -> (a <=? c)%float = true.
Proof. rewrite !FloatAxioms.leb_spec. apply SFleb_trans. Qed.

Lemma float_leb_refl (a : float) : is_nan a = false -> (a <=? a)%float = true.
Proof.
  intros Ha. rewrite FloatAxioms.leb_spec. unfold SFleb. rewrite SFcompare_refl; [reflexivity|].
  intros H. apply is_nan_Prim2SF in H. congruence.
Qed.

Lemma min2_spec (a b : float) :
  is_nan a = false -> is_nan b = false ->
  (min2 a b = a \/ min2 a b = b)
  /\ (min2 a b <=? a)%float = true /\ (min2 a b <=? b)%float = true.
Proof.
  intros Ha Hb. unfold min2. rewrite Ha, Hb. cbn [orb].
  destruct (a <? b)%float eqn:Hab.
  - split; [now left|]. split; [now apply float_leb_refl|now apply float_ltb_leb].
  - destruct (b <? a)%float eqn:Hba.
    + split; [now right|]. split; [now apply float_ltb_leb|now apply float_leb_refl].
    + assert (H1 : (a <=? b)%float = true) by (rewrite float_leb_ltb, Hba by assumption; reflexivity).
      assert (H2 : (b <=? a)%float = true) by (rewrite float_leb_ltb, Hab by assumption; reflexivity).
      destruct (get_sign a).
      * split; [now left|]. split; [now apply float_leb_refl|exact H1].
      * split; [now right|]. split; [exact H2|now apply float_leb_refl].
Qed.

Lemma max2_spec (a b : float) :
  is_nan a = false -> is_nan b = false ->
  (max2 a b = a \/ max2 a b = b)
  /\ (a <=? max2 a b)%float = true /\ (b <=? max2 a b)%float = true.
Proof.
  intros Ha Hb. unfold max2. rewrite Ha, Hb. cbn [orb].
  destruct (a <? b)%float eqn:Hab.
  - split; [now right|]. split; [now apply float_ltb_leb|now apply float_leb_refl].
  - destruct (b <? a)%float eqn:Hba.
    + split; [now left|]. split; [now apply float_leb_refl|now apply float_ltb_leb].
    + assert (H1 : (a <=? b)%float = true) by (rewrite float_leb_ltb, Hba by assumption; reflexivity).
      assert (H2 : (b <=? a)%float = true) by (rewrite float_leb_ltb, Hab by assumption; reflexivity).
      destruct (get_sign a).
      * split; [now right|]. split; [exact H1|now apply float_leb_refl].
      * split; [now left|]. split; [now apply float_leb_refl|exact H2].
Qed.

Lemma min2_nan_l (a b : float) : is_nan a = true -> min2 a b = nan.
Proof. intros Ha. unfold min2. now rewrite Ha. Qed.

Lemma min2_nan_r (a b : float) : is_nan b = true -> min2 a b = nan.
Proof. intros Hb. unfold min2. rewrite Hb, orb_true_r. reflexivity. Qed.

Lemma max2_nan_l (a b : float) : is_nan a = true -> max2 a b = nan.
Proof. intros Ha. unfold max2. now rewrite Ha. Qed.

Lemma max2_nan_r (a b : float) : is_nan b = true -> max2 a b = nan.
Proof. intros Hb. unfold max2. rewrite Hb, orb_true_r. reflexivity. Qed.

Lemma min2_infinity (x : float) : min2 infinity x = if is_nan x then nan else x.
Proof.
  unfold min2. change (is_nan infinity) with false. cbn [orb].
  destruct (is_nan x) eqn:Hx; [reflexivity|].
  assert (H : (infinity <? x)%float = false).
  { rewrite FloatAxioms.ltb_spec. change (Prim2SF infinity) with (S754_infinity false).
    unfold SFltb. destruct (Prim2SF x) as [[]|[]| |[] m e]; reflexivity. }
  rewrite H. change (get_sign infinity) with false. now destruct (x <? infinity)%float.
Qed.

Lemma max2_neg_infinity (x : float) : max2 neg_infinity x = if is_nan x then nan else x.
Proof.
  unfold max2. change (is_nan neg_infinity) with false. cbn [orb].
  destruct (is_nan x) eqn:Hx; [reflexivity|].
  assert (H : (x <? neg_infinity)%float = false).
  { rewrite FloatAxioms.ltb_spec. change (Prim2SF neg_infinity) with (S754_infinity true).
    unfold SFltb. destruct (Prim2SF x) as [[]|[]| |[] m e]; reflexivity. }
  rewrite H. change (get_sign neg_infinity) with true.
  now destruct (neg_infinity <? x)%float.
Qed.

Section Extremes.

(** [pick] is [min2] with [below a b := a <= b], or [max2] with
    [below a b := b <= a]. *)
Context (pick : float -> float -> float) (below : float -> float -> bool).
Hypothesis pick_spec : forall a b,
  is_nan a = false -> is_nan b = false ->
  (pick a b = a \/ pick a b = b) /\ below (pick a b) a = true /\ below (pick a b) b = true.
Hypothesis pick_nan_l : forall a b, is_nan a = true -> pick a b = nan.
Hypothesis pick_nan_r : forall a b, is_nan b = true -> pick a b = nan.
Hypothesis below_trans : forall a b c,
  below a b = true -> below b c = true -> below a c = true.

Lemma fold_extreme (nums : list float) :
  forall acc, is_nan acc = false -> Forall (fun x => is_nan x = false) nums ->
    let m := fold_left pick nums acc in
    is_nan m = false /\ m ∈ acc :: nums /\ below m acc = true
    /\ forall x, x ∈ nums -> below m x = true.
Proof.
  induction nums as [|y nums IH]; intros acc Hacc Hnums; cbn [fold_left]; cbv zeta.
  - split; [exact Hacc|]. split; [left|]. split.
    + destruct (pick_spec acc acc Hacc Hacc) as ([E|E] & H & _); rewrite E in H; exact H.
    + intros x Hx. inversion Hx.
  - inversion Hnums as [|? ? Hy Hrest]; subst.
    destruct (pick_spec acc y Hacc Hy) as (Hpick & Hle1 & Hle2).
    assert (Hnan : is_nan (pick acc y) = false) by (destruct Hpick as [-> | ->]; assumption).
    destruct (IH (pick acc y) Hnan Hrest) as (Hm & Hin & Hlow & Hall).
    split; [exact Hm|]. split; [|split].
    + apply elem_of_cons in Hin as [Hin|Hin].
      * rewrite Hin. destruct Hpick as [-> | ->]; [left|right; left].
      * right. right. exact Hin.
    + eapply below_trans; eassumption.
    + intros x Hx. apply elem_of_cons in Hx as [->|Hx]; [|now apply Hall].
      eapply below_trans; eassumption.
Qed.

Lemma fold_nan (nums : list float) :
  forall acc, is_nan acc = true \/ Exists (fun x => is_nan x = true) nums ->
    is_nan (fold_left pick nums acc) = true.
Proof.
  induction nums as [|y nums IH]; intros acc H; cbn [fold_left].
  - destruct H as [H|H]; [exact H|inversion H].
  - apply IH. destruct H as [H|H].
    + left. now rewrite pick_nan_l.
    + inversion H as [? ? Hy|? ? Hrest]; subst; [left; now rewrite pick_nan_r|now right].
Qed.

End Extremes.

Lemma numbers_of_elem (args : list LuxValue) (x : float) :
  x ∈ numbers_of args <-> VNumber x ∈ args.
Proof.
  unfold numbers_of. rewrite list_elem_of_omap. split.
  - intros (v & Hv & Hx). destruct v; inversion Hx; subst. exact Hv.
  - intros H. exists (VNumber x). split; [exact H|reflexivity].
Qed.

(** X20. [min] and [max] pick the extreme numeric argument.  Arguments
    that are no numbers are ignored, and with no number at all the call
    fails.  Otherwise, if one of the numbers is NaN the result is NaN; if
    none is, [min] returns one of the numbers that is below or equal to
    every one of them, and [max] one that is above or equal to every one. *)
Theorem min_max_extremes (args : list LuxValue) (arrs : list ArrayObj) (out : list string) :
  (numbers_of args = [] ->
   math_min args arrs out = fails "min: expected at least one number" arrs out
   /\ math_max args arrs out = fails "max: expected at least one number" arrs out)
  /\ (numbers_of args <> [] ->
      exists lo hi,
        math_min args arrs out = returns (VNumber lo) arrs out
        /\ math_max args arrs out = returns (VNumber hi) arrs out
        /\ ((exists x, VNumber x ∈ args /\ is_nan x = true) ->
            is_nan lo = true /\ is_nan hi = true)
        /\ ((forall x, VNumber x ∈ args -> is_nan x = false) ->
            VNumber lo ∈ args /\ VNumber hi ∈ args
            /\ forall x, VNumber x ∈ args ->
                 (lo <=? x)%float = true /\ (x <=? hi)%float = true)).
Proof.
  unfold math_min, math_max. split.
  - intros ->. split; reflexivity.
  - intros Hne. destruct (numbers_of args) as [|y nums] eqn:E; [contradiction|].
    exists (Math_min (y :: nums)), (Math_max (y :: nums)).
    split; [reflexivity|]. split; [reflexivity|].
    unfold Math_min, Math_max. cbn [fold_left]. rewrite min2_infinity, max2_neg_infinity.
    split.
    + intros (x & Hx & Hnan). apply numbers_of_elem in Hx. rewrite E in Hx.
      assert (Hcase : is_nan (if is_nan y then nan else y) = true
                      \/ Exists (fun x => is_nan x = true) nums).
      { apply elem_of_cons in Hx as [->|Hx].
        - left. now rewrite Hnan.
        - right. apply Exists_exists. eauto. }
      split.
      * apply (fold_nan min2 min2_nan_l min2_nan_r); exact Hcase.
      * apply (fold_nan max2 max2_nan_l max2_nan_r); exact Hcase.
    + intros Hall.
      assert (Hy : is_nan y = false) by (apply Hall, numbers_of_elem; rewrite E; left).
      assert (Hnums : Forall (fun x => is_nan x = false) nums).
      { apply Forall_forall. intros x Hx. apply Hall, numbers_of_elem. rewrite E. now right. }
      rewrite Hy.
      destruct (fold_extreme min2 (fun a b => (a <=? b)%float) min2_spec float_leb_trans
                  nums y Hy Hnums) as (_ & Hin1 & Hlow1 & Hall1).
      destruct (fold_extreme max2 (fun a b => (b <=? a)%float) max2_spec
                  (fun a b c H1 H2 => float_leb_trans c b a H2 H1)
                  nums y Hy Hnums) as (_ & Hin2 & Hlow2 & Hall2).
      cbv beta zeta in *.
      split; [apply numbers_of_elem; now rewrite E|].
      split; [apply numbers_of_elem; now rewrite E|].
      intros x Hx. apply numbers_of_elem in Hx. rewrite E in Hx.
      apply elem_of_cons in Hx as [->|Hx]; [split; assumption|].
      split; [now apply Hall1|now apply Hall2].
Qed.

(** ** [split], [join] and [replace] *)

Lemma append_cons (c : Ascii.ascii) (a b : string) : String c a +:+ b = String c (a +:+ b).
Proof. reflexivity. Qed.

Lemma append_String (a : string) (c : Ascii.ascii) (b : string) :
  (a +:+ String c "") +:+ b = a +:+ String c b.
Proof. now rewrite append_assoc. Qed.

Lemma prefix_append (sep s : string) :
  String.prefix sep s = true -> exists rest, s = sep +:+ rest.
Proof.
  revert s. induction sep as [|c sep IH]; intros s H.
  - exists s. reflexivity.
  - destruct s as [|d s]; [discriminate H|]. cbn [String.prefix] in H.
    destruct (Ascii.ascii_dec c d) as [->|]; [|discriminate H].
    destruct (IH s H) as [rest ->]. exists rest. reflexivity.
Qed.

Lemma split_from_skip (sep pre : string) :
  forall piece s,
    split_from sep (String.length pre) piece (pre +:+ s) = split_from sep 0 piece s
    \/ s = "".
Proof.
  induction pre as [|c pre IH]; intros piece s.
  - left. reflexivity.
  - destruct (IH piece s) as [H|H]; [left|right; exact H].
    rewrite append_cons. cbn [String.length split_from]. exact H.
Qed.

Lemma split_from_skip_all (sep pre piece : string) :
  split_from sep (String.length pre) piece pre = [piece].
Proof. induction pre as [|c pre IH]; [reflexivity|]. cbn. exact IH. Qed.

Lemma split_from_nonempty (sep : string) (s : string) :
  forall skip piece, split_from sep skip piece s <> [].
Proof.
  induction s as [|c s IH]; intros skip piece; cbn [split_from]; [congruence|].
  destruct skip; [|apply IH]. destruct (String.prefix sep (String c s)); [congruence|apply IH].
Qed.

Lemma concat_cons (sep x : string) (xs : list string) :
  xs <> [] -> String.concat sep (x :: xs) = x +:+ sep +:+ String.concat sep xs.
Proof. destruct xs; [contradiction|reflexivity]. Qed.

Lemma length_append_string (a b : string) :
  String.length (a +:+ b) = (String.length a + String.length b)%nat.
Proof.
  induction a as [|d a IH]; [reflexivity|].
  rewrite append_cons. cbn [String.length]. now rewrite IH.
Qed.

(** Joining the pieces with the separator gives the string back. *)
Lemma split_from_join (c0 : Ascii.ascii) (sep' : string) (n : nat) :
  forall s piece, (String.length s <= n)%nat ->
    String.concat (String c0 sep') (split_from (String c0 sep') 0 piece s) = piece +:+ s.
Proof.
  set (sep := String c0 sep').
  induction n as [|n IH]; intros s piece Hlen.
  - destruct s; [cbn; now rewrite append_empty_r|cbn in Hlen; lia].
  - destruct s as [|c s]; [cbn; now rewrite append_empty_r|].
    cbn [split_from]. destruct (String.prefix sep (String c s)) eqn:Hpre.
    + destruct (prefix_append _ _ Hpre) as [rest Hrest].
      unfold sep in Hrest. rewrite append_cons in Hrest. injection Hrest as Hc Hs.
      subst c s. clear Hpre.
      replace (String.length sep - 1)%nat with (String.length sep')
        by (unfold sep; cbn [String.length]; lia).
      assert (Hshort : (String.length rest <= n)%nat).
      { cbn [String.length] in Hlen. rewrite length_append_string in Hlen. lia. }
      destruct (split_from_skip sep sep' "" rest) as [Hskip|Hempty].
      * rewrite Hskip, concat_cons by apply split_from_nonempty.
        rewrite (IH rest "" Hshort). reflexivity.
      * subst rest. rewrite append_empty_r, split_from_skip_all.
        cbn [String.concat]. now rewrite append_empty_r.
    + rewrite (IH s (piece +:+ String c "")) by (cbn [String.length] in Hlen; lia).
      apply append_String.
Qed.

Lemma String_chars_join (s : string) : String.concat "" (String_chars s) = s.
Proof.
  induction s as [|c s IH]; [reflexivity|]. cbn [String_chars].
  destruct (String_chars s) as [|x xs] eqn:E.
  - destruct s; [reflexivity|discriminate E].
  - rewrite concat_cons by discriminate. rewrite IH. reflexivity.
Qed.

Lemma String_split_join (sep s : string) : String.concat sep (String_split sep s) = s.
Proof.
  destruct sep as [|c0 sep']; [apply String_chars_join|].
  apply (split_from_join c0 sep' (String.length s) s ""). lia.
Qed.

Lemma split_from_absent (sep : string) (s : string) :
  forall piece, String_includes sep s = false -> split_from sep 0 piece s = [piece +:+ s].
Proof.
  induction s as [|c s IH]; intros piece H.
  - cbn. now rewrite append_empty_r.
  - cbn [String_includes] in H. apply orb_false_iff in H as [Hpre Hrest].
    cbn [split_from]. rewrite Hpre, IH by exact Hrest. now rewrite append_String.
Qed.

Lemma join_strings (host : Host) (sep : string) (arrs : list ArrayObj)
    (pieces : list string) :
  join_array host sep arrs (mkArrayObj (map VString pieces) None)
  = Some (String.concat sep pieces).
Proof.
  unfold join_array, map_slots, mkArrayObj. cbn [slots].
  assert (H : forall fuel,
            mapM (fun slot => match slot with
                              | Some v => local_stringify_fuel host (S fuel) arrs v
                              | None => Some EmptyString
                              end) (map Some (map VString pieces)) = Some pieces).
  { intros fuel. induction pieces as [|x pieces IH]; [reflexivity|].
    cbn [map mapM]. rewrite IH. reflexivity. }
  rewrite H. reflexivity.
Qed.

(** X21. [split] and [join] are a round trip, and [replace] is built from
    them.  [split(s, sep)] returns a new array of strings and changes no
    other array; [join] of that array with the same separator is [s], for
    every string and every separator, the empty one included.  So
    [replace(s, old, old)] is [s], and so is [replace(s, old, new)] when
    [contains(s, old)] is false. *)
Theorem split_join_round_trip (host : Host) (s sep : string) (arrs : list ArrayObj)
    (out : list string) :
  (exists pieces,
     string_split [VString s; VString sep] arrs out
     = (Ok (VArray (length arrs)), (arrs ++ [mkArrayObj (map VString pieces) None], out))
     /\ string_join host [VArray (length arrs); VString sep]
          (arrs ++ [mkArrayObj (map VString pieces) None]) out
        = returns (VString s) (arrs ++ [mkArrayObj (map VString pieces) None]) out)
  /\ string_replace [VString s; VString sep; VString sep] arrs out
     = returns (VString s) arrs out
  /\ forall new,
       string_contains [VString s; VString sep] arrs out = returns (VBoolean false) arrs out ->
       string_replace [VString s; VString sep; VString new] arrs out
       = returns (VString s) arrs out.
Proof.
  split; [|split].
  - exists (String_split sep s). split; [reflexivity|].
    unfold string_join, arg. simpl.
    rewrite lookup_app_r by lia. rewrite Nat.sub_diag. simpl.
    rewrite join_strings. now rewrite String_split_join.
  - unfold string_replace, arg. simpl. now rewrite String_split_join.
  - intros new Hcontains. unfold string_contains, string_replace, arg, returns in *.
    simpl in *. inversion Hcontains as [Hinc].
    destruct sep as [|c0 sep'].
    + destruct s; discriminate Hinc.
    + unfold String_split. rewrite split_from_absent by exact Hinc. reflexivity.
Qed.

(** The tests of the repository: [replace("hello world", "world", "LLL")]
    and [join(split("a,b,c", ","), " - ")]. *)
Example stdlib_test_replace :
  string_replace [VString "hello world"; VString "world"; VString "LLL"] [] []
  = returns (VString "hello LLL") [] [].
Proof. reflexivity. Qed.

Example stdlib_test_split_join :
  String.concat " - " (String_split "," "a,b,c") = "a - b - c".
Proof. reflexivity. Qed.

(** ** The REPL *)

Lemma opener_is_no_end (word : string) : String.eqb word "end" = true -> is_opener word = false.
Proof. intros H. apply String.eqb_eq in H. subst. reflexivity. Qed.

Lemma track_depth_counts (words : list string) :
  forall depth,
    (depth + count_openers words <= track_depth words depth + count_ends words)%nat.
Proof.
  unfold track_depth, count_openers, count_ends.
  induction words as [|word words IH]; intros depth; cbn [fold_left List.filter length].
  - lia.
  - specialize (IH (track_word depth word)). unfold track_word in *.
    destruct (String.eqb word "end") eqn:Eend.
    + rewrite (opener_is_no_end word Eend) in *. cbn [length] in *. lia.
    + destruct (is_opener word); cbn [length] in *; lia.
Qed.

(** X25. The REPL counts words.  A line with more block-opening words
    ([func], [if], [while], [for], [try]) than the open depth can lose to
    its [end]s is not run: it is added to the buffer and the REPL prompts
    for more, at a depth that is at least the depth before plus the openers
    minus the [end]s.  The [if] of an [else if] counts as an opener, and the
    parser closes the whole chain with one [end]. *)
Theorem repl_waits_for_end (trim : string -> string) (words : string -> list string)
    (line buffer : string) (depth : nat) :
  (count_ends (words (trim line)) < depth + count_openers (words (trim line)))%nat ->
  (depth = O -> is_command (trim line) = false) ->
  exists depth',
    handleLine trim words line buffer depth
    = (ReplWait, (buffer +:+ (if String.eqb buffer "" then "" else LF) +:+ line, depth'))
    /\ (0 < depth')%nat
    /\ (depth + count_openers (words (trim line))
        <= depth' + count_ends (words (trim line)))%nat.
Proof.
  intros Hcount Hcommand.
  pose proof (track_depth_counts (words (trim line)) depth) as Hbound.
  exists (track_depth (words (trim line)) depth).
  assert (Hpos : (0 < track_depth (words (trim line)) depth)%nat) by lia.
  split; [|split; [exact Hpos|exact Hbound]].
  unfold handleLine.
  assert (Hnone : (if Nat.eqb depth 0
                   then if String.eqb (trim line) ".exit" || String.eqb (trim line) ".quit"
                        then Some ReplExit
                        else if String.eqb (trim line) ".help" then Some ReplHelp
                        else if String.eqb (trim line) ".clear" then Some ReplClear
                        else None
                   else None) = None).
  { destruct (Nat.eqb_spec depth 0) as [Hd|Hd]; [|reflexivity].
    specialize (Hcommand Hd). unfold is_command in Hcommand.
    destruct (String.eqb (trim line) ".exit"), (String.eqb (trim line) ".quit"),
      (String.eqb (trim line) ".help"), (String.eqb (trim line) ".clear");
      try discriminate Hcommand; reflexivity. }
  rewrite Hnone. apply Nat.ltb_lt in Hpos. now rewrite Hpos.
Qed.

Lemma repl_waits_for_end_witness :
  exists depth',
    handleLine id (split_spaces "") "else if b then" "if a then" 1
    = (ReplWait, ("if a then" +:+ LF +:+ "else if b then", depth'))
    /\ (0 < depth')%nat
    /\ (1 + count_openers (split_spaces "" "else if b then")
        <= depth' + count_ends (split_spaces "" "else if b then"))%nat.
Proof.
  apply (repl_waits_for_end id (split_spaces "") "else if b then" "if a then" 1).
  - vm_compute. lia.
  - discriminate.
Defined.

(** The chain [if a then / x = 1 / else if b then / x = 2 / end], which the
    parser accepts, is never run: after its [end] the REPL still waits. *)
Example repl_else_if_chain :
  handleLines id (split_spaces "") else_if_lines "" 0
  = [ReplWait; ReplWait; ReplWait; ReplWait; ReplWait].
Proof. vm_compute. reflexivity. Qed.

(** ** Instances *)

Lemma unary_binds_tightest_witness :
  parseExpression test_Number tokens_unary "<stdin>" 3 0%nat =
  (Ok (BinaryExpression "^" (UnaryExpression "-" (NumberLiteral 2 false))
         (NumberLiteral 2 false)), 4%nat).
Proof.
  apply (unary_binds_tightest test_Number tokens_unary "<stdin>" 3 0 7
           (mkToken MINUS "-" 1 1) (mkToken NUMBER "2" 1 2) (mkToken CARET "^" 1 4)
           (mkToken NUMBER "2" 1 6) (mkToken EOF "" 1 7)
           (NumberLiteral 2 false) (NumberLiteral 2 false));
    first [reflexivity | left; reflexivity | split; discriminate | lia].
Defined.

Lemma push_pop_round_trip_witness :
  exists arrs1,
    array_push [VArray 0; VNumber 3] [one_two] [] = (Ok (VArray 0), (arrs1, []))
    /\ option_map elems (arrs1 !! 0%nat) = Some [VNumber 1; VNumber 2; VNumber 3]
    /\ array_pop [VArray 0] arrs1 [] = (Ok (VNumber 3), ([one_two], []))
    /\ (elems one_two = [] ->
        array_pop [VArray 0] [one_two] [] = fails "pop: array is empty" [one_two] []).
Proof. apply (push_pop_round_trip [one_two] [] 0 one_two (VNumber 3) []). reflexivity. Defined.

Lemma reverse_copies_witness :
  exists b c arrs1 arrs2,
    array_reverse [VArray 0] [one_two] [] = (Ok (VArray b), (arrs1, []))
    /\ array_reverse [VArray b] arrs1 [] = (Ok (VArray c), (arrs2, []))
    /\ b <> 0%nat /\ c <> 0%nat /\ c <> b
    /\ [one_two] `prefix_of` arrs1 /\ arrs1 `prefix_of` arrs2
    /\ option_map elems (arrs2 !! b) = Some [VNumber 2; VNumber 1]
    /\ option_map elems (arrs2 !! c) = Some [VNumber 1; VNumber 2].
Proof. apply (reverse_copies [one_two] [] 0 one_two []). reflexivity. Defined.

Lemma indexOf_first_match_witness :
  array_indexOf [VArray 0; VNumber nan] [mkArrayObj [VNumber nan] None] []
  = returns (VNumber (-1)) [mkArrayObj [VNumber nan] None] [].
Proof.
  apply (proj2 (indexOf_first_match [mkArrayObj [VNumber nan] None] [] 0
                  (mkArrayObj [VNumber nan] None) (VNumber nan) [] eq_refl) nan);
    reflexivity.
Defined.

Lemma stringify_of_builtins_witness :
  local_stringify (test_host []) [one_two] (VArray 0)
  = stringify (test_host []) [one_two] (VArray 0).
Proof. apply (proj1 (stringify_of_builtins (test_host []) [one_two])). reflexivity. Defined.

Lemma photon_round_trip_witness :
  exists w,
    quantum_photon_wavelength [VString "A"] [] [] = returns (VNumber w) [] []
    /\ quantum_photon_char [VNumber w] [] [] = returns (VString "A") [] [].
Proof. apply (photon_round_trip (Ascii.ascii_of_nat 65) "" [] []). vm_compute. lia. Defined.

Lemma set_writes_nearest_binding_witness :
  exists holder old,
    Environment_lookup two_scopes 1 "x" = Some (holder, old)
    /\ constant old = false
    /\ length [mkEnvironment [("x", mkEntry (VNumber 2) false)] None;
               mkEnvironment [] (Some O)] = length two_scopes
    /\ Environment_get [mkEnvironment [("x", mkEntry (VNumber 2) false)] None;
                        mkEnvironment [] (Some O)] 1 "x" = Ok (VNumber 2)
    /\ forall e n,
         Environment_lookup [mkEnvironment [("x", mkEntry (VNumber 2) false)] None;
                             mkEnvironment [] (Some O)] e n
         = match Environment_lookup two_scopes e n with
           | Some (h, en) =>
               Some (h, if Nat.eqb h holder && String.eqb n "x"
                        then mkEntry (VNumber 2) false else en)
           | None => None
           end.
Proof. apply (set_writes_nearest_binding two_scopes _ 1 "x" (VNumber 2)). reflexivity. Defined.

Lemma wf_envs_global (vs : list (string * Entry)) : wf_envs [mkEnvironment vs None].
Proof.
  intros i fr p Hi Hp. destruct i as [|i]; [|discriminate Hi].
  inversion Hi; subst. discriminate Hp.
Qed.

Lemma declaration_in_fresh_scope_witness :
  Environment_get
    (Environment_define (snd (new_Environment (Some O) [global_x]))
       (fst (new_Environment (Some O) [global_x])) "x" (VString "inner") false) 1 "x"
  = Ok (VString "inner")
  /\ Environment_lookup
       (Environment_define (snd (new_Environment (Some O) [global_x]))
          (fst (new_Environment (Some O) [global_x])) "x" (VString "inner") false) 0 "x"
     = Environment_lookup [global_x] 0 "x".
Proof.
  pose proof (declaration_in_fresh_scope [global_x] 0 "x" (VString "inner") false
                (wf_envs_global _) ltac:(simpl; lia)) as (_ & _ & Hget & _ & Hold).
  split; [exact Hget|]. apply Hold. simpl. lia.
Defined.

Lemma builtins_are_constants_witness :
  Environment_set (defineBuiltins (test_host []) 0 [mkEnvironment [] None]) 0 "println"
    (VNumber 1)
  = Throw (ThrownError "Cannot reassign constant: 'println'").
Proof.
  apply (proj1 (builtins_are_constants (test_host []) [mkEnvironment [] None] 0
                  (mkEnvironment [] None) eq_refl) "println").
  left.
Defined.

Lemma parameters_bound_by_position_witness :
  Environment_getOwnEntry
    (envs (heap (snd (bindParams 0 [("a", None); ("b", None)] [VNumber 1] call_state))))
    0 "b"
  = Some (mkEntry VNil false).
Proof.
  apply (proj1 (proj2 (parameters_bound_by_position 0 [("a", None); ("b", None)] [VNumber 1]
                         call_state (mkEnvironment [] None) eq_refl)) 1%nat "b").
  split; [exists None; reflexivity|].
  intros j ty Hj. do 2 (destruct j as [|j]; [lia|]). discriminate.
Defined.

Lemma heap_ok_empty : heap_ok empty_heap.
Proof.
  split; [|split; constructor]. intros i fr p Hi. discriminate Hi.
Qed.

Lemma interpret_keeps_heap_shape_witness :
  exists result h' l',
    interpret (test_host []) 20 test_closures no_options empty_heap empty_loader
    = Some (result, (h', l'))
    /\ res_output result = ["1"; "2"]
    /\ heap_ok h'.
Proof.
  eexists _, _, _. split; [vm_compute; reflexivity|]. split; [reflexivity|].
  eapply (interpret_keeps_heap_shape (test_host []) 20 test_closures no_options empty_heap _
            empty_loader _ _ (test_host_ok []) heap_ok_empty I).
  - intros g Hg. discriminate Hg.
  - vm_compute. reflexivity.
Defined.

Lemma loader_keeps_heap_shape_witness : heap_ok (snd (new_ModuleLoader (test_host []))).
Proof. apply (loader_keeps_heap_shape (test_host []) 0 0 (test_host_ok [])). Defined.

Lemma stdlib_invents_no_closure_witness : host_ok (with_stdlib (test_host [])).
Proof. apply (stdlib_invents_no_closure (test_host []) (test_host_ok [])). Defined.

Lemma min_max_extremes_witness :
  exists lo hi,
    math_min [VNumber 3; VString "a"; VNumber 1] [] [] = returns (VNumber lo) [] []
    /\ math_max [VNumber 3; VString "a"; VNumber 1] [] [] = returns (VNumber hi) [] []
    /\ ((exists x, VNumber x ∈ [VNumber 3; VString "a"; VNumber 1] /\ is_nan x = true) ->
        is_nan lo = true /\ is_nan hi = true)
    /\ ((forall x, VNumber x ∈ [VNumber 3; VString "a"; VNumber 1] -> is_nan x = false) ->
        VNumber lo ∈ [VNumber 3; VString "a"; VNumber 1]
        /\ VNumber hi ∈ [VNumber 3; VString "a"; VNumber 1]
        /\ forall x, VNumber x ∈ [VNumber 3; VString "a"; VNumber 1] ->
             (lo <=? x)%float = true /\ (x <=? hi)%float = true).
Proof.
  apply (proj2 (min_max_extremes [VNumber 3; VString "a"; VNumber 1] [] [])).
  discriminate.
Defined.

Lemma split_join_round_trip_witness :
  string_replace [VString "hello"; VString "x"; VString "y"] [] []
  = returns (VString "hello") [] [].
Proof.
  apply (proj2 (proj2 (split_join_round_trip (test_host []) "hello" "x" [] [])) "y").
  reflexivity.
Defined.

(** ** Holes, cycles and NaN on the model *)

(** The write lands past the end of the shortened array: position 1 is a
    hole, which prints as nothing and reads as [undefined]. *)
Example hole_after_index_assignment :
  outcome_of (run (with_stdlib (test_host [])) 20 hole_example)
  = Some (["[1, , 9]"; "3"; "undefined"], None).
Proof. vm_compute. reflexivity. Qed.

(** Printing an array that contains itself overflows the stack: [try]
    catches the error of [+], and the error of [println] ends the run. *)
Example cycle_overflows_the_stack :
  outcome_of (run (with_stdlib (test_host [])) 20 cycle_example)
  = Some (["Maximum call stack size exceeded"],
          Some ("RuntimeError: Maximum call stack size exceeded" +:+ LF
                +:+ "  at <stdin>:8:1")).
Proof. vm_compute. reflexivity. Qed.

(** NaN passes the bounds check: the read gives [undefined], the assignment
    sets a property that is no element, and the next read gives its value. *)
Example nan_index_is_a_property :
  outcome_of (run (with_stdlib (test_host [])) 20 nan_index_example)
  = Some (["undefined"; "5"; "[1]"], None).
Proof. vm_compute. reflexivity. Qed.
